(** * QR Code encoder and decoder: a shallow embedding and its properties

    The definitions of the first part follow the JavaScript of
    [example/bundle.js] (encoder: QRMath, Polynomial, RSBlock, BitBuffer,
    QRCode; decoder: GenericGF, GenericGFPoly, BitStream, the segment
    decoder, the format-information reader and the locator's dimension
    computation).  JavaScript numbers that hold integers are [Z], arrays of
    numbers are [list Z], a call that can throw returns a [result].  The
    second part states and proves the properties. *)

From Stdlib Require Import ZArith List Lia Bool Arith Permutation.
Import ListNotations.
Local Open Scope Z_scope.

(* ================================================================== *)
(** * Part I: the program                                              *)
(* ================================================================== *)

(** ** Thrown values and results *)

Inductive exn : Type :=
| IllegalLog (n : Z)              (* throw "illegal log: " + n *)
| IllegalMode                     (* throw "illegal mode: " + mode *)
| IllegalVersion (v : Z)          (* throw "illegal version: " + version *)
| IllegalMask (m : Z)             (* throw "illegal mask: " + maskPattern *)
| IllegalChar (c : Z)             (* throw "illegal char: " + ch *)
| DataOverflow (len max : Z)      (* throw "data overflow: " + len + " > " + max *)
| CantRead (numBits : Z)          (* throw "can't read " + numBits + " bits" *)
| InvalidNumeric (bound : Z)      (* throw 'invalid numeric value above ...' *)
| NoCoefficients                  (* throw 'no coefficients' *)
| InvalidModuleSize               (* throw 'invalid module size' *)
| TypeError                       (* a property of undefined is read or written *)
| Unmodelled                      (* the program goes on outside the model:
                                     an undefined value is used, an array grows *)
| OutOfFuel.                      (* the iteration bound of the model is used up *)

Inductive result (A : Type) : Type :=
| Ok (a : A)
| Throw (e : exn).
Arguments Ok {A} a.
Arguments Throw {A} e.

Definition bind {A B : Type} (r : result A) (k : A -> result B) : result B :=
  match r with
  | Ok a => k a
  | Throw e => Throw e
  end.

Notation "x <- e ;; k" := (bind e (fun x => k))
  (at level 61, e at next level, right associativity).

(** [for (x of xs) s = f(s, x)], leaving at the first throw. *)
Fixpoint foldM {S X : Type} (f : S -> X -> result S) (xs : list X) (s : S)
  : result S :=
  match xs with
  | [] => Ok s
  | x :: xs' => s' <- f s x ;; foldM f xs' s'
  end.

(** The indices [0, 1, ..., n-1] of a [for (var i = 0; i < n; i++)]. *)
Definition upto (n : nat) : list nat := seq 0 n.

(** [arr[i]] for an index that the surrounding loop keeps in range. *)
Definition getAt (arr : list Z) (i : nat) : Z := nth i arr 0.

(** [arr[i] = v] for an index inside the array. *)
Fixpoint set_at {A : Type} (arr : list A) (i : nat) (v : A) : list A :=
  match arr, i with
  | [], _ => []
  | _ :: t, O => v :: t
  | x :: t, S j => x :: set_at t j v
  end.

(** [createNumArray(length)] *)
Definition createNumArray (length : nat) : list Z := repeat 0 length.

(** ** QRMath *)

Module QRMath.

(** One turn of the loop that fills [EXP_TABLE]:
    [EXP_TABLE[i] = i < 8 ? 1 << i
       : EXP_TABLE[i-4] ^ EXP_TABLE[i-5] ^ EXP_TABLE[i-6] ^ EXP_TABLE[i-8]]. *)
Definition exp_step (tbl : list Z) (i : nat) : list Z :=
  tbl ++ [ if (i <? 8)%nat then Z.shiftl 1 (Z.of_nat i)
           else Z.lxor (Z.lxor (Z.lxor (getAt tbl (i - 4)) (getAt tbl (i - 5)))
                               (getAt tbl (i - 6)))
                       (getAt tbl (i - 8)) ].

Definition EXP_TABLE_loop : list Z := fold_left exp_step (upto 256) [].
Definition EXP_TABLE : list Z := Eval vm_compute in EXP_TABLE_loop.

(** [LOG_TABLE[i] = 0] for all i, then [LOG_TABLE[EXP_TABLE[i]] = i]
    for [i < 255]. *)
Definition LOG_TABLE_loop : list Z :=
  fold_left (fun tbl i => set_at tbl (Z.to_nat (getAt EXP_TABLE i)) (Z.of_nat i))
            (upto 255) (repeat 0 256%nat).
Definition LOG_TABLE : list Z := Eval vm_compute in LOG_TABLE_loop.

Definition glog (n : Z) : result Z :=
  if n <? 1 then Throw (IllegalLog n) else Ok (getAt LOG_TABLE (Z.to_nat n)).

(** [while (n < 0) n += 255;] *)
Fixpoint gexp_raise (fuel : nat) (n : Z) : Z :=
  match fuel with
  | O => n
  | S fuel' => if n <? 0 then gexp_raise fuel' (n + 255) else n
  end.

(** [while (n >= 256) n -= 255;] *)
Fixpoint gexp_lower (fuel : nat) (n : Z) : Z :=
  match fuel with
  | O => n
  | S fuel' => if n >=? 256 then gexp_lower fuel' (n - 255) else n
  end.

(** Each turn moves [n] by 255 towards the interval, so [|n|] turns are
    more than either loop can take. *)
Definition gexp (n : Z) : Z :=
  let n1 := gexp_raise (Z.abs_nat n) n in
  let n2 := gexp_lower (Z.abs_nat n1) n1 in
  getAt EXP_TABLE (Z.to_nat n2).

End QRMath.

(** ** Polynomial (encoder) *)

Module Polynomial.
Import QRMath.

(** The leading zeros skipped by the constructor. *)
Fixpoint skip_zeros (num : list Z) : list Z :=
  match num with
  | [] => []
  | x :: t => if x =? 0 then skip_zeros t else num
  end.

(** [new Polynomial(num, shift)] *)
Definition Polynomial (num : list Z) (shift : nat) : list Z :=
  skip_zeros num ++ repeat 0 shift.

(** [num[k] ^= v] *)
Definition xor_at (num : list Z) (k : nat) (v : Z) : list Z :=
  set_at num k (Z.lxor (getAt num k) v).

(** [Polynomial.prototype.multiply] *)
Definition multiply (this e : list Z) : result (list Z) :=
  let eLength := length e in
  let tLength := length this in
  let dLength := (tLength + eLength - 1)%nat in
  num <- foldM (fun num i =>
           foldM (fun num j =>
             a <- glog (getAt this i) ;;
             b <- glog (getAt e j) ;;
             Ok (xor_at num (i + j) (gexp (a + b))))
           (upto eLength) num)
         (upto tLength) (repeat 0 dLength) ;;
  Ok (Polynomial num 0).

(** [Polynomial.prototype.mod]; the recursion of the source is bounded by
    [fuel], one unit for each recursive call. *)
Fixpoint mod_fuel (fuel : nat) (this e : list Z) : result (list Z) :=
  let eLength := length e in
  let tLength := length this in
  if Z.of_nat tLength - Z.of_nat eLength <? 0 then Ok this
  else
    match fuel with
    | O => Throw OutOfFuel
    | S fuel' =>
        a <- glog (getAt this 0) ;;
        b <- glog (getAt e 0) ;;
        let ratio := a - b in
        num <- foldM (fun num i =>
                 c <- glog (getAt e i) ;;
                 Ok (xor_at num i (gexp (c + ratio))))
               (upto eLength) this ;;
        mod_fuel fuel' (Polynomial num 0) e
    end.

(** Every call strips at least the leading coefficient, so the recursion
    is no deeper than the length of [this]. *)
Definition mod_ (this e : list Z) : result (list Z) :=
  mod_fuel (S (length this)) this e.

End Polynomial.

(** ** ErrorCorrectLevel and RSBlock *)

Inductive ErrorCorrectLevel : Type := L | M | Q | H.

(** The numeric value of the enumeration. *)
Definition ecl_value (ecl : ErrorCorrectLevel) : Z :=
  match ecl with L => 1 | M => 0 | Q => 3 | H => 2 end.

Module RSBlock.

Record RSBlock : Type := mkRSBlock { totalCount : Z; dataCount : Z }.

Definition RS_BLOCK_TABLE : list (list Z) := [
  (* 1 *) [1; 26; 19]; [1; 26; 16]; [1; 26; 13]; [1; 26; 9];
  (* 2 *) [1; 44; 34]; [1; 44; 28]; [1; 44; 22]; [1; 44; 16];
  (* 3 *) [1; 70; 55]; [1; 70; 44]; [2; 35; 17]; [2; 35; 13];
  (* 4 *) [1; 100; 80]; [2; 50; 32]; [2; 50; 24]; [4; 25; 9];
  (* 5 *) [1; 134; 108]; [2; 67; 43]; [2; 33; 15; 2; 34; 16]; [2; 33; 11; 2; 34; 12];
  (* 6 *) [2; 86; 68]; [4; 43; 27]; [4; 43; 19]; [4; 43; 15];
  (* 7 *) [2; 98; 78]; [4; 49; 31]; [2; 32; 14; 4; 33; 15]; [4; 39; 13; 1; 40; 14];
  (* 8 *) [2; 121; 97]; [2; 60; 38; 2; 61; 39]; [4; 40; 18; 2; 41; 19]; [4; 40; 14; 2; 41; 15];
  (* 9 *) [2; 146; 116]; [3; 58; 36; 2; 59; 37]; [4; 36; 16; 4; 37; 17]; [4; 36; 12; 4; 37; 13];
  (* 10 *) [2; 86; 68; 2; 87; 69]; [4; 69; 43; 1; 70; 44]; [6; 43; 19; 2; 44; 20]; [6; 43; 15; 2; 44; 16];
  (* 11 *) [4; 101; 81]; [1; 80; 50; 4; 81; 51]; [4; 50; 22; 4; 51; 23]; [3; 36; 12; 8; 37; 13];
  (* 12 *) [2; 116; 92; 2; 117; 93]; [6; 58; 36; 2; 59; 37]; [4; 46; 20; 6; 47; 21]; [7; 42; 14; 4; 43; 15];
  (* 13 *) [4; 133; 107]; [8; 59; 37; 1; 60; 38]; [8; 44; 20; 4; 45; 21]; [12; 33; 11; 4; 34; 12];
  (* 14 *) [3; 145; 115; 1; 146; 116]; [4; 64; 40; 5; 65; 41]; [11; 36; 16; 5; 37; 17]; [11; 36; 12; 5; 37; 13];
  (* 15 *) [5; 109; 87; 1; 110; 88]; [5; 65; 41; 5; 66; 42]; [5; 54; 24; 7; 55; 25]; [11; 36; 12; 7; 37; 13];
  (* 16 *) [5; 122; 98; 1; 123; 99]; [7; 73; 45; 3; 74; 46]; [15; 43; 19; 2; 44; 20]; [3; 45; 15; 13; 46; 16];
  (* 17 *) [1; 135; 107; 5; 136; 108]; [10; 74; 46; 1; 75; 47]; [1; 50; 22; 15; 51; 23]; [2; 42; 14; 17; 43; 15];
  (* 18 *) [5; 150; 120; 1; 151; 121]; [9; 69; 43; 4; 70; 44]; [17; 50; 22; 1; 51; 23]; [2; 42; 14; 19; 43; 15];
  (* 19 *) [3; 141; 113; 4; 142; 114]; [3; 70; 44; 11; 71; 45]; [17; 47; 21; 4; 48; 22]; [9; 39; 13; 16; 40; 14];
  (* 20 *) [3; 135; 107; 5; 136; 108]; [3; 67; 41; 13; 68; 42]; [15; 54; 24; 5; 55; 25]; [15; 43; 15; 10; 44; 16];
  (* 21 *) [4; 144; 116; 4; 145; 117]; [17; 68; 42]; [17; 50; 22; 6; 51; 23]; [19; 46; 16; 6; 47; 17];
  (* 22 *) [2; 139; 111; 7; 140; 112]; [17; 74; 46]; [7; 54; 24; 16; 55; 25]; [34; 37; 13];
  (* 23 *) [4; 151; 121; 5; 152; 122]; [4; 75; 47; 14; 76; 48]; [11; 54; 24; 14; 55; 25]; [16; 45; 15; 14; 46; 16];
  (* 24 *) [6; 147; 117; 4; 148; 118]; [6; 73; 45; 14; 74; 46]; [11; 54; 24; 16; 55; 25]; [30; 46; 16; 2; 47; 17];
  (* 25 *) [8; 132; 106; 4; 133; 107]; [8; 75; 47; 13; 76; 48]; [7; 54; 24; 22; 55; 25]; [22; 45; 15; 13; 46; 16];
  (* 26 *) [10; 142; 114; 2; 143; 115]; [19; 74; 46; 4; 75; 47]; [28; 50; 22; 6; 51; 23]; [33; 46; 16; 4; 47; 17];
  (* 27 *) [8; 152; 122; 4; 153; 123]; [22; 73; 45; 3; 74; 46]; [8; 53; 23; 26; 54; 24]; [12; 45; 15; 28; 46; 16];
  (* 28 *) [3; 147; 117; 10; 148; 118]; [3; 73; 45; 23; 74; 46]; [4; 54; 24; 31; 55; 25]; [11; 45; 15; 31; 46; 16];
  (* 29 *) [7; 146; 116; 7; 147; 117]; [21; 73; 45; 7; 74; 46]; [1; 53; 23; 37; 54; 24]; [19; 45; 15; 26; 46; 16];
  (* 30 *) [5; 145; 115; 10; 146; 116]; [19; 75; 47; 10; 76; 48]; [15; 54; 24; 25; 55; 25]; [23; 45; 15; 25; 46; 16];
  (* 31 *) [13; 145; 115; 3; 146; 116]; [2; 74; 46; 29; 75; 47]; [42; 54; 24; 1; 55; 25]; [23; 45; 15; 28; 46; 16];
  (* 32 *) [17; 145; 115]; [10; 74; 46; 23; 75; 47]; [10; 54; 24; 35; 55; 25]; [19; 45; 15; 35; 46; 16];
  (* 33 *) [17; 145; 115; 1; 146; 116]; [14; 74; 46; 21; 75; 47]; [29; 54; 24; 19; 55; 25]; [11; 45; 15; 46; 46; 16];
  (* 34 *) [13; 145; 115; 6; 146; 116]; [14; 74; 46; 23; 75; 47]; [44; 54; 24; 7; 55; 25]; [59; 46; 16; 1; 47; 17];
  (* 35 *) [12; 151; 121; 7; 152; 122]; [12; 75; 47; 26; 76; 48]; [39; 54; 24; 14; 55; 25]; [22; 45; 15; 41; 46; 16];
  (* 36 *) [6; 151; 121; 14; 152; 122]; [6; 75; 47; 34; 76; 48]; [46; 54; 24; 10; 55; 25]; [2; 45; 15; 64; 46; 16];
  (* 37 *) [17; 152; 122; 4; 153; 123]; [29; 74; 46; 14; 75; 47]; [49; 54; 24; 10; 55; 25]; [24; 45; 15; 46; 46; 16];
  (* 38 *) [4; 152; 122; 18; 153; 123]; [13; 74; 46; 32; 75; 47]; [48; 54; 24; 14; 55; 25]; [42; 45; 15; 32; 46; 16];
  (* 39 *) [20; 147; 117; 4; 148; 118]; [40; 75; 47; 7; 76; 48]; [43; 54; 24; 22; 55; 25]; [10; 45; 15; 67; 46; 16];
  (* 40 *) [19; 148; 118; 6; 149; 119]; [18; 75; 47; 31; 76; 48]; [34; 54; 24; 34; 55; 25]; [20; 45; 15; 61; 46; 16]
].

(** [RSBlock.getRSBlockTable]; an index outside the table gives
    undefined, whose [length] the caller then reads. *)
Definition getRSBlockTable (version : Z) (errorCorrectLevel : ErrorCorrectLevel)
  : option (list Z) :=
  let index :=
    match errorCorrectLevel with
    | L => (version - 1) * 4 + 0
    | M => (version - 1) * 4 + 1
    | Q => (version - 1) * 4 + 2
    | H => (version - 1) * 4 + 3
    end in
  if index <? 0 then None else nth_error RS_BLOCK_TABLE (Z.to_nat index).

(** [RSBlock.getRSBlocks] *)
Definition getRSBlocks (version : Z) (errorCorrectLevel : ErrorCorrectLevel)
  : result (list RSBlock) :=
  match getRSBlockTable version errorCorrectLevel with
  | None => Throw TypeError
  | Some rsBlock =>
      let length := (List.length rsBlock / 3)%nat in
      Ok (flat_map (fun i =>
            let count := getAt rsBlock (i * 3 + 0) in
            let totalCount := getAt rsBlock (i * 3 + 1) in
            let dataCount := getAt rsBlock (i * 3 + 2) in
            repeat (mkRSBlock totalCount dataCount) (Z.to_nat count))
          (upto length))
  end.

End RSBlock.

(** ** QRUtil: the generator polynomial *)

Module QRUtil.
Import QRMath Polynomial.

(** [getErrorCorrectPolynomial] *)
Definition getErrorCorrectPolynomial (errorCorrectLength : Z) : result (list Z) :=
  foldM (fun e i => multiply e (Polynomial [1; gexp (Z.of_nat i)] 0))
        (upto (Z.to_nat errorCorrectLength)) (Polynomial [1] 0).

End QRUtil.

(** ** GenericGF and GenericGFPoly (decoder) *)

Module GenericGF.

Record GenericGF : Type := mkGenericGF {
  primitive : Z;
  size : Z;
  generatorBase : Z;
  expTable : list Z;
  logTable : list Z
}.

(** [addOrSubtractGF] *)
Definition addOrSubtractGF (a b : Z) : Z := Z.lxor a b.

(** The first loop of the constructor; the state is [(expTable, x)]. *)
Definition exp_step (primitive size : Z) (st : list Z * Z) (_ : nat) : list Z * Z :=
  let '(tbl, x) := st in
  let x2 := x * 2 in
  (tbl ++ [x], if x2 >=? size then Z.land (Z.lxor x2 primitive) (size - 1) else x2).

(** [new GenericGF(primitive, size, generatorBase)] *)
Definition new (primitive size generatorBase : Z) : GenericGF :=
  let n := Z.to_nat size in
  let expTable := fst (fold_left (exp_step primitive size) (upto n) ([], 1)) in
  let logTable :=
    fold_left (fun tbl i => set_at tbl (Z.to_nat (getAt expTable i)) (Z.of_nat i))
              (upto (n - 1)) (repeat 0 n) in
  mkGenericGF primitive size generatorBase expTable logTable.

(** [new GenericGF(0x011d, 256, 0)], as [decode] builds it. *)
Definition QR_FIELD_new : GenericGF := new 0x011d 256 0.
Definition QR_FIELD : GenericGF := Eval vm_compute in QR_FIELD_new.

(** [GenericGF.prototype.multiply] *)
Definition multiply (field : GenericGF) (a b : Z) : Z :=
  if (a =? 0) || (b =? 0) then 0
  else getAt (expTable field)
             (Z.to_nat (Z.rem (getAt (logTable field) (Z.to_nat a)
                               + getAt (logTable field) (Z.to_nat b))
                              (size field - 1))).

(** [GenericGF.prototype.exp] *)
Definition exp (field : GenericGF) (a : Z) : Z :=
  getAt (expTable field) (Z.to_nat a).

End GenericGF.

Module GenericGFPoly.
Import GenericGF.

(** [new GenericGFPoly(field, coefficients)] keeps the coefficients of
    the polynomial without its leading zeros. *)
Definition new (field : GenericGF) (coefficients : list Z) : result (list Z) :=
  match coefficients with
  | [] => Throw NoCoefficients
  | c0 :: rest =>
      if (1 <? length coefficients)%nat && (c0 =? 0) then
        match Polynomial.skip_zeros rest with
        | [] => Ok [0]              (* field.zero.coefficients *)
        | nonzero => Ok nonzero
        end
      else Ok coefficients
  end.

(** [GenericGFPoly.prototype.getCoefficient] *)
Definition getCoefficient (coefficients : list Z) (degree : nat) : Z :=
  getAt coefficients (length coefficients - 1 - degree).

(** [GenericGFPoly.prototype.evaluateAt] *)
Definition evaluateAt (field : GenericGF) (coefficients : list Z) (a : Z) : Z :=
  if a =? 0 then getCoefficient coefficients 0
  else if a =? 1 then
    fold_left (fun result coefficient => addOrSubtractGF result coefficient)
              coefficients 0
  else
    fold_left (fun result coefficient =>
                 addOrSubtractGF (multiply field a result) coefficient)
              (tl coefficients) (getAt coefficients 0).

End GenericGFPoly.

(** ** The Reed-Solomon decoder's syndromes *)

Module ReedSolomon.
Import GenericGF.

(** What a [Uint8ClampedArray] stores for an integer. *)
Definition clamp8 (z : Z) : Z := Z.max 0 (Z.min 255 z).

(** The first loop of [decode(bytes, twoS)]: the values
    [poly.evaluateAt(field.exp(s + field.generatorBase))] for
    [s = 0 .. twoS-1]. *)
Definition syndromes (bytes : list Z) (twoS : nat) : result (list Z) :=
  let outputBytes := map clamp8 bytes in
  let field := QR_FIELD in
  poly <- GenericGFPoly.new field outputBytes ;;
  Ok (map (fun s => GenericGFPoly.evaluateAt field poly
                      (exp field (Z.of_nat s + generatorBase field)))
          (upto twoS)).

End ReedSolomon.

(** ** BitBuffer *)

Module BitBuffer.

Record BitBuffer : Type := mkBitBuffer { length : nat; buffer : list Z }.

(** [new BitBuffer()] *)
Definition new : BitBuffer := mkBitBuffer 0 [].

Definition getBuffer (b : BitBuffer) : list Z := buffer b.
Definition getLengthInBits (b : BitBuffer) : Z := Z.of_nat (length b).

(** [x >>> k] on a number: the operand as an unsigned 32-bit integer,
    the shift count modulo 32. *)
Definition ushr (x k : Z) : Z := Z.shiftr (x mod 2 ^ 32) (k mod 32).

(** [BitBuffer.prototype.getBit] *)
Definition getBit (b : BitBuffer) (index : nat) : bool :=
  Z.land (ushr (getAt (buffer b) (index / 8))
               (7 - Z.of_nat (index mod 8))) 1 =? 1.

(** [BitBuffer.prototype.putBit] *)
Definition putBit (b : BitBuffer) (bit : bool) : BitBuffer :=
  let buf := if (length b =? List.length (buffer b) * 8)%nat
             then buffer b ++ [0] else buffer b in
  let buf' := if bit
              then set_at buf (length b / 8)
                     (Z.lor (getAt buf (length b / 8))
                            (ushr 0x80 (Z.of_nat (length b mod 8))))
              else buf in
  mkBitBuffer (S (length b)) buf'.

(** [BitBuffer.prototype.put] *)
Definition put (b : BitBuffer) (num : Z) (len : nat) : BitBuffer :=
  fold_left (fun b i =>
               putBit b (Z.land (ushr num (Z.of_nat len - Z.of_nat i - 1)) 1 =? 1))
            (upto len) b.

End BitBuffer.

(** ** QRData and its subclasses *)

Inductive Mode : Type := Numeric | Alphanumeric | Byte | Kanji.

Definition mode_value (m : Mode) : Z :=
  match m with Numeric => 1 | Alphanumeric => 2 | Byte => 4 | Kanji => 8 end.

(** A segment: its mode and its string, a list of UTF-16 code units.
    [QRNumeric], [QRAlphanumeric], [QRByte] and [QRKanji] are the four
    modes. *)
Record QRData : Type := mkQRData { getMode : Mode; getData : list Z }.

Definition QRByte (data : list Z) : QRData := mkQRData Byte data.
Definition QRNumeric (data : list Z) : QRData := mkQRData Numeric data.
Definition QRAlphanumeric (data : list Z) : QRData := mkQRData Alphanumeric data.
Definition QRKanji (data : list Z) : QRData := mkQRData Kanji data.

(** [QRData.prototype.getLengthInBits] *)
Definition getLengthInBits (mode : Mode) (version : Z) : result nat :=
  if (1 <=? version) && (version <? 10) then
    Ok match mode with
       | Numeric => 10 | Alphanumeric => 9 | Byte => 8 | Kanji => 8
       end%nat
  else if version <? 27 then
    Ok match mode with
       | Numeric => 12 | Alphanumeric => 11 | Byte => 16 | Kanji => 10
       end%nat
  else if version <? 41 then
    Ok match mode with
       | Numeric => 14 | Alphanumeric => 13 | Byte => 16 | Kanji => 12
       end%nat
  else Throw (IllegalVersion version).

(** [UTF8(str)] *)
Fixpoint UTF8 (str : list Z) : list Z :=
  match str with
  | [] => []
  | code :: rest =>
      if code <? 128 then code :: UTF8 rest
      else if code <? 2048 then
        Z.lor (Z.shiftr code 6) 192 :: Z.lor (Z.land code 63) 128 :: UTF8 rest
      else
        let three :=
          Z.lor (Z.shiftr code 12) 224
          :: Z.lor (Z.land (Z.shiftr code 6) 63) 128
          :: Z.lor (Z.land code 63) 128 :: UTF8 rest in
        match rest with
        | next :: rest' =>
            if (Z.land code 0xfc00 =? 0xd800) && (Z.land next 0xfc00 =? 0xdc00) then
              (* surrogate pair *)
              let code := 0x10000 + Z.shiftl (Z.land code 0x03ff) 10
                          + Z.land next 0x03ff in
              Z.lor (Z.shiftr code 18) 240
              :: Z.lor (Z.land (Z.shiftr code 12) 63) 128
              :: Z.lor (Z.land (Z.shiftr code 6) 63) 128
              :: Z.lor (Z.land code 63) 128 :: UTF8 rest'
            else three
        | [] => three
        end
  end.

Module QRNumeric.
Import BitBuffer.

(** [QRNumeric.charToNum] *)
Definition charToNum (ch : Z) : result Z :=
  if (48 <=? ch) && (ch <=? 57) then Ok (ch - 0x30) else Throw (IllegalChar ch).

(** [QRNumeric.strToNum] *)
Definition strToNum (str : list Z) : result Z :=
  foldM (fun num ch => d <- charToNum ch ;; Ok (num * 10 + d)) str 0.

(** [QRNumeric.prototype.write]: groups of three digits, then the one or
    two that remain. *)
Fixpoint write (data : list Z) (b : BitBuffer) : result BitBuffer :=
  match data with
  | c0 :: c1 :: c2 :: rest =>
      n <- strToNum [c0; c1; c2] ;; write rest (put b n 10)
  | [c0; c1] => n <- strToNum [c0; c1] ;; Ok (put b n 7)
  | [c0] => n <- strToNum [c0] ;; Ok (put b n 4)
  | [] => Ok b
  end.

Definition getLength (data : list Z) : Z := Z.of_nat (List.length data).
End QRNumeric.

Module QRAlphanumeric.
Import BitBuffer.

(** [QRAlphanumeric.getCode] *)
Definition getCode (ch : Z) : result Z :=
  if (48 <=? ch) && (ch <=? 57) then Ok (ch - 0x30)
  else if (65 <=? ch) && (ch <=? 90) then Ok (ch - 0x41 + 10)
  else if ch =? 32 then Ok 36      (* ' ' *)
  else if ch =? 36 then Ok 37      (* '$' *)
  else if ch =? 37 then Ok 38      (* '%' *)
  else if ch =? 42 then Ok 39      (* '*' *)
  else if ch =? 43 then Ok 40      (* '+' *)
  else if ch =? 45 then Ok 41      (* '-' *)
  else if ch =? 46 then Ok 42      (* '.' *)
  else if ch =? 47 then Ok 43      (* '/' *)
  else if ch =? 58 then Ok 44      (* ':' *)
  else Throw (IllegalChar ch).

(** [QRAlphanumeric.prototype.write]: pairs, then the character that
    remains. *)
Fixpoint write (data : list Z) (b : BitBuffer) : result BitBuffer :=
  match data with
  | c0 :: c1 :: rest =>
      a <- getCode c0 ;; c <- getCode c1 ;; write rest (put b (a * 45 + c) 11)
  | [c0] => a <- getCode c0 ;; Ok (put b a 6)
  | [] => Ok b
  end.

Definition getLength (data : list Z) : Z := Z.of_nat (List.length data).
End QRAlphanumeric.

Module QRByte.
Import BitBuffer.

(** [QRByte.prototype.write] *)
Definition write (data : list Z) (b : BitBuffer) : BitBuffer :=
  fold_left (fun b byte => put b byte 8) (UTF8 data) b.

Definition getLength (data : list Z) : Z := Z.of_nat (List.length (UTF8 data)).
End QRByte.

Section Kanji.

(** The table that [SJIS] looks characters up in, from the code unit of
    a character to its Shift-JIS code (the source builds it from the
    Base64 text [UNICODE_DATA]); [None] where it has no entry. *)
Variable SJIS2UTFTable : Z -> option Z.

(** [SJIS(str)] *)
Fixpoint SJIS (str : list Z) : result (list Z) :=
  match str with
  | [] => Ok []
  | code :: rest =>
      if code <? 128 then bytes <- SJIS rest ;; Ok (code :: bytes)
      else
        match SJIS2UTFTable code with
        | Some byte =>
            bytes <- SJIS rest ;;
            if Z.land byte 0xff =? byte then Ok (byte :: bytes)
            else Ok (BitBuffer.ushr byte 8 :: Z.land byte 0xff :: bytes)
        | None => Throw (IllegalChar code)
        end
  end.

(** The body of the loop of [QRKanji.prototype.write]: the two bytes of
    a character to the 13-bit value that is written. *)
Definition kanjiValue (b0 b1 : Z) : result Z :=
  let code := Z.lor (Z.shiftl (Z.land 0xff b0) 8) (Z.land 0xff b1) in
  code' <- (if (0x8140 <=? code) && (code <=? 0x9ffc) then Ok (code - 0x8140)
            else if (0xe040 <=? code) && (code <=? 0xebbf) then Ok (code - 0xc140)
            else Throw (IllegalChar b0)) ;;
  Ok (Z.land (BitBuffer.ushr code' 8) 0xff * 0xc0 + Z.land code' 0xff).

(** The loops of [QRKanji.prototype.write] over the bytes of [SJIS]. *)
Fixpoint writeKanjiBytes (data : list Z) (b : BitBuffer.BitBuffer)
  : result BitBuffer.BitBuffer :=
  match data with
  | b0 :: b1 :: rest =>
      code <- kanjiValue b0 b1 ;; writeKanjiBytes rest (BitBuffer.put b code 13)
  | [b0] => Throw (IllegalChar b0)
  | [] => Ok b
  end.

(** [QRKanji.prototype.write] *)
Definition writeKanji (data : list Z) (b : BitBuffer.BitBuffer)
  : result BitBuffer.BitBuffer :=
  bytes <- SJIS data ;; writeKanjiBytes bytes b.

(** [QRKanji.prototype.getLength]: half the number of bytes; [put] takes
    the integer part of it. *)
Definition getLengthKanji (data : list Z) : result Z :=
  bytes <- SJIS data ;; Ok (Z.of_nat (List.length bytes) / 2).

(** [data.getLength()] *)
Definition getLength (d : QRData) : result Z :=
  match getMode d with
  | Numeric => Ok (QRNumeric.getLength (getData d))
  | Alphanumeric => Ok (QRAlphanumeric.getLength (getData d))
  | Byte => Ok (QRByte.getLength (getData d))
  | Kanji => getLengthKanji (getData d)
  end.

(** [data.write(buffer)] *)
Definition write (d : QRData) (b : BitBuffer.BitBuffer) : result BitBuffer.BitBuffer :=
  match getMode d with
  | Numeric => QRNumeric.write (getData d) b
  | Alphanumeric => QRAlphanumeric.write (getData d) b
  | Byte => Ok (QRByte.write (getData d) b)
  | Kanji => writeKanji (getData d) b
  end.

(** ** QRCode: the data stage *)

(** The three values that [prepareData] returns. *)
Record Prepared : Type := mkPrepared {
  p_buffer : BitBuffer.BitBuffer;
  p_rsBlocks : list RSBlock.RSBlock;
  p_maxDataCount : Z
}.

(** [QRCode.prepareData] *)
Definition prepareData (version : Z) (errorCorrectLevel : ErrorCorrectLevel)
           (dataList : list QRData) : result Prepared :=
  rsBlocks <- RSBlock.getRSBlocks version errorCorrectLevel ;;
  buffer <- foldM (fun buffer data =>
              let buffer := BitBuffer.put buffer (mode_value (getMode data)) 4 in
              len <- getLength data ;;
              bits <- getLengthInBits (getMode data) version ;;
              write data (BitBuffer.put buffer len bits))
            dataList BitBuffer.new ;;
  let maxDataCount :=
    fold_left (fun acc blk => acc + RSBlock.dataCount blk) rsBlocks 0 in
  Ok (mkPrepared buffer rsBlocks (maxDataCount * 8)).

End Kanji.

Module QRCodeData.
Import BitBuffer RSBlock.

Definition PAD0 : Z := 0xec.
Definition PAD1 : Z := 0x11.

(** The error-correction codewords of one block, as the loop of
    [createBytes] computes them from its data codewords. *)
Definition ecOfBlock (dc : list Z) (ecCount : Z) : result (list Z) :=
  rsPoly <- QRUtil.getErrorCorrectPolynomial ecCount ;;
  let rawPoly := Polynomial.Polynomial dc (List.length rsPoly - 1) in
  modPoly <- Polynomial.mod_ rawPoly rsPoly ;;
  let ecLength := (List.length rsPoly - 1)%nat in
  Ok (map (fun i =>
             let modIndex := Z.of_nat i + Z.of_nat (List.length modPoly)
                             - Z.of_nat ecLength in
             if modIndex >=? 0 then getAt modPoly (Z.to_nat modIndex) else 0)
          (upto ecLength)).

(** The state of the first loop of [createBytes]. *)
Record Blocks : Type := mkBlocks {
  offset : nat;
  maxDcCount : Z;
  maxEcCount : Z;
  maxTotalCount : Z;
  dcData : list (list Z);
  ecData : list (list Z)
}.

(** One turn of that loop, for the block [rsBlocks[r]]. *)
Definition blockStep (buffer : list Z) (st : Blocks) (blk : RSBlock.RSBlock)
  : result Blocks :=
  let dcCount := dataCount blk in
  let ecCount := totalCount blk - dcCount in
  let dc := map (fun i => Z.land 0xff (getAt buffer (i + offset st)))
                (upto (Z.to_nat dcCount)) in
  ec <- ecOfBlock dc ecCount ;;
  Ok (mkBlocks (offset st + Z.to_nat dcCount)
               (Z.max (maxDcCount st) dcCount)
               (Z.max (maxEcCount st) ecCount)
               (maxTotalCount st + totalCount blk)
               (dcData st ++ [dc]) (ecData st ++ [ec])).

Definition encodeBlocks (buffer : list Z) (rsBlocks : list RSBlock.RSBlock)
  : result Blocks :=
  foldM (blockStep buffer) rsBlocks (mkBlocks 0 0 0 0 [] []).

(** [for (i < maxCount) for (r < rLength) if (i < rows[r].length)
    data[index++] = rows[r][i]]: the values in the order they are
    stored. *)
Definition interleave (rows : list (list Z)) (maxCount : Z) : list Z :=
  flat_map (fun i =>
              flat_map (fun row =>
                          if (i <? List.length row)%nat then [getAt row i] else [])
                       rows)
           (upto (Z.to_nat maxCount)).

(** [QRCode.createBytes]; [data] starts as [maxTotalCount] zeros and the
    stores go to the indices 0, 1, 2, ... *)
Definition createBytes (buffer : BitBuffer) (rsBlocks : list RSBlock.RSBlock)
  : result (list Z) :=
  st <- encodeBlocks (getBuffer buffer) rsBlocks ;;
  let stored := interleave (dcData st) (maxDcCount st)
                ++ interleave (ecData st) (maxEcCount st) in
  Ok (stored ++ repeat 0 (Z.to_nat (maxTotalCount st) - List.length stored)).

(** [while (buffer.getLengthInBits() % 8 !== 0) buffer.putBit(false);] *)
Fixpoint alignLoop (fuel : nat) (b : BitBuffer) : result BitBuffer :=
  if (length b mod 8 =? 0)%nat then Ok b
  else match fuel with
       | O => Throw OutOfFuel
       | S fuel' => alignLoop fuel' (putBit b false)
       end.

(** The [while (true)] loop that appends [PAD0] and [PAD1]. *)
Fixpoint padLoop (fuel : nat) (b : BitBuffer) (maxDataCount : Z) : result BitBuffer :=
  if getLengthInBits b >=? maxDataCount then Ok b
  else match fuel with
       | O => Throw OutOfFuel
       | S fuel' =>
           let b := put b PAD0 8 in
           if getLengthInBits b >=? maxDataCount then Ok b
           else padLoop fuel' (put b PAD1 8) maxDataCount
       end.

(** The part of [QRCode.createData] that completes the buffer.  The
    first loop takes fewer than 8 turns; a turn of the second adds 16
    bits, or leaves. *)
Definition padBuffer (buffer : BitBuffer) (maxDataCount : Z) : result BitBuffer :=
  if getLengthInBits buffer >? maxDataCount
  then Throw (DataOverflow (getLengthInBits buffer) maxDataCount)
  else
    let buffer := if getLengthInBits buffer + 4 <=? maxDataCount
                  then put buffer 0 4 else buffer in
    buffer <- alignLoop 8 buffer ;;
    padLoop (S (Z.to_nat maxDataCount)) buffer maxDataCount.

(** [QRCode.createData] *)
Definition createData (buffer : BitBuffer) (rsBlocks : list RSBlock.RSBlock)
           (maxDataCount : Z) : result (list Z) :=
  buffer <- padBuffer buffer maxDataCount ;;
  createBytes buffer rsBlocks.

End QRCodeData.

(** ** QRUtil: masks, BCH codes, alignment table *)

(** The integers [lo, lo+1, ..., lo+count-1] of a counting loop. *)
Definition zrange (lo : Z) (count : nat) : list Z :=
  map (fun i => lo + Z.of_nat i) (seq 0 count).

(** The 32-bit signed integer that the bit operators of JavaScript give. *)
Definition int32 (z : Z) : Z := (z + 2 ^ 31) mod 2 ^ 32 - 2 ^ 31.

Module MaskPattern.

(** [getMaskFunc(maskPattern)]; [x] and [y] are not negative where the
    functions are called, so [%] is the remainder of [Z.rem]. *)
Definition getMaskFunc (maskPattern : Z) : result (Z -> Z -> bool) :=
  match maskPattern with
  | 0 => Ok (fun x y => Z.rem (x + y) 2 =? 0)
  | 1 => Ok (fun x y => Z.rem x 2 =? 0)
  | 2 => Ok (fun x y => Z.rem y 3 =? 0)
  | 3 => Ok (fun x y => Z.rem (x + y) 3 =? 0)
  | 4 => Ok (fun x y => Z.rem (Z.quot x 2 + Z.quot y 3) 2 =? 0)
  | 5 => Ok (fun x y => Z.rem (x * y) 2 + Z.rem (x * y) 3 =? 0)
  | 6 => Ok (fun x y => Z.rem (Z.rem (x * y) 2 + Z.rem (x * y) 3) 2 =? 0)
  | 7 => Ok (fun x y => Z.rem (Z.rem (x * y) 3 + Z.rem (x + y) 2) 2 =? 0)
  | _ => Throw (IllegalMask maskPattern)
  end.

End MaskPattern.

Module BCH.
Import BitBuffer.

Definition G15_MASK : Z :=
  Z.lor (Z.lor (Z.lor (Z.lor (Z.shiftl 1 14) (Z.shiftl 1 12)) (Z.shiftl 1 10))
               (Z.shiftl 1 4)) (Z.shiftl 1 1).
Definition G15 : Z :=
  Z.lor (Z.lor (Z.lor (Z.lor (Z.lor (Z.lor (Z.shiftl 1 10) (Z.shiftl 1 8))
                                    (Z.shiftl 1 5)) (Z.shiftl 1 4))
                      (Z.shiftl 1 2)) (Z.shiftl 1 1)) (Z.shiftl 1 0).
Definition G18 : Z :=
  Z.lor (Z.lor (Z.lor (Z.lor (Z.lor (Z.lor (Z.lor (Z.shiftl 1 12) (Z.shiftl 1 11))
                                           (Z.shiftl 1 10)) (Z.shiftl 1 9))
                             (Z.shiftl 1 8)) (Z.shiftl 1 5)) (Z.shiftl 1 2))
        (Z.shiftl 1 0).

(** [getBCHDigit]: [while (data !== 0) { digit++; data >>>= 1; }].  After
    the first shift [data] is below 2^31, so 33 turns empty it. *)
Fixpoint getBCHDigit_loop (fuel : nat) (data digit : Z) : Z :=
  match fuel with
  | O => digit
  | S fuel' => if data =? 0 then digit
               else getBCHDigit_loop fuel' (ushr data 1) (digit + 1)
  end.
Definition getBCHDigit (data : Z) : Z := getBCHDigit_loop 33 data 0.

(** [a << k]: the count is taken modulo 32 and the result is a 32-bit
    signed integer. *)
Definition shl32 (a k : Z) : Z := int32 (Z.shiftl a (k mod 32)).

(** The loop shared by [getBCHVersion] and [getBCHVersionInfo]:
    [while (getBCHDigit(offset) - getBCHDigit(G) >= 0)
       offset ^= G << (getBCHDigit(offset) - getBCHDigit(G));] *)
Fixpoint bch_loop (fuel : nat) (G offset : Z) : result Z :=
  if getBCHDigit offset - getBCHDigit G >=? 0 then
    match fuel with
    | O => Throw OutOfFuel
    | S fuel' =>
        bch_loop fuel' G
          (Z.lxor offset (shl32 G (getBCHDigit offset - getBCHDigit G)))
    end
  else Ok offset.

(** [getBCHVersion(data)]; a turn of the loop clears the leading bit of
    [offset], which has at most 32. *)
Definition getBCHVersion (data : Z) : result Z :=
  offset <- bch_loop 32 G18 (shl32 data 12) ;;
  Ok (Z.lor (shl32 data 12) offset).

(** [getBCHVersionInfo(data)], the format information *)
Definition getBCHVersionInfo (data : Z) : result Z :=
  offset <- bch_loop 32 G15 (shl32 data 10) ;;
  Ok (Z.lxor (Z.lor (shl32 data 10) offset) G15_MASK).

End BCH.

Definition ALIGNMENT_PATTERN_TABLE : list (list Z) := [
    [];
    [6; 18];
    [6; 22];
    [6; 26];
    [6; 30];
    [6; 34];
    [6; 22; 38];
    [6; 24; 42];
    [6; 26; 46];
    [6; 28; 50];
    [6; 30; 54];
    [6; 32; 58];
    [6; 34; 62];
    [6; 26; 46; 66];
    [6; 26; 48; 70];
    [6; 26; 50; 74];
    [6; 30; 54; 78];
    [6; 30; 56; 82];
    [6; 30; 58; 86];
    [6; 34; 62; 90];
    [6; 28; 50; 72; 94];
    [6; 26; 50; 74; 98];
    [6; 30; 54; 78; 102];
    [6; 28; 54; 80; 106];
    [6; 32; 58; 84; 110];
    [6; 30; 58; 86; 114];
    [6; 34; 62; 90; 118];
    [6; 26; 50; 74; 98; 122];
    [6; 30; 54; 78; 102; 126];
    [6; 26; 52; 78; 104; 130];
    [6; 30; 56; 82; 108; 134];
    [6; 34; 60; 86; 112; 138];
    [6; 30; 58; 86; 114; 142];
    [6; 34; 62; 90; 118; 146];
    [6; 30; 54; 78; 102; 126; 150];
    [6; 24; 50; 76; 102; 128; 154];
    [6; 28; 54; 80; 106; 132; 158];
    [6; 32; 58; 84; 110; 136; 162];
    [6; 26; 54; 82; 110; 138; 166];
    [6; 30; 58; 86; 114; 142; 170]
  ].

(** [getAlignmentPattern(version)]; [None] is undefined. *)
Definition getAlignmentPattern (version : Z) : option (list Z) :=
  if version - 1 <? 0 then None
  else nth_error ALIGNMENT_PATTERN_TABLE (Z.to_nat (version - 1)).

(** ** QRCode: the module matrix *)

Module Matrix.
Import BitBuffer.

(** A module is [null] ([None]), or dark or light. *)
Definition cell : Type := option bool.
Definition Modules : Type := list (list cell).

(** [this.modules[row][col]].  Reading a row that does not exist is a
    TypeError; a column outside the row would give undefined, where the
    model stops. *)
Definition readCell (modules : Modules) (row col : Z) : result cell :=
  if row <? 0 then Throw TypeError
  else match nth_error modules (Z.to_nat row) with
       | None => Throw TypeError
       | Some r =>
           if col <? 0 then Throw Unmodelled
           else match nth_error r (Z.to_nat col) with
                | None => Throw Unmodelled
                | Some c => Ok c
                end
       end.

(** [this.modules[row][col] = v], in the same way. *)
Definition writeCell (modules : Modules) (row col : Z) (v : bool) : result Modules :=
  if row <? 0 then Throw TypeError
  else match nth_error modules (Z.to_nat row) with
       | None => Throw TypeError
       | Some r =>
           if (col <? 0) || (Z.of_nat (List.length r) <=? col) then Throw Unmodelled
           else Ok (set_at modules (Z.to_nat row) (set_at r (Z.to_nat col) (Some v)))
       end.

(** [QRCode.prototype.isDark] *)
Definition isDark (modules : Modules) (row col : Z) : result bool :=
  c <- readCell modules row col ;;
  Ok match c with
     | Some b => b
     | None => false
     end.

(** [QRCode.prototype.setupFinderPattern] *)
Definition setupFinderPattern (moduleCount : Z) (modules : Modules) (row col : Z)
  : result Modules :=
  foldM (fun modules r =>
    foldM (fun modules c =>
      if (row + r <=? -1) || (moduleCount <=? row + r)
         || (col + c <=? -1) || (moduleCount <=? col + c)
      then Ok modules
      else if ((0 <=? r) && (r <=? 6) && ((c =? 0) || (c =? 6)))
              || ((0 <=? c) && (c <=? 6) && ((r =? 0) || (r =? 6)))
              || ((2 <=? r) && (r <=? 4) && (2 <=? c) && (c <=? 4))
      then writeCell modules (row + r) (col + c) true
      else writeCell modules (row + r) (col + c) false)
    (zrange (-1) 9) modules)
  (zrange (-1) 9) modules.

(** [QRCode.prototype.setupAlignmentPattern] *)
Definition setupAlignmentPattern (version : Z) (modules : Modules) : result Modules :=
  match getAlignmentPattern version with
  | None => Throw TypeError
  | Some pos =>
      foldM (fun modules row =>
        foldM (fun modules col =>
          centre <- readCell modules row col ;;
          match centre with
          | Some _ => Ok modules
          | None =>
              foldM (fun modules r =>
                foldM (fun modules c =>
                  if (r =? -2) || (r =? 2) || (c =? -2) || (c =? 2)
                     || ((r =? 0) && (c =? 0))
                  then writeCell modules (row + r) (col + c) true
                  else writeCell modules (row + r) (col + c) false)
                (zrange (-2) 5) modules)
              (zrange (-2) 5) modules
          end)
        pos modules)
      pos modules
  end.

(** [QRCode.prototype.setupTimingPattern] *)
Definition setupTimingPattern (moduleCount : Z) (modules : Modules) : result Modules :=
  foldM (fun modules i =>
    let mod_ := Z.rem i 2 =? 0 in
    v <- readCell modules i 6 ;;
    modules <- match v with
               | None => writeCell modules i 6 mod_
               | Some _ => Ok modules
               end ;;
    h <- readCell modules 6 i ;;
    match h with
    | None => writeCell modules 6 i mod_
    | Some _ => Ok modules
    end)
  (zrange 8 (Z.to_nat (moduleCount - 8 - 8))) modules.

(** [QRCode.prototype.setupFormatInfo] *)
Definition setupFormatInfo (moduleCount : Z) (errorCorrectLevel : ErrorCorrectLevel)
           (modules : Modules) (test : bool) (maskPattern : Z) : result Modules :=
  let data := Z.lor (Z.shiftl (ecl_value errorCorrectLevel) 3) maskPattern in
  bits <- BCH.getBCHVersionInfo data ;;
  modules <- foldM (fun modules i =>
    let mod_ := negb test && (Z.land (Z.shiftr bits i) 1 =? 1) in
    (* vertical *)
    modules <- (if i <? 6 then writeCell modules i 8 mod_
                else if i <? 8 then writeCell modules (i + 1) 8 mod_
                else writeCell modules (moduleCount - 15 + i) 8 mod_) ;;
    (* horizontal *)
    if i <? 8 then writeCell modules 8 (moduleCount - i - 1) mod_
    else if i <? 9 then writeCell modules 8 (15 - i - 1 + 1) mod_
    else writeCell modules 8 (15 - i - 1) mod_)
    (zrange 0 15) modules ;;
  (* fixed *)
  writeCell modules (moduleCount - 8) 8 (negb test).

(** [QRCode.prototype.setupVersionInfo] *)
Definition setupVersionInfo (version moduleCount : Z) (modules : Modules) (test : bool)
  : result Modules :=
  bits <- BCH.getBCHVersion version ;;
  foldM (fun modules i =>
    let mod_ := negb test && (Z.land (Z.shiftr bits i) 1 =? 1) in
    modules <- writeCell modules (Z.quot i 3) (Z.rem i 3 + moduleCount - 8 - 3) mod_ ;;
    writeCell modules (Z.rem i 3 + moduleCount - 8 - 3) (Z.quot i 3) mod_)
    (zrange 0 18) modules.

(** The variables of [mapData] that its loops change. *)
Record MapState : Type := mkMapState {
  ms_modules : Modules;
  ms_inc : Z;
  ms_bitIndex : Z;
  ms_byteIndex : nat;
  ms_row : Z
}.

(** The body of [for (var c = 0; c < 2; c++)]. *)
Definition mapCell (data : list Z) (maskFunc : Z -> Z -> bool) (col : Z)
           (st : MapState) (c : Z) : result MapState :=
  v <- readCell (ms_modules st) (ms_row st) (col - c) ;;
  match v with
  | Some _ => Ok st
  | None =>
      let dark :=
        if (ms_byteIndex st <? List.length data)%nat
        then Z.land (ushr (getAt data (ms_byteIndex st)) (ms_bitIndex st)) 1 =? 1
        else false in
      let dark := if maskFunc (ms_row st) (col - c) then negb dark else dark in
      modules <- writeCell (ms_modules st) (ms_row st) (col - c) dark ;;
      let bitIndex := ms_bitIndex st - 1 in
      if bitIndex =? -1
      then Ok (mkMapState modules (ms_inc st) 7 (S (ms_byteIndex st)) (ms_row st))
      else Ok (mkMapState modules (ms_inc st) bitIndex (ms_byteIndex st) (ms_row st))
  end.

(** The [while (true)] loop of [mapData] for one pair of columns. *)
Fixpoint mapColumn (fuel : nat) (moduleCount : Z) (data : list Z)
         (maskFunc : Z -> Z -> bool) (col : Z) (st : MapState) : result MapState :=
  match fuel with
  | O => Throw OutOfFuel
  | S fuel' =>
      st <- foldM (mapCell data maskFunc col) (zrange 0 2) st ;;
      let row := ms_row st + ms_inc st in
      if (row <? 0) || (moduleCount <=? row)
      then Ok (mkMapState (ms_modules st) (- ms_inc st) (ms_bitIndex st)
                          (ms_byteIndex st) (row - ms_inc st))
      else mapColumn fuel' moduleCount data maskFunc col
             (mkMapState (ms_modules st) (ms_inc st) (ms_bitIndex st)
                         (ms_byteIndex st) row)
  end.

(** [for (var col = this.moduleCount - 1; col > 0; col -= 2)] *)
Fixpoint mapColumns (fuel : nat) (moduleCount : Z) (data : list Z)
         (maskFunc : Z -> Z -> bool) (col : Z) (st : MapState) : result MapState :=
  if col >? 0 then
    match fuel with
    | O => Throw OutOfFuel
    | S fuel' =>
        let col := if col =? 6 then col - 1 else col in
        st <- mapColumn (Z.to_nat moduleCount) moduleCount data maskFunc col st ;;
        mapColumns fuel' moduleCount data maskFunc (col - 2) st
    end
  else Ok st.

(** [QRCode.prototype.mapData].  The row moves by one in each turn of
    the inner loop and the column by two or three in each turn of the
    outer one, so [moduleCount] turns are enough for either. *)
Definition mapData (moduleCount : Z) (modules : Modules) (data : list Z)
           (maskPattern : Z) : result Modules :=
  maskFunc <- MaskPattern.getMaskFunc maskPattern ;;
  st <- mapColumns (Z.to_nat moduleCount) moduleCount data maskFunc
          (moduleCount - 1)
          (mkMapState modules (-1) 7 0 (moduleCount - 1)) ;;
  Ok (ms_modules st).

(** [QRCode.prototype.makeImpl], from the fields it reads to the new
    [this.modules]. *)
Definition makeImpl (version moduleCount : Z) (errorCorrectLevel : ErrorCorrectLevel)
           (test : bool) (data : list Z) (maskPattern : Z) : result Modules :=
  let n := Z.to_nat moduleCount in
  let modules := repeat (repeat (@None bool) n) n in
  modules <- setupFinderPattern moduleCount modules 0 0 ;;
  modules <- setupFinderPattern moduleCount modules (moduleCount - 7) 0 ;;
  modules <- setupFinderPattern moduleCount modules 0 (moduleCount - 7) ;;
  modules <- setupAlignmentPattern version modules ;;
  modules <- setupTimingPattern moduleCount modules ;;
  modules <- setupFormatInfo moduleCount errorCorrectLevel modules test maskPattern ;;
  modules <- (if version >=? 7 then setupVersionInfo version moduleCount modules test
              else Ok modules) ;;
  mapData moduleCount modules data maskPattern.

End Matrix.

(** ** QRUtil: the penalty score *)

Module Penalty.
Import Matrix.

Definition b2z (b : bool) : Z := if b then 1 else 0.

(** Rule 1 at one module: the neighbours of the 3 x 3 window that have
    its colour. *)
Definition sameCount (moduleCount : Z) (modules : Modules) (row col : Z) : result Z :=
  dark <- isDark modules row col ;;
  foldM (fun count r =>
    if (row + r <? 0) || (moduleCount <=? row + r) then Ok count
    else
      foldM (fun count c =>
        if (col + c <? 0) || (moduleCount <=? col + c) then Ok count
        else if (r =? 0) && (c =? 0) then Ok count
        else
          d <- isDark modules (row + r) (col + c) ;;
          Ok (if Bool.eqb dark d then count + 1 else count))
      (zrange (-1) 3) count)
  (zrange (-1) 3) 0.

(** [// penalty rule 1] *)
Definition rule1 (moduleCount : Z) (modules : Modules) (score : Z) : result Z :=
  foldM (fun score row =>
    foldM (fun score col =>
      n <- sameCount moduleCount modules row col ;;
      Ok (if n >? 5 then score + (3 + n - 5) else score))
    (zrange 0 (Z.to_nat moduleCount)) score)
  (zrange 0 (Z.to_nat moduleCount)) score.

(** [// penalty rule 2] *)
Definition rule2 (moduleCount : Z) (modules : Modules) (score : Z) : result Z :=
  foldM (fun score row =>
    foldM (fun score col =>
      d00 <- isDark modules row col ;;
      d10 <- isDark modules (row + 1) col ;;
      d01 <- isDark modules row (col + 1) ;;
      d11 <- isDark modules (row + 1) (col + 1) ;;
      let count := b2z d00 + b2z d10 + b2z d01 + b2z d11 in
      Ok (if (count =? 0) || (count =? 4) then score + 3 else score))
    (zrange 0 (Z.to_nat (moduleCount - 1))) score)
  (zrange 0 (Z.to_nat (moduleCount - 1))) score.

(** The seven modules from [(row, col)] on, along the row or, with
    [swap], the same with the two coordinates exchanged. *)
Definition seven (modules : Modules) (swap : bool) (row col : Z) : result (list bool) :=
  foldM (fun acc k =>
           d <- (if swap then isDark modules (col + k) row
                 else isDark modules row (col + k)) ;;
           Ok (acc ++ [d]))
        (zrange 0 7) [].

(** dark - light - dark - dark - dark - light - dark *)
Definition isFinderLike (l : list bool) : bool :=
  match l with
  | [r0; r1; r2; r3; r4; r5; r6] =>
      r0 && negb r1 && r2 && r3 && r4 && negb r5 && r6
  | _ => false
  end.

(** [// penalty rule 3] *)
Definition rule3 (moduleCount : Z) (modules : Modules) (score : Z) : result Z :=
  foldM (fun score row =>
    foldM (fun score col =>
      a <- seven modules false row col ;;
      let score := if isFinderLike a then score + 40 else score in
      b <- seven modules true row col ;;
      Ok (if isFinderLike b then score + 40 else score))
    (zrange 0 (Z.to_nat (moduleCount - 6))) score)
  (zrange 0 (Z.to_nat moduleCount)) score.

(** The dark modules counted by rule 4. *)
Definition darkCount (moduleCount : Z) (modules : Modules) : result Z :=
  foldM (fun count col =>
    foldM (fun count row =>
      d <- isDark modules row col ;;
      Ok (if d then count + 1 else count))
    (zrange 0 (Z.to_nat moduleCount)) count)
  (zrange 0 (Z.to_nat moduleCount)) 0.

(** [// penalty rule 4]:
    [10 * Math.floor(Math.abs((darkCount / (n * n)) * 100 - 50) / 5)].
    The value under [Math.floor] is [|20 d - 10 n^2| / n^2]; when that is
    not an integer it is at least [1 / n^2] away from one, far more than
    the rounding of the floating-point operations, and it is an integer
    only for [d / n^2] a multiple of 1/5, where the operations are exact.
    So the integer quotient is the value of the source.  With no module
    the source divides 0 by 0. *)
Definition rule4 (moduleCount : Z) (modules : Modules) (score : Z) : result Z :=
  d <- darkCount moduleCount modules ;;
  if moduleCount =? 0 then Throw Unmodelled
  else
    let nn := moduleCount * moduleCount in
    Ok (score + 10 * (Z.abs (100 * d - 50 * nn) / (5 * nn))).

(** [getPenaltyScore(qrcode)] *)
Definition getPenaltyScore (moduleCount : Z) (modules : Modules) : result Z :=
  score <- rule1 moduleCount modules 0 ;;
  score <- rule2 moduleCount modules score ;;
  score <- rule3 moduleCount modules score ;;
  rule4 moduleCount modules score.

End Penalty.

(** ** QRCode (encoder) *)

Module QRCode.

Record QRCode : Type := mkQRCode {
  version : Z;
  moduleCount : Z;
  dataList : list QRData;
  modules : Matrix.Modules;
  autoVersion : bool;
  errorCorrectLevel : ErrorCorrectLevel
}.

(** [new QRCode()] *)
Definition new : QRCode := mkQRCode 0 0 [] [] (0 =? 0) L.

(** [QRCode.prototype.setVersion], for a number that is an integer:
    [version >>> 0] is its value modulo 2^32. *)
Definition setVersion (this : QRCode) (version : Z) : QRCode :=
  let v := Z.min 40 (Z.max 0 (BitBuffer.ushr version 0)) in
  mkQRCode v (moduleCount this) (dataList this) (modules this) (v =? 0)
           (errorCorrectLevel this).


(** [QRCode.prototype.write] for a [QRData]; a string is written as
    [new QRByte(data)]. *)
Definition write (this : QRCode) (data : QRData) : QRCode :=
  mkQRCode (version this) (moduleCount this) (dataList this ++ [data])
           (modules this) (autoVersion this) (errorCorrectLevel this).

(** [QRCode.prototype.getBestMaskPattern]: the state of the loop is
    [(pattern, minimum, this.modules)]. *)
Definition bestMaskStep (version moduleCount : Z) (ecl : ErrorCorrectLevel)
           (data : list Z) (st : Z * Z * Matrix.Modules) (i : Z)
  : result (Z * Z * Matrix.Modules) :=
  let '(pattern, minimum, _) := st in
  modules <- Matrix.makeImpl version moduleCount ecl true data i ;;
  score <- Penalty.getPenaltyScore moduleCount modules ;;
  if (i =? 0) || (minimum >? score) then Ok (i, score, modules)
  else Ok (pattern, minimum, modules).

Definition getBestMaskPattern (this : QRCode) (data : list Z) : result Z :=
  st <- foldM (bestMaskStep (version this) (moduleCount this)
                            (errorCorrectLevel this) data)
              (zrange 0 8) (0, 0, modules this) ;;
  Ok (fst (fst st)).

Section Make.

Variable SJIS2UTFTable : Z -> option Z.

(** [for (this.version = v; this.version <= 40; this.version++)] with
    its [break]; [rest] is the number of versions after [version].  When
    no version fits the loop ends with [this.version = 41] and what
    [prepareData] returned for version 40. *)
Fixpoint autoVersionLoop (rest : nat) (version : Z) (ecl : ErrorCorrectLevel)
         (dataList : list QRData) : result (Z * Prepared) :=
  p <- prepareData SJIS2UTFTable version ecl dataList ;;
  if BitBuffer.getLengthInBits (p_buffer p) <=? p_maxDataCount p
  then Ok (version, p)
  else match rest with
       | O => Ok (version + 1, p)
       | S rest' => autoVersionLoop rest' (version + 1) ecl dataList
       end.

(** The first statements of [make]: the version that is used and the
    prepared data. *)
Definition chooseVersion (this : QRCode) : result (Z * Prepared) :=
  if autoVersion this
  then autoVersionLoop 39 1 (errorCorrectLevel this) (dataList this)
  else p <- prepareData SJIS2UTFTable (version this) (errorCorrectLevel this)
              (dataList this) ;;
       Ok (version this, p).

(** [QRCode.prototype.make] *)
Definition make (this : QRCode) : result QRCode :=
  vp <- chooseVersion this ;;
  let '(version, p) := vp in
  (* calc module count *)
  let moduleCount := version * 4 + 17 in
  let this := mkQRCode version moduleCount (dataList this) (modules this)
                       (autoVersion this) (errorCorrectLevel this) in
  (* create data *)
  data <- QRCodeData.createData (p_buffer p) (p_rsBlocks p) (p_maxDataCount p) ;;
  pattern <- getBestMaskPattern this data ;;
  modules <- Matrix.makeImpl version moduleCount (errorCorrectLevel this)
               false data pattern ;;
  Ok (mkQRCode version moduleCount (dataList this) modules
               (autoVersion this) (errorCorrectLevel this)).

End Make.

End QRCode.

(** ** BitStream (decoder) *)

Module BitStream.

Record BitStream : Type := mkBitStream {
  bytes : list Z;
  byteOffset : nat;
  bitOffset : Z
}.

(** [new BitStream(bytes)] *)
Definition new (bytes : list Z) : BitStream := mkBitStream bytes 0 0.

(** [BitStream.prototype.available] *)
Definition available (s : BitStream) : Z :=
  8 * (Z.of_nat (length (bytes s)) - Z.of_nat (byteOffset s)) - bitOffset s.

(** [a << k] *)
Definition shl (a k : Z) : Z := int32 (Z.shiftl a (k mod 32)).

(** [while (numBits >= 8)] of [readBits]; [numBits] is at most 32. *)
Fixpoint readWholeBytes (fuel : nat) (bytes : list Z) (result : Z)
         (byteOffset : nat) (numBits : Z) : Z * nat * Z :=
  match fuel with
  | O => (result, byteOffset, numBits)
  | S fuel' =>
      if numBits >=? 8
      then readWholeBytes fuel' bytes
             (Z.lor (shl result 8) (Z.land (getAt bytes byteOffset) 0xff))
             (S byteOffset) (numBits - 8)
      else (result, byteOffset, numBits)
  end.

(** [BitStream.prototype.readBits]: the value and the stream after it. *)
Definition readBits (s : BitStream) (numBits : Z) : result (Z * BitStream) :=
  if (numBits <? 1) || (numBits >? 32) || (numBits >? available s)
  then Throw (CantRead numBits)
  else
    let bytes := bytes s in
    (* First, read remainder from current byte *)
    let '(result, numBits, byteOffset, bitOffset) :=
      if bitOffset s >? 0 then
        let bitsLeft := 8 - bitOffset s in
        let toRead := if numBits <? bitsLeft then numBits else bitsLeft in
        let bitsToNotRead := bitsLeft - toRead in
        let mask := shl (Z.shiftr 0xff (8 - toRead)) bitsToNotRead in
        let result := Z.shiftr (Z.land (getAt bytes (byteOffset s)) mask)
                               bitsToNotRead in
        let bitOffset := bitOffset s + toRead in
        if bitOffset =? 8
        then (result, numBits - toRead, S (byteOffset s), 0)
        else (result, numBits - toRead, byteOffset s, bitOffset)
      else (0, numBits, byteOffset s, bitOffset s) in
    (* Next read whole bytes *)
    if numBits >? 0 then
      let '(result, byteOffset, numBits) :=
        readWholeBytes 4 bytes result byteOffset numBits in
      (* Finally read a partial byte *)
      if numBits >? 0 then
        let bitsToNotRead := 8 - numBits in
        let mask := shl (Z.shiftr 0xff bitsToNotRead) bitsToNotRead in
        let result := Z.lor (shl result numBits)
                        (Z.shiftr (Z.land (getAt bytes byteOffset) mask)
                                  bitsToNotRead) in
        Ok (result, mkBitStream bytes byteOffset (bitOffset + numBits))
      else Ok (result, mkBitStream bytes byteOffset bitOffset)
    else Ok (result, mkBitStream bytes byteOffset bitOffset).

End BitStream.

(** ** The segment decoder *)

Module Decoder.
Import BitStream.

Inductive Chunk : Type :=
| ChunkECI (assignmentNumber : Z)
| ChunkNumeric (text : list Z)
| ChunkAlphanumeric (text : list Z)
| ChunkStructuredAppend (M N parity : Z)
| ChunkByte (bytes text : list Z)
| ChunkKanji (bytes text : list Z).

(** [{ text, bytes, chunks }]; a text is the list of its code units. *)
Record DecodeResult : Type := mkDecodeResult {
  text : list Z;
  bytes : list Z;
  chunks : list Chunk
}.

(** What [readBits] leaves to the caller: bytes and text so far, and
    the stream. *)
Definition Partial : Type := (list Z * list Z * BitStream)%type.

(** [while (length >= 3)] of [decodeNumeric] *)
Fixpoint numericTriples (fuel : nat) (length : Z) (acc : Partial)
  : result (Z * Partial) :=
  if length >=? 3 then
    match fuel with
    | O => Throw OutOfFuel
    | S fuel' =>
        let '(bytes, text, stream) := acc in
        r <- readBits stream 10 ;;
        let '(num, stream) := r in
        if num >=? 1000 then Throw (InvalidNumeric 999)
        else
          let a := num / 100 in
          let b := Z.rem (num / 10) 10 in
          let c := Z.rem num 10 in
          numericTriples fuel' (length - 3)
            (bytes ++ [48 + a; 48 + b; 48 + c],
             text ++ [48 + a; 48 + b; 48 + c], stream)
    end
  else Ok (length, acc).

(** [decodeNumeric(stream, size)]; the digits [a.toString()] are the
    code units [48 + a]. *)
Definition decodeNumeric (stream : BitStream) (size : nat)
  : result (list Z * list Z * BitStream) :=
  let characterCountSize := nth size [10; 12; 14] 0 in
  r <- readBits stream characterCountSize ;;
  let '(length, stream) := r in
  r <- numericTriples (Z.to_nat length) length ([], [], stream) ;;
  let '(length, (bytes, text, stream)) := r in
  if length =? 2 then
    r <- readBits stream 7 ;;
    let '(num, stream) := r in
    if num >=? 100 then Throw (InvalidNumeric 99)
    else
      let a := num / 10 in
      let b := Z.rem num 10 in
      Ok (bytes ++ [48 + a; 48 + b], text ++ [48 + a; 48 + b], stream)
  else if length =? 1 then
    r <- readBits stream 4 ;;
    let '(num, stream) := r in
    if num >=? 10 then Throw (InvalidNumeric 9)
    else Ok (bytes ++ [48 + num], text ++ [48 + num], stream)
  else Ok (bytes, text, stream).

(** The code units of [AlphanumericCharacterCodes]. *)
Definition AlphanumericCharacterCodes : list Z :=
  [48; 49; 50; 51; 52; 53; 54; 55; 56;
   57; 65; 66; 67; 68; 69; 70; 71; 72;
   73; 74; 75; 76; 77; 78; 79; 80; 81;
   82; 83; 84; 85; 86; 87; 88; 89; 90;
   32; 36; 37; 42; 43; 45; 46; 47; 58].

(** [AlphanumericCharacterCodes[a].charCodeAt(0)]: a TypeError outside
    the table. *)
Definition alphanumericCode (a : Z) : result Z :=
  match nth_error AlphanumericCharacterCodes (Z.to_nat a) with
  | Some c => Ok c
  | None => Throw TypeError
  end.

(** [while (length >= 2)] of [decodeAlphanumeric] *)
Fixpoint alphanumericPairs (fuel : nat) (length : Z) (acc : Partial)
  : result (Z * Partial) :=
  if length >=? 2 then
    match fuel with
    | O => Throw OutOfFuel
    | S fuel' =>
        let '(bytes, text, stream) := acc in
        r <- readBits stream 11 ;;
        let '(v, stream) := r in
        a <- alphanumericCode (v / 45) ;;
        b <- alphanumericCode (Z.rem v 45) ;;
        alphanumericPairs fuel' (length - 2)
          (bytes ++ [a; b], text ++ [a; b], stream)
    end
  else Ok (length, acc).

(** [decodeAlphanumeric(stream, size)] *)
Definition decodeAlphanumeric (stream : BitStream) (size : nat)
  : result (list Z * list Z * BitStream) :=
  let characterCountSize := nth size [9; 11; 13] 0 in
  r <- readBits stream characterCountSize ;;
  let '(length, stream) := r in
  r <- alphanumericPairs (Z.to_nat length) length ([], [], stream) ;;
  let '(length, (bytes, text, stream)) := r in
  if length =? 1 then
    r <- readBits stream 6 ;;
    let '(v, stream) := r in
    a <- alphanumericCode v ;;
    Ok (bytes ++ [a], text ++ [a], stream)
  else Ok (bytes, text, stream).

(** [String.fromCharCode(x)]: one code unit. *)
Definition fromCharCode (x : Z) : Z := x mod 2 ^ 16.

(** [bytesToUTF8(bytes)]: [while (pos < bytes.length)]; a byte read past
    the end is undefined and counts as 0 under [&]. *)
Fixpoint bytesToUTF8_loop (fuel : nat) (bytes : list Z) (pos : nat) (output : list Z)
  : list Z :=
  match fuel with
  | O => output
  | S fuel' =>
      if (pos <? length bytes)%nat then
        let c1 := getAt bytes pos in
        if c1 <? 128 then
          bytesToUTF8_loop fuel' bytes (pos + 1) (output ++ [fromCharCode c1])
        else if (c1 >? 191) && (c1 <? 224) then
          let c2 := getAt bytes (pos + 1) in
          bytesToUTF8_loop fuel' bytes (pos + 2)
            (output ++ [fromCharCode (Z.lor (shl (Z.land c1 31) 6) (Z.land c2 63))])
        else if (c1 >? 239) && (c1 <? 365) then
          (* Surrogate Pair *)
          let c2 := getAt bytes (pos + 1) in
          let c3 := getAt bytes (pos + 2) in
          let c4 := getAt bytes (pos + 3) in
          let u := Z.lor (Z.lor (Z.lor (shl (Z.land c1 7) 18) (shl (Z.land c2 63) 12))
                                (shl (Z.land c3 63) 6)) (Z.land c4 63) - 0x10000 in
          bytesToUTF8_loop fuel' bytes (pos + 4)
            (output ++ [fromCharCode (0xd800 + Z.shiftr (int32 u) 10);
                        fromCharCode (0xdc00 + Z.land u 1023)])
        else
          let c2 := getAt bytes (pos + 1) in
          let c3 := getAt bytes (pos + 2) in
          bytesToUTF8_loop fuel' bytes (pos + 3)
            (output ++ [fromCharCode (Z.lor (Z.lor (shl (Z.land c1 15) 12)
                                                   (shl (Z.land c2 63) 6))
                                            (Z.land c3 63))])
      else output
  end.

Definition bytesToUTF8 (bytes : list Z) : list Z :=
  bytesToUTF8_loop (length bytes) bytes 0 [].

(** [for (var i = 0; i < length; i++) bytes.push(stream.readBits(8))] *)
Definition decodeByte (stream : BitStream) (size : nat)
  : result (list Z * list Z * BitStream) :=
  let characterCountSize := nth size [8; 16; 16] 0 in
  r <- readBits stream characterCountSize ;;
  let '(length, stream) := r in
  r <- foldM (fun acc _ =>
                let '(bytes, stream) := acc in
                r <- readBits stream 8 ;;
                let '(b, stream) := r in
                Ok (bytes ++ [b], stream))
             (upto (Z.to_nat length)) ([], stream) ;;
  let '(bytes, stream) := r in
  Ok (bytes, bytesToUTF8 bytes, stream).

(** The Shift-JIS code that [decodeKanji] rebuilds from a 13-bit value,
    as the two bytes it pushes. *)
Definition kanjiCode (k : Z) : Z :=
  let c := Z.lor (shl (k / 0xc0) 8) (Z.rem k 0xc0) in
  if c <? 0x1f00 then c + 0x8140 else c + 0xc140.

Definition kanjiBytes (k : Z) : Z * Z :=
  let c := kanjiCode k in (Z.shiftr c 8, Z.land c 0xff).

Section Tables.

(** The table that [decodeKanji] looks codes up in, from a Shift-JIS
    code to the code unit of its character; [None] where it has no
    entry, and [String.fromCharCode(undefined)] is the code unit 0. *)
Variable UTF2SJISTable : Z -> option Z.

(** [decodeKanji(stream, size)] *)
Definition decodeKanji (stream : BitStream) (size : nat)
  : result (list Z * list Z * BitStream) :=
  let characterCountSize := nth size [8; 10; 12] 0 in
  r <- readBits stream characterCountSize ;;
  let '(length, stream) := r in
  foldM (fun acc _ =>
           let '(bytes, text, stream) := acc in
           r <- readBits stream 13 ;;
           let '(k, stream) := r in
           let c := kanjiCode k in
           let ch := match UTF2SJISTable c with
                     | Some u => fromCharCode u
                     | None => 0
                     end in
           Ok (bytes ++ [Z.shiftr c 8; Z.land c 0xff], text ++ [ch], stream))
        (upto (Z.to_nat length)) ([], [], stream).

(** How a call of [decode$1] ends: it returns [result], it falls off
    its end and returns undefined, or it throws; for a throw the
    value that [result] had then is kept. *)
Inductive Outcome : Type :=
| Returns (r : DecodeResult)
| ReturnsUndefined
| Throws (e : exn) (gathered : DecodeResult).

(** One turn of [while (stream.available() >= 4)] after the mode
    indicator is read and is not the terminator: the new [result], here [res],
    and the stream. *)
Definition decodeSegment (mode : Z) (size : nat) (res : DecodeResult)
           (stream : BitStream) : result (DecodeResult * BitStream) :=
  if mode =? 7 then                                  (* ModeByte.ECI *)
    r <- readBits stream 1 ;;
    let '(b, stream) := r in
    if b =? 0 then
      r <- readBits stream 7 ;;
      let '(n, stream) := r in
      Ok (mkDecodeResult (text res) (bytes res)
            (chunks res ++ [ChunkECI n]), stream)
    else
      r <- readBits stream 1 ;;
      let '(b, stream) := r in
      if b =? 0 then
        r <- readBits stream 14 ;;
        let '(n, stream) := r in
        Ok (mkDecodeResult (text res) (bytes res)
              (chunks res ++ [ChunkECI n]), stream)
      else
        r <- readBits stream 1 ;;
        let '(b, stream) := r in
        if b =? 0 then
          r <- readBits stream 21 ;;
          let '(n, stream) := r in
          Ok (mkDecodeResult (text res) (bytes res)
                (chunks res ++ [ChunkECI n]), stream)
        else
          (* ECI data seems corrupted *)
          Ok (mkDecodeResult (text res) (bytes res)
                (chunks res ++ [ChunkECI (-1)]), stream)
  else if mode =? 1 then                             (* ModeByte.Numeric *)
    r <- decodeNumeric stream size ;;
    let '(bs, txt, stream) := r in
    Ok (mkDecodeResult (text res ++ txt) (bytes res ++ bs)
          (chunks res ++ [ChunkNumeric txt]), stream)
  else if mode =? 2 then                             (* ModeByte.Alphanumeric *)
    r <- decodeAlphanumeric stream size ;;
    let '(bs, txt, stream) := r in
    Ok (mkDecodeResult (text res ++ txt) (bytes res ++ bs)
          (chunks res ++ [ChunkAlphanumeric txt]), stream)
  else if mode =? 3 then                             (* ModeByte.StructuredAppend *)
    r <- readBits stream 4 ;;
    let '(m, stream) := r in
    r <- readBits stream 4 ;;
    let '(n, stream) := r in
    r <- readBits stream 8 ;;
    let '(parity, stream) := r in
    Ok (mkDecodeResult (text res) (bytes res)
          (chunks res ++ [ChunkStructuredAppend (m + 1) (n + 1) parity]), stream)
  else if mode =? 4 then                             (* ModeByte.Byte *)
    r <- decodeByte stream size ;;
    let '(bs, txt, stream) := r in
    Ok (mkDecodeResult (text res ++ txt) (bytes res ++ bs)
          (chunks res ++ [ChunkByte bs txt]), stream)
  else if mode =? 8 then                             (* ModeByte.Kanji *)
    r <- decodeKanji stream size ;;
    let '(bs, txt, stream) := r in
    Ok (mkDecodeResult (text res ++ txt) (bytes res ++ bs)
          (chunks res ++ [ChunkKanji bs txt]), stream)
  else Ok (res, stream).

(** [while (stream.available() >= 4)] of [decode$1] and the statement
    after it; every turn reads at least the four bits of a mode. *)
Fixpoint decodeLoop (fuel : nat) (size : nat) (res : DecodeResult)
         (stream : BitStream) : Outcome :=
  if available stream >=? 4 then
    match fuel with
    | O => Throws OutOfFuel res
    | S fuel' =>
        match readBits stream 4 with
        | Throw e => Throws e res
        | Ok (mode, stream) =>
            if mode =? 0 then Returns res         (* ModeByte.Terminator *)
            else
              match decodeSegment mode size res stream with
              | Throw e => Throws e res
              | Ok (res, stream) => decodeLoop fuel' size res stream
              end
        end
    end
  else
    (* If there is no data left, or the remaining bits are all 0, then
       that counts as a termination marker *)
    if available stream =? 0 then Returns res
    else
      match readBits stream (available stream) with
      | Throw e => Throws e res
      | Ok (rest, _) => if rest =? 0 then Returns res else ReturnsUndefined
      end.

(** [decode$1(data, version)] *)
Definition decode_1 (data : list Z) (version : Z) : Outcome :=
  let stream := BitStream.new data in
  let size := if version <=? 9 then 0%nat
              else if version <=? 26 then 1%nat else 2%nat in
  decodeLoop (S (2 * length data)) size (mkDecodeResult [] [] []) stream.


End Tables.

End Decoder.

(** ** Format information (decoder) *)

Module FormatInfo.

(** [BitMatrix]: [data] holds a row after the other. *)
Record BitMatrix : Type := mkBitMatrix {
  data : list Z;
  width : Z;
  height : Z
}.

(** [new BitMatrix(data, width)], for a [data] of whole rows. *)
Definition new (data : list Z) (width : Z) : BitMatrix :=
  mkBitMatrix data width (Z.of_nat (length data) / width).

(** [BitMatrix.prototype.get] *)
Definition get (m : BitMatrix) (x y : Z) : bool :=
  if (x <? 0) || (x >=? width m) || (y <? 0) || (y >=? height m) then false
  else negb (getAt (data m) (Z.to_nat (y * width m + x)) =? 0).

(** [numBitsDiffering]: [while (z) { bitCount++; z &= z - 1; }]; a turn
    clears one of the at most 32 bits of [z]. *)
Fixpoint clearBits (fuel : nat) (z bitCount : Z) : Z :=
  match fuel with
  | O => bitCount
  | S fuel' => if z =? 0 then bitCount
               else clearBits fuel' (Z.land z (int32 (z - 1))) (bitCount + 1)
  end.

Definition numBitsDiffering (x y : Z) : Z := clearBits 32 (Z.lxor x y) 0.

(** [pushBit(bit, byte)] *)
Definition pushBit (bit : bool) (byte : Z) : Z :=
  Z.lor (BitStream.shl byte 1) (if bit then 1 else 0).

Record FormatInfo : Type := mkFormatInfo {
  errorCorrectionLevel : Z;
  dataMask : Z
}.

Definition FORMAT_INFO_TABLE : list (Z * FormatInfo) := [
  (0x5412, mkFormatInfo 1 0); (0x5125, mkFormatInfo 1 1);
  (0x5e7c, mkFormatInfo 1 2); (0x5b4b, mkFormatInfo 1 3);
  (0x45f9, mkFormatInfo 1 4); (0x40ce, mkFormatInfo 1 5);
  (0x4f97, mkFormatInfo 1 6); (0x4aa0, mkFormatInfo 1 7);
  (0x77c4, mkFormatInfo 0 0); (0x72f3, mkFormatInfo 0 1);
  (0x7daa, mkFormatInfo 0 2); (0x789d, mkFormatInfo 0 3);
  (0x662f, mkFormatInfo 0 4); (0x6318, mkFormatInfo 0 5);
  (0x6c41, mkFormatInfo 0 6); (0x6976, mkFormatInfo 0 7);
  (0x1689, mkFormatInfo 3 0); (0x13be, mkFormatInfo 3 1);
  (0x1ce7, mkFormatInfo 3 2); (0x19d0, mkFormatInfo 3 3);
  (0x0762, mkFormatInfo 3 4); (0x0255, mkFormatInfo 3 5);
  (0x0d0c, mkFormatInfo 3 6); (0x083b, mkFormatInfo 3 7);
  (0x355f, mkFormatInfo 2 0); (0x3068, mkFormatInfo 2 1);
  (0x3f31, mkFormatInfo 2 2); (0x3a06, mkFormatInfo 2 3);
  (0x24b4, mkFormatInfo 2 4); (0x2183, mkFormatInfo 2 5);
  (0x2eda, mkFormatInfo 2 6); (0x2bed, mkFormatInfo 2 7)
].

(** The bits read around the top-left finder pattern. *)
Definition topLeftFormatInfoBits (matrix : BitMatrix) : Z :=
  let bits :=
    fold_left (fun bits x => if x =? 6 then bits else pushBit (get matrix x 8) bits)
              (zrange 0 9) 0 in
  fold_left (fun bits y => if y =? 6 then bits else pushBit (get matrix 8 y) bits)
            (rev (zrange 0 8)) bits.

(** The bits read below the top-right and beside the bottom-left finder
    pattern. *)
Definition topRightBottomRightFormatInfoBits (matrix : BitMatrix) : Z :=
  let dimension := height matrix in
  let bits :=
    fold_left (fun bits y => pushBit (get matrix 8 y) bits)
              (rev (zrange (dimension - 7) 7)) 0 in
  fold_left (fun bits x => pushBit (get matrix x 8) bits)
            (zrange (dimension - 8) 8) bits.

(** The loop of [readFormatInformation] over the table, from the two
    words read; [bestDifference] starts as Infinity, here [None]. *)
Fixpoint matchFormat (table : list (Z * FormatInfo)) (topLeft other : Z)
         (bestDifference : option Z) (bestFormatInfo : option FormatInfo)
  : option FormatInfo :=
  match table with
  | [] =>
      match bestDifference with
      | Some d => if d <=? 3 then bestFormatInfo else None
      | None => None
      end
  | (bits, formatInfo) :: table' =>
      if (bits =? topLeft) || (bits =? other) then Some formatInfo
      else
        let below (d : Z) (best : option Z) :=
          match best with Some b => d <? b | None => true end in
        let difference := numBitsDiffering topLeft bits in
        let '(bestFormatInfo, bestDifference) :=
          if below difference bestDifference
          then (Some formatInfo, Some difference)
          else (bestFormatInfo, bestDifference) in
        let '(bestFormatInfo, bestDifference) :=
          if negb (topLeft =? other) then
            (* also try the other option *)
            let difference := numBitsDiffering other bits in
            if below difference bestDifference
            then (Some formatInfo, Some difference)
            else (bestFormatInfo, bestDifference)
          else (bestFormatInfo, bestDifference) in
        matchFormat table' topLeft other bestDifference bestFormatInfo
  end.

(** [readFormatInformation(matrix)]; [None] is null. *)
Definition readFormatInformation (matrix : BitMatrix) : option FormatInfo :=
  matchFormat FORMAT_INFO_TABLE (topLeftFormatInfoBits matrix)
              (topRightBottomRightFormatInfoBits matrix) None None.

End FormatInfo.

(** ** The locator: the dimension of the symbol *)

Module Locator.

(** [computeDimension] after its test of the module size.  The two
    arguments are the integers [topDimension] and [sideDimension] that
    [Math.round(distance(..) / moduleSize)] gives from the finder
    patterns; the floating-point operations before them are not part of
    the model. *)
Definition computeDimension (topDimension sideDimension : Z) : Z :=
  let dimension := (topDimension + sideDimension) / 2 + 7 in
  match Z.rem dimension 4 with
  | 0 => dimension + 1
  | 2 => dimension - 1
  | _ => dimension
  end.

End Locator.

(** ** GenericGF: the inverse *)

Module GenericGFInverse.
Import GenericGF.

(** [GenericGF.prototype.inverse]; [None] is the throw of
    "can't invert 0". *)
Definition inverse (field : GenericGF) (a : Z) : option Z :=
  if a =? 0 then None
  else Some (getAt (expTable field)
                   (Z.to_nat (size field - getAt (logTable field) (Z.to_nat a) - 1))).

End GenericGFInverse.

(** ** The data masks of the decoder *)

Module DataMasks.

(** The argument [p] of a mask of the decoder. *)
Record Point : Type := mkPoint { y : Z; x : Z }.

(** [DATA_MASKS]; [Math.floor(a / b)] is the quotient rounded down. *)
Definition DATA_MASKS : list (Point -> bool) := [
  (fun p => Z.rem (y p + x p) 2 =? 0);
  (fun p => Z.rem (y p) 2 =? 0);
  (fun p => Z.rem (x p) 3 =? 0);
  (fun p => Z.rem (y p + x p) 3 =? 0);
  (fun p => Z.rem (y p / 2 + x p / 3) 2 =? 0);
  (fun p => Z.rem (x p * y p) 2 + Z.rem (x p * y p) 3 =? 0);
  (fun p => Z.rem (Z.rem (y p * x p) 2 + Z.rem (y p * x p) 3) 2 =? 0);
  (fun p => Z.rem (Z.rem (y p + x p) 2 + Z.rem (y p * x p) 3) 2 =? 0)
].

End DataMasks.

(** ** The decoder's versions *)

Module Version.

Record ECBlock : Type := mkECBlock {
  numBlocks : Z;
  dataCodewordsPerBlock : Z
}.

Record ECLevel : Type := mkECLevel {
  ecCodewordsPerBlock : Z;
  ecBlocks : list ECBlock
}.

(** An entry of [VERSIONS]; an [infoBits] of [None] is null. *)
Record Version : Type := mkVersion {
  infoBits : option Z;
  versionNumber : Z;
  alignmentPatternCenters : list Z;
  errorCorrectionLevels : list ECLevel
}.

Definition VERSIONS : list Version := [
  mkVersion (None) 1 []
    [mkECLevel 7 [mkECBlock 1 19];
     mkECLevel 10 [mkECBlock 1 16];
     mkECLevel 13 [mkECBlock 1 13];
     mkECLevel 17 [mkECBlock 1 9]];
  mkVersion (None) 2 [6; 18]
    [mkECLevel 10 [mkECBlock 1 34];
     mkECLevel 16 [mkECBlock 1 28];
     mkECLevel 22 [mkECBlock 1 22];
     mkECLevel 28 [mkECBlock 1 16]];
  mkVersion (None) 3 [6; 22]
    [mkECLevel 15 [mkECBlock 1 55];
     mkECLevel 26 [mkECBlock 1 44];
     mkECLevel 18 [mkECBlock 2 17];
     mkECLevel 22 [mkECBlock 2 13]];
  mkVersion (None) 4 [6; 26]
    [mkECLevel 20 [mkECBlock 1 80];
     mkECLevel 18 [mkECBlock 2 32];
     mkECLevel 26 [mkECBlock 2 24];
     mkECLevel 16 [mkECBlock 4 9]];
  mkVersion (None) 5 [6; 30]
    [mkECLevel 26 [mkECBlock 1 108];
     mkECLevel 24 [mkECBlock 2 43];
     mkECLevel 18 [mkECBlock 2 15; mkECBlock 2 16];
     mkECLevel 22 [mkECBlock 2 11; mkECBlock 2 12]];
  mkVersion (None) 6 [6; 34]
    [mkECLevel 18 [mkECBlock 2 68];
     mkECLevel 16 [mkECBlock 4 27];
     mkECLevel 24 [mkECBlock 4 19];
     mkECLevel 28 [mkECBlock 4 15]];
  mkVersion (Some 0x07c94) 7 [6; 22; 38]
    [mkECLevel 20 [mkECBlock 2 78];
     mkECLevel 18 [mkECBlock 4 31];
     mkECLevel 18 [mkECBlock 2 14; mkECBlock 4 15];
     mkECLevel 26 [mkECBlock 4 13; mkECBlock 1 14]];
  mkVersion (Some 0x085bc) 8 [6; 24; 42]
    [mkECLevel 24 [mkECBlock 2 97];
     mkECLevel 22 [mkECBlock 2 38; mkECBlock 2 39];
     mkECLevel 22 [mkECBlock 4 18; mkECBlock 2 19];
     mkECLevel 26 [mkECBlock 4 14; mkECBlock 2 15]];
  mkVersion (Some 0x09a99) 9 [6; 26; 46]
    [mkECLevel 30 [mkECBlock 2 116];
     mkECLevel 22 [mkECBlock 3 36; mkECBlock 2 37];
     mkECLevel 20 [mkECBlock 4 16; mkECBlock 4 17];
     mkECLevel 24 [mkECBlock 4 12; mkECBlock 4 13]];
  mkVersion (Some 0x0a4d3) 10 [6; 28; 50]
    [mkECLevel 18 [mkECBlock 2 68; mkECBlock 2 69];
     mkECLevel 26 [mkECBlock 4 43; mkECBlock 1 44];
     mkECLevel 24 [mkECBlock 6 19; mkECBlock 2 20];
     mkECLevel 28 [mkECBlock 6 15; mkECBlock 2 16]];
  mkVersion (Some 0x0bbf6) 11 [6; 30; 54]
    [mkECLevel 20 [mkECBlock 4 81];
     mkECLevel 30 [mkECBlock 1 50; mkECBlock 4 51];
     mkECLevel 28 [mkECBlock 4 22; mkECBlock 4 23];
     mkECLevel 24 [mkECBlock 3 12; mkECBlock 8 13]];
  mkVersion (Some 0x0c762) 12 [6; 32; 58]
    [mkECLevel 24 [mkECBlock 2 92; mkECBlock 2 93];
     mkECLevel 22 [mkECBlock 6 36; mkECBlock 2 37];
     mkECLevel 26 [mkECBlock 4 20; mkECBlock 6 21];
     mkECLevel 28 [mkECBlock 7 14; mkECBlock 4 15]];
  mkVersion (Some 0x0d847) 13 [6; 34; 62]
    [mkECLevel 26 [mkECBlock 4 107];
     mkECLevel 22 [mkECBlock 8 37; mkECBlock 1 38];
     mkECLevel 24 [mkECBlock 8 20; mkECBlock 4 21];
     mkECLevel 22 [mkECBlock 12 11; mkECBlock 4 12]];
  mkVersion (Some 0x0e60d) 14 [6; 26; 46; 66]
    [mkECLevel 30 [mkECBlock 3 115; mkECBlock 1 116];
     mkECLevel 24 [mkECBlock 4 40; mkECBlock 5 41];
     mkECLevel 20 [mkECBlock 11 16; mkECBlock 5 17];
     mkECLevel 24 [mkECBlock 11 12; mkECBlock 5 13]];
  mkVersion (Some 0x0f928) 15 [6; 26; 48; 70]
    [mkECLevel 22 [mkECBlock 5 87; mkECBlock 1 88];
     mkECLevel 24 [mkECBlock 5 41; mkECBlock 5 42];
     mkECLevel 30 [mkECBlock 5 24; mkECBlock 7 25];
     mkECLevel 24 [mkECBlock 11 12; mkECBlock 7 13]];
  mkVersion (Some 0x10b78) 16 [6; 26; 50; 74]
    [mkECLevel 24 [mkECBlock 5 98; mkECBlock 1 99];
     mkECLevel 28 [mkECBlock 7 45; mkECBlock 3 46];
     mkECLevel 24 [mkECBlock 15 19; mkECBlock 2 20];
     mkECLevel 30 [mkECBlock 3 15; mkECBlock 13 16]];
  mkVersion (Some 0x1145d) 17 [6; 30; 54; 78]
    [mkECLevel 28 [mkECBlock 1 107; mkECBlock 5 108];
     mkECLevel 28 [mkECBlock 10 46; mkECBlock 1 47];
     mkECLevel 28 [mkECBlock 1 22; mkECBlock 15 23];
     mkECLevel 28 [mkECBlock 2 14; mkECBlock 17 15]];
  mkVersion (Some 0x12a17) 18 [6; 30; 56; 82]
    [mkECLevel 30 [mkECBlock 5 120; mkECBlock 1 121];
     mkECLevel 26 [mkECBlock 9 43; mkECBlock 4 44];
     mkECLevel 28 [mkECBlock 17 22; mkECBlock 1 23];
     mkECLevel 28 [mkECBlock 2 14; mkECBlock 19 15]];
  mkVersion (Some 0x13532) 19 [6; 30; 58; 86]
    [mkECLevel 28 [mkECBlock 3 113; mkECBlock 4 114];
     mkECLevel 26 [mkECBlock 3 44; mkECBlock 11 45];
     mkECLevel 26 [mkECBlock 17 21; mkECBlock 4 22];
     mkECLevel 26 [mkECBlock 9 13; mkECBlock 16 14]];
  mkVersion (Some 0x149a6) 20 [6; 34; 62; 90]
    [mkECLevel 28 [mkECBlock 3 107; mkECBlock 5 108];
     mkECLevel 26 [mkECBlock 3 41; mkECBlock 13 42];
     mkECLevel 30 [mkECBlock 15 24; mkECBlock 5 25];
     mkECLevel 28 [mkECBlock 15 15; mkECBlock 10 16]];
  mkVersion (Some 0x15683) 21 [6; 28; 50; 72; 94]
    [mkECLevel 28 [mkECBlock 4 116; mkECBlock 4 117];
     mkECLevel 26 [mkECBlock 17 42];
     mkECLevel 28 [mkECBlock 17 22; mkECBlock 6 23];
     mkECLevel 30 [mkECBlock 19 16; mkECBlock 6 17]];
  mkVersion (Some 0x168c9) 22 [6; 26; 50; 74; 98]
    [mkECLevel 28 [mkECBlock 2 111; mkECBlock 7 112];
     mkECLevel 28 [mkECBlock 17 46];
     mkECLevel 30 [mkECBlock 7 24; mkECBlock 16 25];
     mkECLevel 24 [mkECBlock 34 13]];
  mkVersion (Some 0x177ec) 23 [6; 30; 54; 74; 102]
    [mkECLevel 30 [mkECBlock 4 121; mkECBlock 5 122];
     mkECLevel 28 [mkECBlock 4 47; mkECBlock 14 48];
     mkECLevel 30 [mkECBlock 11 24; mkECBlock 14 25];
     mkECLevel 30 [mkECBlock 16 15; mkECBlock 14 16]];
  mkVersion (Some 0x18ec4) 24 [6; 28; 54; 80; 106]
    [mkECLevel 30 [mkECBlock 6 117; mkECBlock 4 118];
     mkECLevel 28 [mkECBlock 6 45; mkECBlock 14 46];
     mkECLevel 30 [mkECBlock 11 24; mkECBlock 16 25];
     mkECLevel 30 [mkECBlock 30 16; mkECBlock 2 17]];
  mkVersion (Some 0x191e1) 25 [6; 32; 58; 84; 110]
    [mkECLevel 26 [mkECBlock 8 106; mkECBlock 4 107];
     mkECLevel 28 [mkECBlock 8 47; mkECBlock 13 48];
     mkECLevel 30 [mkECBlock 7 24; mkECBlock 22 25];
     mkECLevel 30 [mkECBlock 22 15; mkECBlock 13 16]];
  mkVersion (Some 0x1afab) 26 [6; 30; 58; 86; 114]
    [mkECLevel 28 [mkECBlock 10 114; mkECBlock 2 115];
     mkECLevel 28 [mkECBlock 19 46; mkECBlock 4 47];
     mkECLevel 28 [mkECBlock 28 22; mkECBlock 6 23];
     mkECLevel 30 [mkECBlock 33 16; mkECBlock 4 17]];
  mkVersion (Some 0x1b08e) 27 [6; 34; 62; 90; 118]
    [mkECLevel 30 [mkECBlock 8 122; mkECBlock 4 123];
     mkECLevel 28 [mkECBlock 22 45; mkECBlock 3 46];
     mkECLevel 30 [mkECBlock 8 23; mkECBlock 26 24];
     mkECLevel 30 [mkECBlock 12 15; mkECBlock 28 16]];
  mkVersion (Some 0x1cc1a) 28 [6; 26; 50; 74; 98; 122]
    [mkECLevel 30 [mkECBlock 3 117; mkECBlock 10 118];
     mkECLevel 28 [mkECBlock 3 45; mkECBlock 23 46];
     mkECLevel 30 [mkECBlock 4 24; mkECBlock 31 25];
     mkECLevel 30 [mkECBlock 11 15; mkECBlock 31 16]];
  mkVersion (Some 0x1d33f) 29 [6; 30; 54; 78; 102; 126]
    [mkECLevel 30 [mkECBlock 7 116; mkECBlock 7 117];
     mkECLevel 28 [mkECBlock 21 45; mkECBlock 7 46];
     mkECLevel 30 [mkECBlock 1 23; mkECBlock 37 24];
     mkECLevel 30 [mkECBlock 19 15; mkECBlock 26 16]];
  mkVersion (Some 0x1ed75) 30 [6; 26; 52; 78; 104; 130]
    [mkECLevel 30 [mkECBlock 5 115; mkECBlock 10 116];
     mkECLevel 28 [mkECBlock 19 47; mkECBlock 10 48];
     mkECLevel 30 [mkECBlock 15 24; mkECBlock 25 25];
     mkECLevel 30 [mkECBlock 23 15; mkECBlock 25 16]];
  mkVersion (Some 0x1f250) 31 [6; 30; 56; 82; 108; 134]
    [mkECLevel 30 [mkECBlock 13 115; mkECBlock 3 116];
     mkECLevel 28 [mkECBlock 2 46; mkECBlock 29 47];
     mkECLevel 30 [mkECBlock 42 24; mkECBlock 1 25];
     mkECLevel 30 [mkECBlock 23 15; mkECBlock 28 16]];
  mkVersion (Some 0x209d5) 32 [6; 34; 60; 86; 112; 138]
    [mkECLevel 30 [mkECBlock 17 115];
     mkECLevel 28 [mkECBlock 10 46; mkECBlock 23 47];
     mkECLevel 30 [mkECBlock 10 24; mkECBlock 35 25];
     mkECLevel 30 [mkECBlock 19 15; mkECBlock 35 16]];
  mkVersion (Some 0x216f0) 33 [6; 30; 58; 86; 114; 142]
    [mkECLevel 30 [mkECBlock 17 115; mkECBlock 1 116];
     mkECLevel 28 [mkECBlock 14 46; mkECBlock 21 47];
     mkECLevel 30 [mkECBlock 29 24; mkECBlock 19 25];
     mkECLevel 30 [mkECBlock 11 15; mkECBlock 46 16]];
  mkVersion (Some 0x228ba) 34 [6; 34; 62; 90; 118; 146]
    [mkECLevel 30 [mkECBlock 13 115; mkECBlock 6 116];
     mkECLevel 28 [mkECBlock 14 46; mkECBlock 23 47];
     mkECLevel 30 [mkECBlock 44 24; mkECBlock 7 25];
     mkECLevel 30 [mkECBlock 59 16; mkECBlock 1 17]];
  mkVersion (Some 0x2379f) 35 [6; 30; 54; 78; 102; 126; 150]
    [mkECLevel 30 [mkECBlock 12 121; mkECBlock 7 122];
     mkECLevel 28 [mkECBlock 12 47; mkECBlock 26 48];
     mkECLevel 30 [mkECBlock 39 24; mkECBlock 14 25];
     mkECLevel 30 [mkECBlock 22 15; mkECBlock 41 16]];
  mkVersion (Some 0x24b0b) 36 [6; 24; 50; 76; 102; 128; 154]
    [mkECLevel 30 [mkECBlock 6 121; mkECBlock 14 122];
     mkECLevel 28 [mkECBlock 6 47; mkECBlock 34 48];
     mkECLevel 30 [mkECBlock 46 24; mkECBlock 10 25];
     mkECLevel 30 [mkECBlock 2 15; mkECBlock 64 16]];
  mkVersion (Some 0x2542e) 37 [6; 28; 54; 80; 106; 132; 158]
    [mkECLevel 30 [mkECBlock 17 122; mkECBlock 4 123];
     mkECLevel 28 [mkECBlock 29 46; mkECBlock 14 47];
     mkECLevel 30 [mkECBlock 49 24; mkECBlock 10 25];
     mkECLevel 30 [mkECBlock 24 15; mkECBlock 46 16]];
  mkVersion (Some 0x26a64) 38 [6; 32; 58; 84; 110; 136; 162]
    [mkECLevel 30 [mkECBlock 4 122; mkECBlock 18 123];
     mkECLevel 28 [mkECBlock 13 46; mkECBlock 32 47];
     mkECLevel 30 [mkECBlock 48 24; mkECBlock 14 25];
     mkECLevel 30 [mkECBlock 42 15; mkECBlock 32 16]];
  mkVersion (Some 0x27541) 39 [6; 26; 54; 82; 110; 138; 166]
    [mkECLevel 30 [mkECBlock 20 117; mkECBlock 4 118];
     mkECLevel 28 [mkECBlock 40 47; mkECBlock 7 48];
     mkECLevel 30 [mkECBlock 43 24; mkECBlock 22 25];
     mkECLevel 30 [mkECBlock 10 15; mkECBlock 67 16]];
  mkVersion (Some 0x28c69) 40 [6; 30; 58; 86; 114; 142; 170]
    [mkECLevel 30 [mkECBlock 19 118; mkECBlock 6 119];
     mkECLevel 28 [mkECBlock 18 47; mkECBlock 31 48];
     mkECLevel 30 [mkECBlock 34 24; mkECBlock 34 25];
     mkECLevel 30 [mkECBlock 20 15; mkECBlock 61 16]]
].

End Version.

(** ** The decoder's blocks of codewords *)

Module DataBlocks.
Import Version.

(** A block: [{ numDataCodewords: .., codewords: [] }].  A codeword of
    [None] is the undefined that [shift] gives on an empty array. *)
Record DataBlock : Type := mkDataBlock {
  numDataCodewords : Z;
  codewords : list (option Z)
}.

(** [ecInfo.ecBlocks.forEach(..)]: the empty blocks and
    [totalCodewords]. *)
Definition newBlocks (ecInfo : ECLevel) : list DataBlock * Z :=
  fold_left (fun st block =>
               fold_left (fun st _ =>
                            (fst st ++ [mkDataBlock (dataCodewordsPerBlock block) []],
                             snd st + (dataCodewordsPerBlock block
                                       + ecCodewordsPerBlock ecInfo)))
                         (upto (Z.to_nat (numBlocks block))) st)
            (ecBlocks ecInfo) ([], 0).

(** [codewords.slice(0, end)]; a negative [end] counts from the end of
    the array. *)
Definition slice0 (codewords : list Z) (end_ : Z) : list Z :=
  if end_ <? 0 then firstn (Z.to_nat (Z.of_nat (length codewords) + end_)) codewords
  else firstn (Z.to_nat end_) codewords.

(** [codewords.shift()] *)
Definition shift (codewords : list Z) : option Z * list Z :=
  match codewords with
  | [] => (None, [])
  | c :: rest => (Some c, rest)
  end.

(** [dataBlock.codewords.push(c)] *)
Definition push (dataBlock : DataBlock) (c : option Z) : DataBlock :=
  mkDataBlock (numDataCodewords dataBlock) (codewords dataBlock ++ [c]).

(** [for (dataBlock of dataBlocks)
       dataBlock.codewords.push(codewords.shift());] *)
Fixpoint dealRound (dataBlocks : list DataBlock) (codewords : list Z)
  : list DataBlock * list Z :=
  match dataBlocks with
  | [] => ([], codewords)
  | dataBlock :: others =>
      let '(c, codewords) := shift codewords in
      let '(others, codewords) := dealRound others codewords in
      (push dataBlock c :: others, codewords)
  end.

(** [dataBlocks[smallBlockCount + i].codewords.push(codewords.shift());] *)
Definition largeStep (smallBlockCount : Z) (st : list DataBlock * list Z) (i : nat)
  : result (list DataBlock * list Z) :=
  let index := smallBlockCount + Z.of_nat i in
  match (if index <? 0 then None else nth_error (fst st) (Z.to_nat index)) with
  | None => Throw TypeError
  | Some dataBlock =>
      let '(c, codewords) := shift (snd st) in
      Ok (set_at (fst st) (Z.to_nat index) (push dataBlock c), codewords)
  end.

(** [while (codewords.length > 0) { for (dataBlock of dataBlocks) .. }];
    a turn takes a codeword when there is a block, and there is one when
    a codeword is left after [slice]. *)
Fixpoint restLoop (fuel : nat) (dataBlocks : list DataBlock) (codewords : list Z)
  : result (list DataBlock) :=
  match codewords with
  | [] => Ok dataBlocks
  | _ :: _ =>
      match fuel with
      | O => Throw OutOfFuel
      | S fuel' =>
          let '(dataBlocks, codewords) := dealRound dataBlocks codewords in
          restLoop fuel' dataBlocks codewords
      end
  end.

(** [getDataBlocks(codewords, version, ecLevel)]; [Ok None] is null. *)
Definition getDataBlocks (codewords : list Z) (version : Version) (ecLevel : Z)
  : result (option (list DataBlock)) :=
  match (if ecLevel <? 0 then None
         else nth_error (errorCorrectionLevels version) (Z.to_nat ecLevel)) with
  | None => Throw TypeError
  | Some ecInfo =>
      let '(dataBlocks, totalCodewords) := newBlocks ecInfo in
      if Z.of_nat (length codewords) <? totalCodewords then Ok None
      else
        let codewords := slice0 codewords totalCodewords in
        match ecBlocks ecInfo with
        | [] => Throw TypeError
        | first :: others =>
            let shortBlockSize := dataCodewordsPerBlock first in
            (* Pull codewords to fill the blocks up to the minimum size *)
            let st := fold_left (fun st _ => dealRound (fst st) (snd st))
                                (upto (Z.to_nat shortBlockSize))
                                (dataBlocks, codewords) in
            (* If there are any large blocks, pull codewords to fill the
               last element of those *)
            st <- match others with
                  | [] => Ok st
                  | second :: _ =>
                      let smallBlockCount := numBlocks first in
                      let largeBlockCount := numBlocks second in
                      foldM (largeStep smallBlockCount)
                            (upto (Z.to_nat largeBlockCount)) st
                  end ;;
            (* Add the rest of the codewords to the blocks *)
            dataBlocks <- restLoop (S (length (snd st))) (fst st) (snd st) ;;
            Ok (Some dataBlocks)
        end
  end.

End DataBlocks.

(** ** Version information (decoder) *)

Module VersionInfo.
Import FormatInfo.

(** The bits read beside the top-right finder pattern. *)
Definition topRightVersionBits (matrix : BitMatrix) : Z :=
  let dimension := height matrix in
  fold_left (fun bits y =>
               fold_left (fun bits x => pushBit (get matrix x y) bits)
                         (rev (zrange (dimension - 11) 3)) bits)
            (rev (zrange 0 6)) 0.

(** The bits read above the bottom-left finder pattern. *)
Definition bottomLeftVersionBits (matrix : BitMatrix) : Z :=
  let dimension := height matrix in
  fold_left (fun bits x =>
               fold_left (fun bits y => pushBit (get matrix x y) bits)
                         (rev (zrange (dimension - 11) 3)) bits)
            (rev (zrange 0 6)) 0.

(** [version.infoBits === bits]; null is no number. *)
Definition sameBits (infoBits : option Z) (bits : Z) : bool :=
  match infoBits with
  | Some b => b =? bits
  | None => false
  end.

(** [numBitsDiffering(bits, version.infoBits)]; [x ^ null] is [x ^ 0]. *)
Definition differing (bits : Z) (infoBits : option Z) : Z :=
  numBitsDiffering bits (match infoBits with Some b => b | None => 0 end).

(** The loop of [readVersion] over [VERSIONS], from the two words read;
    [bestDifference] starts as Infinity, here [None]. *)
Fixpoint matchVersion (table : list Version.Version) (topRight bottomLeft : Z)
         (bestDifference : option Z) (bestVersion : option Version.Version)
  : option Version.Version :=
  match table with
  | [] =>
      (* We can tolerate up to 3 bits of error *)
      match bestDifference with
      | Some d => if d <=? 3 then bestVersion else None
      | None => None
      end
  | version :: table' =>
      if sameBits (Version.infoBits version) topRight
         || sameBits (Version.infoBits version) bottomLeft
      then Some version
      else
        let below (d : Z) (best : option Z) :=
          match best with Some b => d <? b | None => true end in
        let difference := differing topRight (Version.infoBits version) in
        let '(bestVersion, bestDifference) :=
          if below difference bestDifference
          then (Some version, Some difference)
          else (bestVersion, bestDifference) in
        let difference := differing bottomLeft (Version.infoBits version) in
        let '(bestVersion, bestDifference) :=
          if below difference bestDifference
          then (Some version, Some difference)
          else (bestVersion, bestDifference) in
        matchVersion table' topRight bottomLeft bestDifference bestVersion
  end.

(** [readVersion(matrix)]; [None] is undefined. *)
Definition readVersion (matrix : BitMatrix) : option Version.Version :=
  let dimension := height matrix in
  let provisionalVersion := (dimension - 17) / 4 in
  if provisionalVersion <=? 6 then
    (* 6 and under dont have version info in the QR code *)
    if provisionalVersion - 1 <? 0 then None
    else nth_error Version.VERSIONS (Z.to_nat (provisionalVersion - 1))
  else
    matchVersion Version.VERSIONS (topRightVersionBits matrix)
                 (bottomLeftVersionBits matrix) None None.

End VersionInfo.

(* ================================================================== *)
(** * Part II: notions used in the statements and proofs             *)
(* ================================================================== *)

(** ** Checking a property on every byte *)

Definition byte (z : Z) : Prop := 0 <= z < 256.
Definition all_below (n : nat) (P : Z -> bool) : bool := forallb P (zrange 0 n).
Definition all_bytes (P : Z -> bool) : bool := all_below 256 P.
Definition all_bytes2 (P : Z -> Z -> bool) : bool :=
  all_bytes (fun a => all_bytes (P a)).

Definition gmul : Z -> Z -> Z := GenericGF.multiply GenericGF.QR_FIELD.
Definition gpow (n : Z) : Z := getAt (GenericGF.expTable GenericGF.QR_FIELD) (Z.to_nat n).
Definition glg (a : Z) : Z := getAt (GenericGF.logTable GenericGF.QR_FIELD) (Z.to_nat a).
Definition xtime (b : Z) : Z := if b <? 128 then 2 * b else Z.lxor (2 * b) 0x11d.

(** Horner's rule, as the loop of [evaluateAt] runs it. *)
Definition horner (a : Z) (p : list Z) (r : Z) : Z :=
  fold_left (fun r c => Z.lxor (gmul a r) c) p r.

(** [p[i] ^ q[i]] on the first [length q] places of [p]. *)
Fixpoint xor_prefix (p q : list Z) : list Z :=
  match p, q with
  | x :: p', y :: q' => Z.lxor x y :: xor_prefix p' q'
  | _, [] => p
  | [], _ => []
  end.

(** A generator polynomial as [mod] needs it: monic, with no zero
    coefficient. *)
Definition nonzero_byte (c : Z) : Prop := byte c /\ c <> 0.
Definition good_gen (e : list Z) : Prop := hd 0 e = 1 /\ Forall nonzero_byte e.

(** What is checked of [getErrorCorrectPolynomial(t)] by computation. *)
Definition gen_check (t : Z) : bool :=
  match QRUtil.getErrorCorrectPolynomial t with
  | Ok g =>
      (Z.of_nat (length g) =? t + 1) && (hd 0 g =? 1)
      && forallb (fun c => (1 <=? c) && (c <? 256)) g
      && forallb (fun s => horner (gpow s) g 0 =? 0) (zrange 0 (Z.to_nat t))
  | Throw _ => false
  end.

(** A block of the encoder as the decoder sees it: the data codewords
    followed by the error-correction codewords have the lengths that the
    table gives, and all the syndromes that [decode] computes are 0. *)
Definition codeword_block (blk : RSBlock.RSBlock) (dc_ec : list Z * list Z) : Prop :=
  let '(dc, ec) := dc_ec in
  Z.of_nat (length dc) = RSBlock.dataCount blk
  /\ Z.of_nat (length ec) = RSBlock.totalCount blk - RSBlock.dataCount blk
  /\ ReedSolomon.syndromes (dc ++ ec) (length ec) = Ok (repeat 0 (length ec)).

(** The block sizes that the proof uses, checked on the whole table. *)
Definition block_sizes_ok (blk : RSBlock.RSBlock) : bool :=
  (1 <=? RSBlock.dataCount blk)
  && (1 <=? RSBlock.totalCount blk - RSBlock.dataCount blk)
  && (RSBlock.totalCount blk - RSBlock.dataCount blk <=? 30).

Definition rs_table_check (version : Z) : bool :=
  forallb (fun ecl =>
             match RSBlock.getRSBlocks version ecl with
             | Ok blocks => negb (length blocks =? 0)%nat && forallb block_sizes_ok blocks
             | Throw _ => false
             end)
          [L; M; Q; H].

(** The buffer after the bits [bits] are written to a new one, one
    [putBit] for each. *)
Definition written (bits : list bool) : BitBuffer.BitBuffer :=
  fold_left BitBuffer.putBit bits BitBuffer.new.

(** The bits that [put(num, len)] writes. *)
Definition numBits (num : Z) (len : nat) : list bool :=
  map (fun i => Z.land (BitBuffer.ushr num (Z.of_nat len - Z.of_nat i - 1)) 1 =? 1)
      (upto len).

(** [n] padding bytes: 0xEC, 0x11, 0xEC, ... *)
Fixpoint padBytes (n : nat) : list Z :=
  match n with
  | O => []
  | S O => [0xEC]
  | S (S m) => 0xEC :: 0x11 :: padBytes m
  end.

(** The zero bits that end the data: the terminator, when four bits are
    left, and the bits up to the next byte. *)
Definition closingZeros (used : nat) (maxDataCount : Z) : nat :=
  let terminator := if Z.of_nat used + 4 <=? maxDataCount then 4%nat else 0%nat in
  (terminator + (8 - (used + terminator) mod 8) mod 8)%nat.

(** A buffer that holds whole bytes, with another buffer written after
    them. *)
Definition after (p : list Z) (b : BitBuffer.BitBuffer) : BitBuffer.BitBuffer :=
  BitBuffer.mkBitBuffer (8 * length p + BitBuffer.length b) (p ++ BitBuffer.buffer b).

(** [put(v, 8)] on a new buffer stores the byte [v], checked for every
    byte. *)
Definition all_bytes_put : bool :=
  forallb (fun v => match BitBuffer.put BitBuffer.new v 8 with
                    | BitBuffer.mkBitBuffer 8 [w] => v =? w
                    | _ => false
                    end) (zrange 0 256).

(** A buffer whose length is a whole number of bytes. *)
Definition aligned (b : BitBuffer.BitBuffer) : Prop :=
  BitBuffer.length b = (8 * length (BitBuffer.buffer b))%nat.

(** [b'] is [b] with more bits written. *)
Definition extends (b b' : BitBuffer.BitBuffer) : Prop :=
  exists bs, b' = fold_left BitBuffer.putBit bs b.

(** What is checked of [inverse] on one byte. *)
Definition inverse_check (a : Z) : bool :=
  match GenericGFInverse.inverse GenericGF.QR_FIELD a with
  | Some i => negb (a =? 0) && (0 <=? i) && (i <? 256)
              && (GenericGF.multiply GenericGF.QR_FIELD a i =? 1)
  | None => a =? 0
  end.

(** What is checked of the Kanji mappings on the two bytes of a code. *)
Definition kanji_check (b0 b1 : Z) : bool :=
  let code := b0 * 256 + b1 in
  match kanjiValue b0 b1 with
  | Ok k =>
      (((0x8140 <=? code) && (code <=? 0x9ffc)) || ((0xe040 <=? code) && (code <=? 0xebbf)))
      && (0 <=? k) && (k <? 2 ^ 13)
      && ((b1 <? 0x40)
          || ((fst (Decoder.kanjiBytes k) =? b0) && (snd (Decoder.kanjiBytes k) =? b1)))
  | Throw e =>
      negb (((0x8140 <=? code) && (code <=? 0x9ffc)) || ((0xe040 <=? code) && (code <=? 0xebbf)))
  end.

(** The number of bits set among the [k] lowest bits of [z]. *)
Fixpoint popbits (k : nat) (z : Z) : Z :=
  match k with
  | O => 0
  | S k' => (if Z.testbit z (Z.of_nat k') then 1 else 0) + popbits k' z
  end.

(** [P] on every word of [k] bits after the bits of [acc]. *)
Fixpoint all_words (k : nat) (acc : Z) (P : Z -> bool) : bool :=
  match k with
  | O => P acc
  | S k' => all_words k' (2 * acc) P && all_words k' (2 * acc + 1) P
  end.

(** The entries of the format table: words of 15 bits, any two of them
    at least 7 bits apart, and the level and mask of an entry found in no
    other. *)
Definition format_table_check : bool :=
  forallb (fun e =>
    (0 <=? fst e) && (fst e <? 2 ^ 15)
    && forallb (fun e' =>
         (fst e =? fst e')
         || ((7 <=? FormatInfo.numBitsDiffering (fst e) (fst e'))
             && negb ((FormatInfo.errorCorrectionLevel (snd e)
                       =? FormatInfo.errorCorrectionLevel (snd e'))
                      && (FormatInfo.dataMask (snd e) =? FormatInfo.dataMask (snd e')))))
       FormatInfo.FORMAT_INFO_TABLE)
    FormatInfo.FORMAT_INFO_TABLE.

(** The place of a level in the [errorCorrectionLevels] of the decoder's
    versions, by which the format table names it. *)
Definition ecl_index (ecl : ErrorCorrectLevel) : Z :=
  match ecl with L => 0 | M => 1 | Q => 2 | H => 3 end.

(** Whether the prepared data fits the capacity, as [make] tests it. *)
Definition fits (p : Prepared) : Prop :=
  BitBuffer.getLengthInBits (p_buffer p) <= p_maxDataCount p.

(** Whether a module is set, and the modules of a matrix that are. *)
Definition is_set (c : Matrix.cell) : bool :=
  match c with Some _ => true | None => false end.
Definition shape (modules : Matrix.Modules) : list (list bool) :=
  map (map is_set) modules.
Definition same_shape (m1 m2 : Matrix.Modules) : Prop := shape m1 = shape m2.

(** Two results that are both values, related by [R], or both throws. *)
Definition alike {A : Type} (R : A -> A -> Prop) (r1 r2 : result A) : Prop :=
  match r1, r2 with
  | Ok a, Ok b => R a b
  | Throw _, Throw _ => True
  | _, _ => False
  end.

(** Two states of [mapData] that differ only in the colours of the
    modules. *)
Definition same_state (s1 s2 : Matrix.MapState) : Prop :=
  same_shape (Matrix.ms_modules s1) (Matrix.ms_modules s2)
  /\ Matrix.ms_inc s1 = Matrix.ms_inc s2
  /\ Matrix.ms_bitIndex s1 = Matrix.ms_bitIndex s2
  /\ Matrix.ms_byteIndex s1 = Matrix.ms_byteIndex s2
  /\ Matrix.ms_row s1 = Matrix.ms_row s2.

(** A matrix of [n] rows of [n] modules. *)
Definition square (n : nat) (modules : Matrix.Modules) : Prop :=
  length modules = n /\ Forall (fun r => length r = n) modules.

(** A matrix with no module left [null]. *)
Definition full (modules : Matrix.Modules) : Prop :=
  Forall (Forall (fun c : Matrix.cell => c <> None)) modules.

(** The matrix of a version with an empty data array: all its modules
    are set, in as many rows and columns as the version has. *)
Definition layout_check (version : Z) : bool :=
  let n := Z.to_nat (version * 4 + 17) in
  match Matrix.makeImpl version (version * 4 + 17) L true [] 0 with
  | Ok modules =>
      (length modules =? n)%nat
      && forallb (fun row => (length row =? n)%nat && forallb is_set row) modules
  | Throw _ => false
  end.

(** The score of a mask, as a turn of [getBestMaskPattern] computes it:
    the penalty of the matrix that [makeImpl] builds with the test flag. *)
Definition maskScore (version moduleCount : Z) (ecl : ErrorCorrectLevel)
           (data : list Z) (i : Z) : result Z :=
  modules <- Matrix.makeImpl version moduleCount ecl true data i ;;
  Penalty.getPenaltyScore moduleCount modules.

(** The state of [getBestMaskPattern] after the masks below [lo]: the
    first of them with the least score. *)
Definition best_below (version moduleCount : Z) (ecl : ErrorCorrectLevel)
           (data : list Z) (lo : Z) (st : Z * Z * Matrix.Modules) : Prop :=
  let '(pattern, minimum, _) := st in
  0 <= pattern < lo
  /\ maskScore version moduleCount ecl data pattern = Ok minimum
  /\ forall i, 0 <= i < lo ->
       exists score, maskScore version moduleCount ecl data i = Ok score
                     /\ minimum <= score /\ (score = minimum -> pattern <= i).

(** The bit at the place [p] of an array of bytes, the most significant
    bit of a byte first. *)
Definition bitAt (bytes : list Z) (p : Z) : bool :=
  Z.testbit (getAt bytes (Z.to_nat (p / 8))) (7 - p mod 8).

(** The place of a stream in its bytes, in bits. *)
Definition position (s : BitStream.BitStream) : Z :=
  8 * Z.of_nat (BitStream.byteOffset s) + BitStream.bitOffset s.

(** [r] is the number of [w] bits that the bits before the place [p]
    spell. *)
Definition holds (bytes : list Z) (r w p : Z) : Prop :=
  0 <= r < 2 ^ w
  /\ forall j, 0 <= j -> Z.testbit r j = (j <? w) && bitAt bytes (p - 1 - j).

(** The stream over [bytes] that is at their bit [p]. *)
Definition streamAt (bytes : list Z) (p : nat) : BitStream.BitStream :=
  BitStream.mkBitStream bytes (p / 8) (Z.of_nat (p mod 8)).

(** A decimal digit, as a code unit. *)
Definition digit (c : Z) : Prop := 48 <= c <= 57.

(** The statements of [decodeNumeric] after the count is read. *)
Definition numericDigits (fuel : nat) (length : Z) (acc : Decoder.Partial)
  : result (list Z * list Z * BitStream.BitStream) :=
  r <- Decoder.numericTriples fuel length acc ;;
  let '(length, (bytes, text, stream)) := r in
  if length =? 2 then
    r <- BitStream.readBits stream 7 ;;
    let '(num, stream) := r in
    if num >=? 100 then Throw (InvalidNumeric 99)
    else
      let a := num / 10 in
      let b := Z.rem num 10 in
      Ok (bytes ++ [48 + a; 48 + b], text ++ [48 + a; 48 + b], stream)
  else if length =? 1 then
    r <- BitStream.readBits stream 4 ;;
    let '(num, stream) := r in
    if num >=? 10 then Throw (InvalidNumeric 9)
    else Ok (bytes ++ [48 + num], text ++ [48 + num], stream)
  else Ok (bytes, text, stream).

(** A character that the alphanumeric mode has a code for. *)
Definition alphanumeric (c : Z) : Prop := exists k, QRAlphanumeric.getCode c = Ok k.

(** The code of a character, and the character of that code in the
    table of the decoder. *)
Definition getCode_check (c : Z) : bool :=
  match QRAlphanumeric.getCode c with
  | Ok k =>
      (0 <=? k) && (k <? 45)
      && match Decoder.alphanumericCode k with
         | Ok c' => c' =? c
         | Throw _ => false
         end
  | Throw _ => true
  end.

(** The statements of [decodeAlphanumeric] after the count is read. *)
Definition alphanumericChars (fuel : nat) (length : Z) (acc : Decoder.Partial)
  : result (list Z * list Z * BitStream.BitStream) :=
  r <- Decoder.alphanumericPairs fuel length acc ;;
  let '(length, (bytes, text, stream)) := r in
  if length =? 1 then
    r <- BitStream.readBits stream 6 ;;
    let '(v, stream) := r in
    a <- Decoder.alphanumericCode v ;;
    Ok (bytes ++ [a], text ++ [a], stream)
  else Ok (bytes, text, stream).

(** A UTF-16 code unit. *)
Definition codeUnit (c : Z) : Prop := 0 <= c < 65536.

(** The size class of a version, as [decode$1] computes it. *)
Definition sizeOf (version : Z) : nat :=
  if version <=? 9 then 0%nat else if version <=? 26 then 1%nat else 2%nat.

(** The bits of bytes written with [put(byte, 8)] each. *)
Definition byteBits (bs : list Z) : list bool := flat_map (fun x => numBits x 8) bs.

(** A segment that the decoder can read back: digits, characters of the
    alphanumeric mode or UTF-16 code units, as many as the count of the
    version can tell. *)
Definition readable (version : Z) (d : QRData) : Prop :=
  match getMode d with
  | Numeric =>
      Forall digit (getData d)
      /\ Z.of_nat (length (getData d)) < 2 ^ nth (sizeOf version) [10; 12; 14] 0
  | Alphanumeric =>
      Forall alphanumeric (getData d)
      /\ Z.of_nat (length (getData d)) < 2 ^ nth (sizeOf version) [9; 11; 13] 0
  | Byte =>
      Forall codeUnit (getData d)
      /\ Z.of_nat (length (UTF8 (getData d))) < 2 ^ nth (sizeOf version) [8; 16; 16] 0
  | Kanji => False
  end.

(** What the decoder adds to its result for a segment. *)
Definition segmentBytes (d : QRData) : list Z :=
  match getMode d with
  | Byte => UTF8 (getData d)
  | _ => getData d
  end.

Definition segmentChunk (d : QRData) : Decoder.Chunk :=
  match getMode d with
  | Numeric => Decoder.ChunkNumeric (getData d)
  | Alphanumeric => Decoder.ChunkAlphanumeric (getData d)
  | _ => Decoder.ChunkByte (UTF8 (getData d)) (getData d)
  end.

Definition decoded (res : Decoder.DecodeResult) (d : QRData) : Decoder.DecodeResult :=
  Decoder.mkDecodeResult (Decoder.text res ++ getData d)
                         (Decoder.bytes res ++ segmentBytes d)
                         (Decoder.chunks res ++ [segmentChunk d]).

(** The body of the loop of [prepareData]. *)
Definition prepareStep (tbl : Z -> option Z) (version : Z)
           (buffer : BitBuffer.BitBuffer) (data : QRData) : result BitBuffer.BitBuffer :=
  let buffer := BitBuffer.put buffer (mode_value (getMode data)) 4 in
  len <- getLength tbl data ;;
  bits <- getLengthInBits (getMode data) version ;;
  write tbl data (BitBuffer.put buffer len bits).

(** The numbers of codewords of a list of blocks. *)
Definition totalCodewords (rsBlocks : list RSBlock.RSBlock) : Z :=
  fold_left (fun acc blk => acc + RSBlock.totalCount blk) rsBlocks 0.
Definition dataCodewords (rsBlocks : list RSBlock.RSBlock) : Z :=
  fold_left (fun acc blk => acc + RSBlock.dataCount blk) rsBlocks 0.

(** The state of the first loop of [createBytes] after some blocks:
    the data blocks are the bytes of the buffer so far, in order, and the
    counters are what the blocks make them. *)
Definition blocks_state (buffer : list Z) (st : QRCodeData.Blocks) : Prop :=
  concat (QRCodeData.dcData st)
  = map (fun i => Z.land 0xff (getAt buffer i)) (upto (QRCodeData.offset st))
  /\ length (QRCodeData.dcData st) = length (QRCodeData.ecData st)
  /\ Forall (fun dc => Z.of_nat (length dc) <= QRCodeData.maxDcCount st)
            (QRCodeData.dcData st)
  /\ Forall (fun ec => Z.of_nat (length ec) <= QRCodeData.maxEcCount st)
            (QRCodeData.ecData st)
  /\ Z.of_nat (length (concat (QRCodeData.dcData st)))
     + Z.of_nat (length (concat (QRCodeData.ecData st)))
     = QRCodeData.maxTotalCount st
  /\ 0 <= QRCodeData.maxDcCount st /\ 0 <= QRCodeData.maxEcCount st.

(** The blocks of the encoder that an entry of the decoder's table
    stands for. *)
Definition expand (ecInfo : Version.ECLevel) : list RSBlock.RSBlock :=
  flat_map (fun g =>
              repeat (RSBlock.mkRSBlock
                        (Version.dataCodewordsPerBlock g + Version.ecCodewordsPerBlock ecInfo)
                        (Version.dataCodewordsPerBlock g))
                     (Z.to_nat (Version.numBlocks g)))
           (Version.ecBlocks ecInfo).

Definition rsBlock_eqb (a b : RSBlock.RSBlock) : bool :=
  (RSBlock.totalCount a =? RSBlock.totalCount b)
  && (RSBlock.dataCount a =? RSBlock.dataCount b).

Fixpoint rsBlocks_eqb (l l' : list RSBlock.RSBlock) : bool :=
  match l, l' with
  | [], [] => true
  | a :: l, b :: l' => rsBlock_eqb a b && rsBlocks_eqb l l'
  | _, _ => false
  end.

(** One group of blocks, or two of which the second has one more data
    codeword in a block; no negative count. *)
Definition groups_ok (groups : list Version.ECBlock) : bool :=
  match groups with
  | [g] => (0 <=? Version.dataCodewordsPerBlock g) && (0 <=? Version.numBlocks g)
  | [g0; g1] =>
      (0 <=? Version.dataCodewordsPerBlock g0) && (0 <=? Version.numBlocks g0)
      && (0 <=? Version.numBlocks g1)
      && (Version.dataCodewordsPerBlock g1 =? Version.dataCodewordsPerBlock g0 + 1)
  | _ => false
  end.

(** The entry of the decoder's table for a version names the version
    and, at the place of each level, the blocks of the encoder's table. *)
Definition version_table_check (version : Z) : bool :=
  match nth_error Version.VERSIONS (Z.to_nat (version - 1)) with
  | None => false
  | Some v =>
      (Version.versionNumber v =? version)
      && forallb (fun ecl =>
           match nth_error (Version.errorCorrectionLevels v) (Z.to_nat (ecl_index ecl)),
                 RSBlock.getRSBlocks version ecl with
           | Some ecInfo, Ok rsBlocks =>
               rsBlocks_eqb rsBlocks (expand ecInfo)
               && groups_ok (Version.ecBlocks ecInfo)
               && (0 <=? Version.ecCodewordsPerBlock ecInfo)
           | _, _ => false
           end) [L; M; Q; H]
  end.

(** The number of bits set in a positive number, and in an integer that
    is not negative. *)
Fixpoint pop (p : positive) : Z :=
  match p with
  | xH => 1
  | xO q => pop q
  | xI q => 1 + pop q
  end.

Definition popZ (z : Z) : Z :=
  match z with
  | Zpos p => pop p
  | _ => 0
  end.

(** The word of a version in the decoder's table is the one that the
    encoder computes, has 18 bits, and is at least 7 bits away from the
    word of every other entry, an entry without word counting as 0. *)
Definition version_info_check (version : Z) : bool :=
  match nth_error Version.VERSIONS (Z.to_nat (version - 1)) with
  | Some v =>
      match Version.infoBits v, BCH.getBCHVersion version with
      | Some b, Ok bits =>
          (b =? bits) && (0 <=? b) && (b <? 2 ^ 18)
          && (Version.versionNumber v =? version)
          && forallb (fun e =>
                        let w := match Version.infoBits e with Some w => w | None => 0 end in
                        (0 <=? w) && (w <? 2 ^ 18)
                        && (7 <=? FormatInfo.numBitsDiffering w b))
                     (firstn (Z.to_nat (version - 1)) Version.VERSIONS
                      ++ skipn (S (Z.to_nat (version - 1))) Version.VERSIONS)
      | _, _ => false
      end
  | None => false
  end.

(** The entries of the versions 1 to 6 name their versions. *)
Definition small_version_check (version : Z) : bool :=
  match nth_error Version.VERSIONS (Z.to_nat (version - 1)) with
  | Some v => Version.versionNumber v =? version
  | None => false
  end.

Fixpoint zs_eqb (l l' : list Z) : bool :=
  match l, l' with
  | [], [] => true
  | a :: l, b :: l' => if a =? b then zs_eqb l l' else false
  | _, _ => false
  end.

(** The centres of the alignment patterns of a version in the decoder's
    table are those of the encoder's table, but for version 23, where the
    decoder has 74 and the encoder 78. *)
Definition alignment_check (version : Z) : bool :=
  match nth_error Version.VERSIONS (Z.to_nat (version - 1)), getAlignmentPattern version with
  | Some v, Some pos =>
      (Version.versionNumber v =? version)
      && (if version =? 23
          then zs_eqb pos [6; 30; 54; 78; 102]
               && zs_eqb (Version.alignmentPatternCenters v) [6; 30; 54; 74; 102]
          else zs_eqb pos (Version.alignmentPatternCenters v))
  | _, _ => false
  end.


(** [characterCountSize] of [decodeNumeric], [decodeAlphanumeric],
    [decodeByte] and [decodeKanji]. *)
Definition characterCountSize (mode : Mode) (size : nat) : Z :=
  match mode with
  | Numeric => nth size [10; 12; 14] 0
  | Alphanumeric => nth size [9; 11; 13] 0
  | Byte => nth size [8; 16; 16] 0
  | Kanji => nth size [8; 10; 12] 0
  end.

(** What [decode$1] has in [result] after the segments of a list. *)
Definition gathered (dataList : list QRData) : Decoder.DecodeResult :=
  Decoder.mkDecodeResult (concat (map getData dataList))
                         (concat (map segmentBytes dataList))
                         (map segmentChunk dataList).

(** The sum of a list of integers. *)
Definition zsum (l : list Z) : Z := fold_right Z.add 0 l.

(** Whether the module of a matrix at a row and a column is dark. *)
Definition dark (modules : Matrix.Modules) (row col : Z) : bool :=
  match nth (Z.to_nat col) (nth (Z.to_nat row) modules []) None with
  | Some b => b
  | None => false
  end.

(** An index inside a matrix of [n] rows and columns. *)
Definition inside (n x : Z) : bool := (0 <=? x) && (x <? n).

(** The neighbours of a module in its 3 x 3 window that are inside the
    matrix: at most eight. *)
Definition neighbours (n row col : Z) : list (Z * Z) :=
  filter (fun p => inside n (fst p) && inside n (snd p))
         (map (fun d => (row + fst d, col + snd d))
              [(-1, -1); (-1, 0); (-1, 1); (0, -1); (0, 1); (1, -1); (1, 0); (1, 1)]).

(** How many neighbours of a module have its colour. *)
Definition sameColour (n : Z) (modules : Matrix.Modules) (row col : Z) : Z :=
  Z.of_nat (length (filter (fun p => Bool.eqb (dark modules row col)
                                              (dark modules (fst p) (snd p)))
                           (neighbours n row col))).

(** What a module with [k] neighbours of its colour adds to the score. *)
Definition windowPenalty (k : Z) : Z := if k >? 5 then 3 + k - 5 else 0.

(** The lengths of the maximal runs of equal modules of a line, the
    first run begun with [len] modules of the colour [current]. *)
Fixpoint runsFrom (current : bool) (len : nat) (l : list bool) : list nat :=
  match l with
  | [] => [len]
  | b :: l' =>
      if Bool.eqb b current then runsFrom current (S len) l'
      else len :: runsFrom b 1 l'
  end.

Definition runs (l : list bool) : list nat :=
  match l with
  | [] => []
  | b :: l' => runsFrom b 1 l'
  end.

(** Rule 1 in the words of the standard, for one line: each maximal run
    of 5 or more modules adds 3 + (run length - 5). *)
Definition runPenalty (l : list bool) : Z :=
  zsum (map (fun len => if (5 <=? len)%nat then 3 + (Z.of_nat len - 5) else 0) (runs l)).

(** The same over every row and every column of a matrix. *)
Definition rule1_runs (n : nat) (modules : Matrix.Modules) : Z :=
  zsum (map (fun row => runPenalty (map (fun col => dark modules row col) (zrange 0 n)))
            (zrange 0 n))
  + zsum (map (fun col => runPenalty (map (fun row => dark modules row col) (zrange 0 n)))
              (zrange 0 n)).

(** Six rows of six dark modules; five rows of five modules, dark and
    light rows in turn. *)
Definition all_dark_6 : Matrix.Modules := repeat (repeat (Some true) 6) 6.

Definition stripes_5 : Matrix.Modules :=
  [repeat (Some true) 5; repeat (Some false) 5; repeat (Some true) 5;
   repeat (Some false) 5; repeat (Some true) 5].

(* ================================================================== *)
(** * Part III: properties                                            *)
(* ================================================================== *)

Lemma in_zrange lo n z : In z (zrange lo n) <-> lo <= z < lo + Z.of_nat n.
Proof.
  unfold zrange. rewrite in_map_iff. split.
  - intros [i [<- Hi]]. apply in_seq in Hi. lia.
  - intros Hz. exists (Z.to_nat (z - lo)). split; [lia|]. apply in_seq. lia.
Qed.

Lemma all_below_spec n P :
  all_below n P = true -> forall a, 0 <= a < Z.of_nat n -> P a = true.
Proof.
  unfold all_below. intros H a Ha. rewrite forallb_forall in H.
  apply H. apply in_zrange. lia.
Qed.

Lemma all_bytes_spec P : all_bytes P = true -> forall a, byte a -> P a = true.
Proof. intros H a Ha. apply (all_below_spec 256 P H). exact Ha. Qed.

Lemma all_bytes2_spec P :
  all_bytes2 P = true -> forall a b, byte a -> byte b -> P a b = true.
Proof.
  intros H a b Ha Hb. unfold all_bytes2 in H.
  apply (all_bytes_spec _ (all_bytes_spec _ H a Ha) b Hb).
Qed.

Lemma tables_agree :
  QRMath.EXP_TABLE = GenericGF.expTable GenericGF.QR_FIELD
  /\ QRMath.LOG_TABLE = GenericGF.logTable GenericGF.QR_FIELD.
Proof. split; vm_compute; reflexivity. Qed.

Lemma tables_from_loops :
  QRMath.EXP_TABLE = QRMath.EXP_TABLE_loop /\ QRMath.LOG_TABLE = QRMath.LOG_TABLE_loop
  /\ GenericGF.QR_FIELD = GenericGF.QR_FIELD_new.
Proof. vm_compute. auto. Qed.

Lemma gpow_glg k :
  0 <= k < 255 -> byte (gpow k) /\ gpow k <> 0 /\ glg (gpow k) = k.
Proof.
  intros Hk.
  assert (H : ((0 <=? gpow k) && (gpow k <? 256) && negb (gpow k =? 0)
               && (glg (gpow k) =? k)) = true).
  { apply (all_below_spec 255
             (fun k => (0 <=? gpow k) && (gpow k <? 256) && negb (gpow k =? 0)
                       && (glg (gpow k) =? k)));
      [vm_compute; reflexivity | lia]. }
  unfold byte. lia.
Qed.

Lemma glg_gpow a :
  byte a -> a <> 0 -> 0 <= glg a < 255 /\ gpow (glg a) = a.
Proof.
  intros Ha Hnz.
  assert (H : ((a =? 0) || ((0 <=? glg a) && (glg a <? 255) && (gpow (glg a) =? a)))
              = true).
  { apply (all_bytes_spec
             (fun a => (a =? 0) || ((0 <=? glg a) && (glg a <? 255)
                                     && (gpow (glg a) =? a))));
      [vm_compute; reflexivity | assumption]. }
  lia.
Qed.

Lemma lxor_byte a b : byte a -> byte b -> byte (Z.lxor a b).
Proof.
  intros Ha Hb.
  assert (H : ((0 <=? Z.lxor a b) && (Z.lxor a b <? 256)) = true).
  { apply (all_bytes2_spec (fun a b => (0 <=? Z.lxor a b) && (Z.lxor a b <? 256)));
      [vm_compute; reflexivity | assumption | assumption]. }
  unfold byte. lia.
Qed.

Lemma gmul_nz a b :
  byte a -> byte b -> a <> 0 -> b <> 0 ->
  gmul a b = gpow ((glg a + glg b) mod 255).
Proof.
  intros Ha Hb Hza Hzb. unfold gmul, GenericGF.multiply.
  destruct (Z.eqb_spec a 0); [contradiction|].
  destruct (Z.eqb_spec b 0); [contradiction|]. simpl orb. cbv iota.
  change (GenericGF.size GenericGF.QR_FIELD - 1) with 255.
  destruct (glg_gpow a Ha Hza) as [Hla _]. destruct (glg_gpow b Hb Hzb) as [Hlb _].
  fold (glg a). fold (glg b).
  rewrite Z.rem_mod_nonneg by lia. reflexivity.
Qed.

Lemma gmul_0_l b : gmul 0 b = 0.
Proof. reflexivity. Qed.

Lemma gmul_0_r a : gmul a 0 = 0.
Proof. unfold gmul, GenericGF.multiply. rewrite orb_true_r. reflexivity. Qed.

Lemma gmul_comm a b : gmul a b = gmul b a.
Proof.
  unfold gmul, GenericGF.multiply. rewrite orb_comm, Z.add_comm. reflexivity.
Qed.

Lemma gmul_byte a b : byte a -> byte b -> byte (gmul a b).
Proof.
  intros Ha Hb.
  destruct (Z.eq_dec a 0) as [->|Hza]; [rewrite gmul_0_l; unfold byte; lia|].
  destruct (Z.eq_dec b 0) as [->|Hzb]; [rewrite gmul_0_r; unfold byte; lia|].
  rewrite gmul_nz by assumption.
  apply gpow_glg. apply Z.mod_pos_bound. lia.
Qed.

Lemma gmul_nonzero a b : byte a -> byte b -> a <> 0 -> b <> 0 -> gmul a b <> 0.
Proof.
  intros Ha Hb Hza Hzb. rewrite gmul_nz by assumption.
  apply gpow_glg. apply Z.mod_pos_bound. lia.
Qed.

Lemma glg_gmul a b :
  byte a -> byte b -> a <> 0 -> b <> 0 -> glg (gmul a b) = (glg a + glg b) mod 255.
Proof.
  intros Ha Hb Hza Hzb. rewrite gmul_nz by assumption.
  apply gpow_glg. apply Z.mod_pos_bound. lia.
Qed.

(** Multiplication is associative; the form used below exchanges two
    factors. *)
Lemma gmul_assoc a b c :
  byte a -> byte b -> byte c -> gmul a (gmul b c) = gmul (gmul a b) c.
Proof.
  intros Ha Hb Hc.
  destruct (Z.eq_dec a 0) as [->|Hza]; [reflexivity|].
  destruct (Z.eq_dec b 0) as [->|Hzb]; [rewrite gmul_0_l, gmul_0_r; reflexivity|].
  destruct (Z.eq_dec c 0) as [->|Hzc]; [rewrite !gmul_0_r; reflexivity|].
  rewrite (gmul_nz a (gmul b c)), (gmul_nz (gmul a b) c);
    auto using gmul_byte, gmul_nonzero.
  rewrite !glg_gmul by assumption.
  rewrite Z.add_mod_idemp_r, Z.add_mod_idemp_l by lia.
  rewrite Z.add_assoc. reflexivity.
Qed.

Lemma gmul_swap a s x :
  byte a -> byte s -> byte x -> gmul a (gmul s x) = gmul s (gmul a x).
Proof.
  intros Ha Hs Hx.
  rewrite !gmul_assoc by assumption. rewrite (gmul_comm a s). reflexivity.
Qed.

Lemma gmul_2 b : byte b -> gmul 2 b = xtime b.
Proof.
  intros Hb. apply Z.eqb_eq.
  apply (all_bytes_spec (fun b => gmul 2 b =? xtime b));
    [vm_compute; reflexivity | assumption].
Qed.

Lemma xtime_lxor b c :
  byte b -> byte c -> xtime (Z.lxor b c) = Z.lxor (xtime b) (xtime c).
Proof.
  intros Hb Hc. apply Z.eqb_eq.
  apply (all_bytes2_spec (fun b c => xtime (Z.lxor b c) =? Z.lxor (xtime b) (xtime c)));
    [vm_compute; reflexivity | assumption | assumption].
Qed.

Lemma gmul_1_l b : byte b -> gmul 1 b = b.
Proof.
  intros Hb. apply Z.eqb_eq.
  apply (all_bytes_spec (fun b => gmul 1 b =? b));
    [vm_compute; reflexivity | assumption].
Qed.

Lemma gpow_succ k : 0 <= k < 254 -> gpow (k + 1) = gmul 2 (gpow k).
Proof.
  intros Hk. apply Z.eqb_eq.
  apply (all_below_spec 254 (fun k => gpow (k + 1) =? gmul 2 (gpow k)));
    [vm_compute; reflexivity | lia].
Qed.

Lemma gmul_gpow_lxor (n : nat) :
  (n < 255)%nat -> forall b c, byte b -> byte c ->
  gmul (gpow (Z.of_nat n)) (Z.lxor b c)
  = Z.lxor (gmul (gpow (Z.of_nat n)) b) (gmul (gpow (Z.of_nat n)) c).
Proof.
  induction n as [|n IH]; intros Hn b c Hb Hc.
  - change (gpow (Z.of_nat 0)) with 1.
    rewrite !gmul_1_l by auto using lxor_byte. reflexivity.
  - assert (Hp : byte (gpow (Z.of_nat n))) by (apply gpow_glg; lia).
    replace (Z.of_nat (S n)) with (Z.of_nat n + 1) by lia.
    rewrite gpow_succ by lia.
    assert (H2 : byte 2) by (unfold byte; lia).
    rewrite <- !gmul_assoc by auto using lxor_byte.
    rewrite IH by (assumption || lia).
    rewrite !gmul_2 by auto using lxor_byte, gmul_byte.
    apply xtime_lxor; auto using gmul_byte.
Qed.

Lemma gmul_lxor a b c :
  byte a -> byte b -> byte c ->
  gmul a (Z.lxor b c) = Z.lxor (gmul a b) (gmul a c).
Proof.
  intros Ha Hb Hc.
  destruct (Z.eq_dec a 0) as [->|Hza]; [reflexivity|].
  destruct (glg_gpow a Ha Hza) as [Hl He].
  rewrite <- He. rewrite <- (Z2Nat.id (glg a)) by lia.
  apply gmul_gpow_lxor; auto. lia.
Qed.

Lemma byte_0 : byte 0.
Proof. unfold byte; lia. Qed.

Create HintDb gf.
#[local] Hint Resolve byte_0 gmul_byte lxor_byte : gf.

Lemma lxor_4 a b c d :
  Z.lxor (Z.lxor a b) (Z.lxor c d) = Z.lxor (Z.lxor a c) (Z.lxor b d).
Proof.
  rewrite !Z.lxor_assoc. f_equal. rewrite <- !Z.lxor_assoc. f_equal.
  apply Z.lxor_comm.
Qed.

Lemma xor_prefix_nil p : xor_prefix p [] = p.
Proof. destruct p; reflexivity. Qed.

Lemma horner_app a p q r : horner a (p ++ q) r = horner a q (horner a p r).
Proof. unfold horner. apply fold_left_app. Qed.

Lemma horner_byte a p : byte a -> Forall byte p -> forall r, byte r -> byte (horner a p r).
Proof.
  intros Ha Hp. induction Hp as [|x p Hx Hp IH]; intros r Hr; simpl; auto with gf.
Qed.

Lemma horner_zeros a k : horner a (repeat 0 k) 0 = 0.
Proof.
  induction k as [|k IH]; simpl; [reflexivity|]. rewrite gmul_0_r. exact IH.
Qed.

Lemma horner_skip_zeros a p : horner a (Polynomial.skip_zeros p) 0 = horner a p 0.
Proof.
  induction p as [|x p IH]; simpl; [reflexivity|].
  destruct (Z.eqb_spec x 0) as [->|Hx]; [|reflexivity].
  rewrite gmul_0_r. exact IH.
Qed.

Lemma horner_xor_prefix a : byte a -> forall p q r1 r2,
  Forall byte p -> Forall byte q -> byte r1 -> byte r2 ->
  (length q <= length p)%nat ->
  horner a (xor_prefix p q) (Z.lxor r1 r2)
  = Z.lxor (horner a p r1) (horner a (q ++ repeat 0 (length p - length q)) r2).
Proof.
  intros Ha p. induction p as [|x p IH]; intros q r1 r2 Hp Hq Hr1 Hr2 Hlen.
  - destruct q; simpl in *; [reflexivity | lia].
  - inversion Hp as [|? ? Hx Hp']; subst.
    destruct q as [|y q].
    + rewrite xor_prefix_nil. simpl. rewrite gmul_lxor by assumption.
      replace (Z.lxor (Z.lxor (gmul a r1) (gmul a r2)) x)
        with (Z.lxor (Z.lxor (gmul a r1) x) (Z.lxor (gmul a r2) 0))
        by (rewrite lxor_4, Z.lxor_0_r; reflexivity).
      rewrite <- (xor_prefix_nil p) at 1.
      rewrite (IH [] _ _ Hp' (Forall_nil _)); auto with gf.
      * simpl. rewrite Nat.sub_0_r. reflexivity.
      * simpl. lia.
    + inversion Hq as [|? ? Hy Hq']; subst. simpl.
      rewrite gmul_lxor by assumption. rewrite lxor_4.
      apply IH; auto with gf. simpl in Hlen. lia.
Qed.

Lemma horner_scale a s : byte a -> byte s -> forall p r,
  Forall byte p -> byte r ->
  horner a (map (gmul s) p) (gmul s r) = gmul s (horner a p r).
Proof.
  intros Ha Hs p. induction p as [|x p IH]; intros r Hp Hr; simpl; [reflexivity|].
  inversion Hp as [|? ? Hx Hp']; subst.
  rewrite gmul_swap by assumption. rewrite <- gmul_lxor by auto with gf.
  apply IH; auto with gf.
Qed.

(** Subtracting a multiple of a polynomial that vanishes at [a] does not
    change the value at [a]. *)
Lemma horner_subtract_multiple a s this e :
  byte a -> byte s -> Forall byte this -> Forall byte e ->
  (length e <= length this)%nat ->
  horner a e 0 = 0 ->
  horner a (xor_prefix this (map (gmul s) e)) 0 = horner a this 0.
Proof.
  intros Ha Hs Ht He Hlen Hroot.
  assert (Hme : Forall byte (map (gmul s) e)).
  { apply Forall_map. eapply Forall_impl; [|exact He]. auto with gf. }
  replace 0 with (Z.lxor 0 0) at 1 by reflexivity.
  rewrite horner_xor_prefix; auto with gf; [|rewrite length_map; exact Hlen].
  rewrite horner_app.
  pose proof (horner_scale a s Ha Hs e 0 He byte_0) as Hsc.
  rewrite gmul_0_r in Hsc. rewrite Hsc, Hroot, gmul_0_r, horner_zeros.
  apply Z.lxor_0_r.
Qed.

Lemma glog_ok c : byte c -> c <> 0 -> QRMath.glog c = Ok (glg c).
Proof.
  intros Hc Hnz. unfold QRMath.glog, glg.
  destruct (Z.ltb_spec c 1); [unfold byte in Hc; lia|].
  destruct tables_agree as [_ ->]. reflexivity.
Qed.

Lemma gexp_gpow n : 0 <= n < 509 -> QRMath.gexp n = gpow (n mod 255).
Proof.
  intros Hn. apply Z.eqb_eq.
  apply (all_below_spec 509 (fun n => QRMath.gexp n =? gpow (n mod 255)));
    [vm_compute; reflexivity | lia].
Qed.

Lemma gexp_gmul c s :
  nonzero_byte c -> nonzero_byte s ->
  QRMath.gexp (glg c + (glg s - glg 1)) = gmul s c.
Proof.
  intros [Hc Hcz] [Hs Hsz]. change (glg 1) with 0.
  destruct (glg_gpow c Hc Hcz) as [Hlc _]. destruct (glg_gpow s Hs Hsz) as [Hls _].
  rewrite gexp_gpow by lia. rewrite gmul_nz by assumption.
  f_equal. f_equal. lia.
Qed.

Lemma xor_at_middle n1 x n2 v :
  Polynomial.xor_at (n1 ++ x :: n2) (length n1) v = n1 ++ Z.lxor x v :: n2.
Proof.
  unfold Polynomial.xor_at, getAt. rewrite nth_middle.
  induction n1 as [|y n1 IH]; simpl; [reflexivity|]. f_equal. exact IH.
Qed.

(** The loop of [mod] that subtracts the multiple of [e]. *)
Lemma mod_subtract_loop ratio : forall e2 e1 n1 n2,
  length n1 = length e1 -> (length e2 <= length n2)%nat ->
  Forall nonzero_byte e2 ->
  foldM (fun num i =>
           c <- QRMath.glog (getAt (e1 ++ e2) i) ;;
           Ok (Polynomial.xor_at num i (QRMath.gexp (c + ratio))))
        (seq (length e1) (length e2)) (n1 ++ n2)
  = Ok (n1 ++ xor_prefix n2 (map (fun c => QRMath.gexp (glg c + ratio)) e2)).
Proof.
  induction e2 as [|c e2 IH]; intros e1 n1 n2 Hn1 Hlen He2.
  - simpl. rewrite xor_prefix_nil. reflexivity.
  - inversion He2 as [|? ? [Hc Hcz] He2']; subst.
    destruct n2 as [|x n2]; [simpl in Hlen; lia|].
    simpl seq. simpl foldM. unfold getAt at 1. rewrite nth_middle.
    rewrite glog_ok by assumption. simpl bind.
    rewrite <- Hn1, xor_at_middle.
    replace (e1 ++ c :: e2) with ((e1 ++ [c]) ++ e2) by (rewrite <- app_assoc; reflexivity).
    replace (n1 ++ Z.lxor x (QRMath.gexp (glg c + ratio)) :: n2)
      with ((n1 ++ [Z.lxor x (QRMath.gexp (glg c + ratio))]) ++ n2)
      by (rewrite <- app_assoc; reflexivity).
    replace (S (length n1)) with (length (e1 ++ [c]))
      by (rewrite length_app; simpl; lia).
    rewrite IH.
    + rewrite <- app_assoc. reflexivity.
    + rewrite !length_app. simpl. lia.
    + simpl in Hlen. lia.
    + assumption.
Qed.

Lemma skip_zeros_length p : (length (Polynomial.skip_zeros p) <= length p)%nat.
Proof.
  induction p as [|x p IH]; simpl; [lia|]. destruct (x =? 0); simpl; lia.
Qed.

Lemma skip_zeros_hd p :
  Polynomial.skip_zeros p <> [] -> hd 0 (Polynomial.skip_zeros p) <> 0.
Proof.
  induction p as [|x p IH]; simpl; [congruence|].
  destruct (Z.eqb_spec x 0); [exact IH|]. intros _. simpl. assumption.
Qed.

Lemma skip_zeros_Forall (P : Z -> Prop) p :
  Forall P p -> Forall P (Polynomial.skip_zeros p).
Proof.
  induction 1 as [|x p Hx Hp IH]; simpl; [constructor|].
  destruct (x =? 0); [exact IH | constructor; assumption].
Qed.

Lemma xor_prefix_length p q : length (xor_prefix p q) = length p.
Proof.
  revert q. induction p as [|x p IH]; intros [|y q]; simpl; auto.
Qed.

Lemma xor_prefix_byte p q :
  Forall byte p -> Forall byte q -> Forall byte (xor_prefix p q).
Proof.
  intros Hp. revert q. induction Hp as [|x p Hx Hp IH]; intros q Hq.
  - destruct q; constructor.
  - destruct Hq as [|y q Hy Hq]; simpl; constructor; auto with gf.
Qed.

Lemma good_gen_bytes e : good_gen e -> Forall byte e.
Proof. intros [_ H]. eapply Forall_impl; [|exact H]. intros c [Hc _]. exact Hc. Qed.

Lemma mod_fuel_S fuel this e :
  Polynomial.mod_fuel (S fuel) this e
  = if Z.of_nat (length this) - Z.of_nat (length e) <? 0 then Ok this
    else
      a <- QRMath.glog (getAt this 0) ;;
      b <- QRMath.glog (getAt e 0) ;;
      num <- foldM (fun num i =>
               c <- QRMath.glog (getAt e i) ;;
               Ok (Polynomial.xor_at num i (QRMath.gexp (c + (a - b)))))
             (upto (length e)) this ;;
      Polynomial.mod_fuel fuel (Polynomial.Polynomial num 0) e.
Proof. reflexivity. Qed.

Lemma bind_Ok {A B} (a : A) (k : A -> result B) : bind (Ok a) k = k a.
Proof. reflexivity. Qed.

(** [mod] returns a remainder shorter than [e] that has the value of
    [this] at every root of [e]. *)
Lemma mod_fuel_correct e : good_gen e -> forall fuel this,
  Forall byte this -> (length this < fuel)%nat ->
  ((length e <= length this)%nat -> hd 0 this <> 0) ->
  exists r, Polynomial.mod_fuel fuel this e = Ok r
            /\ (length r < length e)%nat /\ Forall byte r
            /\ forall a, byte a -> horner a e 0 = 0 -> horner a r 0 = horner a this 0.
Proof.
  intros Hg. pose proof (good_gen_bytes e Hg) as Hbe. destruct Hg as [Hmonic He].
  induction fuel as [|fuel IH]; intros this Hthis Hfuel Hnorm; [lia|].
  rewrite mod_fuel_S.
  destruct (Z.ltb_spec (Z.of_nat (length this) - Z.of_nat (length e)) 0) as [Hlt|Hge].
  - exists this. repeat split; auto. lia.
  - destruct e as [|e0 e']; [simpl in Hmonic; lia|]. simpl in Hmonic. subst e0.
    destruct this as [|s rest]; [simpl in Hge; lia|].
    assert (Hsz : s <> 0) by (apply Hnorm; lia).
    inversion Hthis as [|? ? Hs Hrest]; subst.
    change (getAt (s :: rest) 0) with s. change (getAt (1 :: e') 0) with 1.
    rewrite (glog_ok s Hs Hsz). rewrite (glog_ok 1) by (unfold byte; lia).
    rewrite !bind_Ok.
    pose proof (mod_subtract_loop (glg s - glg 1) (1 :: e') [] [] (s :: rest)
                  eq_refl ltac:(lia) He) as Hloop.
    change ([] ++ 1 :: e') with (1 :: e') in Hloop.
    change ([] ++ s :: rest) with (s :: rest) in Hloop.
    change (length (@nil Z)) with 0%nat in Hloop. unfold upto.
    rewrite Hloop, bind_Ok. change (@nil Z ++ ?l) with l.
    assert (Hmap : map (fun c => QRMath.gexp (glg c + (glg s - glg 1))) (1 :: e')
                   = map (gmul s) (1 :: e')).
    { apply map_ext_in. intros c Hc. apply gexp_gmul; [|split; assumption].
      rewrite Forall_forall in He. apply He. exact Hc. }
    rewrite Hmap.
    set (num := xor_prefix (s :: rest) (map (gmul s) (1 :: e'))).
    assert (Hnumb : Forall byte num).
    { apply xor_prefix_byte; [assumption|].
      apply Forall_map. eapply Forall_impl; [|exact Hbe]. auto with gf. }
    assert (Hhd : exists num', num = 0 :: num' /\ length num' = length rest).
    { unfold num. simpl. rewrite gmul_comm, gmul_1_l by assumption.
      rewrite Z.lxor_nilpotent. eexists. split; [reflexivity|].
      apply xor_prefix_length. }
    destruct Hhd as [num' [Hnum Hnum']].
    unfold Polynomial.Polynomial. simpl repeat. rewrite app_nil_r.
    destruct (IH (Polynomial.skip_zeros num)) as [r [Hr [Hlen [Hrb Hval]]]].
    + apply skip_zeros_Forall. exact Hnumb.
    + rewrite Hnum. simpl. pose proof (skip_zeros_length num'). simpl in Hfuel. lia.
    + intros Hle. apply skip_zeros_hd. intros Hnil. rewrite Hnil in Hle. simpl in Hle. lia.
    + exists r. repeat split; auto.
      intros a Ha Hroot. rewrite (Hval a Ha Hroot), horner_skip_zeros.
      apply horner_subtract_multiple; auto. lia.
Qed.

Lemma nth_map_seq {A} (f : nat -> A) n t d :
  (n < t)%nat -> nth n (map f (seq 0 t)) d = f n.
Proof.
  intros Hn. rewrite (nth_indep _ d (f 0%nat)) by (rewrite length_map, length_seq; exact Hn).
  rewrite map_nth, seq_nth by exact Hn. reflexivity.
Qed.

(** The remainder, padded with zeros on the left to the length [t]. *)
Lemma ec_pad_left (r : list Z) t : (length r <= t)%nat ->
  map (fun i =>
         let modIndex := Z.of_nat i + Z.of_nat (length r) - Z.of_nat t in
         if modIndex >=? 0 then getAt r (Z.to_nat modIndex) else 0)
      (upto t)
  = repeat 0 (t - length r) ++ r.
Proof.
  intros Hlen. apply (nth_ext _ _ 0 0).
  - unfold upto. rewrite length_map, length_seq, length_app, repeat_length. lia.
  - unfold upto. rewrite length_map, length_seq. intros n Hn.
    rewrite nth_map_seq by exact Hn. cbv zeta.
    destruct (Z.geb_spec (Z.of_nat n + Z.of_nat (length r) - Z.of_nat t) 0) as [Hge|Hlt].
    + rewrite app_nth2 by (rewrite repeat_length; lia).
      rewrite repeat_length. unfold getAt. f_equal. lia.
    + rewrite app_nth1 by (rewrite repeat_length; lia).
      rewrite nth_repeat. reflexivity.
Qed.

Lemma gen_check_all : forallb gen_check (zrange 1 30) = true.
Proof. vm_compute. reflexivity. Qed.

Lemma generator_good t : 1 <= t <= 30 ->
  exists g, QRUtil.getErrorCorrectPolynomial t = Ok g
            /\ length g = S (Z.to_nat t) /\ good_gen g
            /\ forall s, 0 <= s < t -> horner (gpow s) g 0 = 0.
Proof.
  intros Ht. pose proof gen_check_all as H. rewrite forallb_forall in H.
  specialize (H t). unfold gen_check in H.
  destruct (QRUtil.getErrorCorrectPolynomial t) as [g|]; [|
    discriminate H; apply in_zrange; lia].
  exists g. split; [reflexivity|].
  assert (Hin : In t (zrange 1 30)) by (apply in_zrange; lia).
  specialize (H Hin). rewrite !andb_true_iff in H.
  destruct H as [[[Hlen Hhd] Hnz] Hroots].
  apply Z.eqb_eq in Hlen. apply Z.eqb_eq in Hhd.
  rewrite forallb_forall in Hnz, Hroots.
  repeat split.
  - lia.
  - exact Hhd.
  - apply Forall_forall. intros c Hc. specialize (Hnz c Hc). unfold nonzero_byte, byte. lia.
  - intros s Hs. apply Z.eqb_eq. apply Hroots. apply in_zrange. lia.
Qed.

Lemma ecOfBlock_correct dc t :
  1 <= t <= 30 -> Forall byte dc ->
  exists ec, QRCodeData.ecOfBlock dc t = Ok ec
             /\ length ec = Z.to_nat t /\ Forall byte ec
             /\ forall s, 0 <= s < t -> horner (gpow s) (dc ++ ec) 0 = 0.
Proof.
  intros Ht Hdc. unfold QRCodeData.ecOfBlock.
  destruct (generator_good t Ht) as [g [Hg [Hglen [Hgood Hroots]]]].
  rewrite Hg, bind_Ok. rewrite Hglen.
  replace (S (Z.to_nat t) - 1)%nat with (Z.to_nat t) by lia.
  set (n := Z.to_nat t).
  set (raw := Polynomial.Polynomial dc n).
  assert (Hraw : Forall byte raw).
  { unfold raw, Polynomial.Polynomial. apply Forall_app. split.
    - apply skip_zeros_Forall. exact Hdc.
    - apply Forall_forall. intros x Hx. apply repeat_spec in Hx. subst. apply byte_0. }
  destruct (mod_fuel_correct g Hgood (S (length raw)) raw Hraw ltac:(lia))
    as [r [Hr [Hrlen [Hrb Hval]]]].
  { intros Hle. unfold raw, Polynomial.Polynomial in *.
    rewrite length_app, repeat_length, Hglen in Hle.
    destruct (Polynomial.skip_zeros dc) as [|x l] eqn:E; [simpl in Hle; lia|].
    pose proof (skip_zeros_hd dc) as Hh. rewrite E in Hh. simpl.
    apply Hh. discriminate. }
  unfold Polynomial.mod_. rewrite Hr, bind_Ok.
  rewrite Hglen in Hrlen. rewrite ec_pad_left by (fold n; lia).
  eexists. split; [reflexivity|].
  assert (Hzb : forall k, Forall byte (repeat 0 k)).
  { intros k. apply Forall_forall. intros x Hx. apply repeat_spec in Hx. subst. apply byte_0. }
  repeat split.
  - rewrite length_app, repeat_length. lia.
  - apply Forall_app. split; [apply Hzb | exact Hrb].
  - intros s Hs.
    assert (Ha : byte (gpow s)) by (apply gpow_glg; lia).
    set (a := gpow s) in *.
    assert (Hec : horner a (repeat 0 (n - length r) ++ r) 0 = horner a raw 0).
    { rewrite horner_app, horner_zeros.
      apply Hval; [exact Ha | apply Hroots; exact Hs]. }
    assert (Hrawv : horner a raw 0 = horner a (repeat 0 n) (horner a dc 0)).
    { unfold raw, Polynomial.Polynomial. rewrite horner_app, horner_skip_zeros.
      reflexivity. }
    rewrite horner_app.
    set (ec := repeat 0 (n - length r) ++ r) in *.
    assert (Heclen : length ec = n).
    { unfold ec. rewrite length_app, repeat_length. lia. }
    assert (Hecb : Forall byte ec).
    { unfold ec. apply Forall_app. split; [apply Hzb | exact Hrb]. }
    pose proof (horner_xor_prefix a Ha ec [] 0 (horner a dc 0) Hecb (Forall_nil _)
                  byte_0 (horner_byte a dc Ha Hdc 0 byte_0) ltac:(simpl; lia)) as Hx.
    rewrite xor_prefix_nil, Z.lxor_0_l in Hx. rewrite Hx.
    simpl app. rewrite Nat.sub_0_r, Heclen, Hec, Hrawv.
    apply Z.lxor_nilpotent.
Qed.

Lemma evaluateAt_horner p a :
  Forall byte p -> p <> [] -> byte a -> a <> 0 ->
  GenericGFPoly.evaluateAt GenericGF.QR_FIELD p a = horner a p 0.
Proof.
  intros Hp Hne Ha Hnz. unfold GenericGFPoly.evaluateAt.
  destruct (Z.eqb_spec a 0); [contradiction|].
  destruct (Z.eqb_spec a 1) as [->|_].
  - assert (H : forall r, byte r ->
                fold_left (fun result coefficient =>
                             GenericGF.addOrSubtractGF result coefficient) p r
                = horner 1 p r).
    { clear Hne. induction Hp as [|x p Hx Hp IH]; intros r Hr; simpl; [reflexivity|].
      rewrite gmul_1_l by assumption. apply IH. apply lxor_byte; assumption. }
    apply H. apply byte_0.
  - destruct p as [|c0 p]; [contradiction|].
    change (horner a p c0 = horner a (c0 :: p) 0).
    simpl. rewrite gmul_0_r, Z.lxor_0_l. reflexivity.
Qed.

Lemma GenericGFPoly_new_horner cs :
  Forall byte cs -> cs <> [] ->
  exists p, GenericGFPoly.new GenericGF.QR_FIELD cs = Ok p
            /\ p <> [] /\ Forall byte p /\ forall a, horner a p 0 = horner a cs 0.
Proof.
  intros Hcs Hne. destruct cs as [|c0 rest]; [contradiction|].
  inversion Hcs as [|? ? Hc0 Hrest]; subst.
  unfold GenericGFPoly.new.
  destruct ((1 <? length (c0 :: rest))%nat && (c0 =? 0)) eqn:E.
  - apply andb_true_iff in E. destruct E as [_ E]. apply Z.eqb_eq in E. subst c0.
    destruct (Polynomial.skip_zeros rest) as [|x l] eqn:Es.
    + exists [0]. repeat split; [discriminate | repeat constructor; apply byte_0 |].
      intros a. simpl. rewrite gmul_0_r. simpl.
      rewrite <- horner_skip_zeros, Es. reflexivity.
    + exists (x :: l). repeat split; [discriminate | |].
      * rewrite <- Es. apply skip_zeros_Forall. exact Hrest.
      * intros a. rewrite <- Es, horner_skip_zeros. simpl. rewrite gmul_0_r. reflexivity.
  - exists (c0 :: rest). repeat split; auto.
Qed.

Lemma clamp8_byte bytes : Forall byte bytes -> map ReedSolomon.clamp8 bytes = bytes.
Proof.
  induction 1 as [|x l Hx Hl IH]; simpl; [reflexivity|]. rewrite IH. f_equal.
  unfold ReedSolomon.clamp8, byte in *. lia.
Qed.

(** The syndromes of [decode] are the values of Horner's rule at the
    powers of 2. *)
Lemma syndromes_horner bytes twoS :
  Forall byte bytes -> bytes <> [] -> (twoS <= 255)%nat ->
  ReedSolomon.syndromes bytes twoS
  = Ok (map (fun s => horner (gpow (Z.of_nat s)) bytes 0) (upto twoS)).
Proof.
  intros Hb Hne Hs. unfold ReedSolomon.syndromes. rewrite clamp8_byte by exact Hb.
  destruct (GenericGFPoly_new_horner bytes Hb Hne) as [p [Hp [Hpne [Hpb Hval]]]].
  rewrite Hp, bind_Ok. f_equal. apply map_ext_in. intros s Hin.
  unfold upto in Hin. apply in_seq in Hin.
  change (GenericGF.generatorBase GenericGF.QR_FIELD) with 0. rewrite Z.add_0_r.
  change (GenericGF.exp GenericGF.QR_FIELD (Z.of_nat s)) with (gpow (Z.of_nat s)).
  destruct (gpow_glg (Z.of_nat s) ltac:(lia)) as [Hg [Hgz _]].
  rewrite evaluateAt_horner by assumption. apply Hval.
Qed.

Lemma rs_table_checked : forallb rs_table_check (zrange 1 40) = true.
Proof. vm_compute. reflexivity. Qed.

Lemma getRSBlocks_ok version ecl :
  1 <= version <= 40 ->
  exists blocks, RSBlock.getRSBlocks version ecl = Ok blocks
                 /\ blocks <> [] /\ Forall (fun b => block_sizes_ok b = true) blocks.
Proof.
  intros Hv. pose proof rs_table_checked as H. rewrite forallb_forall in H.
  specialize (H version ltac:(apply in_zrange; lia)).
  unfold rs_table_check in H. rewrite forallb_forall in H.
  specialize (H ecl ltac:(destruct ecl; simpl; auto)).
  destruct (RSBlock.getRSBlocks version ecl) as [blocks|]; [|discriminate].
  apply andb_true_iff in H. destruct H as [Hne Hall].
  exists blocks. repeat split.
  - intros ->. discriminate.
  - apply Forall_forall. rewrite forallb_forall in Hall. exact Hall.
Qed.

Lemma blockStep_correct buffer st blk :
  block_sizes_ok blk = true ->
  exists dc ec,
    QRCodeData.blockStep buffer st blk
    = Ok (QRCodeData.mkBlocks
            (QRCodeData.offset st + Z.to_nat (RSBlock.dataCount blk))
            (Z.max (QRCodeData.maxDcCount st) (RSBlock.dataCount blk))
            (Z.max (QRCodeData.maxEcCount st)
                   (RSBlock.totalCount blk - RSBlock.dataCount blk))
            (QRCodeData.maxTotalCount st + RSBlock.totalCount blk)
            (QRCodeData.dcData st ++ [dc]) (QRCodeData.ecData st ++ [ec]))
    /\ codeword_block blk (dc, ec).
Proof.
  intros Hok. unfold block_sizes_ok in Hok. rewrite !andb_true_iff in Hok.
  destruct Hok as [[Hd Hlo] Hhi].
  apply Z.leb_le in Hd. apply Z.leb_le in Hlo. apply Z.leb_le in Hhi.
  unfold QRCodeData.blockStep.
  set (dc := map (fun i => Z.land 255 (getAt buffer (i + QRCodeData.offset st)))
                 (upto (Z.to_nat (RSBlock.dataCount blk)))).
  assert (Hdcb : Forall byte dc).
  { unfold dc. apply Forall_map. apply Forall_forall. intros i _.
    unfold byte. change 255 with (Z.ones 8). rewrite Z.land_comm, Z.land_ones by lia.
    apply Z.mod_pos_bound. lia. }
  assert (Hdclen : length dc = Z.to_nat (RSBlock.dataCount blk)).
  { unfold dc, upto. rewrite length_map, length_seq. reflexivity. }
  destruct (ecOfBlock_correct dc _ (conj Hlo Hhi) Hdcb) as [ec [Hec [Heclen [Hecb Hroots]]]].
  exists dc, ec. rewrite Hec, bind_Ok. split; [reflexivity|].
  unfold codeword_block. repeat split; [lia | lia |].
  rewrite syndromes_horner.
  - f_equal. unfold upto.
    assert (Hall : forall l, (forall s, In s l -> (s < length ec)%nat) ->
              map (fun s => horner (gpow (Z.of_nat s)) (dc ++ ec) 0) l
              = repeat 0 (length l)).
    { induction l as [|s l IH]; intros Hl; simpl; [reflexivity|].
      rewrite Hroots by (specialize (Hl s (or_introl eq_refl)); lia).
      f_equal. apply IH. intros s' Hs'. apply Hl. right. exact Hs'. }
    rewrite Hall; [rewrite length_seq; reflexivity|].
    intros s Hs. apply in_seq in Hs. lia.
  - apply Forall_app. split; assumption.
  - destruct dc; [simpl in Hdclen; lia | discriminate].
  - lia.
Qed.

Lemma encodeBlocks_correct buffer : forall blocks st0,
  Forall (fun b => block_sizes_ok b = true) blocks ->
  exists st dcs ecs,
    foldM (QRCodeData.blockStep buffer) blocks st0 = Ok st
    /\ QRCodeData.dcData st = QRCodeData.dcData st0 ++ dcs
    /\ QRCodeData.ecData st = QRCodeData.ecData st0 ++ ecs
    /\ length dcs = length ecs
    /\ Forall2 codeword_block blocks (combine dcs ecs).
Proof.
  induction blocks as [|blk blocks IH]; intros st0 Hall.
  - exists st0, [], []. simpl. rewrite !app_nil_r. repeat split; constructor.
  - inversion Hall as [|? ? Hblk Hrest]; subst.
    destruct (blockStep_correct buffer st0 blk Hblk) as [dc [ec [Hstep Hcw]]].
    simpl foldM. rewrite Hstep, bind_Ok.
    match goal with
    | |- context [foldM _ blocks ?s] =>
        destruct (IH s Hrest) as [st [dcs [ecs [Hst [Hdc [Hec [Hlen HF]]]]]]]
    end.
    exists st, (dc :: dcs), (ec :: ecs). rewrite Hst. simpl in Hdc, Hec.
    rewrite <- app_assoc in Hdc, Hec. repeat split; auto.
    + simpl. lia.
    + simpl. constructor; assumption.
Qed.

(** C1.  Every block that [createBytes] produces, for any version from
    1 to 40 and any error-correction level and whatever the buffer holds,
    is a codeword: its data codewords followed by its error-correction
    codewords, read as a polynomial with the highest degree first, have
    the value 0 at 2^i for every i below the number t of error-correction
    codewords, in GF(2^8) with the primitive polynomial 0x11D.  These
    values are the syndromes that the decoder computes. *)
Theorem encoded_blocks_have_zero_syndromes
        (version : Z) (ecl : ErrorCorrectLevel) (buffer : BitBuffer.BitBuffer) :
  1 <= version <= 40 ->
  exists rsBlocks st data,
    RSBlock.getRSBlocks version ecl = Ok rsBlocks
    /\ QRCodeData.encodeBlocks (BitBuffer.getBuffer buffer) rsBlocks = Ok st
    /\ QRCodeData.createBytes buffer rsBlocks = Ok data
    /\ Forall2 codeword_block rsBlocks
               (combine (QRCodeData.dcData st) (QRCodeData.ecData st)).
Proof.
  intros Hv. destruct (getRSBlocks_ok version ecl Hv) as [blocks [Hb [_ Hsizes]]].
  destruct (encodeBlocks_correct (BitBuffer.getBuffer buffer) blocks
              (QRCodeData.mkBlocks 0 0 0 0 [] []) Hsizes)
    as [st [dcs [ecs [Hst [Hdc [Hec [_ HF]]]]]]].
  simpl in Hdc, Hec. subst dcs ecs.
  exists blocks, st. unfold QRCodeData.createBytes, QRCodeData.encodeBlocks.
  rewrite Hst, bind_Ok. eexists. repeat split; auto.
Qed.

Lemma encoded_blocks_have_zero_syndromes_witness :
  1 <= 1 <= 40
  /\ exists rsBlocks st data,
       RSBlock.getRSBlocks 1 M = Ok rsBlocks
       /\ QRCodeData.encodeBlocks
            (BitBuffer.getBuffer
               (BitBuffer.mkBitBuffer 128
                  [32; 91; 11; 120; 209; 114; 220; 77; 67; 64; 236; 17; 236; 17; 236; 17]))
            rsBlocks = Ok st
       /\ QRCodeData.createBytes
            (BitBuffer.mkBitBuffer 128
               [32; 91; 11; 120; 209; 114; 220; 77; 67; 64; 236; 17; 236; 17; 236; 17])
            rsBlocks = Ok data
       /\ Forall2 codeword_block rsBlocks
                  (combine (QRCodeData.dcData st) (QRCodeData.ecData st)).
Proof.
  split; [lia|].
  apply (encoded_blocks_have_zero_syndromes 1 M
           (BitBuffer.mkBitBuffer 128
              [32; 91; 11; 120; 209; 114; 220; 77; 67; 64; 236; 17; 236; 17; 236; 17])).
  lia.
Defined.

Lemma fold_left_map_arg {A B C} (f : A -> B -> A) (g : C -> B) l a :
  fold_left f (map g l) a = fold_left (fun a x => f a (g x)) l a.
Proof. revert a. induction l as [|x l IH]; intros a; simpl; auto. Qed.

Lemma put_numBits b num len :
  BitBuffer.put b num len = fold_left BitBuffer.putBit (numBits num len) b.
Proof. unfold BitBuffer.put, numBits. rewrite fold_left_map_arg. reflexivity. Qed.

Lemma written_app bits bs :
  fold_left BitBuffer.putBit bs (written bits) = written (bits ++ bs).
Proof. unfold written. rewrite fold_left_app. reflexivity. Qed.

Lemma put_written bits num len :
  BitBuffer.put (written bits) num len = written (bits ++ numBits num len).
Proof. rewrite put_numBits. apply written_app. Qed.

Lemma putBit_length b bit :
  BitBuffer.length (BitBuffer.putBit b bit) = S (BitBuffer.length b).
Proof. reflexivity. Qed.

Lemma fold_putBit_length bs : forall b,
  BitBuffer.length (fold_left BitBuffer.putBit bs b)
  = (BitBuffer.length b + length bs)%nat.
Proof.
  induction bs as [|x bs IH]; intros b; simpl; [lia|].
  rewrite IH, putBit_length. lia.
Qed.

Lemma written_length bits : BitBuffer.length (written bits) = length bits.
Proof. unfold written. rewrite fold_putBit_length. reflexivity. Qed.

Lemma numBits_length num len : length (numBits num len) = len.
Proof. unfold numBits, upto. rewrite length_map, length_seq. reflexivity. Qed.

Lemma set_at_app {A} (p l : list A) i v :
  set_at (p ++ l) (length p + i) v = p ++ set_at l i v.
Proof. induction p as [|x p IH]; simpl; [reflexivity|]. f_equal. exact IH. Qed.

Lemma getAt_app p l i : getAt (p ++ l) (length p + i) = getAt l i.
Proof. unfold getAt. rewrite app_nth2_plus. reflexivity. Qed.

Lemma putBit_after p b bit :
  BitBuffer.putBit (after p b) bit = after p (BitBuffer.putBit b bit).
Proof.
  unfold BitBuffer.putBit, after. cbn [BitBuffer.length BitBuffer.buffer].
  replace ((8 * length p + BitBuffer.length b) / 8)%nat
    with (length p + BitBuffer.length b / 8)%nat
    by (rewrite Nat.mul_comm, Nat.div_add_l by lia; reflexivity).
  replace ((8 * length p + BitBuffer.length b) mod 8)%nat
    with (BitBuffer.length b mod 8)%nat
    by (rewrite Nat.add_comm, Nat.mul_comm, Nat.Div0.mod_add; reflexivity).
  rewrite length_app.
  destruct (Nat.eqb_spec (BitBuffer.length b) (length (BitBuffer.buffer b) * 8)) as [E|E].
  - replace (8 * length p + BitBuffer.length b
             =? (length p + length (BitBuffer.buffer b)) * 8)%nat with true
      by (symmetry; apply Nat.eqb_eq; lia).
    rewrite <- app_assoc.
    destruct bit.
    + rewrite set_at_app, getAt_app. f_equal. lia.
    + f_equal. lia.
  - replace (8 * length p + BitBuffer.length b
             =? (length p + length (BitBuffer.buffer b)) * 8)%nat with false
      by (symmetry; apply Nat.eqb_neq; lia).
    destruct bit.
    + rewrite set_at_app, getAt_app. f_equal. lia.
    + f_equal. lia.
Qed.

Lemma fold_putBit_after p bs : forall b,
  fold_left BitBuffer.putBit bs (after p b) = after p (fold_left BitBuffer.putBit bs b).
Proof.
  induction bs as [|x bs IH]; intros b; simpl; [reflexivity|].
  rewrite putBit_after. apply IH.
Qed.

Lemma put_byte_new v : 0 <= v < 256 ->
  BitBuffer.put BitBuffer.new v 8 = BitBuffer.mkBitBuffer 8 [v].
Proof.
  intros Hv.
  assert (H : all_bytes_put = true) by (vm_compute; reflexivity).
  unfold all_bytes_put in H. rewrite forallb_forall in H.
  specialize (H v ltac:(apply in_zrange; lia)).
  destruct (BitBuffer.put BitBuffer.new v 8) as [len buf].
  do 9 (destruct len as [|len]; try discriminate).
  destruct buf as [|w [|? ?]]; try discriminate.
  apply Z.eqb_eq in H. subst. reflexivity.
Qed.

(** Eight bits written on a byte boundary append one byte. *)
Lemma put_byte_aligned b v :
  0 <= v < 256 -> (BitBuffer.length b = 8 * length (BitBuffer.buffer b))%nat ->
  BitBuffer.put b v 8
  = BitBuffer.mkBitBuffer (BitBuffer.length b + 8) (BitBuffer.buffer b ++ [v]).
Proof.
  intros Hv Hal.
  assert (Hb : b = after (BitBuffer.buffer b) BitBuffer.new).
  { unfold after. cbn [BitBuffer.length BitBuffer.buffer BitBuffer.new].
    rewrite app_nil_r, Nat.add_0_r, <- Hal. destruct b; reflexivity. }
  rewrite Hb at 1. rewrite put_numBits, fold_putBit_after, <- put_numBits.
  rewrite put_byte_new by exact Hv. unfold after.
  cbn [BitBuffer.length BitBuffer.buffer]. f_equal. lia.
Qed.

Lemma set_at_length {A} (l : list A) i v : length (set_at l i v) = length l.
Proof.
  revert i. induction l as [|x l IH]; intros [|i]; simpl; auto.
Qed.

(** The array of a buffer has one byte for every eight bits, the last
    one possibly partial. *)
Lemma written_buffer_length bits :
  (length bits <= 8 * length (BitBuffer.buffer (written bits)) < length bits + 8)%nat.
Proof.
  induction bits as [|bit bits IH] using rev_ind; [simpl; lia|].
  rewrite <- written_app. cbn [fold_left]. rewrite length_app. cbn [length].
  pose proof (written_length bits) as Hl.
  unfold BitBuffer.putBit. rewrite Hl. cbn [BitBuffer.buffer].
  destruct (Nat.eqb_spec (length bits) (length (BitBuffer.buffer (written bits)) * 8));
    destruct bit; rewrite ?set_at_length, ?length_app; cbn [length]; lia.
Qed.

Lemma written_aligned bits : (length bits mod 8 = 0)%nat -> aligned (written bits).
Proof.
  intros Hm. unfold aligned. rewrite written_length.
  pose proof (written_buffer_length bits) as H.
  apply Nat.Div0.div_exact in Hm. lia.
Qed.

Lemma alignLoop_eq fuel b :
  QRCodeData.alignLoop fuel b
  = if (BitBuffer.length b mod 8 =? 0)%nat then Ok b
    else match fuel with
         | O => Throw OutOfFuel
         | S fuel' => QRCodeData.alignLoop fuel' (BitBuffer.putBit b false)
         end.
Proof. destruct fuel; reflexivity. Qed.

Lemma padLoop_eq fuel b maxDataCount :
  QRCodeData.padLoop fuel b maxDataCount
  = if BitBuffer.getLengthInBits b >=? maxDataCount then Ok b
    else match fuel with
         | O => Throw OutOfFuel
         | S fuel' =>
             let b := BitBuffer.put b QRCodeData.PAD0 8 in
             if BitBuffer.getLengthInBits b >=? maxDataCount then Ok b
             else QRCodeData.padLoop fuel' (BitBuffer.put b QRCodeData.PAD1 8)
                                     maxDataCount
         end.
Proof. destruct fuel; reflexivity. Qed.

Lemma alignLoop_written : forall fuel bits,
  ((8 - length bits mod 8) mod 8 <= fuel)%nat ->
  QRCodeData.alignLoop fuel (written bits)
  = Ok (written (bits ++ repeat false ((8 - length bits mod 8) mod 8))).
Proof.
  induction fuel as [|fuel IH]; intros bits Hf; rewrite alignLoop_eq, written_length;
    pose proof (Nat.mod_upper_bound (length bits) 8 ltac:(lia)) as Hub;
    destruct (Nat.eqb_spec (length bits mod 8) 0) as [E|E].
  - rewrite E. simpl. rewrite app_nil_r. reflexivity.
  - rewrite Nat.mod_small in Hf by lia. lia.
  - rewrite E. simpl. rewrite app_nil_r. reflexivity.
  - change (BitBuffer.putBit (written bits) false)
      with (fold_left BitBuffer.putBit [false] (written bits)).
    rewrite written_app.
    assert (Hk : ((8 - length bits mod 8) mod 8
                  = S ((8 - length (bits ++ [false]) mod 8) mod 8))%nat).
    { rewrite length_app. cbn [length].
      rewrite (Nat.mod_small (8 - length bits mod 8)) by lia.
      rewrite (Nat.Div0.add_mod (length bits) 1 8).
      change (1 mod 8)%nat with 1%nat.
      destruct (Nat.eq_dec (length bits mod 8) 7) as [E7|E7].
      - rewrite E7. reflexivity.
      - rewrite (Nat.mod_small (length bits mod 8 + 1)) by lia.
        rewrite (Nat.mod_small (8 - (length bits mod 8 + 1))) by lia. lia. }
    rewrite IH by lia. rewrite Hk. simpl repeat.
    rewrite <- app_assoc. reflexivity.
Qed.

Lemma padLoop_aligned : forall fuel b n k,
  aligned b -> (length (BitBuffer.buffer b) + n = k)%nat -> (n <= 2 * fuel)%nat ->
  QRCodeData.padLoop fuel b (Z.of_nat (8 * k))
  = Ok (BitBuffer.mkBitBuffer (8 * k) (BitBuffer.buffer b ++ padBytes n)).
Proof.
  induction fuel as [|fuel IH]; intros b n k Hal Hk Hf.
  - assert (n = 0%nat) by lia. subst n. simpl padBytes. rewrite app_nil_r.
    rewrite padLoop_eq. unfold BitBuffer.getLengthInBits. rewrite Hal.
    destruct (Z.geb_spec (Z.of_nat (8 * length (BitBuffer.buffer b))) (Z.of_nat (8 * k)));
      [|lia].
    f_equal. destruct b as [len buf]. unfold aligned in Hal. simpl in *. f_equal. lia.
  - rewrite padLoop_eq. unfold BitBuffer.getLengthInBits at 1.
    destruct n as [|n].
    + simpl padBytes. rewrite app_nil_r. rewrite Hal.
      destruct (Z.geb_spec (Z.of_nat (8 * length (BitBuffer.buffer b))) (Z.of_nat (8 * k)));
        [|lia].
      f_equal. destruct b as [len buf]. unfold aligned in Hal. simpl in *. f_equal. lia.
    + rewrite Hal.
      destruct (Z.geb_spec (Z.of_nat (8 * length (BitBuffer.buffer b))) (Z.of_nat (8 * k)));
        [lia|].
      rewrite (put_byte_aligned b QRCodeData.PAD0) by (unfold QRCodeData.PAD0; lia || exact Hal).
      unfold BitBuffer.getLengthInBits at 1. cbn [BitBuffer.length].
      destruct n as [|n].
      * destruct (Z.geb_spec (Z.of_nat (BitBuffer.length b + 8)) (Z.of_nat (8 * k)));
          [|unfold aligned in Hal; lia].
        simpl padBytes. f_equal. f_equal. unfold aligned in Hal. lia.
      * destruct (Z.geb_spec (Z.of_nat (BitBuffer.length b + 8)) (Z.of_nat (8 * k)));
          [unfold aligned in Hal; lia|].
        rewrite put_byte_aligned.
        -- cbn [BitBuffer.length BitBuffer.buffer].
           rewrite (IH _ n k).
           ++ cbn [BitBuffer.buffer]. rewrite <- !app_assoc. reflexivity.
           ++ unfold aligned in *. cbn [BitBuffer.length BitBuffer.buffer].
              rewrite !length_app. cbn [length]. lia.
           ++ cbn [BitBuffer.buffer]. rewrite !length_app. cbn [length]. lia.
           ++ lia.
        -- unfold QRCodeData.PAD1. lia.
        -- unfold aligned in *. cbn [BitBuffer.length BitBuffer.buffer].
           rewrite length_app. cbn [length]. lia.
Qed.

Lemma extends_refl b : extends b b.
Proof. exists []. reflexivity. Qed.

Lemma extends_trans b1 b2 b3 : extends b1 b2 -> extends b2 b3 -> extends b1 b3.
Proof.
  intros [bs1 ->] [bs2 ->]. exists (bs1 ++ bs2). rewrite fold_left_app. reflexivity.
Qed.

Lemma extends_put b num len : extends b (BitBuffer.put b num len).
Proof. exists (numBits num len). apply put_numBits. Qed.

Lemma bind_Ok_inv {A B} (r : result A) (k : A -> result B) b :
  bind r k = Ok b -> exists a, r = Ok a /\ k a = Ok b.
Proof. destruct r as [a|e]; simpl; [eauto | discriminate]. Qed.

Lemma QRNumeric_write_extends : forall n data, (length data <= n)%nat ->
  forall b b', QRNumeric.write data b = Ok b' -> extends b b'.
Proof.
  induction n as [|n IH]; intros data Hn b b' Hw.
  - destruct data; [|simpl in Hn; lia]. inversion Hw. apply extends_refl.
  - destruct data as [|c0 [|c1 [|c2 rest]]].
    + inversion Hw. apply extends_refl.
    + simpl in Hw. apply bind_Ok_inv in Hw. destruct Hw as [v [_ Hw]].
      inversion Hw. apply extends_put.
    + cbn [QRNumeric.write] in Hw. apply bind_Ok_inv in Hw. destruct Hw as [v [_ Hw]].
      inversion Hw. apply extends_put.
    + cbn [QRNumeric.write] in Hw. apply bind_Ok_inv in Hw. destruct Hw as [v [_ Hw]].
      apply (extends_trans _ (BitBuffer.put b v 10)); [apply extends_put|].
      apply (IH rest); [simpl in Hn; lia | exact Hw].
Qed.

Lemma QRAlphanumeric_write_extends : forall n data, (length data <= n)%nat ->
  forall b b', QRAlphanumeric.write data b = Ok b' -> extends b b'.
Proof.
  induction n as [|n IH]; intros data Hn b b' Hw.
  - destruct data; [|simpl in Hn; lia]. inversion Hw. apply extends_refl.
  - destruct data as [|c0 [|c1 rest]].
    + inversion Hw. apply extends_refl.
    + cbn [QRAlphanumeric.write] in Hw. apply bind_Ok_inv in Hw.
      destruct Hw as [v [_ Hw]]. inversion Hw. apply extends_put.
    + cbn [QRAlphanumeric.write] in Hw. apply bind_Ok_inv in Hw.
      destruct Hw as [v [_ Hw]]. apply bind_Ok_inv in Hw. destruct Hw as [w [_ Hw]].
      apply (extends_trans _ (BitBuffer.put b (v * 45 + w) 11)); [apply extends_put|].
      apply (IH rest); [simpl in Hn; lia | exact Hw].
Qed.

Lemma QRByte_write_extends data b : extends b (QRByte.write data b).
Proof.
  unfold QRByte.write. revert b.
  induction (UTF8 data) as [|x l IH]; intros b; simpl; [apply extends_refl|].
  eapply extends_trans; [apply extends_put | apply IH].
Qed.

Lemma writeKanjiBytes_extends : forall n data, (length data <= n)%nat ->
  forall b b', writeKanjiBytes data b = Ok b' -> extends b b'.
Proof.
  induction n as [|n IH]; intros data Hn b b' Hw.
  - destruct data; [|simpl in Hn; lia]. inversion Hw. apply extends_refl.
  - destruct data as [|c0 [|c1 rest]].
    + inversion Hw. apply extends_refl.
    + discriminate Hw.
    + cbn [writeKanjiBytes] in Hw. apply bind_Ok_inv in Hw.
      destruct Hw as [v [_ Hw]].
      apply (extends_trans _ (BitBuffer.put b v 13)); [apply extends_put|].
      apply (IH rest); [simpl in Hn; lia | exact Hw].
Qed.

Lemma write_extends tbl d b b' : write tbl d b = Ok b' -> extends b b'.
Proof.
  unfold write. destruct (getMode d); intros Hw.
  - eapply QRNumeric_write_extends; [apply Nat.le_refl | exact Hw].
  - eapply QRAlphanumeric_write_extends; [apply Nat.le_refl | exact Hw].
  - inversion Hw. apply QRByte_write_extends.
  - unfold writeKanji in Hw. apply bind_Ok_inv in Hw. destruct Hw as [bytes [_ Hw]].
    eapply writeKanjiBytes_extends; [apply Nat.le_refl | exact Hw].
Qed.

(** The buffer of [prepareData] is a new buffer with bits written. *)
Lemma prepareData_written tbl version ecl dataList p :
  prepareData tbl version ecl dataList = Ok p ->
  exists bits, p_buffer p = written bits.
Proof.
  unfold prepareData. intros H.
  apply bind_Ok_inv in H. destruct H as [rsBlocks [_ H]].
  apply bind_Ok_inv in H. destruct H as [buffer [Hb H]].
  inversion H; subst p; clear H. cbn [p_buffer].
  assert (G : forall l b0 b1,
             foldM (fun buffer data =>
                      let buffer := BitBuffer.put buffer (mode_value (getMode data)) 4 in
                      len <- getLength tbl data ;;
                      bits <- getLengthInBits (getMode data) version ;;
                      write tbl data (BitBuffer.put buffer len bits)) l b0 = Ok b1 ->
             extends b0 b1).
  { induction l as [|d l IH]; intros b0 b1 Hf.
    - inversion Hf. apply extends_refl.
    - cbn [foldM] in Hf. apply bind_Ok_inv in Hf. destruct Hf as [b' [Hstep Hf]].
      cbv zeta in Hstep.
      apply bind_Ok_inv in Hstep. destruct Hstep as [len [_ Hstep]].
      apply bind_Ok_inv in Hstep. destruct Hstep as [bits [_ Hstep]].
      apply write_extends in Hstep.
      eapply extends_trans; [|apply (IH _ _ Hf)].
      eapply extends_trans; [apply extends_put|].
      eapply extends_trans; [apply extends_put|exact Hstep]. }
  destruct (G _ _ _ Hb) as [bs E]. exists bs. exact E.
Qed.

Lemma sum_dataCount_nonneg blocks : forall acc,
  Forall (fun b => block_sizes_ok b = true) blocks -> 0 <= acc ->
  0 <= fold_left (fun acc blk => acc + RSBlock.dataCount blk) blocks acc.
Proof.
  induction blocks as [|blk blocks IH]; intros acc Hall Hacc; simpl; [exact Hacc|].
  inversion Hall as [|? ? Hb Hrest]; subst. apply IH; [exact Hrest|].
  unfold block_sizes_ok in Hb. rewrite !andb_true_iff in Hb.
  destruct Hb as [[Hd _] _]. apply Z.leb_le in Hd. lia.
Qed.

(** The capacity is a whole number of bytes. *)
Lemma prepareData_maxDataCount tbl version ecl dataList p :
  1 <= version <= 40 ->
  prepareData tbl version ecl dataList = Ok p ->
  exists k : nat, p_maxDataCount p = Z.of_nat (8 * k).
Proof.
  intros Hv H. unfold prepareData in H.
  destruct (getRSBlocks_ok version ecl Hv) as [blocks [Hb [_ Hsizes]]].
  rewrite Hb, bind_Ok in H.
  apply bind_Ok_inv in H. destruct H as [buffer [_ H]].
  inversion H; subst p; clear H. cbn [p_maxDataCount].
  pose proof (sum_dataCount_nonneg blocks 0 Hsizes ltac:(lia)) as Hs.
  exists (Z.to_nat (fold_left (fun acc blk => acc + RSBlock.dataCount blk) blocks 0)).
  lia.
Qed.

Lemma round_up_mod a : ((a + (8 - a mod 8) mod 8) mod 8 = 0)%nat.
Proof.
  pose proof (Nat.div_mod_eq a 8) as Hd.
  pose proof (Nat.mod_upper_bound a 8 ltac:(lia)) as Hub.
  destruct (Nat.eq_dec (a mod 8) 0) as [E|E].
  - rewrite E. change ((8 - 0) mod 8)%nat with 0%nat. rewrite Nat.add_0_r. exact E.
  - rewrite (Nat.mod_small (8 - a mod 8)) by lia.
    replace (a + (8 - a mod 8))%nat with ((a / 8 + 1) * 8)%nat by lia.
    apply Nat.Div0.mod_mul.
Qed.

Lemma round_up_le a k : (a <= 8 * k -> a + (8 - a mod 8) mod 8 <= 8 * k)%nat.
Proof.
  intros Ha.
  pose proof (Nat.div_mod_eq a 8) as Hd.
  pose proof (Nat.mod_upper_bound a 8 ltac:(lia)) as Hub.
  destruct (Nat.eq_dec (a mod 8) 0) as [E|E].
  - rewrite E. change ((8 - 0) mod 8)%nat with 0%nat. lia.
  - rewrite (Nat.mod_small (8 - a mod 8)) by lia. lia.
Qed.

(** What [createData] does to a buffer of [bits] that fit. *)
Lemma padBuffer_written bits k :
  (length bits <= 8 * k)%nat ->
  let body := written (bits ++ repeat false (closingZeros (length bits) (Z.of_nat (8 * k)))) in
  exists n,
    aligned body
    /\ (length (BitBuffer.buffer body) + n = k)%nat
    /\ QRCodeData.padBuffer (written bits) (Z.of_nat (8 * k))
       = Ok (BitBuffer.mkBitBuffer (8 * k) (BitBuffer.buffer body ++ padBytes n)).
Proof.
  intros Hfit body. unfold QRCodeData.padBuffer.
  unfold BitBuffer.getLengthInBits at 1. rewrite written_length.
  destruct (Z.gtb_spec (Z.of_nat (length bits)) (Z.of_nat (8 * k))); [lia|].
  unfold BitBuffer.getLengthInBits at 1. rewrite written_length.
  set (terminator := if Z.of_nat (length bits) + 4 <=? Z.of_nat (8 * k)
                     then 4%nat else 0%nat).
  assert (Hterm : (if Z.of_nat (length bits) + 4 <=? Z.of_nat (8 * k)
                   then BitBuffer.put (written bits) 0 4 else written bits)
                  = written (bits ++ repeat false terminator)).
  { unfold terminator.
    destruct (Z.of_nat (length bits) + 4 <=? Z.of_nat (8 * k)).
    - rewrite put_written. reflexivity.
    - simpl. rewrite app_nil_r. reflexivity. }
  rewrite Hterm.
  assert (Hlt : (length (bits ++ repeat false terminator) = length bits + terminator)%nat)
    by (rewrite length_app, repeat_length; reflexivity).
  pose proof (Nat.mod_upper_bound (length bits + terminator) 8 ltac:(lia)) as Hub.
  rewrite alignLoop_written; rewrite Hlt.
  2:{ pose proof (Nat.mod_upper_bound (8 - (length bits + terminator) mod 8) 8 ltac:(lia)).
      lia. }
  rewrite bind_Ok, <- app_assoc, <- repeat_app.
  change (terminator + (8 - (length bits + terminator) mod 8) mod 8)%nat
    with (closingZeros (length bits) (Z.of_nat (8 * k))).
  fold body.
  set (zeros := closingZeros (length bits) (Z.of_nat (8 * k))) in *.
  assert (Hlen : (length (bits ++ repeat false zeros) = length bits + zeros)%nat)
    by (rewrite length_app, repeat_length; reflexivity).
  assert (Hmod : ((length bits + zeros) mod 8 = 0)%nat).
  { unfold zeros, closingZeros. fold terminator.
    rewrite Nat.add_assoc. apply round_up_mod. }
  assert (Hal : aligned body) by (apply written_aligned; rewrite Hlen; exact Hmod).
  assert (Hle : (length bits + zeros <= 8 * k)%nat).
  { unfold zeros, closingZeros. fold terminator.
    rewrite Nat.add_assoc. apply round_up_le.
    unfold terminator.
    destruct (Z.leb_spec (Z.of_nat (length bits) + 4) (Z.of_nat (8 * k))); lia. }
  assert (Hbl : (8 * length (BitBuffer.buffer body) = length bits + zeros)%nat).
  { unfold aligned in Hal. rewrite <- Hal. unfold body. rewrite written_length. exact Hlen. }
  exists (k - length (BitBuffer.buffer body))%nat.
  split; [exact Hal|]. split; [lia|].
  apply padLoop_aligned; [exact Hal | lia | lia].
Qed.

(** C3.  When the header and body bits of a payload do not exceed
    [max_data_bits(v, ecl)], [createData] completes the buffer in three
    steps: zero bits (a terminator of four when at least four bits remain,
    then the bits up to the byte boundary), and then the bytes 0xEC and
    0x11 in turn, 0xEC first, until the length of the buffer is exactly
    [max_data_bits(v, ecl)]. *)
Theorem createData_pads_to_capacity
        (SJIS2UTFTable : Z -> option Z) (version : Z) (ecl : ErrorCorrectLevel)
        (dataList : list QRData) (p : Prepared) :
  1 <= version <= 40 ->
  prepareData SJIS2UTFTable version ecl dataList = Ok p ->
  BitBuffer.getLengthInBits (p_buffer p) <= p_maxDataCount p ->
  exists (bits : list bool) (n : nat),
    p_buffer p = written bits
    /\ let body :=
         written (bits ++ repeat false (closingZeros (length bits) (p_maxDataCount p))) in
       aligned body
       /\ Z.of_nat (8 * (length (BitBuffer.buffer body) + n)) = p_maxDataCount p
       /\ QRCodeData.padBuffer (p_buffer p) (p_maxDataCount p)
          = Ok (BitBuffer.mkBitBuffer (Z.to_nat (p_maxDataCount p))
                                      (BitBuffer.buffer body ++ padBytes n)).
Proof.
  intros Hv Hp Hfit.
  destruct (prepareData_written _ _ _ _ _ Hp) as [bits Hbits].
  destruct (prepareData_maxDataCount _ _ _ _ _ Hv Hp) as [k Hk].
  rewrite Hbits, Hk in *.
  unfold BitBuffer.getLengthInBits in Hfit. rewrite written_length in Hfit.
  destruct (padBuffer_written bits k ltac:(lia)) as [n [Hal [Hn Hpad]]].
  exists bits, n. split; [reflexivity|]. cbv zeta.
  split; [exact Hal|]. split; [lia|].
  rewrite Hpad. rewrite Nat2Z.id. reflexivity.
Qed.

Lemma createData_pads_to_capacity_witness :
  exists p, prepareData (fun _ => None) 1 M
              [QRAlphanumeric [72; 69; 76; 76; 79; 32; 87; 79; 82; 76; 68]] = Ok p
  /\ exists (bits : list bool) (n : nat),
    p_buffer p = written bits
    /\ let body :=
         written (bits ++ repeat false (closingZeros (length bits) (p_maxDataCount p))) in
       aligned body
       /\ Z.of_nat (8 * (length (BitBuffer.buffer body) + n)) = p_maxDataCount p
       /\ QRCodeData.padBuffer (p_buffer p) (p_maxDataCount p)
          = Ok (BitBuffer.mkBitBuffer (Z.to_nat (p_maxDataCount p))
                                      (BitBuffer.buffer body ++ padBytes n)).
Proof.
  eexists. split; [vm_compute; reflexivity|].
  apply (createData_pads_to_capacity (fun _ => None) 1 M
           [QRAlphanumeric [72; 69; 76; 76; 79; 32; 87; 79; 82; 76; 68]]).
  - lia.
  - vm_compute. reflexivity.
  - vm_compute. discriminate.
Defined.

(** X1.  The multiplication of the decoder's field, on bytes: it stays
    within the bytes, is commutative and associative, distributes over
    the addition (XOR), has 1 as its unit, and every byte but 0 has an
    inverse, which [inverse] returns; [inverse(0)] throws. *)
Theorem GenericGF_field_laws (a b c : Z) :
  byte a -> byte b -> byte c ->
  let mul := GenericGF.multiply GenericGF.QR_FIELD in
  let add := GenericGF.addOrSubtractGF in
  byte (mul a b)
  /\ mul a b = mul b a
  /\ mul a (mul b c) = mul (mul a b) c
  /\ mul a (add b c) = add (mul a b) (mul a c)
  /\ mul 1 a = a
  /\ match GenericGFInverse.inverse GenericGF.QR_FIELD a with
     | Some i => a <> 0 /\ byte i /\ mul a i = 1
     | None => a = 0
     end.
Proof.
  intros Ha Hb Hc. cbv zeta.
  change (GenericGF.multiply GenericGF.QR_FIELD) with gmul.
  unfold GenericGF.addOrSubtractGF.
  split; [apply gmul_byte; assumption|].
  split; [apply gmul_comm|].
  split; [apply gmul_assoc; assumption|].
  split; [apply gmul_lxor; assumption|].
  split; [apply gmul_1_l; assumption|].
  assert (H : inverse_check a = true).
  { apply (all_bytes_spec inverse_check); [vm_compute; reflexivity | exact Ha]. }
  unfold inverse_check in H.
  destruct (GenericGFInverse.inverse GenericGF.QR_FIELD a) as [i|].
  - rewrite !andb_true_iff in H. destruct H as [[[H1 H2] H3] H4].
    apply negb_true_iff, Z.eqb_neq in H1. apply Z.eqb_eq in H4.
    unfold byte. repeat split; try lia. exact H4.
  - apply Z.eqb_eq. exact H.
Qed.

Lemma GenericGF_field_laws_witness :
  let mul := GenericGF.multiply GenericGF.QR_FIELD in
  let add := GenericGF.addOrSubtractGF in
  byte (mul 87 131)
  /\ mul 87 131 = mul 131 87
  /\ mul 87 (mul 131 29) = mul (mul 87 131) 29
  /\ mul 87 (add 131 29) = add (mul 87 131) (mul 87 29)
  /\ mul 1 87 = 87
  /\ match GenericGFInverse.inverse GenericGF.QR_FIELD 87 with
     | Some i => 87 <> 0 /\ byte i /\ mul 87 i = 1
     | None => 87 = 0
     end.
Proof.
  apply (GenericGF_field_laws 87 131 29); unfold byte; lia.
Defined.

(** X2.  [setVersion] never fails: it stores the argument taken modulo
    2^32 and cut at 40, so the stored version is between 0 and 40 and
    arguments that differ by 2^32 store the same version; the flag
    [autoVersion] is set exactly when 0 is stored, and the data and the
    level are left as they are. *)
Theorem setVersion_wraps_and_clamps (this : QRCode.QRCode) (v : Z) :
  let q := QRCode.setVersion this v in
  QRCode.version q = Z.min 40 (v mod 2 ^ 32)
  /\ 0 <= QRCode.version q <= 40
  /\ QRCode.autoVersion q = (QRCode.version q =? 0)
  /\ QRCode.version (QRCode.setVersion this (v + 2 ^ 32)) = QRCode.version q
  /\ QRCode.dataList q = QRCode.dataList this
  /\ QRCode.errorCorrectLevel q = QRCode.errorCorrectLevel this.
Proof.
  cbv zeta. unfold QRCode.setVersion. cbn [QRCode.version QRCode.autoVersion
    QRCode.dataList QRCode.errorCorrectLevel].
  unfold BitBuffer.ushr. change (0 mod 32) with 0. rewrite !Z.shiftr_0_r.
  pose proof (Z.mod_pos_bound v (2 ^ 32) ltac:(lia)) as Hb.
  replace ((v + 2 ^ 32) mod 2 ^ 32) with (v mod 2 ^ 32)
    by (rewrite <- (Z.mul_1_l (2 ^ 32)) at 2; rewrite Z.mod_add by lia; reflexivity).
  repeat split; lia.
Qed.

(** X3.  [computeDimension], from the two rounded distances: the
    dimension it returns is odd and differs by at most 1 from half their
    sum plus 7; it is 1 modulo 4 except when that number is 3 modulo 4,
    which is returned as it is. *)
Theorem computeDimension_is_odd (topDimension sideDimension : Z) :
  0 <= topDimension -> 0 <= sideDimension ->
  let raw := (topDimension + sideDimension) / 2 + 7 in
  let d := Locator.computeDimension topDimension sideDimension in
  raw - 1 <= d <= raw + 1
  /\ d mod 2 = 1
  /\ (raw mod 4 = 3 /\ d = raw /\ d mod 4 = 3 \/ raw mod 4 <> 3 /\ d mod 4 = 1).
Proof.
  intros Ht Hs. cbv zeta. unfold Locator.computeDimension.
  set (raw := (topDimension + sideDimension) / 2 + 7).
  assert (Hraw : 7 <= raw).
  { unfold raw. pose proof (Z.div_pos (topDimension + sideDimension) 2). lia. }
  rewrite Z.rem_mod_nonneg by lia.
  pose proof (Z.mod_pos_bound raw 4 ltac:(lia)) as Hb.
  pose proof (Z.div_mod raw 4 ltac:(lia)) as Hd.
  assert (Hcases : raw mod 4 = 0 \/ raw mod 4 = 1 \/ raw mod 4 = 2 \/ raw mod 4 = 3) by lia.
  destruct Hcases as [E|[E|[E|E]]]; rewrite E; cbv iota.
  - split; [lia|]. split.
    + replace (raw + 1) with (1 + (2 * (raw / 4)) * 2) by lia. rewrite Z.mod_add by lia. reflexivity.
    + right. split; [lia|].
      replace (raw + 1) with (1 + (raw / 4) * 4) by lia. rewrite Z.mod_add by lia. reflexivity.
  - split; [lia|]. split.
    + replace raw with (1 + (2 * (raw / 4)) * 2) at 1 by lia. rewrite Z.mod_add by lia. reflexivity.
    + right. split; [lia|]. exact E.
  - split; [lia|]. split.
    + replace (raw - 1) with (1 + (2 * (raw / 4)) * 2) by lia. rewrite Z.mod_add by lia. reflexivity.
    + right. split; [lia|].
      replace (raw - 1) with (1 + (raw / 4) * 4) by lia. rewrite Z.mod_add by lia. reflexivity.
  - split; [lia|]. split.
    + replace raw with (1 + (2 * (raw / 4) + 1) * 2) at 1 by lia. rewrite Z.mod_add by lia. reflexivity.
    + left. auto.
Qed.

Lemma computeDimension_is_odd_witness :
  let raw := (20 + 20) / 2 + 7 in
  let d := Locator.computeDimension 20 20 in
  raw - 1 <= d <= raw + 1
  /\ d mod 2 = 1
  /\ (raw mod 4 = 3 /\ d = raw /\ d mod 4 = 3 \/ raw mod 4 <> 3 /\ d mod 4 = 1).
Proof. apply (computeDimension_is_odd 20 20); lia. Defined.

(** X4.  The Kanji mappings of the writer and of the decoder.  The writer
    accepts the two bytes of a code exactly when the code is in
    [0x8140, 0x9FFC] or [0xE040, 0xEBBF], and then its value fits in 13
    bits; when the second byte is 0x40 or more, as it is in every
    two-byte Shift-JIS code, the decoder rebuilds the two bytes from that
    value. *)
Theorem kanji_value_round_trip (b0 b1 : Z) :
  byte b0 -> byte b1 ->
  let code := b0 * 256 + b1 in
  match kanjiValue b0 b1 with
  | Ok k => (0x8140 <= code <= 0x9ffc \/ 0xe040 <= code <= 0xebbf)
            /\ 0 <= k < 2 ^ 13
            /\ (0x40 <= b1 -> Decoder.kanjiBytes k = (b0, b1))
  | Throw _ => ~ (0x8140 <= code <= 0x9ffc \/ 0xe040 <= code <= 0xebbf)
  end.
Proof.
  intros H0 H1. cbv zeta.
  assert (H : kanji_check b0 b1 = true).
  { apply (all_bytes2_spec kanji_check); [vm_compute; reflexivity | exact H0 | exact H1]. }
  unfold kanji_check in H.
  destruct (kanjiValue b0 b1) as [k|e].
  - rewrite !andb_true_iff in H. destruct H as [[[Hr Hk0] Hk1] Hb].
    split; [lia|]. split; [lia|].
    intros Hlo. apply orb_true_iff in Hb. destruct Hb as [Hb|Hb]; [lia|].
    apply andb_true_iff in Hb. destruct Hb as [E0 E1].
    apply Z.eqb_eq in E0, E1. destruct (Decoder.kanjiBytes k). simpl in *. congruence.
  - apply negb_true_iff in H. lia.
Qed.

Lemma kanji_value_round_trip_witness :
  let code := 0x8a * 256 + 0xbf in
  match kanjiValue 0x8a 0xbf with
  | Ok k => (0x8140 <= code <= 0x9ffc \/ 0xe040 <= code <= 0xebbf)
            /\ 0 <= k < 2 ^ 13
            /\ (0x40 <= 0xbf -> Decoder.kanjiBytes k = (0x8a, 0xbf))
  | Throw _ => ~ (0x8140 <= code <= 0x9ffc \/ 0xe040 <= code <= 0xebbf)
  end.
Proof. apply (kanji_value_round_trip 0x8a 0xbf); unfold byte; lia. Defined.

(** X5.  The eight masks of the encoder and of the decoder are the same:
    for every pattern from 0 to 7, [getMaskFunc] succeeds, and its
    function at a row and a column is the decoder's [DATA_MASKS] entry
    at the point with that [y] and [x]; any other pattern is an illegal
    mask. *)
Theorem encoder_and_decoder_masks_agree (maskPattern row col : Z) :
  0 <= row -> 0 <= col ->
  match MaskPattern.getMaskFunc maskPattern with
  | Ok f => 0 <= maskPattern < 8
            /\ exists g, nth_error DataMasks.DATA_MASKS (Z.to_nat maskPattern) = Some g
                         /\ g (DataMasks.mkPoint row col) = f row col
  | Throw e => e = IllegalMask maskPattern /\ ~ 0 <= maskPattern < 8
  end.
Proof.
  intros Hr Hc.
  destruct (Z_lt_dec maskPattern 0) as [Hneg|Hnn];
    [destruct maskPattern; try lia; simpl; split; [reflexivity|lia]|].
  destruct (Z_lt_dec maskPattern 8) as [Hlt|Hge].
  - assert (Hm : maskPattern = 0 \/ maskPattern = 1 \/ maskPattern = 2 \/ maskPattern = 3
                 \/ maskPattern = 4 \/ maskPattern = 5 \/ maskPattern = 6 \/ maskPattern = 7)
      by lia.
    destruct Hm as [->|[->|[->|[->|[->|[->|[->| ->]]]]]]];
      simpl; (split; [lia|]); eexists; (split; [reflexivity|]); simpl;
      rewrite ?(Z.add_comm col row), ?(Z.mul_comm col row); try reflexivity.
    + rewrite !Z.quot_div_nonneg by lia. reflexivity.
    + rewrite (Z.add_comm (Z.rem (row * col) 3)). reflexivity.
  - destruct maskPattern as [|p|p]; [lia| |lia].
    destruct p as [[[p|p|]|[p|p|]|]|[[p|p|]|[p|p|]|]|]; try lia;
      simpl; (split; [reflexivity|lia]).
Qed.

Lemma encoder_and_decoder_masks_agree_witness :
  match MaskPattern.getMaskFunc 4 with
  | Ok f => 0 <= 4 < 8
            /\ exists g, nth_error DataMasks.DATA_MASKS (Z.to_nat 4) = Some g
                         /\ g (DataMasks.mkPoint 5 7) = f 5 7
  | Throw e => e = IllegalMask 4 /\ ~ 0 <= 4 < 8
  end.
Proof. apply (encoder_and_decoder_masks_agree 4 5 7); lia. Defined.

Lemma all_words_spec P : forall k acc,
  all_words k acc P = true ->
  forall w, 0 <= w < 2 ^ Z.of_nat k -> P (acc * 2 ^ Z.of_nat k + w) = true.
Proof.
  induction k as [|k IH]; intros acc H w Hw.
  - simpl in *. replace (acc * 1 + w) with acc by lia. exact H.
  - simpl in H. apply andb_true_iff in H. destruct H as [H0 H1].
    rewrite Nat2Z.inj_succ, Z.pow_succ_r in * by lia.
    pose proof (Z.pow_pos_nonneg 2 (Z.of_nat k) ltac:(lia) ltac:(lia)) as Hp.
    destruct (Z_lt_dec w (2 ^ Z.of_nat k)) as [Hlt|Hge].
    + replace (acc * (2 * 2 ^ Z.of_nat k) + w) with (2 * acc * 2 ^ Z.of_nat k + w) by lia.
      apply IH; [exact H0 | lia].
    + replace (acc * (2 * 2 ^ Z.of_nat k) + w)
        with ((2 * acc + 1) * 2 ^ Z.of_nat k + (w - 2 ^ Z.of_nat k)) by lia.
      apply IH; [exact H1 | lia].
Qed.

Lemma clearBits_popbits z :
  0 <= z < 2 ^ 15 -> FormatInfo.clearBits 32 z 0 = popbits 15 z.
Proof.
  intros Hz. apply Z.eqb_eq.
  pose proof (all_words_spec (fun z => FormatInfo.clearBits 32 z 0 =? popbits 15 z) 15 0) as H.
  change (Z.of_nat 15) with 15 in H. simpl (0 * _ + _) in H.
  apply H; [vm_compute; reflexivity | exact Hz].
Qed.

Lemma lxor_15 x y : 0 <= x < 2 ^ 15 -> 0 <= y < 2 ^ 15 -> 0 <= Z.lxor x y < 2 ^ 15.
Proof.
  intros Hx Hy.
  assert (Hnn : 0 <= Z.lxor x y) by (apply Z.lxor_nonneg; split; lia).
  split; [exact Hnn|].
  destruct (Z.eq_dec (Z.lxor x y) 0) as [E|Hnz]; [rewrite E; reflexivity|].
  apply Z.log2_lt_pow2; [lia|].
  pose proof (Z.log2_lxor x y ltac:(lia) ltac:(lia)) as Hl.
  assert (Hlx : Z.log2 x < 15).
  { destruct (Z.eq_dec x 0) as [E|]; [rewrite E; reflexivity|]. apply Z.log2_lt_pow2; lia. }
  assert (Hly : Z.log2 y < 15).
  { destruct (Z.eq_dec y 0) as [E|]; [rewrite E; reflexivity|]. apply Z.log2_lt_pow2; lia. }
  lia.
Qed.

Lemma numBitsDiffering_popbits x y :
  0 <= x < 2 ^ 15 -> 0 <= y < 2 ^ 15 ->
  FormatInfo.numBitsDiffering x y = popbits 15 (Z.lxor x y).
Proof.
  intros Hx Hy. unfold FormatInfo.numBitsDiffering.
  apply clearBits_popbits. apply lxor_15; assumption.
Qed.

Lemma popbits_triangle k x y z :
  popbits k (Z.lxor x z) <= popbits k (Z.lxor x y) + popbits k (Z.lxor y z).
Proof.
  induction k as [|k IH]; [simpl; lia|]. cbn [popbits].
  rewrite !Z.lxor_spec.
  destruct (Z.testbit x (Z.of_nat k)), (Z.testbit y (Z.of_nat k)),
    (Z.testbit z (Z.of_nat k)); cbn [xorb]; lia.
Qed.

Lemma popbits_sym k x y : popbits k (Z.lxor x y) = popbits k (Z.lxor y x).
Proof. rewrite Z.lxor_comm. reflexivity. Qed.

Lemma format_table_checked : format_table_check = true.
Proof. vm_compute. reflexivity. Qed.

(** How far two words of 15 bits are apart, as [numBitsDiffering] counts
    it, obeys the triangle inequality. *)
Lemma numBitsDiffering_triangle x y z :
  0 <= x < 2 ^ 15 -> 0 <= y < 2 ^ 15 -> 0 <= z < 2 ^ 15 ->
  FormatInfo.numBitsDiffering x z
  <= FormatInfo.numBitsDiffering y x + FormatInfo.numBitsDiffering y z.
Proof.
  intros Hx Hy Hz. rewrite !numBitsDiffering_popbits by assumption.
  rewrite (popbits_sym 15 y x). apply popbits_triangle.
Qed.

Lemma numBitsDiffering_same x : FormatInfo.numBitsDiffering x x = 0.
Proof. unfold FormatInfo.numBitsDiffering. rewrite Z.lxor_nilpotent. reflexivity. Qed.

Lemma format_table_facts e1 e2 :
  In e1 FormatInfo.FORMAT_INFO_TABLE -> In e2 FormatInfo.FORMAT_INFO_TABLE ->
  0 <= fst e1 < 2 ^ 15
  /\ (fst e1 = fst e2 \/ 7 <= FormatInfo.numBitsDiffering (fst e1) (fst e2)).
Proof.
  intros He1 He2. pose proof format_table_checked as H.
  unfold format_table_check in H. rewrite forallb_forall in H.
  specialize (H e1 He1). rewrite !andb_true_iff in H. destruct H as [[H0 H1] H2].
  rewrite forallb_forall in H2. specialize (H2 e2 He2).
  split; [lia|].
  apply orb_true_iff in H2. destruct H2 as [H2|H2]; [left; lia|].
  apply andb_true_iff in H2. right. lia.
Qed.

Lemma format_table_bits_determine e1 e2 :
  In e1 FormatInfo.FORMAT_INFO_TABLE -> In e2 FormatInfo.FORMAT_INFO_TABLE ->
  fst e1 = fst e2 -> snd e1 = snd e2.
Proof.
  intros He1 He2 E.
  assert (H : forallb (fun a => forallb (fun b =>
                negb (fst a =? fst b)
                || ((FormatInfo.errorCorrectionLevel (snd a)
                     =? FormatInfo.errorCorrectionLevel (snd b))
                    && (FormatInfo.dataMask (snd a) =? FormatInfo.dataMask (snd b))))
              FormatInfo.FORMAT_INFO_TABLE) FormatInfo.FORMAT_INFO_TABLE = true)
    by (vm_compute; reflexivity).
  rewrite forallb_forall in H. specialize (H e1 He1).
  rewrite forallb_forall in H. specialize (H e2 He2).
  apply orb_true_iff in H. destruct H as [H|H]; [apply negb_true_iff in H; lia|].
  apply andb_true_iff in H. destruct H as [H1 H2].
  apply Z.eqb_eq in H1, H2.
  destruct (snd e1), (snd e2). simpl in *. congruence.
Qed.

(** A word of 15 bits is within 3 bits of the word of at most one entry. *)
Lemma format_near_unique w e1 e2 :
  0 <= w < 2 ^ 15 ->
  In e1 FormatInfo.FORMAT_INFO_TABLE -> In e2 FormatInfo.FORMAT_INFO_TABLE ->
  FormatInfo.numBitsDiffering w (fst e1) <= 3 ->
  FormatInfo.numBitsDiffering w (fst e2) <= 3 ->
  snd e1 = snd e2.
Proof.
  intros Hw He1 He2 Hd1 Hd2.
  destruct (format_table_facts e1 e2 He1 He2) as [Hb [E|Hfar]].
  - apply format_table_bits_determine; assumption.
  - destruct (format_table_facts e2 e1 He2 He1) as [Hb2 _].
    pose proof (numBitsDiffering_triangle (fst e1) w (fst e2) Hb Hw Hb2). lia.
Qed.

Lemma int32_small z : - 2 ^ 31 <= z < 2 ^ 31 -> int32 z = z.
Proof.
  intros Hz. unfold int32. rewrite Z.mod_small; lia.
Qed.

Lemma pushBit_value bit byte :
  0 <= byte < 2 ^ 30 ->
  FormatInfo.pushBit bit byte = 2 * byte + (if bit then 1 else 0).
Proof.
  intros Hb. unfold FormatInfo.pushBit, BitStream.shl.
  change (1 mod 32) with 1. rewrite Z.shiftl_mul_pow2 by lia.
  change (2 ^ 1) with 2. rewrite int32_small by lia.
  destruct bit; [|rewrite Z.lor_0_r; lia].
  replace (byte * 2) with (2 * byte) by lia.
  destruct byte as [|p|p]; [reflexivity | reflexivity | lia].
Qed.

(** A word read by calls of [pushBit] has as many bits as there are
    calls. *)
Lemma pushBit_fold_bound {X} (skip : X -> bool) (bit : X -> bool) (l : list X) :
  forall k v, 0 <= v < 2 ^ Z.of_nat k ->
  (k + length (filter (fun x => negb (skip x)) l) <= 30)%nat ->
  0 <= fold_left (fun bits x => if skip x then bits else FormatInfo.pushBit (bit x) bits) l v
    < 2 ^ Z.of_nat (k + length (filter (fun x => negb (skip x)) l)).
Proof.
  induction l as [|x l IH]; intros k v Hv Hk.
  - simpl. rewrite Nat.add_0_r. exact Hv.
  - simpl fold_left. simpl filter in *.
    destruct (skip x); simpl negb in *; cbv iota in *.
    + apply IH; assumption.
    + simpl length in *.
      assert (Hp : 2 ^ Z.of_nat k <= 2 ^ 29) by (apply Z.pow_le_mono_r; lia).
      replace (k + S (length (filter (fun x => negb (skip x)) l)))%nat
        with (S k + length (filter (fun x => negb (skip x)) l))%nat by lia.
      apply IH; [|lia].
      rewrite Nat2Z.inj_succ, Z.pow_succ_r by lia.
      rewrite pushBit_value by lia. destruct (bit x); lia.
Qed.

Lemma topLeftFormatInfoBits_bound matrix :
  0 <= FormatInfo.topLeftFormatInfoBits matrix < 2 ^ 15.
Proof.
  unfold FormatInfo.topLeftFormatInfoBits.
  pose proof (pushBit_fold_bound (fun x => x =? 6) (fun x => FormatInfo.get matrix x 8)
                (zrange 0 9) 0 0 ltac:(simpl; lia) ltac:(simpl; lia)) as H1.
  exact (pushBit_fold_bound (fun y => y =? 6) (fun y => FormatInfo.get matrix 8 y)
           (rev (zrange 0 8)) 8 _ H1 ltac:(simpl; lia)).
Qed.

Lemma pushBit_all_bound (bit : Z -> bool) (l : list Z) :
  forall k v, 0 <= v < 2 ^ Z.of_nat k -> (k + length l <= 30)%nat ->
  0 <= fold_left (fun bits x => FormatInfo.pushBit (bit x) bits) l v
    < 2 ^ Z.of_nat (k + length l).
Proof.
  induction l as [|x l IH]; intros k v Hv Hk.
  - simpl. rewrite Nat.add_0_r. exact Hv.
  - simpl fold_left. simpl length in *.
    assert (Hp : 2 ^ Z.of_nat k <= 2 ^ 29) by (apply Z.pow_le_mono_r; lia).
    replace (k + S (length l))%nat with (S k + length l)%nat by lia.
    apply IH; [|lia].
    rewrite Nat2Z.inj_succ, Z.pow_succ_r by lia.
    rewrite pushBit_value by lia. destruct (bit x); lia.
Qed.

Lemma length_zrange a n : length (zrange a n) = n.
Proof. unfold zrange. rewrite length_map, length_seq. reflexivity. Qed.

Lemma topRightBottomRightFormatInfoBits_bound matrix :
  0 <= FormatInfo.topRightBottomRightFormatInfoBits matrix < 2 ^ 15.
Proof.
  unfold FormatInfo.topRightBottomRightFormatInfoBits.
  set (d := FormatInfo.height matrix).
  pose proof (pushBit_all_bound (fun y => FormatInfo.get matrix 8 y)
                (rev (zrange (d - 7) 7)) 0 0 ltac:(simpl; lia)) as H1.
  rewrite length_rev, length_zrange in H1. specialize (H1 ltac:(lia)).
  pose proof (pushBit_all_bound (fun x => FormatInfo.get matrix x 8)
                (zrange (d - 8) 8) 7 _ H1) as H2.
  rewrite length_zrange in H2. specialize (H2 ltac:(lia)).
  exact H2.
Qed.

(** Whether an entry is within 3 bits of one of the two words read. *)
Lemma matchFormat_found info A B : forall table best bestInfo,
  (forall e, In e table ->
     FormatInfo.numBitsDiffering A (fst e) <= 3
     \/ FormatInfo.numBitsDiffering B (fst e) <= 3 -> snd e = info) ->
  (exists d, best = Some d /\ d <= 3) -> bestInfo = Some info ->
  FormatInfo.matchFormat table A B best bestInfo = Some info.
Proof.
  induction table as [|[bits fi] table IH]; intros best bestInfo Hnear [d [-> Hd]] ->.
  - simpl. destruct (Z.leb_spec d 3); [reflexivity | lia].
  - cbn [FormatInfo.matchFormat].
    assert (Hfi : FormatInfo.numBitsDiffering A bits <= 3
                  \/ FormatInfo.numBitsDiffering B bits <= 3 -> fi = info).
    { intros H. apply (Hnear (bits, fi)); [left; reflexivity | exact H]. }
    destruct (Z.eqb_spec bits A) as [EA|NA].
    { simpl. f_equal. apply Hfi. left. subst. rewrite numBitsDiffering_same. lia. }
    destruct (Z.eqb_spec bits B) as [EB|NB].
    { simpl. f_equal. apply Hfi. right. subst. rewrite numBitsDiffering_same. lia. }
    cbn [orb]. cbv zeta.
    destruct (Z.ltb_spec (FormatInfo.numBitsDiffering A bits) d) as [H1|H1].
    + assert (fi = info) by (apply Hfi; left; lia). subst fi.
      destruct (negb (A =? B)).
      * destruct (Z.ltb_spec (FormatInfo.numBitsDiffering B bits)
                             (FormatInfo.numBitsDiffering A bits)).
        -- apply IH; [intros; apply Hnear; [right|]; assumption | | reflexivity].
           eexists; split; [reflexivity | lia].
        -- apply IH; [intros; apply Hnear; [right|]; assumption | | reflexivity].
           eexists; split; [reflexivity | lia].
      * apply IH; [intros; apply Hnear; [right|]; assumption | | reflexivity].
        eexists; split; [reflexivity | lia].
    + destruct (negb (A =? B)).
      * destruct (Z.ltb_spec (FormatInfo.numBitsDiffering B bits) d) as [H2|H2].
        -- assert (fi = info) by (apply Hfi; right; lia). subst fi.
           apply IH; [intros; apply Hnear; [right|]; assumption | | reflexivity].
           eexists; split; [reflexivity | lia].
        -- apply IH; [intros; apply Hnear; [right|]; assumption | | reflexivity].
           eexists; split; [reflexivity | lia].
      * apply IH; [intros; apply Hnear; [right|]; assumption | | reflexivity].
        eexists; split; [reflexivity | lia].
Qed.

Lemma matchFormat_finds info A B : forall table best bestInfo,
  (forall e, In e table ->
     FormatInfo.numBitsDiffering A (fst e) <= 3
     \/ FormatInfo.numBitsDiffering B (fst e) <= 3 -> snd e = info) ->
  (exists e, In e table /\ snd e = info
             /\ FormatInfo.numBitsDiffering A (fst e) <= 3) ->
  (best = None \/ exists d, best = Some d /\ 3 < d) ->
  FormatInfo.matchFormat table A B best bestInfo = Some info.
Proof.
  induction table as [|[bits fi] table IH]; intros best bestInfo Hnear [e [He [Hi HdA]]] Hbest.
  - destruct He.
  - cbn [FormatInfo.matchFormat].
    assert (Hfi : FormatInfo.numBitsDiffering A bits <= 3
                  \/ FormatInfo.numBitsDiffering B bits <= 3 -> fi = info).
    { intros H. apply (Hnear (bits, fi)); [left; reflexivity | exact H]. }
    assert (Htl : forall e0, In e0 table ->
              FormatInfo.numBitsDiffering A (fst e0) <= 3
              \/ FormatInfo.numBitsDiffering B (fst e0) <= 3 -> snd e0 = info)
      by (intros; apply Hnear; [right|]; assumption).
    destruct (Z.eqb_spec bits A) as [EA|NA].
    { simpl. f_equal. apply Hfi. left. subst. rewrite numBitsDiffering_same. lia. }
    destruct (Z.eqb_spec bits B) as [EB|NB].
    { simpl. f_equal. apply Hfi. right. subst. rewrite numBitsDiffering_same. lia. }
    cbn [orb]. cbv zeta.
    destruct He as [<-|He].
    + (* this entry is the one near [A] *)
      cbn [fst snd] in *. subst fi.
      assert (Hb1 : (match best with
                     | Some b => FormatInfo.numBitsDiffering A bits <? b
                     | None => true
                     end) = true).
      { destruct Hbest as [->|[d [-> Hd]]]; [reflexivity|]. apply Z.ltb_lt. lia. }
      rewrite Hb1.
      destruct (negb (A =? B)).
      * destruct (Z.ltb_spec (FormatInfo.numBitsDiffering B bits)
                             (FormatInfo.numBitsDiffering A bits)).
        -- apply matchFormat_found; [exact Htl | | reflexivity].
           eexists; split; [reflexivity | lia].
        -- apply matchFormat_found; [exact Htl | | reflexivity].
           eexists; split; [reflexivity | lia].
      * apply matchFormat_found; [exact Htl | | reflexivity].
        eexists; split; [reflexivity | lia].
    + (* the entry near [A] comes later *)
      assert (Hlater : exists e0, In e0 table /\ snd e0 = info
                                  /\ FormatInfo.numBitsDiffering A (fst e0) <= 3)
        by (exists e; auto).
      destruct (match best with
                | Some b => FormatInfo.numBitsDiffering A bits <? b
                | None => true
                end) eqn:E1.
      * destruct (Z_le_dec (FormatInfo.numBitsDiffering A bits) 3) as [Hle|Hgt].
        -- assert (fi = info) by (apply Hfi; left; lia). subst fi.
           destruct (negb (A =? B)).
           ++ destruct (Z.ltb_spec (FormatInfo.numBitsDiffering B bits)
                                   (FormatInfo.numBitsDiffering A bits)).
              ** apply matchFormat_found; [exact Htl | | reflexivity].
                 eexists; split; [reflexivity | lia].
              ** apply matchFormat_found; [exact Htl | | reflexivity].
                 eexists; split; [reflexivity | lia].
           ++ apply matchFormat_found; [exact Htl | | reflexivity].
              eexists; split; [reflexivity | lia].
        -- destruct (negb (A =? B)).
           ++ destruct (Z.ltb_spec (FormatInfo.numBitsDiffering B bits)
                                   (FormatInfo.numBitsDiffering A bits)).
              ** destruct (Z_le_dec (FormatInfo.numBitsDiffering B bits) 3) as [HleB|HgtB].
                 --- assert (fi = info) by (apply Hfi; right; lia). subst fi.
                     apply matchFormat_found; [exact Htl | | reflexivity].
                     eexists; split; [reflexivity | lia].
                 --- apply IH; [exact Htl | exact Hlater |].
                     right. eexists; split; [reflexivity | lia].
              ** apply IH; [exact Htl | exact Hlater |].
                 right. eexists; split; [reflexivity | lia].
           ++ apply IH; [exact Htl | exact Hlater |].
              right. eexists; split; [reflexivity | lia].
      * assert (Hd : exists d, best = Some d /\ 3 < d).
        { destruct Hbest as [->|H]; [discriminate | exact H]. }
        destruct Hd as [d [-> Hd]].
        destruct (negb (A =? B)).
        -- destruct (Z.ltb_spec (FormatInfo.numBitsDiffering B bits) d).
           ++ destruct (Z_le_dec (FormatInfo.numBitsDiffering B bits) 3) as [HleB|HgtB].
              ** assert (fi = info) by (apply Hfi; right; lia). subst fi.
                 apply matchFormat_found; [exact Htl | | reflexivity].
                 eexists; split; [reflexivity | lia].
              ** apply IH; [exact Htl | exact Hlater |].
                 right. eexists; split; [reflexivity | lia].
           ++ apply IH; [exact Htl | exact Hlater |].
              right. eexists; split; [reflexivity | lia].
        -- apply IH; [exact Htl | exact Hlater |].
           right. eexists; split; [reflexivity | lia].
Qed.

Lemma format_word_in_table ecl maskPattern bits :
  0 <= maskPattern < 8 ->
  BCH.getBCHVersionInfo (Z.lor (Z.shiftl (ecl_value ecl) 3) maskPattern) = Ok bits ->
  In (bits, FormatInfo.mkFormatInfo (ecl_index ecl) maskPattern)
     FormatInfo.FORMAT_INFO_TABLE.
Proof.
  intros Hm Hbits.
  assert (Hcases : maskPattern = 0 \/ maskPattern = 1 \/ maskPattern = 2
                   \/ maskPattern = 3 \/ maskPattern = 4 \/ maskPattern = 5
                   \/ maskPattern = 6 \/ maskPattern = 7) by lia.
  destruct ecl;
    repeat (destruct Hcases as [->|Hcases]; [vm_compute in Hbits; injection Hbits as <-;
            unfold FormatInfo.FORMAT_INFO_TABLE; cbn [ecl_index In];
            repeat (first [left; reflexivity | right])|]);
    (subst maskPattern; vm_compute in Hbits; injection Hbits as <-;
            unfold FormatInfo.FORMAT_INFO_TABLE; cbn [ecl_index In];
            repeat (first [left; reflexivity | right])).
Qed.

(** X6.  The format word that the encoder writes for a level and a mask
    is read back by [readFormatInformation] as that level (by its place
    in the decoder's list of levels) and that mask whenever both copies in
    the matrix differ from it in at most 3 bits each. *)
Theorem readFormatInformation_corrects_three_errors
        (matrix : FormatInfo.BitMatrix) (ecl : ErrorCorrectLevel)
        (maskPattern bits : Z) :
  0 <= maskPattern < 8 ->
  BCH.getBCHVersionInfo (Z.lor (Z.shiftl (ecl_value ecl) 3) maskPattern) = Ok bits ->
  FormatInfo.numBitsDiffering (FormatInfo.topLeftFormatInfoBits matrix) bits <= 3 ->
  FormatInfo.numBitsDiffering (FormatInfo.topRightBottomRightFormatInfoBits matrix) bits <= 3 ->
  FormatInfo.readFormatInformation matrix
  = Some (FormatInfo.mkFormatInfo (ecl_index ecl) maskPattern).
Proof.
  intros Hm Hbits HA HB.
  pose proof (format_word_in_table ecl maskPattern bits Hm Hbits) as Hin.
  pose proof (topLeftFormatInfoBits_bound matrix) as HbA.
  pose proof (topRightBottomRightFormatInfoBits_bound matrix) as HbB.
  unfold FormatInfo.readFormatInformation.
  apply matchFormat_finds.
  - intros e He [Hn|Hn].
    + exact (format_near_unique _ e (bits, _) HbA He Hin Hn HA).
    + exact (format_near_unique _ e (bits, _) HbB He Hin Hn HB).
  - exists (bits, FormatInfo.mkFormatInfo (ecl_index ecl) maskPattern).
    split; [exact Hin | split; [reflexivity | exact HA]].
  - left. reflexivity.
Qed.

Lemma readFormatInformation_corrects_three_errors_witness :
  match Matrix.makeImpl 1 21 Q false (repeat 0 26) 5 with
  | Ok modules =>
      let matrix :=
        FormatInfo.new
          (concat (map (map (fun c : Matrix.cell =>
                               match c with Some true => 1 | _ => 0 end)) modules)) 21 in
      FormatInfo.readFormatInformation matrix = Some (FormatInfo.mkFormatInfo 2 5)
  | Throw _ => False
  end.
Proof.
  vm_compute Matrix.makeImpl. cbv zeta.
  apply (readFormatInformation_corrects_three_errors _ Q 5 0x2183);
    [lia | vm_compute; reflexivity | vm_compute; discriminate | vm_compute; discriminate].
Defined.

Lemma gexp_raise_mod fuel : forall n,
  n < 0 -> - n <= Z.of_nat fuel ->
  QRMath.gexp_raise fuel n = n mod 255.
Proof.
  induction fuel as [|fuel IH]; intros n Hneg Hfuel; [lia|].
  cbn [QRMath.gexp_raise]. destruct (Z.ltb_spec n 0); [|lia].
  destruct (Z_lt_dec (n + 255) 0) as [Hlt|Hge].
  - rewrite IH by lia. replace (n + 255) with (n + 1 * 255) by lia.
    apply Z.mod_add. lia.
  - replace (QRMath.gexp_raise fuel (n + 255)) with (n + 255).
    + apply (Z.mod_unique n 255 (-1)); lia.
    + destruct fuel; cbn [QRMath.gexp_raise]; [reflexivity|].
      destruct (Z.ltb_spec (n + 255) 0); [lia | reflexivity].
Qed.

Lemma gexp_raise_nonneg fuel n : 0 <= n -> QRMath.gexp_raise fuel n = n.
Proof.
  intros Hn. destruct fuel; cbn [QRMath.gexp_raise]; [reflexivity|].
  destruct (Z.ltb_spec n 0); [lia | reflexivity].
Qed.

Lemma gexp_lower_mod fuel : forall n,
  0 <= n -> n <= Z.of_nat fuel ->
  1 <= QRMath.gexp_lower fuel n + (if n =? 0 then 1 else 0) <= 255
  /\ QRMath.gexp_lower fuel n mod 255 = n mod 255.
Proof.
  induction fuel as [|fuel IH]; intros n Hn Hfuel.
  - assert (n = 0) by lia. subst n. cbn. split; [lia | reflexivity].
  - cbn [QRMath.gexp_lower]. destruct (Z.geb_spec n 256) as [Hge|Hlt].
    + destruct (IH (n - 255) ltac:(lia) ltac:(lia)) as [Hr Hm].
      destruct (Z.eqb_spec (n - 255) 0); [lia|].
      destruct (Z.eqb_spec n 0); [lia|].
      split; [lia|]. rewrite Hm.
      replace (n - 255) with (n + (-1) * 255) by lia. apply Z.mod_add. lia.
    + destruct (Z.eqb_spec n 0); split; try lia; reflexivity.
Qed.

(** [gexp] on any integer: the table at the residue modulo 255. *)
Lemma gexp_any n : QRMath.gexp n = gpow (n mod 255).
Proof.
  unfold QRMath.gexp. cbv zeta.
  set (n1 := QRMath.gexp_raise (Z.abs_nat n) n).
  assert (H1 : 0 <= n1 /\ n1 mod 255 = n mod 255).
  { subst n1. destruct (Z_lt_dec n 0) as [Hneg|Hpos].
    - rewrite gexp_raise_mod by lia.
      pose proof (Z.mod_pos_bound n 255 ltac:(lia)).
      split; [lia|]. apply Z.mod_mod. lia.
    - rewrite gexp_raise_nonneg by lia. split; [lia | reflexivity]. }
  destruct H1 as [Hn1 Hm1].
  destruct (gexp_lower_mod (Z.abs_nat n1) n1 Hn1 ltac:(lia)) as [Hr Hm2].
  set (n2 := QRMath.gexp_lower (Z.abs_nat n1) n1) in *.
  rewrite <- Hm1, <- Hm2.
  assert (Hn2 : 0 <= n2 < 256) by (destruct (n1 =? 0); lia).
  destruct tables_agree as [-> _].
  apply Z.eqb_eq.
  apply (all_below_spec 256
           (fun k => getAt (GenericGF.expTable GenericGF.QR_FIELD) (Z.to_nat k)
                     =? gpow (k mod 255)));
    [vm_compute; reflexivity | lia].
Qed.

(** X7.  The arithmetic of the encoder: [glog] throws exactly below 1;
    [gexp] has period 255 over all integers, also negative ones, and
    gives a non-zero byte; on non-zero bytes [gexp] undoes [glog], and the
    [gexp] of a sum of logarithms is the product that the decoder's
    [GenericGF.multiply] computes. *)
Theorem QRMath_gexp_glog (n : Z) (a b : Z) :
  1 <= a < 256 -> 1 <= b < 256 ->
  QRMath.glog (Z.min n 0) = Throw (IllegalLog (Z.min n 0))
  /\ QRMath.gexp (n + 255) = QRMath.gexp n
  /\ 1 <= QRMath.gexp n < 256
  /\ exists la lb,
       QRMath.glog a = Ok la /\ QRMath.glog b = Ok lb
       /\ 0 <= la < 255
       /\ QRMath.gexp la = a
       /\ QRMath.gexp (la + lb) = GenericGF.multiply GenericGF.QR_FIELD a b
       /\ (a <> b -> la <> lb).
Proof.
  intros Ha Hb.
  split.
  { unfold QRMath.glog. destruct (Z.ltb_spec (Z.min n 0) 1); [reflexivity | lia]. }
  split.
  { rewrite !gexp_any. f_equal. replace (n + 255) with (n + 1 * 255) by lia.
    apply Z.mod_add. lia. }
  split.
  { rewrite gexp_any. pose proof (Z.mod_pos_bound n 255 ltac:(lia)) as Hm.
    destruct (gpow_glg (n mod 255) Hm) as [Hbyte [Hnz _]]. unfold byte in Hbyte. lia. }
  assert (Hba : byte a) by (unfold byte; lia).
  assert (Hbb : byte b) by (unfold byte; lia).
  exists (glg a), (glg b).
  destruct (glg_gpow a Hba ltac:(lia)) as [Hla Hga].
  destruct (glg_gpow b Hbb ltac:(lia)) as [Hlb Hgb].
  split; [apply glog_ok; [assumption | lia]|].
  split; [apply glog_ok; [assumption | lia]|].
  split; [exact Hla|].
  split; [rewrite gexp_any, Z.mod_small by lia; exact Hga|].
  split.
  - rewrite gexp_any. change (GenericGF.multiply GenericGF.QR_FIELD a b) with (gmul a b).
    rewrite gmul_nz by (try assumption; lia). reflexivity.
  - intros Hne E. apply Hne. rewrite <- Hga, <- Hgb, E. reflexivity.
Qed.

Lemma QRMath_gexp_glog_witness :
  QRMath.gexp (-3 + 255) = QRMath.gexp (-3)
  /\ exists la lb, QRMath.glog 87 = Ok la /\ QRMath.glog 131 = Ok lb
       /\ QRMath.gexp (la + lb) = GenericGF.multiply GenericGF.QR_FIELD 87 131.
Proof.
  destruct (QRMath_gexp_glog (-3) 87 131 ltac:(lia) ltac:(lia))
    as [_ [Hper [_ [la [lb [H1 [H2 [_ [_ [H3 _]]]]]]]]]].
  split; [exact Hper|]. exists la, lb. auto.
Defined.

Section AutoVersion.

Variable SJIS2UTFTable : Z -> option Z.

Lemma autoVersionLoop_least ecl dataList : forall rest version,
  match QRCode.autoVersionLoop SJIS2UTFTable rest version ecl dataList with
  | Ok (v, p) =>
      version <= v <= version + Z.of_nat rest + 1
      /\ (forall u, version <= u < v ->
            exists q, prepareData SJIS2UTFTable u ecl dataList = Ok q /\ ~ fits q)
      /\ (v <= version + Z.of_nat rest ->
            prepareData SJIS2UTFTable v ecl dataList = Ok p /\ fits p)
      /\ (v = version + Z.of_nat rest + 1 ->
            prepareData SJIS2UTFTable (v - 1) ecl dataList = Ok p /\ ~ fits p)
  | Throw e =>
      exists u, version <= u <= version + Z.of_nat rest
        /\ prepareData SJIS2UTFTable u ecl dataList = Throw e
        /\ forall w, version <= w < u ->
             exists q, prepareData SJIS2UTFTable w ecl dataList = Ok q /\ ~ fits q
  end.
Proof.
  induction rest as [|rest IH]; intros version.
  - cbn [QRCode.autoVersionLoop].
    destruct (prepareData SJIS2UTFTable version ecl dataList) as [p|e] eqn:Hp;
      cbn [bind].
    + destruct (Z.leb_spec (BitBuffer.getLengthInBits (p_buffer p)) (p_maxDataCount p))
        as [Hfit|Hno].
      * split; [lia|]. split; [intros u Hu; lia|].
        split; [intros _; split; [exact Hp | exact Hfit]|]. intros Hv. lia.
      * split; [lia|]. split.
        { intros u Hu. assert (u = version) by lia. subst u.
          exists p. split; [exact Hp | unfold fits; lia]. }
        split; [intros Hv; lia|]. intros _.
        replace (version + 1 - 1) with version by lia.
        split; [exact Hp | unfold fits; lia].
    + exists version. split; [lia|]. split; [exact Hp|]. intros w Hw. lia.
  - cbn [QRCode.autoVersionLoop].
    destruct (prepareData SJIS2UTFTable version ecl dataList) as [p|e] eqn:Hp;
      cbn [bind].
    + destruct (Z.leb_spec (BitBuffer.getLengthInBits (p_buffer p)) (p_maxDataCount p))
        as [Hfit|Hno].
      * split; [lia|]. split; [intros u Hu; lia|].
        split; [intros _; split; [exact Hp | exact Hfit]|]. intros Hv. lia.
      * specialize (IH (version + 1)).
        destruct (QRCode.autoVersionLoop SJIS2UTFTable rest (version + 1) ecl dataList)
          as [[v p1]|e].
        -- destruct IH as [Hr [Hbelow [Hin Hout]]].
           split; [lia|]. split.
           { intros u Hu. destruct (Z.eq_dec u version) as [->|Hne].
             - exists p. split; [exact Hp | unfold fits; lia].
             - apply Hbelow. lia. }
           split; [intros Hv; apply Hin; lia | intros Hv; apply Hout; lia].
        -- destruct IH as [u [Hu [He Hbelow]]].
           exists u. split; [lia|]. split; [exact He|].
           intros w Hw. destruct (Z.eq_dec w version) as [->|Hne].
           ++ exists p. split; [exact Hp | unfold fits; lia].
           ++ apply Hbelow. lia.
    + exists version. split; [lia|]. split; [exact Hp|]. intros w Hw. lia.
Qed.

(** X8.  With the automatic version, the version that [make] goes on
    with is the least of 1..40 whose capacity holds the prepared bits,
    with the data prepared for it; when none of them does it is 41, with
    the data prepared for 40; an error of [prepareData] at the first
    version that it reaches ends the search. *)
Theorem chooseVersion_picks_least_fitting (this : QRCode.QRCode) :
  QRCode.autoVersion this = true ->
  let prepare v :=
    prepareData SJIS2UTFTable v (QRCode.errorCorrectLevel this) (QRCode.dataList this) in
  match QRCode.chooseVersion SJIS2UTFTable this with
  | Ok (v, p) =>
      1 <= v <= 41
      /\ (forall u, 1 <= u < v -> exists q, prepare u = Ok q /\ ~ fits q)
      /\ (v <= 40 -> prepare v = Ok p /\ fits p)
      /\ (v = 41 -> prepare 40 = Ok p /\ ~ fits p)
  | Throw e =>
      exists u, 1 <= u <= 40 /\ prepare u = Throw e
        /\ forall w, 1 <= w < u -> exists q, prepare w = Ok q /\ ~ fits q
  end.
Proof.
  intros Hauto prepare. unfold QRCode.chooseVersion. rewrite Hauto.
  pose proof (autoVersionLoop_least (QRCode.errorCorrectLevel this)
                (QRCode.dataList this) 39 1) as H.
  destruct (QRCode.autoVersionLoop SJIS2UTFTable 39 1 (QRCode.errorCorrectLevel this)
              (QRCode.dataList this)) as [[v p]|e].
  - destruct H as [Hr [Hbelow [Hin Hout]]].
    split; [lia|]. split; [exact Hbelow|].
    split; [intros Hv; apply Hin; lia|].
    intros Hv. subst v. apply (Hout eq_refl).
  - destruct H as [u [Hu [He Hbelow]]]. exists u.
    split; [lia|]. split; [exact He | exact Hbelow].
Qed.

End AutoVersion.

Lemma chooseVersion_picks_least_fitting_witness :
  match QRCode.chooseVersion (fun _ => None)
          (QRCode.write QRCode.new (QRByte (repeat 65 20))) with
  | Ok (v, p) => v = 2 /\ exists q, prepareData (fun _ => None) 1 L [QRByte (repeat 65 20)] = Ok q
                                     /\ ~ fits q
  | Throw _ => False
  end.
Proof.
  pose proof (chooseVersion_picks_least_fitting (fun _ => None)
                (QRCode.write QRCode.new (QRByte (repeat 65 20))) eq_refl) as H.
  cbv zeta in H.
  destruct (QRCode.chooseVersion (fun _ => None)
              (QRCode.write QRCode.new (QRByte (repeat 65 20)))) as [[v p]|e] eqn:E.
  - vm_compute in E. injection E as Hv _. subst v.
    split; [reflexivity|]. destruct H as [_ [Hbelow _]]. apply (Hbelow 1). lia.
  - vm_compute in E. discriminate E.
Defined.

Lemma land_1_testbit x : (Z.land x 1 =? 1) = Z.testbit x 0.
Proof.
  change 1 with (Z.ones 1) at 1. rewrite Z.land_ones by lia.
  change (2 ^ 1) with 2. rewrite <- Z.bit0_mod.
  destruct (Z.testbit x 0); reflexivity.
Qed.

(** [getBit] reads bit [7 - index mod 8] of the byte [index / 8]. *)
Lemma getBit_testbit b i :
  BitBuffer.getBit b i
  = Z.testbit (getAt (BitBuffer.buffer b) (i / 8)) (7 - Z.of_nat (i mod 8)).
Proof.
  unfold BitBuffer.getBit, BitBuffer.ushr. rewrite land_1_testbit.
  pose proof (Nat.mod_upper_bound i 8 ltac:(lia)) as Hm.
  rewrite (Z.mod_small (7 - Z.of_nat (i mod 8)) 32) by lia.
  rewrite Z.shiftr_spec, Z.add_0_l by lia.
  apply Z.mod_pow2_bits_low. lia.
Qed.

Lemma getAt_app_zero l j : getAt (l ++ [0]) j = getAt l j.
Proof.
  unfold getAt. destruct (Nat.lt_ge_cases j (length l)) as [Hlt|Hge].
  - apply app_nth1. exact Hlt.
  - rewrite app_nth2 by exact Hge. rewrite (nth_overflow l) by exact Hge.
    destruct (j - length l)%nat as [|[|k]]; reflexivity.
Qed.

Lemma getAt_set_at l k v j :
  (k < length l)%nat ->
  getAt (set_at l k v) j = if (j =? k)%nat then v else getAt l j.
Proof.
  unfold getAt. revert k j. induction l as [|x l IH]; intros k j Hk; [simpl in Hk; lia|].
  destruct k as [|k], j as [|j]; simpl; try reflexivity.
  apply IH. simpl in Hk. lia.
Qed.

Lemma ushr_0x80 k : (k < 8)%nat -> BitBuffer.ushr 0x80 (Z.of_nat k) = 2 ^ (7 - Z.of_nat k).
Proof.
  intros Hk. do 8 (destruct k as [|k]; [reflexivity|]). lia.
Qed.

(** The bits of the bytes of a buffer are the bits that were written,
    and 0 after them. *)
Lemma getBit_written bits : forall i,
  BitBuffer.getBit (written bits) i = nth i bits false.
Proof.
  induction bits as [|bit bits IH] using rev_ind; intros i.
  - rewrite getBit_testbit. cbn [written fold_left BitBuffer.new BitBuffer.buffer].
    replace (getAt [] (i / 8)) with 0 by (unfold getAt; destruct (i / 8)%nat; reflexivity).
    rewrite Z.testbit_0_l. destruct i; reflexivity.
  - rewrite getBit_testbit. rewrite <- written_app. cbn [fold_left].
    specialize (IH i). rewrite getBit_testbit in IH.
    pose proof (written_length bits) as Hl.
    pose proof (written_buffer_length bits) as Hbuf.
    set (b := written bits) in *.
    pose proof (Nat.div_mod_eq i 8) as Hi.
    pose proof (Nat.mod_upper_bound i 8 ltac:(lia)) as Hi8.
    pose proof (Nat.div_mod_eq (length bits) 8) as Hn.
    pose proof (Nat.mod_upper_bound (length bits) 8 ltac:(lia)) as Hn8.
    unfold BitBuffer.putBit. rewrite Hl. cbn [BitBuffer.buffer].
    set (buf := if (length bits =? length (BitBuffer.buffer b) * 8)%nat
                then BitBuffer.buffer b ++ [0] else BitBuffer.buffer b).
    assert (Hget : forall j, getAt buf j = getAt (BitBuffer.buffer b) j).
    { intros j. subst buf.
      destruct (length bits =? length (BitBuffer.buffer b) * 8)%nat;
        [apply getAt_app_zero | reflexivity]. }
    assert (Hlen : (length bits / 8 < length buf)%nat).
    { subst buf.
      destruct (Nat.eqb_spec (length bits) (length (BitBuffer.buffer b) * 8)) as [E|E];
        [rewrite length_app; cbn [length]|]; lia. }
    assert (Hnth : nth i (bits ++ [bit]) false
                   = if (i =? length bits)%nat then bit else nth i bits false).
    { destruct (Nat.eqb_spec i (length bits)) as [->|Hne].
      - rewrite app_nth2 by lia. rewrite Nat.sub_diag. reflexivity.
      - destruct (Nat.lt_ge_cases i (length bits)) as [Hlt|Hge].
        + apply app_nth1. exact Hlt.
        + rewrite !nth_overflow; [reflexivity | lia | rewrite length_app; cbn [length]; lia]. }
    rewrite Hnth. destruct bit.
    + rewrite getAt_set_at by exact Hlen. rewrite Hget.
      destruct (Nat.eqb_spec (i / 8) (length bits / 8)) as [Ediv|Ndiv].
      * rewrite Z.lor_spec, <- Ediv, IH, ushr_0x80 by lia.
        rewrite Z.pow2_bits_eqb by lia.
        destruct (Nat.eqb_spec i (length bits)) as [->|Hne].
        -- rewrite Z.eqb_refl. apply orb_true_r.
        -- destruct (Z.eqb_spec (7 - Z.of_nat (length bits mod 8)) (7 - Z.of_nat (i mod 8)));
             [lia | apply orb_false_r].
      * rewrite Hget, IH.
        destruct (Nat.eqb_spec i (length bits)) as [->|Hne]; [congruence | reflexivity].
    + rewrite Hget, IH.
      destruct (Nat.eqb_spec i (length bits)) as [->|Hne]; [|reflexivity].
      apply nth_overflow. lia.
Qed.

Lemma nth_numBits num len i :
  (i < len)%nat -> (len <= 32)%nat ->
  nth i (numBits num len) false = Z.testbit num (Z.of_nat len - Z.of_nat i - 1).
Proof.
  intros Hi Hlen. unfold numBits, upto.
  rewrite nth_map_seq by exact Hi.
  rewrite land_1_testbit. unfold BitBuffer.ushr.
  rewrite (Z.mod_small (Z.of_nat len - Z.of_nat i - 1) 32) by lia.
  rewrite Z.shiftr_spec, Z.add_0_l by lia.
  apply Z.mod_pow2_bits_low. lia.
Qed.

(** X9.  After any sequence of [putBit], [put(num, len)] with [len] up
    to 32 adds [len] to the length, leaves the bits that were written
    before as [getBit] reads them, and writes the [len] low-order bits of
    [num], the most significant first; [getBit] reads each written bit
    back. *)
Theorem BitBuffer_put_then_getBit (bits : list bool) (num : Z) (len i : nat) :
  (len <= 32)%nat ->
  let b := fold_left BitBuffer.putBit bits BitBuffer.new in
  let b' := BitBuffer.put b num len in
  BitBuffer.getLengthInBits b' = Z.of_nat (length bits + len)
  /\ (8 * length (BitBuffer.getBuffer b') < length bits + len + 8)%nat
  /\ ((i < length bits)%nat ->
      BitBuffer.getBit b i = nth i bits false /\ BitBuffer.getBit b' i = nth i bits false)
  /\ ((i < len)%nat ->
      BitBuffer.getBit b' (length bits + i) = Z.testbit num (Z.of_nat len - Z.of_nat i - 1)).
Proof.
  intros Hlen b b'. fold (written bits) in b.
  assert (Hb' : b' = written (bits ++ numBits num len)) by apply put_written.
  rewrite Hb'. unfold BitBuffer.getLengthInBits, BitBuffer.getBuffer.
  rewrite written_length, length_app, numBits_length.
  split; [reflexivity|]. split.
  { pose proof (written_buffer_length (bits ++ numBits num len)) as H.
    rewrite length_app, numBits_length in H. lia. }
  split.
  - intros Hi. subst b. rewrite !getBit_written. split; [reflexivity|].
    apply app_nth1. exact Hi.
  - intros Hi. rewrite getBit_written.
    rewrite app_nth2 by lia.
    replace (length bits + i - length bits)%nat with i by lia.
    apply nth_numBits; assumption.
Qed.

Lemma BitBuffer_put_then_getBit_witness :
  let b := fold_left BitBuffer.putBit [true; false; true] BitBuffer.new in
  BitBuffer.getBit (BitBuffer.put b 0x1ec 9) (3 + 2) = Z.testbit 0x1ec (9 - 2 - 1).
Proof.
  intros b.
  destruct (BitBuffer_put_then_getBit [true; false; true] 0x1ec 9 2 ltac:(lia))
    as [_ [_ [_ H]]].
  apply H. lia.
Defined.

Lemma alike_bind {A B} (R : A -> A -> Prop) (S : B -> B -> Prop) r1 r2 k1 k2 :
  alike R r1 r2 -> (forall a b, R a b -> alike S (k1 a) (k2 b)) ->
  alike S (bind r1 k1) (bind r2 k2).
Proof.
  intros Hr Hk. destruct r1 as [a|e1], r2 as [b|e2]; simpl in *;
    try contradiction; auto.
Qed.

Lemma alike_foldM {St X} (R : St -> St -> Prop) (f1 f2 : St -> X -> result St) xs :
  (forall x s1 s2, In x xs -> R s1 s2 -> alike R (f1 s1 x) (f2 s2 x)) ->
  forall s1 s2, R s1 s2 -> alike R (foldM f1 xs s1) (foldM f2 xs s2).
Proof.
  induction xs as [|x xs IH]; intros Hf s1 s2 Hs; [exact Hs|].
  cbn [foldM]. apply (alike_bind R).
  - apply Hf; [left; reflexivity | exact Hs].
  - intros a b Hab. apply IH; [|exact Hab].
    intros y t1 t2 Hy. apply Hf. right. exact Hy.
Qed.

Lemma map_set_at {A B} (f : A -> B) l i v :
  map f (set_at l i v) = set_at (map f l) i (f v).
Proof.
  revert i. induction l as [|x l IH]; intros [|i]; simpl; f_equal; auto.
Qed.

Lemma same_shape_row m1 m2 k :
  same_shape m1 m2 ->
  match nth_error m1 k, nth_error m2 k with
  | Some r1, Some r2 => map is_set r1 = map is_set r2
  | None, None => True
  | _, _ => False
  end.
Proof.
  intros H. unfold same_shape, shape in H.
  assert (E : nth_error (map (map is_set) m1) k = nth_error (map (map is_set) m2) k)
    by (rewrite H; reflexivity).
  rewrite !nth_error_map in E.
  destruct (nth_error m1 k), (nth_error m2 k); simpl in E; try discriminate; auto.
  injection E. auto.
Qed.

Lemma same_row_cell (r1 r2 : list Matrix.cell) k :
  map is_set r1 = map is_set r2 ->
  match nth_error r1 k, nth_error r2 k with
  | Some c1, Some c2 => is_set c1 = is_set c2
  | None, None => True
  | _, _ => False
  end.
Proof.
  intros H.
  assert (E : nth_error (map is_set r1) k = nth_error (map is_set r2) k)
    by (rewrite H; reflexivity).
  rewrite !nth_error_map in E.
  destruct (nth_error r1 k), (nth_error r2 k); simpl in E; try discriminate; auto.
  injection E. auto.
Qed.

Lemma readCell_alike m1 m2 row col :
  same_shape m1 m2 ->
  alike (fun c1 c2 => is_set c1 = is_set c2)
        (Matrix.readCell m1 row col) (Matrix.readCell m2 row col).
Proof.
  intros H. unfold Matrix.readCell.
  destruct (row <? 0); [exact I|].
  pose proof (same_shape_row m1 m2 (Z.to_nat row) H) as Hr.
  destruct (nth_error m1 (Z.to_nat row)) as [r1|], (nth_error m2 (Z.to_nat row)) as [r2|];
    try contradiction; [|exact I].
  destruct (col <? 0); [exact I|].
  pose proof (same_row_cell r1 r2 (Z.to_nat col) Hr) as Hc.
  destruct (nth_error r1 (Z.to_nat col)), (nth_error r2 (Z.to_nat col));
    try contradiction; [exact Hc | exact I].
Qed.

Lemma writeCell_alike m1 m2 row col v1 v2 :
  same_shape m1 m2 ->
  alike same_shape (Matrix.writeCell m1 row col v1) (Matrix.writeCell m2 row col v2).
Proof.
  intros H. unfold Matrix.writeCell.
  destruct (row <? 0); [exact I|].
  pose proof (same_shape_row m1 m2 (Z.to_nat row) H) as Hr.
  destruct (nth_error m1 (Z.to_nat row)) as [r1|], (nth_error m2 (Z.to_nat row)) as [r2|];
    try contradiction; [|exact I].
  assert (Hl : length r1 = length r2).
  { rewrite <- (length_map is_set r1), <- (length_map is_set r2), Hr. reflexivity. }
  rewrite Hl.
  destruct ((col <? 0) || (Z.of_nat (length r2) <=? col)); [exact I|].
  cbn [alike]. unfold same_shape, shape in *.
  rewrite !map_set_at, H, Hr. reflexivity.
Qed.

Lemma same_shape_refl m : same_shape m m.
Proof. reflexivity. Qed.

Lemma setupFinderPattern_alike n m1 m2 row col :
  same_shape m1 m2 ->
  alike same_shape (Matrix.setupFinderPattern n m1 row col)
                   (Matrix.setupFinderPattern n m2 row col).
Proof.
  intros H. unfold Matrix.setupFinderPattern.
  apply (alike_foldM same_shape); [|exact H]. intros r a1 a2 _ Ha.
  apply (alike_foldM same_shape); [|exact Ha]. intros c b1 b2 _ Hb.
  destruct ((row + r <=? -1) || (n <=? row + r) || (col + c <=? -1) || (n <=? col + c));
    [exact Hb|].
  match goal with
  | |- context [if ?b then _ else _] => destruct b
  end; apply writeCell_alike; exact Hb.
Qed.

Lemma setupAlignmentPattern_alike version m1 m2 :
  same_shape m1 m2 ->
  alike same_shape (Matrix.setupAlignmentPattern version m1)
                   (Matrix.setupAlignmentPattern version m2).
Proof.
  intros H. unfold Matrix.setupAlignmentPattern.
  destruct (getAlignmentPattern version) as [pos|]; [|exact I].
  apply (alike_foldM same_shape); [|exact H]. intros row a1 a2 _ Ha.
  apply (alike_foldM same_shape); [|exact Ha]. intros col b1 b2 _ Hb.
  apply (alike_bind (fun c1 c2 => is_set c1 = is_set c2)).
  { apply readCell_alike. exact Hb. }
  intros c1 c2 Hc. destruct c1, c2; try discriminate Hc; [exact Hb|].
  apply (alike_foldM same_shape); [|exact Hb]. intros r d1 d2 _ Hd.
  apply (alike_foldM same_shape); [|exact Hd]. intros c e1 e2 _ He.
  match goal with
  | |- context [if ?b then _ else _] => destruct b
  end; apply writeCell_alike; exact He.
Qed.

Lemma setupTimingPattern_alike n m1 m2 :
  same_shape m1 m2 ->
  alike same_shape (Matrix.setupTimingPattern n m1) (Matrix.setupTimingPattern n m2).
Proof.
  intros H. unfold Matrix.setupTimingPattern.
  apply (alike_foldM same_shape); [|exact H]. intros i a1 a2 _ Ha. cbv zeta.
  apply (alike_bind (fun c1 c2 => is_set c1 = is_set c2)).
  { apply readCell_alike. exact Ha. }
  intros c1 c2 Hc.
  apply (alike_bind same_shape).
  { destruct c1, c2; try discriminate Hc; [exact Ha | apply writeCell_alike; exact Ha]. }
  intros b1 b2 Hb.
  apply (alike_bind (fun c1 c2 => is_set c1 = is_set c2)).
  { apply readCell_alike. exact Hb. }
  intros d1 d2 Hd.
  destruct d1, d2; try discriminate Hd; [exact Hb | apply writeCell_alike; exact Hb].
Qed.

Lemma format_bits_ok ecl maskPattern :
  0 <= maskPattern < 8 ->
  exists bits,
    BCH.getBCHVersionInfo (Z.lor (Z.shiftl (ecl_value ecl) 3) maskPattern) = Ok bits.
Proof.
  intros Hm.
  assert (Hcases : maskPattern = 0 \/ maskPattern = 1 \/ maskPattern = 2
                   \/ maskPattern = 3 \/ maskPattern = 4 \/ maskPattern = 5
                   \/ maskPattern = 6 \/ maskPattern = 7) by lia.
  destruct ecl;
    repeat (destruct Hcases as [->|Hcases]; [eexists; vm_compute; reflexivity|]);
    subst maskPattern; eexists; vm_compute; reflexivity.
Qed.

Lemma setupFormatInfo_alike n ecl1 ecl2 m1 m2 test1 test2 mask1 mask2 :
  0 <= mask1 < 8 -> 0 <= mask2 < 8 ->
  same_shape m1 m2 ->
  alike same_shape (Matrix.setupFormatInfo n ecl1 m1 test1 mask1)
                   (Matrix.setupFormatInfo n ecl2 m2 test2 mask2).
Proof.
  intros Hk1 Hk2 H. unfold Matrix.setupFormatInfo. cbv zeta.
  destruct (format_bits_ok ecl1 mask1 Hk1) as [bits1 E1].
  destruct (format_bits_ok ecl2 mask2 Hk2) as [bits2 E2].
  rewrite E1, E2, !bind_Ok.
  apply (alike_bind same_shape).
  - apply (alike_foldM same_shape); [|exact H]. intros i a1 a2 _ Ha.
    apply (alike_bind same_shape).
    + destruct (i <? 6); [apply writeCell_alike; exact Ha|].
      destruct (i <? 8); apply writeCell_alike; exact Ha.
    + intros b1 b2 Hb.
      destruct (i <? 8); [apply writeCell_alike; exact Hb|].
      destruct (i <? 9); apply writeCell_alike; exact Hb.
  - intros a1 a2 Ha. apply writeCell_alike. exact Ha.
Qed.

Lemma setupVersionInfo_alike version n m1 m2 test1 test2 :
  same_shape m1 m2 ->
  alike same_shape (Matrix.setupVersionInfo version n m1 test1)
                   (Matrix.setupVersionInfo version n m2 test2).
Proof.
  intros H. unfold Matrix.setupVersionInfo.
  destruct (BCH.getBCHVersion version) as [bits|e]; [|exact I].
  rewrite !bind_Ok.
  apply (alike_foldM same_shape); [|exact H]. intros i a1 a2 _ Ha. cbv zeta.
  apply (alike_bind same_shape); [apply writeCell_alike; exact Ha|].
  intros b1 b2 Hb. apply writeCell_alike. exact Hb.
Qed.

Lemma mapCell_alike data1 data2 f1 f2 col s1 s2 c :
  same_state s1 s2 ->
  alike same_state (Matrix.mapCell data1 f1 col s1 c) (Matrix.mapCell data2 f2 col s2 c).
Proof.
  intros [Hm [Hinc [Hbit [Hbyte Hrow]]]]. unfold Matrix.mapCell.
  rewrite <- Hrow, <- Hbit, <- Hbyte, <- Hinc.
  apply (alike_bind (fun c1 c2 => is_set c1 = is_set c2)).
  { apply readCell_alike. exact Hm. }
  intros c1 c2 Hc.
  destruct c1, c2; try discriminate Hc.
  - cbn [alike]. repeat split; assumption.
  - cbv zeta. apply (alike_bind same_shape); [apply writeCell_alike; exact Hm|].
    intros a1 a2 Ha.
    destruct (Matrix.ms_bitIndex s1 - 1 =? -1); cbn [alike]; repeat split; assumption.
Qed.

Lemma mapColumn_alike n data1 data2 f1 f2 col : forall fuel s1 s2,
  same_state s1 s2 ->
  alike same_state (Matrix.mapColumn fuel n data1 f1 col s1)
                   (Matrix.mapColumn fuel n data2 f2 col s2).
Proof.
  induction fuel as [|fuel IH]; intros s1 s2 Hs; [exact I|].
  cbn [Matrix.mapColumn].
  apply (alike_bind same_state).
  { apply (alike_foldM same_state); [|exact Hs]. intros c a1 a2 _ Ha.
    apply mapCell_alike. exact Ha. }
  intros a1 a2 [Hm [Hinc [Hbit [Hbyte Hrow]]]]. cbv zeta.
  rewrite <- Hrow, <- Hbit, <- Hbyte, <- Hinc.
  destruct ((Matrix.ms_row a1 + Matrix.ms_inc a1 <? 0)
            || (n <=? Matrix.ms_row a1 + Matrix.ms_inc a1)).
  - cbn [alike]. repeat split; assumption.
  - apply IH. repeat split; assumption.
Qed.

Lemma mapColumns_alike n data1 data2 f1 f2 : forall fuel col s1 s2,
  same_state s1 s2 ->
  alike same_state (Matrix.mapColumns fuel n data1 f1 col s1)
                   (Matrix.mapColumns fuel n data2 f2 col s2).
Proof.
  induction fuel as [|fuel IH]; intros col s1 s2 Hs.
  - cbn [Matrix.mapColumns]. destruct (col >? 0); [exact I | exact Hs].
  - cbn [Matrix.mapColumns]. destruct (col >? 0); [|exact Hs]. cbv zeta.
    apply (alike_bind same_state); [apply mapColumn_alike; exact Hs|].
    intros a1 a2 Ha. apply IH. exact Ha.
Qed.

Lemma getMaskFunc_ok maskPattern :
  0 <= maskPattern < 8 -> exists f, MaskPattern.getMaskFunc maskPattern = Ok f.
Proof.
  intros Hm.
  assert (Hcases : maskPattern = 0 \/ maskPattern = 1 \/ maskPattern = 2
                   \/ maskPattern = 3 \/ maskPattern = 4 \/ maskPattern = 5
                   \/ maskPattern = 6 \/ maskPattern = 7) by lia.
  repeat (destruct Hcases as [->|Hcases]; [eexists; reflexivity|]).
  subst. eexists; reflexivity.
Qed.

Lemma mapData_alike n m1 m2 data1 data2 mask1 mask2 :
  0 <= mask1 < 8 -> 0 <= mask2 < 8 ->
  same_shape m1 m2 ->
  alike same_shape (Matrix.mapData n m1 data1 mask1) (Matrix.mapData n m2 data2 mask2).
Proof.
  intros Hk1 Hk2 H. unfold Matrix.mapData.
  destruct (getMaskFunc_ok mask1 Hk1) as [f1 ->].
  destruct (getMaskFunc_ok mask2 Hk2) as [f2 ->].
  rewrite !bind_Ok.
  apply (alike_bind same_state).
  - apply mapColumns_alike. repeat split. exact H.
  - intros a1 a2 [Ha _]. exact Ha.
Qed.

(** The modules that [makeImpl] sets, and whether it returns, are the
    same for all data, levels and masks of a version. *)
Lemma makeImpl_alike version n ecl1 ecl2 test1 test2 data1 data2 mask1 mask2 :
  0 <= mask1 < 8 -> 0 <= mask2 < 8 ->
  alike same_shape (Matrix.makeImpl version n ecl1 test1 data1 mask1)
                   (Matrix.makeImpl version n ecl2 test2 data2 mask2).
Proof.
  intros Hk1 Hk2. unfold Matrix.makeImpl. cbv zeta.
  apply (alike_bind same_shape); [apply setupFinderPattern_alike, same_shape_refl|].
  intros a1 a2 Ha.
  apply (alike_bind same_shape); [apply setupFinderPattern_alike; exact Ha|].
  clear a1 a2 Ha. intros a1 a2 Ha.
  apply (alike_bind same_shape); [apply setupFinderPattern_alike; exact Ha|].
  clear a1 a2 Ha. intros a1 a2 Ha.
  apply (alike_bind same_shape); [apply setupAlignmentPattern_alike; exact Ha|].
  clear a1 a2 Ha. intros a1 a2 Ha.
  apply (alike_bind same_shape); [apply setupTimingPattern_alike; exact Ha|].
  clear a1 a2 Ha. intros a1 a2 Ha.
  apply (alike_bind same_shape); [apply setupFormatInfo_alike; assumption|].
  clear a1 a2 Ha. intros a1 a2 Ha.
  apply (alike_bind same_shape).
  { destruct (version >=? 7); [apply setupVersionInfo_alike; exact Ha | exact Ha]. }
  clear a1 a2 Ha. intros a1 a2 Ha.
  apply mapData_alike; assumption.
Qed.

Lemma layout_checked : forallb layout_check (zrange 1 40) = true.
Proof. vm_compute. reflexivity. Qed.

Lemma shape_square_full n m1 m2 :
  same_shape m1 m2 ->
  (length m1 =? n)%nat
  && forallb (fun row => (length row =? n)%nat && forallb is_set row) m1 = true ->
  square n m2 /\ full m2.
Proof.
  intros Hs Hc. apply andb_true_iff in Hc. destruct Hc as [Hlen Hrows].
  apply Nat.eqb_eq in Hlen. rewrite forallb_forall in Hrows.
  unfold same_shape, shape in Hs.
  assert (Hl : length m2 = n).
  { rewrite <- (length_map (map is_set) m2), <- Hs, length_map. exact Hlen. }
  assert (Hrow : forall r2, In r2 m2 ->
            length r2 = n /\ Forall (fun c : Matrix.cell => c <> None) r2).
  { intros r2 Hin. apply (in_map (map is_set)) in Hin. rewrite <- Hs in Hin.
    apply in_map_iff in Hin. destruct Hin as [r1 [E Hin1]].
    specialize (Hrows r1 Hin1). apply andb_true_iff in Hrows. destruct Hrows as [Hn Hset].
    apply Nat.eqb_eq in Hn. split.
    - rewrite <- (length_map is_set r2), <- E, length_map. exact Hn.
    - apply Forall_forall. intros c Hc Hnone. subst c.
      apply (in_map is_set) in Hc. rewrite <- E in Hc.
      apply in_map_iff in Hc. destruct Hc as [c1 [E1 Hc1]].
      rewrite forallb_forall in Hset. rewrite (Hset c1 Hc1) in E1. discriminate E1. }
  split; [split; [exact Hl|] |]; apply Forall_forall; intros r Hr; apply Hrow; exact Hr.
Qed.

Lemma makeImpl_square_full version ecl test data maskPattern :
  1 <= version <= 40 -> 0 <= maskPattern < 8 ->
  exists modules,
    Matrix.makeImpl version (version * 4 + 17) ecl test data maskPattern = Ok modules
    /\ square (Z.to_nat (version * 4 + 17)) modules /\ full modules.
Proof.
  intros Hv Hm.
  pose proof layout_checked as Hchk. rewrite forallb_forall in Hchk.
  specialize (Hchk version ltac:(apply in_zrange; lia)).
  unfold layout_check in Hchk. cbv zeta in Hchk.
  pose proof (makeImpl_alike version (version * 4 + 17) L ecl true test [] data 0
                maskPattern ltac:(lia) Hm) as Ha.
  destruct (Matrix.makeImpl version (version * 4 + 17) L true [] 0) as [m1|];
    [|discriminate].
  destruct (Matrix.makeImpl version (version * 4 + 17) ecl test data maskPattern) as [m2|];
    [|contradiction].
  cbn [alike] in Ha.
  exists m2. split; [reflexivity|]. exact (shape_square_full _ m1 m2 Ha Hchk).
Qed.

(** X10.  For a version from 1 to 40 with its module count, any level,
    any data array, either test flag and a mask from 0 to 7, [makeImpl]
    returns a matrix of [moduleCount] rows of [moduleCount] modules, none
    of which is left null. *)
Theorem makeImpl_sets_every_module
        (version : Z) (ecl : ErrorCorrectLevel) (test : bool) (data : list Z)
        (maskPattern : Z) :
  1 <= version <= 40 -> 0 <= maskPattern < 8 ->
  let moduleCount := version * 4 + 17 in
  exists modules,
    Matrix.makeImpl version moduleCount ecl test data maskPattern = Ok modules
    /\ Z.of_nat (length modules) = moduleCount
    /\ forall row, In row modules ->
         Z.of_nat (length row) = moduleCount /\ forall c, In c row -> c <> None.
Proof.
  intros Hv Hm moduleCount.
  destruct (makeImpl_square_full version ecl test data maskPattern Hv Hm)
    as [m2 [E [[Hlen Hrows] Hfull]]].
  exists m2. split; [exact E|]. split; [subst moduleCount; lia|].
  intros row Hrow. unfold full in Hfull. rewrite Forall_forall in Hrows, Hfull.
  split; [rewrite (Hrows row Hrow); subst moduleCount; lia|].
  intros c Hc. specialize (Hfull row Hrow). rewrite Forall_forall in Hfull.
  apply Hfull. exact Hc.
Qed.

Lemma makeImpl_sets_every_module_witness :
  exists modules,
    Matrix.makeImpl 7 45 Q false [64; 20; 134; 86] 3 = Ok modules
    /\ Z.of_nat (length modules) = 45
    /\ forall row, In row modules ->
         Z.of_nat (length row) = 45 /\ forall c, In c row -> c <> None.
Proof.
  apply (makeImpl_sets_every_module 7 Q false [64; 20; 134; 86] 3); lia.
Defined.

Lemma foldM_invariant {S X : Type} (P : S -> Prop) (Q : X -> Prop)
      (f : S -> X -> result S) (xs : list X) :
  Forall Q xs ->
  (forall s x, P s -> Q x -> exists s', f s x = Ok s' /\ P s') ->
  forall s, P s -> exists s', foldM f xs s = Ok s' /\ P s'.
Proof.
  intros HQ Hf. induction HQ as [|x xs Hx HQ IH]; intros s Hs.
  - exists s. split; [reflexivity | exact Hs].
  - destruct (Hf s x Hs Hx) as [s1 [E1 H1]].
    destruct (IH s1 H1) as [s2 [E2 H2]].
    exists s2. cbn [foldM]. rewrite E1, bind_Ok. auto.
Qed.

Lemma zrange_Forall lo n : Forall (fun z => lo <= z < lo + Z.of_nat n) (zrange lo n).
Proof. apply Forall_forall. intros z Hz. apply in_zrange. exact Hz. Qed.

Lemma nth_error_in_range {A} (l : list A) (i : Z) :
  0 <= i < Z.of_nat (length l) -> exists x, nth_error l (Z.to_nat i) = Some x /\ In x l.
Proof.
  intros Hi. destruct (nth_error l (Z.to_nat i)) as [x|] eqn:E.
  - exists x. split; [reflexivity|]. eapply nth_error_In. exact E.
  - apply nth_error_None in E. lia.
Qed.

Lemma readCell_square n modules row col :
  square n modules -> 0 <= row < Z.of_nat n -> 0 <= col < Z.of_nat n ->
  exists c, Matrix.readCell modules row col = Ok c.
Proof.
  intros [Hlen Hrows] Hr Hc. unfold Matrix.readCell.
  destruct (Z.ltb_spec row 0); [lia|].
  destruct (nth_error_in_range modules row ltac:(lia)) as [r [-> Hin]].
  rewrite Forall_forall in Hrows. specialize (Hrows r Hin).
  destruct (Z.ltb_spec col 0); [lia|].
  destruct (nth_error_in_range r col ltac:(lia)) as [c [-> _]].
  eauto.
Qed.

Lemma isDark_square n modules row col :
  square n modules -> 0 <= row < Z.of_nat n -> 0 <= col < Z.of_nat n ->
  exists d, Matrix.isDark modules row col = Ok d.
Proof.
  intros Hsq Hr Hc. unfold Matrix.isDark.
  destruct (readCell_square n modules row col Hsq Hr Hc) as [c ->].
  rewrite bind_Ok. eauto.
Qed.

Lemma sameCount_square n modules row col :
  square n modules -> 0 <= row < Z.of_nat n -> 0 <= col < Z.of_nat n ->
  exists k, Penalty.sameCount (Z.of_nat n) modules row col = Ok k /\ 0 <= k.
Proof.
  intros Hsq Hr Hc. unfold Penalty.sameCount.
  destruct (isDark_square n modules row col Hsq Hr Hc) as [dark ->]. rewrite bind_Ok.
  apply (foldM_invariant (fun k => 0 <= k) _ _ _ (zrange_Forall (-1) 3)); [|lia].
  intros k r Hk _.
  destruct ((row + r <? 0) || (Z.of_nat n <=? row + r)) eqn:Er; [eauto|].
  apply orb_false_iff in Er. destruct Er as [Er1 Er2].
  apply Z.ltb_ge in Er1. apply Z.leb_gt in Er2.
  apply (foldM_invariant (fun k => 0 <= k) _ _ _ (zrange_Forall (-1) 3)); [|exact Hk].
  intros k1 c Hk1 _.
  destruct ((col + c <? 0) || (Z.of_nat n <=? col + c)) eqn:Ec; [eauto|].
  apply orb_false_iff in Ec. destruct Ec as [Ec1 Ec2].
  apply Z.ltb_ge in Ec1. apply Z.leb_gt in Ec2.
  destruct ((r =? 0) && (c =? 0)); [eauto|].
  destruct (isDark_square n modules (row + r) (col + c) Hsq ltac:(lia) ltac:(lia))
    as [d ->].
  rewrite bind_Ok. eexists. split; [reflexivity|].
  destruct (Bool.eqb dark d); lia.
Qed.

Lemma rule1_square n modules score :
  square n modules -> 0 <= score ->
  exists s, Penalty.rule1 (Z.of_nat n) modules score = Ok s /\ 0 <= s.
Proof.
  intros Hsq Hs. unfold Penalty.rule1. rewrite Nat2Z.id.
  apply (foldM_invariant (fun k => 0 <= k) _ _ _ (zrange_Forall 0 n)); [|exact Hs].
  intros s1 row Hs1 Hrow.
  apply (foldM_invariant (fun k => 0 <= k) _ _ _ (zrange_Forall 0 n)); [|exact Hs1].
  intros s2 col Hs2 Hcol.
  destruct (sameCount_square n modules row col Hsq ltac:(lia) ltac:(lia)) as [k [-> Hk]].
  rewrite bind_Ok. eexists. split; [reflexivity|].
  destruct (Z.gtb_spec k 5); lia.
Qed.

Lemma rule2_square n modules score :
  square n modules -> 0 <= score ->
  exists s, Penalty.rule2 (Z.of_nat n) modules score = Ok s /\ 0 <= s.
Proof.
  intros Hsq Hs. unfold Penalty.rule2.
  apply (foldM_invariant (fun k => 0 <= k) _ _ _
           (zrange_Forall 0 (Z.to_nat (Z.of_nat n - 1)))); [|exact Hs].
  intros s1 row Hs1 Hrow.
  apply (foldM_invariant (fun k => 0 <= k) _ _ _
           (zrange_Forall 0 (Z.to_nat (Z.of_nat n - 1)))); [|exact Hs1].
  intros s2 col Hs2 Hcol.
  destruct (isDark_square n modules row col Hsq ltac:(lia) ltac:(lia)) as [d00 ->].
  rewrite bind_Ok.
  destruct (isDark_square n modules (row + 1) col Hsq ltac:(lia) ltac:(lia)) as [d10 ->].
  rewrite bind_Ok.
  destruct (isDark_square n modules row (col + 1) Hsq ltac:(lia) ltac:(lia)) as [d01 ->].
  rewrite bind_Ok.
  destruct (isDark_square n modules (row + 1) (col + 1) Hsq ltac:(lia) ltac:(lia))
    as [d11 ->].
  rewrite bind_Ok. cbv zeta. eexists. split; [reflexivity|].
  match goal with |- context [if ?b then _ else _] => destruct b end; lia.
Qed.

Lemma seven_square n modules swap row col :
  square n modules -> 0 <= row < Z.of_nat n -> 0 <= col -> col + 6 < Z.of_nat n ->
  exists l, Penalty.seven modules swap row col = Ok l.
Proof.
  intros Hsq Hr Hc Hc6. unfold Penalty.seven.
  destruct (foldM_invariant (fun _ : list bool => True) _
              (fun acc k =>
                 d <- (if swap then Matrix.isDark modules (col + k) row
                       else Matrix.isDark modules row (col + k)) ;;
                 Ok (acc ++ [d]))
              _ (zrange_Forall 0 7)) with (s := @nil bool) as [l [E _]]; [|exact I|eauto].
  intros acc k _ Hk. destruct swap.
  - destruct (isDark_square n modules (col + k) row Hsq ltac:(lia) ltac:(lia)) as [d ->].
    rewrite bind_Ok. eauto.
  - destruct (isDark_square n modules row (col + k) Hsq ltac:(lia) ltac:(lia)) as [d ->].
    rewrite bind_Ok. eauto.
Qed.

Lemma rule3_square n modules score :
  square n modules -> 0 <= score ->
  exists s, Penalty.rule3 (Z.of_nat n) modules score = Ok s /\ 0 <= s.
Proof.
  intros Hsq Hs. unfold Penalty.rule3. rewrite Nat2Z.id.
  apply (foldM_invariant (fun k => 0 <= k) _ _ _ (zrange_Forall 0 n)); [|exact Hs].
  intros s1 row Hs1 Hrow.
  apply (foldM_invariant (fun k => 0 <= k) _ _ _
           (zrange_Forall 0 (Z.to_nat (Z.of_nat n - 6)))); [|exact Hs1].
  intros s2 col Hs2 Hcol.
  destruct (seven_square n modules false row col Hsq ltac:(lia) ltac:(lia) ltac:(lia))
    as [a ->].
  rewrite bind_Ok. cbv zeta.
  destruct (seven_square n modules true row col Hsq ltac:(lia) ltac:(lia) ltac:(lia))
    as [b ->].
  rewrite bind_Ok. eexists. split; [reflexivity|].
  destruct (Penalty.isFinderLike a), (Penalty.isFinderLike b); lia.
Qed.

Lemma darkCount_square n modules :
  square n modules ->
  exists d, Penalty.darkCount (Z.of_nat n) modules = Ok d.
Proof.
  intros Hsq. unfold Penalty.darkCount. rewrite Nat2Z.id.
  destruct (foldM_invariant (fun _ : Z => True) _
              (fun count col =>
                 foldM (fun count row =>
                          d <- Matrix.isDark modules row col ;;
                          Ok (if d then count + 1 else count))
                       (zrange 0 n) count)
              _ (zrange_Forall 0 n)) with (s := 0) as [d [E _]]; [|exact I|eauto].
  intros s1 col _ Hcol.
  apply (foldM_invariant (fun _ : Z => True) _ _ _ (zrange_Forall 0 n)); [|exact I].
  intros s2 row _ Hrow.
  destruct (isDark_square n modules row col Hsq ltac:(lia) ltac:(lia)) as [d ->].
  rewrite bind_Ok. eauto.
Qed.

Lemma getPenaltyScore_square n modules :
  (1 <= n)%nat -> square n modules ->
  exists s, Penalty.getPenaltyScore (Z.of_nat n) modules = Ok s /\ 0 <= s.
Proof.
  intros Hn Hsq. unfold Penalty.getPenaltyScore.
  destruct (rule1_square n modules 0 Hsq ltac:(lia)) as [s1 [-> H1]]. rewrite bind_Ok.
  destruct (rule2_square n modules s1 Hsq H1) as [s2 [-> H2]]. rewrite bind_Ok.
  destruct (rule3_square n modules s2 Hsq H2) as [s3 [-> H3]]. rewrite bind_Ok.
  unfold Penalty.rule4.
  destruct (darkCount_square n modules Hsq) as [d ->]. rewrite bind_Ok.
  destruct (Z.eqb_spec (Z.of_nat n) 0); [lia|]. cbv zeta.
  eexists. split; [reflexivity|].
  assert (0 <= Z.abs (100 * d - 50 * (Z.of_nat n * Z.of_nat n))
               / (5 * (Z.of_nat n * Z.of_nat n))).
  { apply Z.div_pos; [lia | nia]. }
  lia.
Qed.

(** X11.  On a matrix of [n] rows of [n] modules, [n] at least 1,
    whatever the modules are (null ones count as light),
    [getPenaltyScore] reads no module outside the matrix: it returns a
    score, which is not negative. *)
Theorem getPenaltyScore_stays_inside (n : nat) (modules : Matrix.Modules) :
  (1 <= n)%nat -> length modules = n -> (forall row, In row modules -> length row = n) ->
  exists score, Penalty.getPenaltyScore (Z.of_nat n) modules = Ok score /\ 0 <= score.
Proof.
  intros Hn Hlen Hrows. apply getPenaltyScore_square; [exact Hn|].
  split; [exact Hlen | apply Forall_forall; exact Hrows].
Qed.

Lemma getPenaltyScore_stays_inside_witness :
  exists score,
    Penalty.getPenaltyScore 2 [[Some true; None]; [Some false; Some true]] = Ok score
    /\ 0 <= score.
Proof.
  apply (getPenaltyScore_stays_inside 2 [[Some true; None]; [Some false; Some true]]).
  - lia.
  - reflexivity.
  - intros row [<-|[<-|[]]]; reflexivity.
Defined.

Lemma zrange_S lo k : zrange lo (S k) = lo :: zrange (lo + 1) k.
Proof.
  unfold zrange. cbn [seq map]. f_equal; [lia|].
  rewrite <- seq_shift, map_map. apply map_ext. intros i. lia.
Qed.

Lemma maskScore_total version ecl data i :
  1 <= version <= 40 -> 0 <= i < 8 ->
  exists modules score,
    Matrix.makeImpl version (version * 4 + 17) ecl true data i = Ok modules
    /\ Penalty.getPenaltyScore (version * 4 + 17) modules = Ok score
    /\ maskScore version (version * 4 + 17) ecl data i = Ok score.
Proof.
  intros Hv Hi. unfold maskScore.
  destruct (makeImpl_square_full version ecl true data i Hv Hi) as [m [E [Hsq _]]].
  destruct (getPenaltyScore_square (Z.to_nat (version * 4 + 17)) m ltac:(lia) Hsq)
    as [s [Hs _]].
  rewrite Z2Nat.id in Hs by lia.
  exists m, s. rewrite E, bind_Ok. auto.
Qed.

Lemma bestMaskStep_keeps version ecl data lo st :
  1 <= version <= 40 -> 1 <= lo < 8 ->
  best_below version (version * 4 + 17) ecl data lo st ->
  exists st', QRCode.bestMaskStep version (version * 4 + 17) ecl data st lo = Ok st'
              /\ best_below version (version * 4 + 17) ecl data (lo + 1) st'.
Proof.
  intros Hv Hlo Hst. destruct st as [[p sp] m0]. destruct Hst as [Hp [Hsp Hall]].
  destruct (maskScore_total version ecl data lo Hv ltac:(lia)) as [m [s [Em [Es Hs]]]].
  unfold QRCode.bestMaskStep. rewrite Em, bind_Ok, Es, bind_Ok.
  destruct (Z.eqb_spec lo 0); [lia|]. cbn [orb].
  destruct (Z.gtb_spec sp s) as [Hgt|Hle].
  - eexists. split; [reflexivity|]. split; [lia|]. split; [exact Hs|].
    intros i Hi. destruct (Z.eq_dec i lo) as [->|Hne].
    + exists s. split; [exact Hs|]. split; lia.
    + destruct (Hall i ltac:(lia)) as [si [Esi [Hmin Htie]]].
      exists si. split; [exact Esi|]. split; lia.
  - eexists. split; [reflexivity|]. split; [lia|]. split; [exact Hsp|].
    intros i Hi. destruct (Z.eq_dec i lo) as [->|Hne].
    + exists s. split; [exact Hs|]. split; lia.
    + exact (Hall i ltac:(lia)).
Qed.

Lemma bestMask_loop version ecl data :
  1 <= version <= 40 ->
  forall k lo st, 1 <= lo -> lo + Z.of_nat k <= 8 ->
  best_below version (version * 4 + 17) ecl data lo st ->
  exists st', foldM (QRCode.bestMaskStep version (version * 4 + 17) ecl data)
                    (zrange lo k) st = Ok st'
              /\ best_below version (version * 4 + 17) ecl data (lo + Z.of_nat k) st'.
Proof.
  intros Hv. induction k as [|k IH]; intros lo st Hlo Hk Hst.
  - exists st. split; [reflexivity|]. replace (lo + Z.of_nat 0) with lo by lia. exact Hst.
  - rewrite zrange_S. cbn [foldM].
    destruct (bestMaskStep_keeps version ecl data lo st Hv ltac:(lia) Hst) as [st1 [-> H1]].
    rewrite bind_Ok.
    destruct (IH (lo + 1) st1 ltac:(lia) ltac:(lia) H1) as [st2 [E2 H2]].
    exists st2. split; [exact E2|].
    replace (lo + Z.of_nat (S k)) with (lo + 1 + Z.of_nat k) by lia. exact H2.
Qed.

Lemma getBestMaskPattern_best version ecl data modules0 :
  1 <= version <= 40 ->
  exists st,
    foldM (QRCode.bestMaskStep version (version * 4 + 17) ecl data)
          (zrange 0 8) (0, 0, modules0) = Ok st
    /\ best_below version (version * 4 + 17) ecl data 8 st.
Proof.
  intros Hv. rewrite zrange_S. cbn [foldM].
  destruct (maskScore_total version ecl data 0 Hv ltac:(lia)) as [m [s [Em [Es Hs]]]].
  assert (E0 : QRCode.bestMaskStep version (version * 4 + 17) ecl data (0, 0, modules0) 0
               = Ok (0, s, m)).
  { unfold QRCode.bestMaskStep. rewrite Em, bind_Ok, Es, bind_Ok. reflexivity. }
  rewrite E0, bind_Ok.
  apply (bestMask_loop version ecl data Hv 7 (0 + 1) (0, s, m)); [lia | lia |].
  split; [lia|]. split; [exact Hs|].
  intros i Hi. assert (i = 0) by lia. subst i.
  exists s. split; [exact Hs|]. split; lia.
Qed.

(** X12.  For a version from 1 to 40 with its module count,
    [getBestMaskPattern] returns a mask from 0 to 7 of the least penalty
    score among the eight, each scored on the matrix that [makeImpl]
    builds with the test flag; among masks of that score it is the one
    of the lowest number. *)
Theorem getBestMaskPattern_least_score (this : QRCode.QRCode) (data : list Z) :
  1 <= QRCode.version this <= 40 ->
  QRCode.moduleCount this = QRCode.version this * 4 + 17 ->
  let score i :=
    modules <- Matrix.makeImpl (QRCode.version this) (QRCode.moduleCount this)
                 (QRCode.errorCorrectLevel this) true data i ;;
    Penalty.getPenaltyScore (QRCode.moduleCount this) modules in
  exists pattern minimum,
    QRCode.getBestMaskPattern this data = Ok pattern
    /\ 0 <= pattern < 8
    /\ score pattern = Ok minimum
    /\ forall i, 0 <= i < 8 ->
         exists s, score i = Ok s /\ minimum <= s /\ (s = minimum -> pattern <= i).
Proof.
  intros Hv Hn score. unfold QRCode.getBestMaskPattern. subst score. rewrite Hn.
  destruct (getBestMaskPattern_best (QRCode.version this) (QRCode.errorCorrectLevel this)
              data (QRCode.modules this) Hv) as [[[p sp] m] [-> [Hp [Hsp Hall]]]].
  rewrite bind_Ok. exists p, sp. cbn [fst]. auto.
Qed.

Lemma getBestMaskPattern_least_score_witness :
  exists pattern minimum,
    QRCode.getBestMaskPattern
      (QRCode.mkQRCode 1 21 [] [] false M) [16; 17; 18] = Ok pattern
    /\ 0 <= pattern < 8
    /\ (modules <- Matrix.makeImpl 1 21 M true [16; 17; 18] pattern ;;
        Penalty.getPenaltyScore 21 modules) = Ok minimum
    /\ forall i, 0 <= i < 8 ->
         exists s, (modules <- Matrix.makeImpl 1 21 M true [16; 17; 18] i ;;
                    Penalty.getPenaltyScore 21 modules) = Ok s
                   /\ minimum <= s /\ (s = minimum -> pattern <= i).
Proof.
  apply (getBestMaskPattern_least_score (QRCode.mkQRCode 1 21 [] [] false M) [16; 17; 18]).
  - simpl. lia.
  - reflexivity.
Defined.

Lemma getRSBlocks_version version ecl blocks :
  RSBlock.getRSBlocks version ecl = Ok blocks -> 1 <= version <= 40.
Proof.
  unfold RSBlock.getRSBlocks, RSBlock.getRSBlockTable. intros H.
  assert (Hlen : length RSBlock.RS_BLOCK_TABLE = 160%nat) by reflexivity.
  destruct ecl;
    match type of H with
    | context [if ?i <? 0 then _ else _] =>
        destruct (Z.ltb_spec i 0); [discriminate|];
        destruct (nth_error RSBlock.RS_BLOCK_TABLE (Z.to_nat i)) eqn:E; [|discriminate];
        assert (Hi : (Z.to_nat i < 160)%nat)
          by (rewrite <- Hlen; apply nth_error_Some; rewrite E; discriminate)
    end; lia.
Qed.

Lemma prepareData_rsBlocks tbl version ecl dataList p :
  prepareData tbl version ecl dataList = Ok p ->
  RSBlock.getRSBlocks version ecl = Ok (p_rsBlocks p).
Proof.
  unfold prepareData. intros H.
  apply bind_Ok_inv in H. destruct H as [rsBlocks [Hb H]].
  apply bind_Ok_inv in H. destruct H as [buffer [_ H]].
  inversion H; subst p. exact Hb.
Qed.

Lemma createData_fits tbl version ecl dataList p :
  prepareData tbl version ecl dataList = Ok p ->
  BitBuffer.getLengthInBits (p_buffer p) <= p_maxDataCount p ->
  exists data,
    QRCodeData.createData (p_buffer p) (p_rsBlocks p) (p_maxDataCount p) = Ok data.
Proof.
  intros Hp Hfit.
  pose proof (prepareData_rsBlocks _ _ _ _ _ Hp) as Hb.
  pose proof (getRSBlocks_version _ _ _ Hb) as Hv.
  destruct (prepareData_written _ _ _ _ _ Hp) as [bits Hbits].
  destruct (prepareData_maxDataCount _ _ _ _ _ Hv Hp) as [k Hk].
  destruct (getRSBlocks_ok version ecl Hv) as [blocks [Hb2 [_ Hsizes]]].
  rewrite Hb in Hb2. injection Hb2 as Hb2.
  unfold QRCodeData.createData. rewrite Hbits, Hk in *.
  unfold BitBuffer.getLengthInBits in Hfit. rewrite written_length in Hfit.
  destruct (padBuffer_written bits k ltac:(lia)) as [n [_ [_ ->]]].
  rewrite bind_Ok. unfold QRCodeData.createBytes, QRCodeData.encodeBlocks.
  rewrite Hb2.
  match goal with
  | |- context [foldM (QRCodeData.blockStep ?buf) blocks ?s0] =>
      destruct (encodeBlocks_correct buf blocks s0 Hsizes) as [st [dcs [ecs [-> _]]]]
  end.
  rewrite bind_Ok. eauto.
Qed.

Lemma createData_overflow buffer rsBlocks maxDataCount :
  maxDataCount < BitBuffer.getLengthInBits buffer ->
  QRCodeData.createData buffer rsBlocks maxDataCount
  = Throw (DataOverflow (BitBuffer.getLengthInBits buffer) maxDataCount).
Proof.
  intros H. unfold QRCodeData.createData, QRCodeData.padBuffer.
  destruct (Z.gtb_spec (BitBuffer.getLengthInBits buffer) maxDataCount); [reflexivity | lia].
Qed.

Section MakeOutcome.

Variable SJIS2UTFTable : Z -> option Z.

Lemma chooseVersion_prepared this v p :
  QRCode.chooseVersion SJIS2UTFTable this = Ok (v, p) ->
  (1 <= v <= 40
   /\ prepareData SJIS2UTFTable v (QRCode.errorCorrectLevel this) (QRCode.dataList this)
      = Ok p)
  \/ (v = 41
      /\ prepareData SJIS2UTFTable 40 (QRCode.errorCorrectLevel this) (QRCode.dataList this)
         = Ok p
      /\ p_maxDataCount p < BitBuffer.getLengthInBits (p_buffer p)).
Proof.
  unfold QRCode.chooseVersion. intros H.
  destruct (QRCode.autoVersion this).
  - pose proof (autoVersionLoop_least SJIS2UTFTable (QRCode.errorCorrectLevel this)
                  (QRCode.dataList this) 39 1) as Hl.
    rewrite H in Hl. destruct Hl as [Hr [_ [Hin Hout]]].
    destruct (Z_le_dec v 40) as [Hle|Hgt].
    + left. split; [lia|]. apply Hin. lia.
    + right. assert (v = 41) by lia. subst v.
      destruct (Hout eq_refl) as [Hp Hno]. unfold fits in Hno.
      split; [reflexivity|]. split; [exact Hp | lia].
  - apply bind_Ok_inv in H. destruct H as [q [Hq H]]. inversion H; subst v q.
    left. split; [|exact Hq].
    apply (getRSBlocks_version _ _ _ (prepareData_rsBlocks _ _ _ _ _ Hq)).
Qed.

(** X13.  What [make] does after the version is chosen.  When the
    prepared bits fit the capacity, the version is one of 1..40 and
    [make] returns the symbol of that version: its module count is
    4 * version + 17, its matrix has that many rows and columns with no
    module left null, and the data list, the level and the automatic flag
    are kept.  When they do not fit, [make] throws the data overflow
    with the two bit counts.  An exception while the version is chosen
    is the exception of [make]. *)
Theorem make_returns_symbol_or_overflow (this : QRCode.QRCode) :
  match QRCode.chooseVersion SJIS2UTFTable this with
  | Ok (v, p) =>
      let len := BitBuffer.getLengthInBits (p_buffer p) in
      if len <=? p_maxDataCount p
      then
        1 <= v <= 40
        /\ exists modules,
             QRCode.make SJIS2UTFTable this
             = Ok (QRCode.mkQRCode v (v * 4 + 17) (QRCode.dataList this) modules
                                   (QRCode.autoVersion this)
                                   (QRCode.errorCorrectLevel this))
             /\ Z.of_nat (length modules) = v * 4 + 17
             /\ forall row, In row modules ->
                  Z.of_nat (length row) = v * 4 + 17
                  /\ forall c, In c row -> c <> None
      else QRCode.make SJIS2UTFTable this = Throw (DataOverflow len (p_maxDataCount p))
  | Throw e => QRCode.make SJIS2UTFTable this = Throw e
  end.
Proof.
  unfold QRCode.make.
  destruct (QRCode.chooseVersion SJIS2UTFTable this) as [[v p]|e] eqn:Hc; [|reflexivity].
  rewrite bind_Ok. cbv zeta.
  destruct (Z.leb_spec (BitBuffer.getLengthInBits (p_buffer p)) (p_maxDataCount p))
    as [Hfit|Hno].
  - destruct (chooseVersion_prepared this v p Hc) as [[Hv Hp]|[_ [_ Hover]]]; [|lia].
    split; [exact Hv|].
    destruct (createData_fits _ _ _ _ _ Hp Hfit) as [data ->]. rewrite bind_Ok.
    unfold QRCode.getBestMaskPattern.
    cbn [QRCode.version QRCode.moduleCount QRCode.errorCorrectLevel QRCode.modules
         QRCode.dataList QRCode.autoVersion].
    destruct (getBestMaskPattern_best v (QRCode.errorCorrectLevel this) data
                (QRCode.modules this) Hv) as [[[pattern sp] m] [-> [Hpat _]]].
    rewrite !bind_Ok. cbn [fst].
    destruct (makeImpl_square_full v (QRCode.errorCorrectLevel this) false data pattern
                Hv Hpat) as [modules [-> [[Hlen Hrows] Hfull]]].
    rewrite bind_Ok. exists modules. split; [reflexivity|]. split; [lia|].
    intros row Hrow. unfold full in Hfull. rewrite Forall_forall in Hrows, Hfull.
    split; [rewrite (Hrows row Hrow); lia|].
    intros c Hcell. specialize (Hfull row Hrow). rewrite Forall_forall in Hfull.
    apply Hfull. exact Hcell.
  - rewrite createData_overflow by lia. reflexivity.
Qed.

End MakeOutcome.

Lemma bitAt_byte bytes k i :
  0 <= i < 8 -> bitAt bytes (8 * Z.of_nat k + i) = Z.testbit (getAt bytes k) (7 - i).
Proof.
  intros Hi. unfold bitAt.
  replace ((8 * Z.of_nat k + i) / 8) with (Z.of_nat k)
    by (apply (Z.div_unique _ 8 _ i); lia).
  replace ((8 * Z.of_nat k + i) mod 8) with i
    by (apply (Z.mod_unique _ 8 (Z.of_nat k)); lia).
  rewrite Nat2Z.id. reflexivity.
Qed.

Lemma shl_small a k :
  0 <= k < 32 -> 0 <= a -> a * 2 ^ k < 2 ^ 31 -> BitStream.shl a k = Z.shiftl a k.
Proof.
  intros Hk Ha Hb. unfold BitStream.shl. rewrite (Z.mod_small k 32) by lia.
  rewrite Z.shiftl_mul_pow2 by lia. apply int32_small.
  assert (0 <= a * 2 ^ k) by (apply Z.mul_nonneg_nonneg; [lia | apply Z.pow_nonneg; lia]).
  lia.
Qed.

Lemma shiftr_0xff t : 0 <= t <= 8 -> Z.shiftr 0xff (8 - t) = Z.ones t.
Proof.
  intros Ht.
  assert (Hc : t = 0 \/ t = 1 \/ t = 2 \/ t = 3 \/ t = 4 \/ t = 5 \/ t = 6 \/ t = 7 \/ t = 8)
    by lia.
  repeat (destruct Hc as [->|Hc]; [reflexivity|]). subst. reflexivity.
Qed.

Lemma testbit_bound r w : 0 <= w ->
  (forall j, 0 <= j -> w <= j -> Z.testbit r j = false) -> 0 <= r -> r < 2 ^ w.
Proof.
  intros Hw Hbits Hr.
  destruct (Z.eq_dec r 0) as [->|Hnz]; [apply Z.pow_pos_nonneg; lia|].
  apply Z.log2_lt_pow2; [lia|].
  destruct (Z_lt_dec (Z.log2 r) w) as [Hlt|Hge]; [exact Hlt|].
  pose proof (Z.bit_log2 r ltac:(lia)) as Hb.
  rewrite Hbits in Hb; [discriminate | apply Z.log2_nonneg | lia].
Qed.

(** The [t] bits of a byte from its bit [o] on, as [readBits] takes them
    out. *)
Lemma extract_bits y o t :
  0 <= o -> 1 <= t -> o + t <= 8 ->
  let b := 8 - o - t in
  let e := Z.shiftr (Z.land y (BitStream.shl (Z.shiftr 0xff (8 - t)) b)) b in
  0 <= e < 2 ^ t
  /\ forall j, 0 <= j -> Z.testbit e j = (j <? t) && Z.testbit y (b + j).
Proof.
  intros Ho Ht Hot b e.
  assert (Hones : 0 <= Z.ones t < 2 ^ t).
  { rewrite Z.ones_equiv. pose proof (Z.pow_pos_nonneg 2 t ltac:(lia) ltac:(lia)). lia. }
  assert (Hmask : BitStream.shl (Z.shiftr 0xff (8 - t)) b = Z.shiftl (Z.ones t) b).
  { rewrite shiftr_0xff by lia. apply shl_small; [lia | lia |].
    assert (2 ^ t * 2 ^ b <= 2 ^ 8).
    { rewrite <- Z.pow_add_r by lia. apply Z.pow_le_mono_r; lia. }
    assert (0 < 2 ^ b) by (apply Z.pow_pos_nonneg; lia).
    change (2 ^ 31) with 2147483648. change (2 ^ 8) with 256 in *. nia. }
  assert (Hbits : forall j, 0 <= j -> Z.testbit e j = (j <? t) && Z.testbit y (b + j)).
  { intros j Hj. subst e. rewrite Hmask.
    rewrite Z.shiftr_spec by lia. rewrite Z.land_spec.
    rewrite Z.shiftl_spec by lia. rewrite Z.testbit_ones by lia.
    replace (j + b - b) with j by lia. replace (j + b) with (b + j) by lia.
    destruct (Z.leb_spec 0 j); [|lia]. cbn [andb]. apply andb_comm. }
  split; [|exact Hbits].
  assert (He : 0 <= e).
  { subst e. apply Z.shiftr_nonneg. apply Z.land_nonneg. right.
    rewrite Hmask. apply Z.shiftl_nonneg. lia. }
  split; [exact He|]. apply testbit_bound; [lia | | exact He].
  intros j Hj Hge. rewrite Hbits by lia.
  destruct (Z.ltb_spec j t); [lia | reflexivity].
Qed.

(** [r] with [m] more bits [e] after it. *)
Lemma append_bits r w e m :
  0 <= w -> 1 <= m -> w + m <= 31 ->
  0 <= r < 2 ^ w -> 0 <= e < 2 ^ m ->
  let v := Z.lor (BitStream.shl r m) e in
  0 <= v < 2 ^ (w + m)
  /\ forall j, 0 <= j ->
       Z.testbit v j = if j <? m then Z.testbit e j else Z.testbit r (j - m).
Proof.
  intros Hw Hm Hwm Hr He v.
  assert (Hshl : BitStream.shl r m = Z.shiftl r m).
  { apply shl_small; [lia | lia |].
    assert (2 ^ w * 2 ^ m <= 2 ^ 31).
    { rewrite <- Z.pow_add_r by lia. apply Z.pow_le_mono_r; lia. }
    assert (0 < 2 ^ m) by (apply Z.pow_pos_nonneg; lia). nia. }
  assert (Hbits : forall j, 0 <= j ->
            Z.testbit v j = if j <? m then Z.testbit e j else Z.testbit r (j - m)).
  { intros j Hj. subst v. rewrite Hshl, Z.lor_spec, Z.shiftl_spec by lia.
    destruct (Z.ltb_spec j m) as [Hlt|Hge].
    - rewrite (Z.testbit_neg_r r (j - m)) by lia. reflexivity.
    - replace (Z.testbit e j) with false; [apply orb_false_r|].
      symmetry. destruct (Z.eq_dec e 0) as [->|Hnz]; [apply Z.testbit_0_l|].
      apply Z.bits_above_log2; [lia|].
      apply Z.log2_lt_pow2; [lia|].
      assert (2 ^ m <= 2 ^ j) by (apply Z.pow_le_mono_r; lia). lia. }
  split; [|exact Hbits].
  assert (Hv : 0 <= v).
  { subst v. apply Z.lor_nonneg. split; [|lia]. rewrite Hshl. apply Z.shiftl_nonneg. lia. }
  split; [exact Hv|]. apply testbit_bound; [lia | | exact Hv].
  intros j Hj Hge. rewrite Hbits by lia.
  destruct (Z.ltb_spec j m); [lia|].
  destruct (Z.eq_dec r 0) as [->|Hnz]; [apply Z.testbit_0_l|].
  apply Z.bits_above_log2; [lia|].
  apply Z.log2_lt_pow2; [lia|].
  assert (2 ^ w <= 2 ^ (j - m)) by (apply Z.pow_le_mono_r; lia). lia.
Qed.

Lemma holds_nothing bytes p : holds bytes 0 0 p.
Proof.
  split; [simpl; lia|]. intros j Hj. rewrite Z.testbit_0_l.
  destruct (Z.ltb_spec j 0); [lia | reflexivity].
Qed.

(** A turn of the loop over whole bytes. *)
Lemma holds_byte bytes r w k :
  0 <= w -> w + 8 <= 31 ->
  holds bytes r w (8 * Z.of_nat k) ->
  holds bytes (Z.lor (BitStream.shl r 8) (Z.land (getAt bytes k) 0xff)) (w + 8)
        (8 * Z.of_nat (S k)).
Proof.
  intros Hw Hw8 [Hr Hbits].
  pose proof (extract_bits (getAt bytes k) 0 8 ltac:(lia) ltac:(lia) ltac:(lia)) as He.
  cbv zeta in He. change (8 - 0 - 8) with 0 in He. change (8 - 8) with 0 in He.
  change (BitStream.shl (Z.shiftr 255 0) 0) with 255 in He.
  rewrite Z.shiftr_0_r in He. destruct He as [He Hebits].
  destruct (append_bits r w _ 8 Hw ltac:(lia) Hw8 Hr He) as [Hv Hvbits].
  split; [exact Hv|]. intros j Hj. rewrite Hvbits by exact Hj.
  destruct (Z.ltb_spec j 8) as [Hlt|Hge].
  - rewrite Hebits by exact Hj.
    destruct (Z.ltb_spec j 8); [|lia]. destruct (Z.ltb_spec j (w + 8)); [|lia].
    cbn [andb].
    replace (8 * Z.of_nat (S k) - 1 - j) with (8 * Z.of_nat k + (7 - j)) by lia.
    rewrite bitAt_byte by lia. f_equal. lia.
  - rewrite Hbits by lia.
    replace (8 * Z.of_nat (S k) - 1 - j) with (8 * Z.of_nat k - 1 - (j - 8)) by lia.
    destruct (Z.ltb_spec (j - 8) w), (Z.ltb_spec j (w + 8)); try lia; reflexivity.
Qed.

Lemma readWholeBytes_holds bytes : forall fuel r w k n,
  0 <= w -> 0 <= n -> w + n <= 31 -> n < 8 * Z.of_nat fuel + 8 ->
  holds bytes r w (8 * Z.of_nat k) ->
  exists r' k' n',
    BitStream.readWholeBytes fuel bytes r k n = (r', k', n')
    /\ 0 <= n' < 8 /\ 8 * Z.of_nat k' + n' = 8 * Z.of_nat k + n
    /\ holds bytes r' (w + n - n') (8 * Z.of_nat k').
Proof.
  induction fuel as [|fuel IH]; intros r w k n Hw Hn Hwn Hfuel Hr.
  - exists r, k, n. cbn [BitStream.readWholeBytes]. split; [reflexivity|].
    split; [lia|]. split; [reflexivity|]. replace (w + n - n) with w by lia. exact Hr.
  - cbn [BitStream.readWholeBytes]. destruct (Z.geb_spec n 8) as [Hge|Hlt].
    + destruct (IH _ (w + 8) (S k) (n - 8) ltac:(lia) ltac:(lia) ltac:(lia) ltac:(lia)
                  (holds_byte bytes r w k Hw ltac:(lia) Hr))
        as [r' [k' [n' [E [Hn' [Hpos Hh]]]]]].
      exists r', k', n'. split; [exact E|]. split; [exact Hn'|]. split; [lia|].
      replace (w + n - n') with (w + 8 + (n - 8) - n') by lia. exact Hh.
    + exists r, k, n. split; [reflexivity|]. split; [lia|]. split; [reflexivity|].
      replace (w + n - n) with w by lia. exact Hr.
Qed.

(** The bits of a byte that the first step of [readBits] takes. *)
Lemma holds_extract bytes k o t :
  0 <= o -> 1 <= t -> o + t <= 8 ->
  holds bytes
        (Z.shiftr (Z.land (getAt bytes k)
                          (BitStream.shl (Z.shiftr 255 (8 - t)) (8 - o - t)))
                  (8 - o - t))
        t (8 * Z.of_nat k + o + t).
Proof.
  intros Ho Ht Hot.
  destruct (extract_bits (getAt bytes k) o t Ho Ht Hot) as [He Hbits].
  split; [exact He|]. intros j Hj. rewrite Hbits by exact Hj.
  destruct (Z.ltb_spec j t) as [Hlt|Hge]; [|reflexivity]. cbn [andb].
  replace (8 * Z.of_nat k + o + t - 1 - j) with (8 * Z.of_nat k + (o + t - 1 - j)) by lia.
  rewrite bitAt_byte by lia. f_equal. lia.
Qed.

(** The second and third steps of [readBits], from a whole byte on. *)
Lemma read_tail bytes r w k n o :
  0 <= w -> 0 <= n -> w + n <= 31 -> 0 <= o < 8 -> (0 < n -> o = 0) ->
  holds bytes r w (8 * Z.of_nat k + o) ->
  exists v s',
    (if n >? 0
     then
       let '(result, byteOffset, numBits) := BitStream.readWholeBytes 4 bytes r k n in
       if numBits >? 0
       then Ok (Z.lor (BitStream.shl result numBits)
                      (Z.shiftr
                         (Z.land (getAt bytes byteOffset)
                                 (BitStream.shl (Z.shiftr 255 (8 - numBits))
                                                (8 - numBits)))
                         (8 - numBits)),
                BitStream.mkBitStream bytes byteOffset (o + numBits))
       else Ok (result, BitStream.mkBitStream bytes byteOffset o)
     else Ok (r, BitStream.mkBitStream bytes k o)) = Ok (v, s')
    /\ BitStream.bytes s' = bytes
    /\ position s' = 8 * Z.of_nat k + o + n
    /\ 0 <= BitStream.bitOffset s' < 8
    /\ holds bytes v (w + n) (8 * Z.of_nat k + o + n).
Proof.
  intros Hw Hn Hwn Ho Hal Hr. unfold position.
  destruct (Z.gtb_spec n 0) as [Hpos|Hzero].
  - specialize (Hal Hpos). subst o. rewrite Z.add_0_r in Hr.
    destruct (readWholeBytes_holds bytes 4 r w k n Hw Hn Hwn ltac:(lia) Hr)
      as [r' [k' [n' [-> [Hn' [Hp Hh]]]]]].
    destruct (Z.gtb_spec n' 0) as [Hpart|Hnone].
    + eexists. eexists. split; [reflexivity|].
      cbn [BitStream.bytes BitStream.byteOffset BitStream.bitOffset].
      split; [reflexivity|]. split; [lia|]. split; [lia|].
      pose proof (holds_extract bytes k' 0 n' ltac:(lia) ltac:(lia) ltac:(lia)) as He.
      replace (8 - 0 - n') with (8 - n') in He by lia.
      destruct Hh as [Hr' Hbits']. destruct He as [He Hebits].
      destruct (append_bits r' (w + n - n') _ n' ltac:(lia) ltac:(lia) ltac:(lia) Hr' He)
        as [Hv Hvbits].
      replace (w + n - n' + n') with (w + n) in Hv by lia.
      split; [exact Hv|]. intros j Hj. rewrite Hvbits by exact Hj.
      destruct (Z.ltb_spec j n') as [Hlt|Hge].
      * rewrite Hebits by exact Hj.
        destruct (Z.ltb_spec j n'); [|lia]. destruct (Z.ltb_spec j (w + n)); [|lia].
        cbn [andb]. f_equal. lia.
      * rewrite Hbits' by lia.
        replace (8 * Z.of_nat k + 0 + n - 1 - j) with (8 * Z.of_nat k' - 1 - (j - n'))
          by lia.
        destruct (Z.ltb_spec (j - n') (w + n - n')), (Z.ltb_spec j (w + n));
          try lia; reflexivity.
    + assert (n' = 0) by lia. subst n'.
      eexists. eexists. split; [reflexivity|].
      cbn [BitStream.bytes BitStream.byteOffset BitStream.bitOffset].
      split; [reflexivity|]. split; [lia|]. split; [lia|].
      replace (w + n - 0) with (w + n) in Hh by lia.
      replace (8 * Z.of_nat k + 0 + n) with (8 * Z.of_nat k') by lia. exact Hh.
  - assert (n = 0) by lia. subst n.
    eexists. eexists. split; [reflexivity|].
    cbn [BitStream.bytes BitStream.byteOffset BitStream.bitOffset].
    split; [reflexivity|]. split; [lia|]. split; [lia|].
    rewrite !Z.add_0_r. exact Hr.
Qed.

Lemma readBits_holds s n :
  1 <= n <= 31 -> 0 <= BitStream.bitOffset s < 8 ->
  n <= BitStream.available s ->
  exists v s',
    BitStream.readBits s n = Ok (v, s')
    /\ BitStream.bytes s' = BitStream.bytes s
    /\ position s' = position s + n
    /\ 0 <= BitStream.bitOffset s' < 8
    /\ holds (BitStream.bytes s) v n (position s + n).
Proof.
  intros Hn Ho Hav. destruct s as [bytes k o]. unfold position at 2 3.
  cbn [BitStream.bytes BitStream.byteOffset BitStream.bitOffset] in *.
  unfold BitStream.readBits.
  cbn [BitStream.bytes BitStream.byteOffset BitStream.bitOffset].
  destruct (Z.ltb_spec n 1); [lia|]. destruct (Z.gtb_spec n 32); [lia|].
  destruct (Z.gtb_spec n (BitStream.available (BitStream.mkBitStream bytes k o))); [lia|].
  cbn [orb]. cbv zeta.
  destruct (Z.gtb_spec o 0) as [Hpos|Hzero].
  - destruct (Z.ltb_spec n (8 - o)) as [Hshort|Hlong].
    + destruct (Z.eqb_spec (o + n) 8); [lia|].
      destruct (read_tail bytes _ n k (n - n) (o + n) ltac:(lia) ltac:(lia) ltac:(lia)
                  ltac:(lia) ltac:(lia)
                  ltac:(replace (8 * Z.of_nat k + (o + n)) with (8 * Z.of_nat k + o + n)
                          by lia;
                        apply holds_extract; lia))
        as [v [s' [E [Hb [Hp [Ho' Hh]]]]]].
      exists v, s'. split; [exact E|]. split; [exact Hb|]. split; [lia|].
      split; [exact Ho'|].
      replace (n + (n - n)) with n in Hh by lia.
      replace (8 * Z.of_nat k + (o + n) + (n - n)) with (8 * Z.of_nat k + o + n) in Hh
        by lia.
      exact Hh.
    + destruct (Z.eqb_spec (o + (8 - o)) 8); [|lia].
      destruct (read_tail bytes _ (8 - o) (S k) (n - (8 - o)) 0 ltac:(lia) ltac:(lia)
                  ltac:(lia) ltac:(lia) ltac:(lia)
                  ltac:(replace (8 * Z.of_nat (S k) + 0)
                          with (8 * Z.of_nat k + o + (8 - o)) by lia;
                        replace (8 - o - (8 - o)) with (8 - o - (8 - o)) by lia;
                        apply holds_extract; lia))
        as [v [s' [E [Hb [Hp [Ho' Hh]]]]]].
      exists v, s'. split; [exact E|]. split; [exact Hb|]. split; [lia|].
      split; [exact Ho'|].
      replace (8 - o + (n - (8 - o))) with n in Hh by lia.
      replace (8 * Z.of_nat (S k) + 0 + (n - (8 - o))) with (8 * Z.of_nat k + o + n) in Hh
        by lia.
      exact Hh.
  - assert (o = 0) by lia. subst o.
    destruct (read_tail bytes 0 0 k n 0 ltac:(lia) ltac:(lia) ltac:(lia) ltac:(lia)
                ltac:(lia) (holds_nothing bytes _))
      as [v [s' [E [Hb [Hp [Ho' Hh]]]]]].
    exists v, s'. split; [exact E|]. split; [exact Hb|]. split; [lia|].
    split; [exact Ho'|]. exact Hh.
Qed.

(** X14.  [readBits] on a stream whose bit offset is within a byte:
    it throws "can't read" exactly when the number of bits is below 1,
    above 32 or above what is available; otherwise, for up to 31 bits, it
    returns the number that the next bits of the bytes spell, the most
    significant first, and leaves the stream that many bits further, its
    bit offset again within a byte. *)
Theorem readBits_reads_next_bits (s : BitStream.BitStream) (numBits : Z) :
  0 <= BitStream.bitOffset s < 8 ->
  if (numBits <? 1) || (numBits >? 32) || (numBits >? BitStream.available s)
  then BitStream.readBits s numBits = Throw (CantRead numBits)
  else
    numBits <= 31 ->
    exists v s',
      BitStream.readBits s numBits = Ok (v, s')
      /\ BitStream.bytes s' = BitStream.bytes s
      /\ BitStream.available s' = BitStream.available s - numBits
      /\ 0 <= BitStream.bitOffset s' < 8
      /\ 0 <= v < 2 ^ numBits
      /\ forall j, 0 <= j < numBits ->
           Z.testbit v j = bitAt (BitStream.bytes s) (position s + numBits - 1 - j).
Proof.
  intros Ho.
  destruct ((numBits <? 1) || (numBits >? 32) || (numBits >? BitStream.available s)) eqn:E.
  - unfold BitStream.readBits. rewrite E. reflexivity.
  - intros H31. rewrite !orb_false_iff in E. destruct E as [[E1 E2] E3].
    apply Z.ltb_ge in E1.
    assert (Hav : numBits <= BitStream.available s)
      by (destruct (Z.gtb_spec numBits (BitStream.available s)); [discriminate | lia]).
    destruct (readBits_holds s numBits ltac:(lia) Ho Hav)
      as [v [s' [Er [Hb [Hp [Ho' [Hv Hbits]]]]]]].
    exists v, s'. split; [exact Er|]. split; [exact Hb|].
    split; [unfold BitStream.available, position in *; rewrite Hb; lia|].
    split; [exact Ho'|]. split; [exact Hv|].
    intros j Hj. rewrite Hbits by lia.
    destruct (Z.ltb_spec j numBits); [reflexivity | lia].
Qed.

Lemma readBits_reads_next_bits_witness :
  exists s', BitStream.readBits (BitStream.mkBitStream [0xa5; 0x3c] 0 3) 7 = Ok (0x14, s')
             /\ BitStream.available s' = 6.
Proof.
  pose proof (readBits_reads_next_bits (BitStream.mkBitStream [0xa5; 0x3c] 0 3) 7
                ltac:(simpl; lia)) as H.
  cbv beta iota delta [orb Z.ltb Z.gtb Z.compare BitStream.available BitStream.bytes
                        BitStream.byteOffset BitStream.bitOffset length Z.of_nat
                        Pos.of_succ_nat Pos.succ Z.sub Z.mul Z.add Pos.mul Pos.add
                        Z.opp Z.pos_sub Pos.compare Pos.compare_cont Z.succ_double
                        Z.pred_double Z.double Pos.pred_double] in H.
  destruct (H ltac:(lia)) as [v [s' [E [_ [Hav _]]]]].
  exists s'. split; [|exact Hav].
  rewrite E. vm_compute in E. injection E as Hv _. rewrite Hv. reflexivity.
Defined.

Lemma bitAt_getBit b i :
  bitAt (BitStream.bytes (BitStream.new (BitBuffer.buffer b))) (Z.of_nat i)
  = BitBuffer.getBit b i.
Proof.
  rewrite getBit_testbit. unfold bitAt. cbn [BitStream.bytes BitStream.new].
  change 8 with (Z.of_nat 8). rewrite <- Nat2Z.inj_div, <- Nat2Z.inj_mod, Nat2Z.id.
  reflexivity.
Qed.

(** X15.  A number written by [put] with 1 to 31 bits, after any bits
    and before any others, is read back by [readBits] of the decoder from
    the bytes of the buffer at the place where it was written, as its
    value modulo 2^len; the stream is left at the place of the next
    bit. *)
Theorem put_then_readBits (pre post : list bool) (num : Z) (len : nat) :
  (1 <= len <= 31)%nat ->
  let b := fold_left BitBuffer.putBit post
             (BitBuffer.put (fold_left BitBuffer.putBit pre BitBuffer.new) num len) in
  let s := BitStream.mkBitStream (BitBuffer.getBuffer b)
             (length pre / 8) (Z.of_nat (length pre mod 8)) in
  BitStream.readBits s (Z.of_nat len)
  = Ok (num mod 2 ^ Z.of_nat len,
        BitStream.mkBitStream (BitBuffer.getBuffer b)
          ((length pre + len) / 8) (Z.of_nat ((length pre + len) mod 8))).
Proof.
  intros Hlen b s.
  assert (Hb : b = written (pre ++ numBits num len ++ post)).
  { subst b. fold (written pre). rewrite put_written, written_app, <- app_assoc.
    reflexivity. }
  pose proof (Nat.div_mod_eq (length pre) 8) as Hpre.
  pose proof (Nat.mod_upper_bound (length pre) 8 ltac:(lia)) as Hpre8.
  pose proof (Nat.div_mod_eq (length pre + len) 8) as Hnext.
  pose proof (Nat.mod_upper_bound (length pre + len) 8 ltac:(lia)) as Hnext8.
  pose proof (written_buffer_length (pre ++ numBits num len ++ post)) as Hbuf.
  rewrite !length_app, numBits_length, <- Hb in Hbuf.
  assert (Ho : 0 <= BitStream.bitOffset s < 8)
    by (subst s; cbn [BitStream.bitOffset]; lia).
  assert (Hpos : position s = Z.of_nat (length pre)).
  { subst s. unfold position. cbn [BitStream.byteOffset BitStream.bitOffset]. lia. }
  assert (Hav : Z.of_nat len <= BitStream.available s).
  { subst s. unfold BitStream.available, BitBuffer.getBuffer.
    cbn [BitStream.bytes BitStream.byteOffset BitStream.bitOffset]. lia. }
  destruct (readBits_holds s (Z.of_nat len) ltac:(lia) Ho Hav)
    as [v [s' [Er [Hbytes [Hp [Ho' [Hv Hbits]]]]]]].
  rewrite Er. f_equal. f_equal.
  - apply Z.bits_inj'. intros j Hj. rewrite Hbits by exact Hj.
    destruct (Z.ltb_spec j (Z.of_nat len)) as [Hlt|Hge].
    + rewrite Z.mod_pow2_bits_low by lia. cbn [andb].
      rewrite Hpos.
      replace (Z.of_nat (length pre) + Z.of_nat len - 1 - j)
        with (Z.of_nat (length pre + (len - 1 - Z.to_nat j))) by lia.
      subst s. cbn [BitStream.bytes]. unfold BitBuffer.getBuffer.
      change (BitBuffer.buffer b)
        with (BitStream.bytes (BitStream.new (BitBuffer.buffer b))).
      rewrite bitAt_getBit, Hb, getBit_written.
      rewrite app_nth2 by lia.
      replace (length pre + (len - 1 - Z.to_nat j) - length pre)%nat
        with (len - 1 - Z.to_nat j)%nat by lia.
      rewrite app_nth1 by (rewrite numBits_length; lia).
      rewrite nth_numBits by lia. f_equal. lia.
    + rewrite Z.mod_pow2_bits_high by lia. reflexivity.
  - rewrite Hpos in Hp. destruct s' as [bytes' k' o']. unfold position in Hp.
    cbn [BitStream.bytes BitStream.byteOffset BitStream.bitOffset] in *.
    subst s. cbn [BitStream.bytes] in Hbytes. subst bytes'.
    assert (Hk : k' = ((length pre + len) / 8)%nat) by lia.
    assert (Hoff : o' = Z.of_nat ((length pre + len) mod 8)) by lia.
    rewrite Hk, Hoff. reflexivity.
Qed.

Lemma put_then_readBits_witness :
  let b := fold_left BitBuffer.putBit [true]
             (BitBuffer.put (fold_left BitBuffer.putBit [false; true; true] BitBuffer.new)
                            0x2b5 10) in
  BitStream.readBits (BitStream.mkBitStream (BitBuffer.getBuffer b) 0 3) 10
  = Ok (0x2b5, BitStream.mkBitStream (BitBuffer.getBuffer b) 1 5).
Proof.
  exact (put_then_readBits [false; true; true] [true] 0x2b5 10 ltac:(lia)).
Defined.

Lemma bitAt_app l1 l2 p :
  0 <= p < 8 * Z.of_nat (length l1) -> bitAt (l1 ++ l2) p = bitAt l1 p.
Proof.
  intros Hp. unfold bitAt, getAt. rewrite app_nth1; [reflexivity|].
  assert (p / 8 < Z.of_nat (length l1)) by (apply Z.div_lt_upper_bound; lia).
  assert (0 <= p / 8) by (apply Z.div_pos; lia). lia.
Qed.

Lemma bitAt_written bits i :
  bitAt (BitBuffer.buffer (written bits)) (Z.of_nat i) = nth i bits false.
Proof.
  change (BitBuffer.buffer (written bits))
    with (BitStream.bytes (BitStream.new (BitBuffer.buffer (written bits)))).
  rewrite bitAt_getBit. apply getBit_written.
Qed.

(** A number of 1 to 31 bits among the bits written to a buffer, read
    from the bytes of the buffer, with any bytes after them. *)
Lemma readBits_written pre num len post extra :
  (1 <= len <= 31)%nat ->
  let bytes := BitBuffer.buffer (written (pre ++ numBits num len ++ post)) ++ extra in
  BitStream.readBits (streamAt bytes (length pre)) (Z.of_nat len)
  = Ok (num mod 2 ^ Z.of_nat len, streamAt bytes (length pre + len)).
Proof.
  intros Hlen bytes. unfold streamAt.
  set (s := BitStream.mkBitStream bytes (length pre / 8) (Z.of_nat (length pre mod 8))).
  pose proof (Nat.div_mod_eq (length pre) 8) as Hpre.
  pose proof (Nat.mod_upper_bound (length pre) 8 ltac:(lia)) as Hpre8.
  pose proof (Nat.div_mod_eq (length pre + len) 8) as Hnext.
  pose proof (Nat.mod_upper_bound (length pre + len) 8 ltac:(lia)) as Hnext8.
  pose proof (written_buffer_length (pre ++ numBits num len ++ post)) as Hbuf.
  rewrite !length_app, numBits_length in Hbuf.
  assert (Ho : 0 <= BitStream.bitOffset s < 8)
    by (subst s; cbn [BitStream.bitOffset]; lia).
  assert (Hpos : position s = Z.of_nat (length pre)).
  { subst s. unfold position. cbn [BitStream.byteOffset BitStream.bitOffset]. lia. }
  assert (Hav : Z.of_nat len <= BitStream.available s).
  { subst s bytes. unfold BitStream.available.
    cbn [BitStream.bytes BitStream.byteOffset BitStream.bitOffset].
    rewrite length_app. lia. }
  destruct (readBits_holds s (Z.of_nat len) ltac:(lia) Ho Hav)
    as [v [s' [Er [Hbytes [Hp [Ho' [Hv Hbits]]]]]]].
  rewrite Er. f_equal. f_equal.
  - apply Z.bits_inj'. intros j Hj. rewrite Hbits by exact Hj.
    destruct (Z.ltb_spec j (Z.of_nat len)) as [Hlt|Hge].
    + rewrite Z.mod_pow2_bits_low by lia. cbn [andb].
      rewrite Hpos.
      replace (Z.of_nat (length pre) + Z.of_nat len - 1 - j)
        with (Z.of_nat (length pre + (len - 1 - Z.to_nat j))) by lia.
      subst s bytes. cbn [BitStream.bytes].
      rewrite bitAt_app by lia. rewrite bitAt_written.
      rewrite app_nth2 by lia.
      replace (length pre + (len - 1 - Z.to_nat j) - length pre)%nat
        with (len - 1 - Z.to_nat j)%nat by lia.
      rewrite app_nth1 by (rewrite numBits_length; lia).
      rewrite nth_numBits by lia. f_equal. lia.
    + rewrite Z.mod_pow2_bits_high by lia. reflexivity.
  - rewrite Hpos in Hp. destruct s' as [bytes' k' o']. unfold position in Hp.
    cbn [BitStream.bytes BitStream.byteOffset BitStream.bitOffset] in *.
    subst s. cbn [BitStream.bytes] in Hbytes. subst bytes'.
    assert (Hk : k' = ((length pre + len) / 8)%nat) by lia.
    assert (Hoff : o' = Z.of_nat ((length pre + len) mod 8)) by lia.
    rewrite Hk, Hoff. reflexivity.
Qed.

Lemma readBits_field pre num len numBitsZ post extra :
  numBitsZ = Z.of_nat len -> (1 <= len <= 31)%nat ->
  let bytes := BitBuffer.buffer (written (pre ++ numBits num len ++ post)) ++ extra in
  BitStream.readBits (streamAt bytes (length pre)) numBitsZ
  = Ok (num mod 2 ^ numBitsZ, streamAt bytes (length pre + len)).
Proof. intros ->. apply readBits_written. Qed.

Lemma list_ind3 {A} (P : list A -> Prop) :
  P [] -> (forall a, P [a]) -> (forall a b, P [a; b]) ->
  (forall a b c l, P l -> P (a :: b :: c :: l)) ->
  forall l, P l.
Proof.
  intros H0 H1 H2 H3.
  assert (H : forall l, P l /\ (forall a, P (a :: l)) /\ (forall a b, P (a :: b :: l))).
  { induction l as [|x l [IH0 [IH1 IH2]]]; [auto|].
    split; [apply IH1|]. split; [intros a; apply IH2|]. intros a b. apply H3. exact IH0. }
  intros l. apply H.
Qed.

Lemma charToNum_digit c : digit c -> QRNumeric.charToNum c = Ok (c - 48).
Proof.
  intros [Hlo Hhi]. unfold QRNumeric.charToNum.
  destruct (Z.leb_spec 48 c); [|lia]. destruct (Z.leb_spec c 57); [|lia]. reflexivity.
Qed.

Lemma numericDigits_step fuel length bytes text stream num stream1 :
  3 <= length -> BitStream.readBits stream 10 = Ok (num, stream1) -> num < 1000 ->
  numericDigits (S fuel) length (bytes, text, stream)
  = numericDigits fuel (length - 3)
      (bytes ++ [48 + num / 100; 48 + Z.rem (num / 10) 10; 48 + Z.rem num 10],
       text ++ [48 + num / 100; 48 + Z.rem (num / 10) 10; 48 + Z.rem num 10], stream1).
Proof.
  intros Hlen Hread Hnum. unfold numericDigits. cbn [Decoder.numericTriples].
  destruct (Z.geb_spec length 3); [|lia].
  rewrite Hread, bind_Ok. destruct (Z.geb_spec num 1000); [lia|]. reflexivity.
Qed.

Lemma numericDigits_last fuel length acc :
  length < 3 ->
  numericDigits fuel length acc
  = let '(bytes, text, stream) := acc in
    if length =? 2 then
      r <- BitStream.readBits stream 7 ;;
      let '(num, stream) := r in
      if num >=? 100 then Throw (InvalidNumeric 99)
      else Ok (bytes ++ [48 + num / 10; 48 + Z.rem num 10],
               text ++ [48 + num / 10; 48 + Z.rem num 10], stream)
    else if length =? 1 then
      r <- BitStream.readBits stream 4 ;;
      let '(num, stream) := r in
      if num >=? 10 then Throw (InvalidNumeric 9)
      else Ok (bytes ++ [48 + num], text ++ [48 + num], stream)
    else Ok (bytes, text, stream).
Proof.
  intros Hlen. unfold numericDigits.
  destruct fuel; cbn [Decoder.numericTriples];
    (destruct (Z.geb_spec length 3); [lia|]); rewrite bind_Ok;
    destruct acc as [[bytes text] stream]; reflexivity.
Qed.

(** What [QRNumeric.write] writes for digits is read back by the
    decoder, digit by digit. *)
Lemma numeric_digits_round_trip : forall data,
  Forall digit data ->
  forall pre, exists bs,
    QRNumeric.write data (written pre) = Ok (written (pre ++ bs))
    /\ forall post extra fuel accb acct,
         (length data <= 3 * fuel)%nat ->
         let bytes := BitBuffer.buffer (written (pre ++ bs ++ post)) ++ extra in
         numericDigits fuel (Z.of_nat (length data))
                       (accb, acct, streamAt bytes (length pre))
         = Ok (accb ++ data, acct ++ data, streamAt bytes (length pre + length bs)).
Proof.
  intros data. induction data as [|a|a b|a b c l IH] using list_ind3; intros Hd pre.
  - exists []. split; [rewrite app_nil_r; reflexivity|].
    intros post extra fuel accb acct _ bytes.
    rewrite numericDigits_last by (simpl; lia). cbn [length Z.of_nat Z.eqb].
    rewrite !app_nil_r, Nat.add_0_r. reflexivity.
  - inversion Hd as [|? ? Ha _]; subst.
    exists (numBits (a - 48) 4). split.
    { cbn [QRNumeric.write QRNumeric.strToNum foldM].
      rewrite (charToNum_digit a Ha), !bind_Ok. rewrite put_written.
      assert (E : forall x y, x = y ->
                Ok (written (pre ++ numBits x 4)) = Ok (written (pre ++ numBits y 4)))
        by (intros; subst; reflexivity).
      apply E. lia. }
    intros post extra fuel accb acct _ bytes.
    rewrite numericDigits_last by (simpl; lia).
    change (Z.of_nat (length [a]) =? 2) with false.
    change (Z.of_nat (length [a]) =? 1) with true. cbv iota.
    subst bytes. rewrite (readBits_field pre (a - 48) 4 4 post extra eq_refl ltac:(lia)).
    rewrite bind_Ok. unfold digit in Ha.
    rewrite Z.mod_small by lia.
    destruct (Z.geb_spec (a - 48) 10); [lia|].
    rewrite numBits_length. replace (48 + (a - 48)) with a by lia. reflexivity.
  - inversion Hd as [|? ? Ha Hd1]; subst. inversion Hd1 as [|? ? Hb _]; subst.
    exists (numBits ((a - 48) * 10 + (b - 48)) 7). split.
    { cbn [QRNumeric.write QRNumeric.strToNum foldM].
      rewrite (charToNum_digit a Ha), !bind_Ok, (charToNum_digit b Hb), !bind_Ok.
      rewrite put_written.
      assert (E : forall x y, x = y ->
                Ok (written (pre ++ numBits x 7)) = Ok (written (pre ++ numBits y 7)))
        by (intros; subst; reflexivity).
      apply E. lia. }
    intros post extra fuel accb acct _ bytes.
    rewrite numericDigits_last by (simpl; lia).
    change (Z.of_nat (length [a; b]) =? 2) with true. cbv iota.
    subst bytes.
    rewrite (readBits_field pre ((a - 48) * 10 + (b - 48)) 7 7 post extra eq_refl
               ltac:(lia)).
    rewrite bind_Ok. unfold digit in Ha, Hb.
    rewrite Z.mod_small by lia.
    destruct (Z.geb_spec ((a - 48) * 10 + (b - 48)) 100); [lia|].
    rewrite numBits_length.
    replace (((a - 48) * 10 + (b - 48)) / 10) with (a - 48)
      by (apply (Z.div_unique _ 10 _ (b - 48)); lia).
    replace (Z.rem ((a - 48) * 10 + (b - 48)) 10) with (b - 48)
      by (rewrite Z.rem_mod_nonneg by lia; apply (Z.mod_unique _ 10 (a - 48)); lia).
    replace (48 + (a - 48)) with a by lia. replace (48 + (b - 48)) with b by lia.
    reflexivity.
  - inversion Hd as [|? ? Ha Hd1]; subst. inversion Hd1 as [|? ? Hb Hd2]; subst.
    inversion Hd2 as [|? ? Hc Hl]; subst.
    set (n := ((a - 48) * 10 + (b - 48)) * 10 + (c - 48)).
    destruct (IH Hl (pre ++ numBits n 10)) as [bs [Hw Hread]].
    exists (numBits n 10 ++ bs). split.
    { cbn [QRNumeric.write QRNumeric.strToNum foldM].
      rewrite (charToNum_digit a Ha), !bind_Ok, (charToNum_digit b Hb), !bind_Ok,
        (charToNum_digit c Hc), !bind_Ok.
      rewrite put_written.
      replace (((0 * 10 + (a - 48)) * 10 + (b - 48)) * 10 + (c - 48)) with n
        by (subst n; lia).
      rewrite Hw, <- app_assoc. reflexivity. }
    intros post extra fuel accb acct Hfuel bytes.
    destruct fuel as [|fuel]; [simpl in Hfuel; lia|].
    unfold digit in Ha, Hb, Hc.
    assert (Hn : 0 <= n < 1000) by (subst n; lia).
    assert (Hbytes : bytes = BitBuffer.buffer (written (pre ++ numBits n 10 ++ bs ++ post))
                             ++ extra)
      by (subst bytes; rewrite <- app_assoc; reflexivity).
    rewrite (numericDigits_step fuel _ accb acct _ n (streamAt bytes (length pre + 10))).
    + specialize (Hread post extra fuel
                    (accb ++ [48 + n / 100; 48 + Z.rem (n / 10) 10; 48 + Z.rem n 10])
                    (acct ++ [48 + n / 100; 48 + Z.rem (n / 10) 10; 48 + Z.rem n 10])
                    ltac:(simpl in Hfuel; lia)).
      cbv zeta in Hread. rewrite <- !app_assoc in Hread. rewrite <- Hbytes in Hread.
      rewrite length_app, numBits_length in Hread.
      replace (Z.of_nat (length (a :: b :: c :: l)) - 3) with (Z.of_nat (length l))
        by (cbn [length]; lia).
      rewrite Hread. rewrite length_app, numBits_length.
      assert (E1 : n / 100 = a - 48)
        by (symmetry; apply (Z.div_unique _ 100 _ ((b - 48) * 10 + (c - 48)));
            subst n; lia).
      assert (E2 : Z.rem (n / 10) 10 = b - 48).
      { replace (n / 10) with ((a - 48) * 10 + (b - 48))
          by (apply (Z.div_unique _ 10 _ (c - 48)); subst n; lia).
        rewrite Z.rem_mod_nonneg by lia. symmetry.
        apply (Z.mod_unique _ 10 (a - 48)); lia. }
      assert (E3 : Z.rem n 10 = c - 48).
      { rewrite Z.rem_mod_nonneg by lia. symmetry.
        apply (Z.mod_unique _ 10 ((a - 48) * 10 + (b - 48))); subst n; lia. }
      rewrite E1, E2, E3.
      replace (48 + (a - 48)) with a by lia. replace (48 + (b - 48)) with b by lia.
      replace (48 + (c - 48)) with c by lia.
      rewrite <- ?app_assoc. cbn [app]. f_equal. f_equal. f_equal. lia.
    + cbn [length]. lia.
    + rewrite Hbytes.
      rewrite (readBits_field pre n 10 10 (bs ++ post) extra eq_refl ltac:(lia)).
      rewrite Z.mod_small by lia. reflexivity.
    + lia.
Qed.

Lemma list_ind2 {A} (P : list A -> Prop) :
  P [] -> (forall a, P [a]) -> (forall a b l, P l -> P (a :: b :: l)) ->
  forall l, P l.
Proof.
  intros H0 H1 H2.
  assert (H : forall l, P l /\ (forall a, P (a :: l))).
  { induction l as [|x l [IH0 IH1]]; [auto|].
    split; [apply IH1|]. intros a. apply H2. exact IH0. }
  intros l. apply H.
Qed.

Lemma getCode_inverse c k :
  QRAlphanumeric.getCode c = Ok k ->
  0 <= k < 45 /\ Decoder.alphanumericCode k = Ok c.
Proof.
  intros H.
  assert (Hr : 0 <= c < 128).
  { unfold QRAlphanumeric.getCode in H.
    repeat match type of H with
           | (if ?b then _ else _) = _ => destruct b eqn:?
           end; try discriminate; lia. }
  assert (Hc : getCode_check c = true).
  { apply (all_below_spec 128 getCode_check); [vm_compute; reflexivity | lia]. }
  unfold getCode_check in Hc. rewrite H in Hc.
  destruct (Decoder.alphanumericCode k) as [c'|]; [|rewrite andb_false_r in Hc; discriminate].
  apply andb_true_iff in Hc. destruct Hc as [Hk Hc].
  apply Z.eqb_eq in Hc. subst c'. split; [lia | reflexivity].
Qed.

Lemma alphanumericChars_step fuel length bytes text stream v stream1 a b :
  2 <= length -> BitStream.readBits stream 11 = Ok (v, stream1) ->
  Decoder.alphanumericCode (v / 45) = Ok a ->
  Decoder.alphanumericCode (Z.rem v 45) = Ok b ->
  alphanumericChars (S fuel) length (bytes, text, stream)
  = alphanumericChars fuel (length - 2) (bytes ++ [a; b], text ++ [a; b], stream1).
Proof.
  intros Hlen Hread Ha Hb. unfold alphanumericChars. cbn [Decoder.alphanumericPairs].
  destruct (Z.geb_spec length 2); [|lia].
  rewrite Hread, bind_Ok, Ha, bind_Ok, Hb, bind_Ok. reflexivity.
Qed.

Lemma alphanumericChars_last fuel length acc :
  length < 2 ->
  alphanumericChars fuel length acc
  = let '(bytes, text, stream) := acc in
    if length =? 1 then
      r <- BitStream.readBits stream 6 ;;
      let '(v, stream) := r in
      a <- Decoder.alphanumericCode v ;;
      Ok (bytes ++ [a], text ++ [a], stream)
    else Ok (bytes, text, stream).
Proof.
  intros Hlen. unfold alphanumericChars.
  destruct fuel; cbn [Decoder.alphanumericPairs];
    (destruct (Z.geb_spec length 2); [lia|]); rewrite bind_Ok;
    destruct acc as [[bytes text] stream]; reflexivity.
Qed.

(** What [QRAlphanumeric.write] writes is read back by the decoder,
    character by character. *)
Lemma alphanumeric_chars_round_trip : forall data,
  Forall alphanumeric data ->
  forall pre, exists bs,
    QRAlphanumeric.write data (written pre) = Ok (written (pre ++ bs))
    /\ forall post extra fuel accb acct,
         (length data <= 2 * fuel)%nat ->
         let bytes := BitBuffer.buffer (written (pre ++ bs ++ post)) ++ extra in
         alphanumericChars fuel (Z.of_nat (length data))
                           (accb, acct, streamAt bytes (length pre))
         = Ok (accb ++ data, acct ++ data, streamAt bytes (length pre + length bs)).
Proof.
  intros data. induction data as [|a|a b l IH] using list_ind2; intros Hd pre.
  - exists []. split; [rewrite app_nil_r; reflexivity|].
    intros post extra fuel accb acct _ bytes.
    rewrite alphanumericChars_last by (simpl; lia). cbn [length Z.of_nat Z.eqb].
    rewrite !app_nil_r, Nat.add_0_r. reflexivity.
  - inversion Hd as [|? ? [ka Ha] _]; subst.
    destruct (getCode_inverse a ka Ha) as [Hka Hinv].
    exists (numBits ka 6). split.
    { cbn [QRAlphanumeric.write]. rewrite Ha, bind_Ok, put_written. reflexivity. }
    intros post extra fuel accb acct _ bytes.
    rewrite alphanumericChars_last by (simpl; lia).
    change (Z.of_nat (length [a]) =? 1) with true. cbv iota.
    subst bytes. rewrite (readBits_field pre ka 6 6 post extra eq_refl ltac:(lia)).
    rewrite bind_Ok, Z.mod_small by lia. rewrite Hinv, bind_Ok, numBits_length.
    reflexivity.
  - inversion Hd as [|? ? [ka Ha] Hd1]; subst. inversion Hd1 as [|? ? [kb Hb] Hl]; subst.
    destruct (getCode_inverse a ka Ha) as [Hka Hinva].
    destruct (getCode_inverse b kb Hb) as [Hkb Hinvb].
    set (n := ka * 45 + kb).
    destruct (IH Hl (pre ++ numBits n 11)) as [bs [Hw Hread]].
    exists (numBits n 11 ++ bs). split.
    { cbn [QRAlphanumeric.write]. rewrite Ha, bind_Ok, Hb, bind_Ok, put_written.
      fold n. rewrite Hw, <- app_assoc. reflexivity. }
    intros post extra fuel accb acct Hfuel bytes.
    destruct fuel as [|fuel]; [simpl in Hfuel; lia|].
    assert (Hn : 0 <= n < 2048) by (subst n; lia).
    assert (Hbytes : bytes = BitBuffer.buffer (written (pre ++ numBits n 11 ++ bs ++ post))
                             ++ extra)
      by (subst bytes; rewrite <- app_assoc; reflexivity).
    rewrite (alphanumericChars_step fuel _ accb acct _ n
               (streamAt bytes (length pre + 11)) a b).
    + specialize (Hread post extra fuel (accb ++ [a; b]) (acct ++ [a; b])
                    ltac:(simpl in Hfuel; lia)).
      cbv zeta in Hread. rewrite <- !app_assoc in Hread. rewrite <- Hbytes in Hread.
      rewrite length_app, numBits_length in Hread.
      replace (Z.of_nat (length (a :: b :: l)) - 2) with (Z.of_nat (length l))
        by (cbn [length]; lia).
      rewrite Hread. rewrite length_app, numBits_length.
      cbn [app]. f_equal. f_equal. f_equal. lia.
    + cbn [length]. lia.
    + rewrite Hbytes.
      rewrite (readBits_field pre n 11 11 (bs ++ post) extra eq_refl ltac:(lia)).
      rewrite Z.mod_small by lia. reflexivity.
    + replace (n / 45) with ka
        by (apply (Z.div_unique _ 45 _ kb); subst n; lia).
      exact Hinva.
    + replace (Z.rem n 45) with kb
        by (rewrite Z.rem_mod_nonneg by lia; apply (Z.mod_unique _ 45 ka); subst n; lia).
      exact Hinvb.
Qed.

Lemma lor_add a b k :
  0 <= k -> 0 <= a -> 0 <= b < 2 ^ k -> a mod 2 ^ k = 0 -> Z.lor a b = a + b.
Proof.
  intros Hk Ha Hb Hm.
  assert (Hland : Z.land a b = 0).
  { apply Z.bits_inj'. intros i Hi. rewrite Z.land_spec, Z.testbit_0_l.
    destruct (Z_lt_dec i k) as [Hlt|Hge].
    - rewrite <- (Z.mod_pow2_bits_low a k i) by lia. rewrite Hm, Z.testbit_0_l. reflexivity.
    - replace (Z.testbit b i) with false; [apply andb_false_r|].
      symmetry. destruct (Z.eq_dec b 0) as [->|Hnz]; [apply Z.testbit_0_l|].
      apply Z.bits_above_log2; [lia|]. apply Z.log2_lt_pow2; [lia|].
      assert (2 ^ k <= 2 ^ i) by (apply Z.pow_le_mono_r; lia). lia. }
  pose proof (Z.add_lor_land a b) as H. rewrite Hland in H. lia.
Qed.

Lemma land_low x k m : m = Z.ones k -> 0 <= k -> Z.land x m = x mod 2 ^ k.
Proof. intros -> Hk. apply Z.land_ones. exact Hk. Qed.

Lemma land_0xfc00 c : 0 <= c < 65536 -> Z.land c 0xfc00 = c / 1024 * 1024.
Proof.
  intros Hc.
  assert (E : Z.land c 0xfc00 = Z.shiftl (Z.shiftr c 10) 10).
  { apply Z.bits_inj'. intros i Hi. rewrite Z.land_spec, Z.shiftl_spec by lia.
    destruct (Z_lt_dec i 10) as [Hlt|Hge].
    - rewrite (Z.testbit_neg_r _ (i - 10)) by lia.
      change 0xfc00 with (Z.shiftl 63 10). rewrite Z.shiftl_spec by lia.
      rewrite (Z.testbit_neg_r _ (i - 10)) by lia. apply andb_false_r.
    - rewrite Z.shiftr_spec by lia. replace (i - 10 + 10) with i by lia.
      destruct (Z_lt_dec i 16) as [Hlt16|Hge16].
      + replace (Z.testbit 0xfc00 i) with true; [apply andb_true_r|].
        assert (Hi6 : i = 10 \/ i = 11 \/ i = 12 \/ i = 13 \/ i = 14 \/ i = 15) by lia.
        destruct Hi6 as [->|[->|[->|[->|[->| ->]]]]]; reflexivity.
      + replace (Z.testbit c i) with false; [reflexivity|].
        symmetry. destruct (Z.eq_dec c 0) as [->|Hnz]; [apply Z.testbit_0_l|].
        apply Z.bits_above_log2; [lia|]. apply Z.log2_lt_pow2; [lia|].
        assert (2 ^ 16 <= 2 ^ i) by (apply Z.pow_le_mono_r; lia).
        change (2 ^ 16) with 65536 in *. lia. }
  rewrite E, Z.shiftl_mul_pow2, Z.shiftr_div_pow2 by lia. reflexivity.
Qed.

Lemma shl_mul a k :
  0 <= k < 32 -> 0 <= a -> a * 2 ^ k < 2 ^ 31 -> BitStream.shl a k = a * 2 ^ k.
Proof.
  intros Hk Ha Hb. rewrite shl_small by assumption. apply Z.shiftl_mul_pow2. lia.
Qed.

Lemma fromCharCode_unit c : codeUnit c -> Decoder.fromCharCode c = c.
Proof. intros Hc. unfold Decoder.fromCharCode. apply Z.mod_small. exact Hc. Qed.

(** The two bytes of a code unit from 128 to 2047, and the code unit
    that [bytesToUTF8] makes of them. *)
Lemma two_bytes c :
  128 <= c < 2048 ->
  let b1 := Z.lor (Z.shiftr c 6) 192 in
  let b2 := Z.lor (Z.land c 63) 128 in
  192 <= b1 < 224 /\ 128 <= b2 < 192
  /\ Z.lor (BitStream.shl (Z.land b1 31) 6) (Z.land b2 63) = c.
Proof.
  intros Hc b1 b2.
  assert (E1 : b1 = 192 + c / 64).
  { subst b1. rewrite Z.shiftr_div_pow2 by lia. change (2 ^ 6) with 64.
    rewrite Z.lor_comm. apply (lor_add 192 _ 5); [lia | lia | | reflexivity].
    change (2 ^ 5) with 32. Z.div_mod_to_equations. lia. }
  assert (E2 : b2 = 128 + c mod 64).
  { subst b2. rewrite (land_low c 6 63) by (reflexivity || lia). change (2 ^ 6) with 64.
    rewrite Z.lor_comm. apply (lor_add 128 _ 6); [lia | lia | | reflexivity].
    change (2 ^ 6) with 64. Z.div_mod_to_equations. lia. }
  rewrite E1, E2.
  split; [Z.div_mod_to_equations; lia|]. split; [Z.div_mod_to_equations; lia|].
  rewrite (land_low _ 5 31), (land_low _ 6 63) by (reflexivity || lia).
  change (2 ^ 5) with 32. change (2 ^ 6) with 64.
  replace ((192 + c / 64) mod 32) with (c / 64) by (Z.div_mod_to_equations; lia).
  replace ((128 + c mod 64) mod 64) with (c mod 64) by (Z.div_mod_to_equations; lia).
  rewrite shl_mul; [| lia | Z.div_mod_to_equations; lia
                    | change (2 ^ 6) with 64; change (2 ^ 31) with 2147483648;
                      Z.div_mod_to_equations; lia].
  change (2 ^ 6) with 64.
  rewrite (lor_add _ _ 6); [Z.div_mod_to_equations; lia | lia
                            | Z.div_mod_to_equations; lia
                            | change (2 ^ 6) with 64; Z.div_mod_to_equations; lia |].
  change (2 ^ 6) with 64. Z.div_mod_to_equations. lia.
Qed.

(** The three bytes of a code unit from 2048 on. *)
Lemma three_bytes c :
  2048 <= c < 65536 ->
  let b1 := Z.lor (Z.shiftr c 12) 224 in
  let b2 := Z.lor (Z.land (Z.shiftr c 6) 63) 128 in
  let b3 := Z.lor (Z.land c 63) 128 in
  224 <= b1 < 240 /\ 128 <= b2 < 192 /\ 128 <= b3 < 192
  /\ Z.lor (Z.lor (BitStream.shl (Z.land b1 15) 12) (BitStream.shl (Z.land b2 63) 6))
           (Z.land b3 63) = c.
Proof.
  intros Hc b1 b2 b3.
  assert (E1 : b1 = 224 + c / 4096).
  { subst b1. rewrite Z.shiftr_div_pow2 by lia. change (2 ^ 12) with 4096.
    rewrite Z.lor_comm. apply (lor_add 224 _ 4); [lia | lia | | reflexivity].
    change (2 ^ 4) with 16. Z.div_mod_to_equations. lia. }
  assert (E2 : b2 = 128 + (c / 64) mod 64).
  { subst b2. rewrite (land_low _ 6 63) by (reflexivity || lia).
    rewrite Z.shiftr_div_pow2 by lia. change (2 ^ 6) with 64.
    rewrite Z.lor_comm. apply (lor_add 128 _ 6); [lia | lia | | reflexivity].
    change (2 ^ 6) with 64. Z.div_mod_to_equations. lia. }
  assert (E3 : b3 = 128 + c mod 64).
  { subst b3. rewrite (land_low c 6 63) by (reflexivity || lia). change (2 ^ 6) with 64.
    rewrite Z.lor_comm. apply (lor_add 128 _ 6); [lia | lia | | reflexivity].
    change (2 ^ 6) with 64. Z.div_mod_to_equations. lia. }
  rewrite E1, E2, E3.
  split; [Z.div_mod_to_equations; lia|]. split; [Z.div_mod_to_equations; lia|].
  split; [Z.div_mod_to_equations; lia|].
  rewrite (land_low _ 4 15), !(land_low _ 6 63) by (reflexivity || lia).
  change (2 ^ 4) with 16. change (2 ^ 6) with 64.
  replace ((224 + c / 4096) mod 16) with (c / 4096) by (Z.div_mod_to_equations; lia).
  replace ((128 + (c / 64) mod 64) mod 64) with ((c / 64) mod 64)
    by (Z.div_mod_to_equations; lia).
  replace ((128 + c mod 64) mod 64) with (c mod 64) by (Z.div_mod_to_equations; lia).
  rewrite (shl_mul _ 12); [| lia | Z.div_mod_to_equations; lia
                           | change (2 ^ 12) with 4096; change (2 ^ 31) with 2147483648;
                             Z.div_mod_to_equations; lia].
  rewrite (shl_mul _ 6); [| lia | Z.div_mod_to_equations; lia
                          | change (2 ^ 6) with 64; change (2 ^ 31) with 2147483648;
                            Z.div_mod_to_equations; lia].
  change (2 ^ 12) with 4096. change (2 ^ 6) with 64.
  rewrite (lor_add (c / 4096 * 4096) _ 12);
    [| lia | Z.div_mod_to_equations; lia
     | change (2 ^ 12) with 4096; Z.div_mod_to_equations; lia
     | change (2 ^ 12) with 4096; Z.div_mod_to_equations; lia].
  rewrite (lor_add _ _ 6);
    [Z.div_mod_to_equations; lia | lia | Z.div_mod_to_equations; lia
     | change (2 ^ 6) with 64; Z.div_mod_to_equations; lia
     | change (2 ^ 6) with 64; Z.div_mod_to_equations; lia].
Qed.

(** The four bytes of a surrogate pair, from the 20 bits [w] that the
    pair carries. *)
Lemma four_bytes w :
  0 <= w < 1048576 ->
  let code := 0x10000 + w in
  let b1 := Z.lor (Z.shiftr code 18) 240 in
  let b2 := Z.lor (Z.land (Z.shiftr code 12) 63) 128 in
  let b3 := Z.lor (Z.land (Z.shiftr code 6) 63) 128 in
  let b4 := Z.lor (Z.land code 63) 128 in
  240 <= b1 < 245 /\ 128 <= b2 < 192 /\ 128 <= b3 < 192 /\ 128 <= b4 < 192
  /\ Z.lor (Z.lor (Z.lor (BitStream.shl (Z.land b1 7) 18)
                         (BitStream.shl (Z.land b2 63) 12))
                  (BitStream.shl (Z.land b3 63) 6))
           (Z.land b4 63) - 0x10000 = w.
Proof.
  intros Hw code b1 b2 b3 b4.
  assert (Hc : 65536 <= code < 1114112) by (subst code; lia).
  assert (Hcode : code = 65536 + w) by reflexivity.
  clearbody code.
  assert (E1 : b1 = 240 + code / 262144).
  { subst b1. rewrite Z.shiftr_div_pow2 by lia. change (2 ^ 18) with 262144.
    rewrite Z.lor_comm. apply (lor_add 240 _ 3); [lia | lia | | reflexivity].
    change (2 ^ 3) with 8. Z.div_mod_to_equations. lia. }
  assert (E2 : b2 = 128 + (code / 4096) mod 64).
  { subst b2. rewrite (land_low _ 6 63) by (reflexivity || lia).
    rewrite Z.shiftr_div_pow2 by lia. change (2 ^ 6) with 64. change (2 ^ 12) with 4096.
    rewrite Z.lor_comm. apply (lor_add 128 _ 6); [lia | lia | | reflexivity].
    change (2 ^ 6) with 64. Z.div_mod_to_equations. lia. }
  assert (E3 : b3 = 128 + (code / 64) mod 64).
  { subst b3. rewrite (land_low _ 6 63) by (reflexivity || lia).
    rewrite Z.shiftr_div_pow2 by lia. change (2 ^ 6) with 64.
    rewrite Z.lor_comm. apply (lor_add 128 _ 6); [lia | lia | | reflexivity].
    change (2 ^ 6) with 64. Z.div_mod_to_equations. lia. }
  assert (E4 : b4 = 128 + code mod 64).
  { subst b4. rewrite (land_low code 6 63) by (reflexivity || lia). change (2 ^ 6) with 64.
    rewrite Z.lor_comm. apply (lor_add 128 _ 6); [lia | lia | | reflexivity].
    change (2 ^ 6) with 64. Z.div_mod_to_equations. lia. }
  rewrite E1, E2, E3, E4.
  split; [Z.div_mod_to_equations; lia|]. split; [Z.div_mod_to_equations; lia|].
  split; [Z.div_mod_to_equations; lia|]. split; [Z.div_mod_to_equations; lia|].
  rewrite (land_low _ 3 7), !(land_low _ 6 63) by (reflexivity || lia).
  change (2 ^ 3) with 8. change (2 ^ 6) with 64.
  replace ((240 + code / 262144) mod 8) with (code / 262144)
    by (Z.div_mod_to_equations; lia).
  replace ((128 + (code / 4096) mod 64) mod 64) with ((code / 4096) mod 64)
    by (Z.div_mod_to_equations; lia).
  replace ((128 + (code / 64) mod 64) mod 64) with ((code / 64) mod 64)
    by (Z.div_mod_to_equations; lia).
  replace ((128 + code mod 64) mod 64) with (code mod 64) by (Z.div_mod_to_equations; lia).
  rewrite (shl_mul _ 18); [| lia | Z.div_mod_to_equations; lia
                           | change (2 ^ 18) with 262144; change (2 ^ 31) with 2147483648;
                             Z.div_mod_to_equations; lia].
  rewrite (shl_mul _ 12); [| lia | Z.div_mod_to_equations; lia
                           | change (2 ^ 12) with 4096; change (2 ^ 31) with 2147483648;
                             Z.div_mod_to_equations; lia].
  rewrite (shl_mul _ 6); [| lia | Z.div_mod_to_equations; lia
                          | change (2 ^ 6) with 64; change (2 ^ 31) with 2147483648;
                            Z.div_mod_to_equations; lia].
  change (2 ^ 18) with 262144. change (2 ^ 12) with 4096. change (2 ^ 6) with 64.
  rewrite (lor_add (code / 262144 * 262144) _ 18);
    [| lia | Z.div_mod_to_equations; lia
     | change (2 ^ 18) with 262144; Z.div_mod_to_equations; lia
     | change (2 ^ 18) with 262144; Z.div_mod_to_equations; lia].
  rewrite (lor_add (code / 262144 * 262144 + code / 4096 mod 64 * 4096) _ 12);
    [| lia | Z.div_mod_to_equations; lia
     | change (2 ^ 12) with 4096; Z.div_mod_to_equations; lia
     | change (2 ^ 12) with 4096; Z.div_mod_to_equations; lia].
  rewrite (lor_add _ _ 6);
    [| lia | Z.div_mod_to_equations; lia
     | change (2 ^ 6) with 64; Z.div_mod_to_equations; lia
     | change (2 ^ 6) with 64; Z.div_mod_to_equations; lia].
  assert (A1 : code / 4096 = code / 64 / 64) by (rewrite Z.div_div by lia; reflexivity).
  assert (A2 : code / 262144 = code / 64 / 64 / 64)
    by (rewrite !Z.div_div by lia; reflexivity).
  rewrite A2, A1. Z.div_mod_to_equations. lia.
Qed.

Lemma getAt_after pre l i : getAt (pre ++ l) (length pre + i) = getAt l i.
Proof. apply getAt_app. Qed.

Lemma getAt_here pre x l : getAt (pre ++ x :: l) (length pre) = x.
Proof. rewrite <- (Nat.add_0_r (length pre)), getAt_after. reflexivity. Qed.

Lemma loop_here fuel pre x l pos out :
  pos = length pre ->
  Decoder.bytesToUTF8_loop (S fuel) (pre ++ x :: l) pos out
  = let bytes := pre ++ x :: l in
    let c1 := x in
    if c1 <? 128 then
      Decoder.bytesToUTF8_loop fuel bytes (pos + 1) (out ++ [Decoder.fromCharCode c1])
    else if (c1 >? 191) && (c1 <? 224) then
      let c2 := getAt bytes (pos + 1) in
      Decoder.bytesToUTF8_loop fuel bytes (pos + 2)
        (out ++ [Decoder.fromCharCode
                   (Z.lor (BitStream.shl (Z.land c1 31) 6) (Z.land c2 63))])
    else if (c1 >? 239) && (c1 <? 365) then
      let c2 := getAt bytes (pos + 1) in
      let c3 := getAt bytes (pos + 2) in
      let c4 := getAt bytes (pos + 3) in
      let u := Z.lor (Z.lor (Z.lor (BitStream.shl (Z.land c1 7) 18)
                                   (BitStream.shl (Z.land c2 63) 12))
                            (BitStream.shl (Z.land c3 63) 6)) (Z.land c4 63) - 0x10000 in
      Decoder.bytesToUTF8_loop fuel bytes (pos + 4)
        (out ++ [Decoder.fromCharCode (0xd800 + Z.shiftr (int32 u) 10);
                 Decoder.fromCharCode (0xdc00 + Z.land u 1023)])
    else
      let c2 := getAt bytes (pos + 1) in
      let c3 := getAt bytes (pos + 2) in
      Decoder.bytesToUTF8_loop fuel bytes (pos + 3)
        (out ++ [Decoder.fromCharCode
                   (Z.lor (Z.lor (BitStream.shl (Z.land c1 15) 12)
                                 (BitStream.shl (Z.land c2 63) 6))
                          (Z.land c3 63))]).
Proof.
  intros ->. cbn [Decoder.bytesToUTF8_loop].
  replace (length pre <? length (pre ++ x :: l))%nat with true
    by (symmetry; apply Nat.ltb_lt; rewrite length_app; cbn [length]; lia).
  rewrite getAt_here. reflexivity.
Qed.

Lemma loop_end fuel bytes out :
  Decoder.bytesToUTF8_loop fuel bytes (length bytes) out = out.
Proof.
  destruct fuel; cbn [Decoder.bytesToUTF8_loop]; [reflexivity|].
  rewrite Nat.ltb_irrefl. reflexivity.
Qed.

(** [bytesToUTF8] decodes what [UTF8] encodes, from any place of the
    bytes on. *)
Lemma UTF8_loop : forall n data,
  (length data <= n)%nat -> Forall codeUnit data ->
  forall pre out fuel, (length (UTF8 data) <= fuel)%nat ->
  Decoder.bytesToUTF8_loop fuel (pre ++ UTF8 data) (length pre) out = out ++ data.
Proof.
  induction n as [|n IH]; intros data Hn Hd pre out fuel Hfuel.
  { destruct data; [|simpl in Hn; lia]. cbn [UTF8]. rewrite !app_nil_r.
    apply loop_end. }
  destruct data as [|c rest].
  { cbn [UTF8]. rewrite !app_nil_r. apply loop_end. }
  inversion Hd as [|? ? Hc Hrest]; subst. unfold codeUnit in Hc.
  cbn [length] in Hn.
  cbn [UTF8] in *.
  destruct (Z.ltb_spec c 128) as [H1|H1].
  - (* one byte *)
    cbn [length] in Hfuel. destruct fuel as [|fuel]; [lia|].
    rewrite (loop_here fuel pre c (UTF8 rest) _ out eq_refl). cbv zeta.
    destruct (Z.ltb_spec c 128); [|lia].
    rewrite fromCharCode_unit by (unfold codeUnit; lia).
    replace (pre ++ c :: UTF8 rest) with ((pre ++ [c]) ++ UTF8 rest)
      by (rewrite <- app_assoc; reflexivity).
    replace (length pre + 1)%nat with (length (pre ++ [c]))
      by (rewrite length_app; reflexivity).
    rewrite (IH rest ltac:(lia) Hrest) by lia.
    rewrite <- app_assoc. reflexivity.
  - destruct (Z.ltb_spec c 2048) as [H2|H2].
    + (* two bytes *)
      destruct (two_bytes c ltac:(lia)) as [Hb1 [Hb2 Hval]].
      set (b1 := Z.lor (Z.shiftr c 6) 192) in *.
      set (b2 := Z.lor (Z.land c 63) 128) in *.
      cbn [length] in Hfuel. destruct fuel as [|fuel]; [lia|].
      rewrite (loop_here fuel pre b1 (b2 :: UTF8 rest) _ out eq_refl). cbv zeta.
      destruct (Z.ltb_spec b1 128); [lia|].
      destruct (Z.gtb_spec b1 191); [|lia]. destruct (Z.ltb_spec b1 224); [|lia].
      cbn [andb].
      rewrite getAt_after. cbn [getAt nth]. rewrite Hval.
      rewrite fromCharCode_unit by (unfold codeUnit; lia).
      replace (pre ++ b1 :: b2 :: UTF8 rest) with ((pre ++ [b1; b2]) ++ UTF8 rest)
        by (rewrite <- app_assoc; reflexivity).
      replace (length pre + 2)%nat with (length (pre ++ [b1; b2]))
        by (rewrite length_app; reflexivity).
      rewrite (IH rest ltac:(lia) Hrest) by lia.
      rewrite <- app_assoc. reflexivity.
    + assert (Hthree :
        forall fuel, (3 + length (UTF8 rest) <= fuel)%nat ->
        Decoder.bytesToUTF8_loop fuel
          (pre ++ Z.lor (Z.shiftr c 12) 224
                  :: Z.lor (Z.land (Z.shiftr c 6) 63) 128
                  :: Z.lor (Z.land c 63) 128 :: UTF8 rest)
          (length pre) out = out ++ c :: rest).
      { intros fuel0 Hfuel0.
        destruct (three_bytes c ltac:(lia)) as [Hb1 [Hb2 [Hb3 Hval]]].
        set (b1 := Z.lor (Z.shiftr c 12) 224) in *.
        set (b2 := Z.lor (Z.land (Z.shiftr c 6) 63) 128) in *.
        set (b3 := Z.lor (Z.land c 63) 128) in *.
        destruct fuel0 as [|fuel0]; [lia|].
        rewrite (loop_here fuel0 pre b1 (b2 :: b3 :: UTF8 rest) _ out eq_refl). cbv zeta.
        destruct (Z.ltb_spec b1 128); [lia|].
        destruct (Z.ltb_spec b1 224); [lia|]. rewrite andb_false_r.
        destruct (Z.gtb_spec b1 239); [lia|]. cbn [andb].
        rewrite !getAt_after. cbn [getAt nth]. rewrite Hval.
        rewrite fromCharCode_unit by (unfold codeUnit; lia).
        replace (pre ++ b1 :: b2 :: b3 :: UTF8 rest)
          with ((pre ++ [b1; b2; b3]) ++ UTF8 rest)
          by (rewrite <- app_assoc; reflexivity).
        replace (length pre + 3)%nat with (length (pre ++ [b1; b2; b3]))
          by (rewrite length_app; reflexivity).
        rewrite (IH rest ltac:(lia) Hrest) by lia.
        rewrite <- app_assoc. reflexivity. }
      destruct rest as [|next rest'].
      { apply Hthree. cbn [length] in Hfuel. cbn [UTF8 length]. lia. }
      destruct ((Z.land c 0xfc00 =? 0xd800) && (Z.land next 0xfc00 =? 0xdc00)) eqn:Hpair.
      * (* a surrogate pair *)
        inversion Hrest as [|? ? Hnext Hrest']; subst. unfold codeUnit in Hnext.
        apply andb_true_iff in Hpair. destruct Hpair as [Hhi Hlo].
        apply Z.eqb_eq in Hhi, Hlo.
        rewrite land_0xfc00 in Hhi, Hlo by lia.
        assert (Ec : c = 55296 + c mod 1024) by (Z.div_mod_to_equations; lia).
        assert (En : next = 56320 + next mod 1024) by (Z.div_mod_to_equations; lia).
        assert (Hcm : 0 <= c mod 1024 < 1024) by (apply Z.mod_pos_bound; lia).
        assert (Hnm : 0 <= next mod 1024 < 1024) by (apply Z.mod_pos_bound; lia).
        set (w := c mod 1024 * 1024 + next mod 1024).
        assert (Hcode : 0x10000 + Z.shiftl (Z.land c 0x03ff) 10 + Z.land next 0x03ff
                        = 0x10000 + w).
        { rewrite !(land_low _ 10 0x03ff) by (reflexivity || lia).
          rewrite Z.shiftl_mul_pow2 by lia. subst w. change (2 ^ 10) with 1024. lia. }
        cbv zeta in Hfuel |- *. rewrite Hcode in Hfuel |- *.
        destruct (four_bytes w ltac:(subst w; lia)) as [Hb1 [Hb2 [Hb3 [Hb4 Hval]]]].
        cbv zeta in Hb1, Hb2, Hb3, Hb4, Hval.
        set (b1 := Z.lor (Z.shiftr (0x10000 + w) 18) 240) in *.
        set (b2 := Z.lor (Z.land (Z.shiftr (0x10000 + w) 12) 63) 128) in *.
        set (b3 := Z.lor (Z.land (Z.shiftr (0x10000 + w) 6) 63) 128) in *.
        set (b4 := Z.lor (Z.land (0x10000 + w) 63) 128) in *.
        cbn [length] in Hfuel. destruct fuel as [|fuel]; [lia|].
        rewrite (loop_here fuel pre b1 (b2 :: b3 :: b4 :: UTF8 rest') _ out eq_refl).
        cbv zeta.
        destruct (Z.ltb_spec b1 128); [lia|].
        destruct (Z.ltb_spec b1 224); [lia|]. rewrite andb_false_r.
        destruct (Z.gtb_spec b1 239); [|lia]. destruct (Z.ltb_spec b1 365); [|lia].
        cbn [andb].
        rewrite !getAt_after. cbn [getAt nth]. rewrite Hval.
        rewrite int32_small by (subst w; lia).
        rewrite Z.shiftr_div_pow2 by lia.
        rewrite (land_low w 10 1023) by (reflexivity || lia).
        change (2 ^ 10) with 1024.
        replace (w / 1024) with (c mod 1024)
          by (apply (Z.div_unique _ 1024 _ (next mod 1024)); subst w; lia).
        replace (w mod 1024) with (next mod 1024)
          by (apply (Z.mod_unique _ 1024 (c mod 1024)); subst w; lia).
        change 0xd800 with 55296. change 0xdc00 with 56320.
        rewrite <- Ec, <- En.
        rewrite !fromCharCode_unit by (unfold codeUnit; lia).
        replace (pre ++ b1 :: b2 :: b3 :: b4 :: UTF8 rest')
          with ((pre ++ [b1; b2; b3; b4]) ++ UTF8 rest')
          by (rewrite <- app_assoc; reflexivity).
        replace (length pre + 4)%nat with (length (pre ++ [b1; b2; b3; b4]))
          by (rewrite length_app; reflexivity).
        cbn [length] in Hn.
        rewrite (IH rest' ltac:(lia) Hrest') by lia.
        rewrite <- app_assoc. reflexivity.
      * apply Hthree. cbn [length] in Hfuel. lia.
Qed.

Lemma UTF8_bytes : forall n data,
  (length data <= n)%nat -> Forall codeUnit data -> Forall byte (UTF8 data).
Proof.
  induction n as [|n IH]; intros data Hn Hd.
  { destruct data; [constructor | simpl in Hn; lia]. }
  destruct data as [|c rest]; [constructor|].
  inversion Hd as [|? ? Hc Hrest]; subst. unfold codeUnit in Hc.
  cbn [length] in Hn. cbn [UTF8].
  destruct (Z.ltb_spec c 128) as [H1|H1].
  - constructor; [unfold byte; lia | apply IH; [lia | exact Hrest]].
  - destruct (Z.ltb_spec c 2048) as [H2|H2].
    + destruct (two_bytes c ltac:(lia)) as [Hb1 [Hb2 _]]. cbv zeta in Hb1, Hb2.
      repeat constructor; try (unfold byte; lia). apply IH; [lia | exact Hrest].
    + assert (Hthree :
        Forall byte (Z.lor (Z.shiftr c 12) 224
                     :: Z.lor (Z.land (Z.shiftr c 6) 63) 128
                     :: Z.lor (Z.land c 63) 128 :: UTF8 rest)).
      { destruct (three_bytes c ltac:(lia)) as [Hb1 [Hb2 [Hb3 _]]].
        cbv zeta in Hb1, Hb2, Hb3.
        repeat constructor; try (unfold byte; lia). apply IH; [lia | exact Hrest]. }
      destruct rest as [|next rest']; [exact Hthree|].
      destruct ((Z.land c 0xfc00 =? 0xd800) && (Z.land next 0xfc00 =? 0xdc00)) eqn:Hpair;
        [|exact Hthree].
      inversion Hrest as [|? ? Hnext Hrest']; subst. unfold codeUnit in Hnext.
      assert (Hcm : 0 <= c mod 1024 < 1024) by (apply Z.mod_pos_bound; lia).
      assert (Hnm : 0 <= next mod 1024 < 1024) by (apply Z.mod_pos_bound; lia).
      set (w := c mod 1024 * 1024 + next mod 1024).
      assert (Hcode : 0x10000 + Z.shiftl (Z.land c 0x03ff) 10 + Z.land next 0x03ff
                      = 0x10000 + w).
      { rewrite !(land_low _ 10 0x03ff) by (reflexivity || lia).
        rewrite Z.shiftl_mul_pow2 by lia. subst w. change (2 ^ 10) with 1024. lia. }
      cbv zeta. rewrite Hcode.
      destruct (four_bytes w ltac:(subst w; lia)) as [Hb1 [Hb2 [Hb3 [Hb4 _]]]].
      cbv zeta in Hb1, Hb2, Hb3, Hb4. cbn [length] in Hn.
      repeat constructor; try (unfold byte; lia). apply IH; [lia | exact Hrest'].
Qed.

(** X16.  For a string of UTF-16 code units, paired or lone surrogates
    included, [UTF8] gives bytes, and [bytesToUTF8] of the decoder gives
    the string back from them. *)
Theorem UTF8_then_bytesToUTF8 (str : list Z) :
  Forall (fun c => 0 <= c < 65536) str ->
  Forall (fun b => 0 <= b < 256) (UTF8 str)
  /\ Decoder.bytesToUTF8 (UTF8 str) = str.
Proof.
  intros Hd. split.
  - exact (UTF8_bytes (length str) str (Nat.le_refl _) Hd).
  - unfold Decoder.bytesToUTF8.
    exact (UTF8_loop (length str) str (Nat.le_refl _) Hd [] [] _ (Nat.le_refl _)).
Qed.

Lemma UTF8_then_bytesToUTF8_witness :
  Decoder.bytesToUTF8 (UTF8 [0x41; 0xe9; 0x20ac; 0xd83d; 0xde00; 0xdc00])
  = [0x41; 0xe9; 0x20ac; 0xd83d; 0xde00; 0xdc00].
Proof.
  apply (UTF8_then_bytesToUTF8 [0x41; 0xe9; 0x20ac; 0xd83d; 0xde00; 0xdc00]).
  repeat constructor; lia.
Defined.

(** The width of the count of a mode is the same for the encoder and
    the decoder. *)
Lemma getLengthInBits_sizeOf mode version :
  1 <= version <= 40 ->
  exists bits,
    getLengthInBits mode version = Ok bits /\ (8 <= bits <= 16)%nat
    /\ Z.of_nat bits
       = nth (sizeOf version)
             match mode with
             | Numeric => [10; 12; 14]
             | Alphanumeric => [9; 11; 13]
             | Byte => [8; 16; 16]
             | Kanji => [8; 10; 12]
             end 0.
Proof.
  intros Hv. unfold getLengthInBits, sizeOf.
  destruct (Z.leb_spec 1 version); [|lia]. cbn [andb].
  destruct (Z.ltb_spec version 10).
  - destruct (Z.leb_spec version 9); [|lia].
    destruct mode; eexists; (split; [reflexivity|]); split; try lia; reflexivity.
  - destruct (Z.leb_spec version 9); [lia|].
    destruct (Z.ltb_spec version 27).
    + destruct (Z.leb_spec version 26); [|lia].
      destruct mode; eexists; (split; [reflexivity|]); split; try lia; reflexivity.
    + destruct (Z.leb_spec version 26); [lia|].
      destruct (Z.ltb_spec version 41); [|lia].
      destruct mode; eexists; (split; [reflexivity|]); split; try lia; reflexivity.
Qed.

Lemma QRByte_write_bits data pre :
  QRByte.write data (written pre) = written (pre ++ byteBits (UTF8 data)).
Proof.
  unfold QRByte.write. generalize (UTF8 data) as bs. intros bs. revert pre.
  induction bs as [|x bs IH]; intros pre; cbn [fold_left byteBits flat_map].
  - rewrite app_nil_r. reflexivity.
  - rewrite put_written, IH. fold (byteBits bs). rewrite <- app_assoc. reflexivity.
Qed.

Lemma byteBits_length bs : length (byteBits bs) = (8 * length bs)%nat.
Proof.
  induction bs as [|x bs IH]; [reflexivity|].
  cbn [byteBits flat_map length]. fold (byteBits bs).
  rewrite length_app, numBits_length, IH. lia.
Qed.

(** The loop of [decodeByte] over bytes written by [put(byte, 8)]. *)
Lemma decodeByte_loop : forall bs,
  Forall byte bs ->
  forall pre post extra acc k,
    let bytes := BitBuffer.buffer (written (pre ++ byteBits bs ++ post)) ++ extra in
    foldM (fun (acc : list Z * BitStream.BitStream) (_ : nat) =>
             let '(bytes, stream) := acc in
             r <- BitStream.readBits stream 8 ;;
             let '(b, stream) := r in
             Ok (bytes ++ [b], stream))
          (seq k (length bs)) (acc, streamAt bytes (length pre))
    = Ok (acc ++ bs, streamAt bytes (length pre + 8 * length bs)).
Proof.
  induction bs as [|x bs IH]; intros Hb pre post extra acc k bytes.
  - cbn [length seq foldM]. rewrite app_nil_r, Nat.mul_0_r, Nat.add_0_r. reflexivity.
  - inversion Hb as [|? ? Hx Hrest]; subst. cbn [length seq foldM].
    assert (Hbytes : bytes = BitBuffer.buffer
                               (written (pre ++ numBits x 8 ++ byteBits bs ++ post))
                             ++ extra).
    { subst bytes. cbn [byteBits flat_map]. fold (byteBits bs).
      rewrite <- app_assoc. reflexivity. }
    cbv beta iota. rewrite Hbytes at 1.
    rewrite (readBits_field pre x 8 8 (byteBits bs ++ post) extra eq_refl ltac:(lia)).
    rewrite bind_Ok. cbv beta iota. rewrite bind_Ok.
    unfold byte in Hx. rewrite Z.mod_small by lia.
    rewrite <- Hbytes.
    specialize (IH Hrest (pre ++ numBits x 8) post extra (acc ++ [x]) (S k)).
    cbv zeta in IH. rewrite <- app_assoc in IH. rewrite <- Hbytes in IH.
    rewrite length_app, numBits_length in IH. rewrite IH.
    rewrite <- app_assoc. cbn [app]. f_equal. f_equal. f_equal. lia.
Qed.

(** The count and the digits of a numeric segment, written and read. *)
Lemma decodeNumeric_written pre data bits size :
  Forall digit data -> (1 <= bits <= 31)%nat ->
  Z.of_nat bits = nth size [10; 12; 14] 0 ->
  Z.of_nat (length data) < 2 ^ Z.of_nat bits ->
  exists bs,
    QRNumeric.write data
      (BitBuffer.put (written pre) (QRNumeric.getLength data) bits)
    = Ok (written (pre ++ numBits (QRNumeric.getLength data) bits ++ bs))
    /\ forall post extra,
         let bytes :=
           BitBuffer.buffer
             (written (pre ++ (numBits (QRNumeric.getLength data) bits ++ bs) ++ post))
           ++ extra in
         Decoder.decodeNumeric (streamAt bytes (length pre)) size
         = Ok (data, data, streamAt bytes (length pre + (bits + length bs))).
Proof.
  intros Hd Hbits Hsize Hcount. unfold QRNumeric.getLength.
  destruct (numeric_digits_round_trip data Hd
              (pre ++ numBits (Z.of_nat (length data)) bits)) as [bs [Hw Hread]].
  exists bs. rewrite put_written. split; [rewrite Hw, <- app_assoc; reflexivity|].
  intros post extra. cbv zeta.
  unfold Decoder.decodeNumeric. cbv zeta. rewrite <- Hsize.
  rewrite <- !app_assoc.
  rewrite (readBits_field pre (Z.of_nat (length data)) bits _ (bs ++ post) extra
             eq_refl ltac:(lia)).
  rewrite bind_Ok. rewrite Z.mod_small by lia. rewrite Nat2Z.id.
  specialize (Hread post extra (length data) [] [] ltac:(lia)). cbv zeta in Hread.
  rewrite <- !app_assoc in Hread. rewrite length_app, numBits_length in Hread.
  fold (numericDigits (length data) (Z.of_nat (length data))
          ([], [], streamAt (BitBuffer.buffer (written (pre ++ numBits (Z.of_nat
             (length data)) bits ++ bs ++ post)) ++ extra) (length pre + bits))).
  rewrite Hread. f_equal. f_equal. f_equal. lia.
Qed.

Lemma decodeAlphanumeric_written pre data bits size :
  Forall alphanumeric data -> (1 <= bits <= 31)%nat ->
  Z.of_nat bits = nth size [9; 11; 13] 0 ->
  Z.of_nat (length data) < 2 ^ Z.of_nat bits ->
  exists bs,
    QRAlphanumeric.write data
      (BitBuffer.put (written pre) (QRAlphanumeric.getLength data) bits)
    = Ok (written (pre ++ numBits (QRAlphanumeric.getLength data) bits ++ bs))
    /\ forall post extra,
         let bytes :=
           BitBuffer.buffer
             (written (pre ++ (numBits (QRAlphanumeric.getLength data) bits ++ bs)
                       ++ post))
           ++ extra in
         Decoder.decodeAlphanumeric (streamAt bytes (length pre)) size
         = Ok (data, data, streamAt bytes (length pre + (bits + length bs))).
Proof.
  intros Hd Hbits Hsize Hcount. unfold QRAlphanumeric.getLength.
  destruct (alphanumeric_chars_round_trip data Hd
              (pre ++ numBits (Z.of_nat (length data)) bits)) as [bs [Hw Hread]].
  exists bs. rewrite put_written. split; [rewrite Hw, <- app_assoc; reflexivity|].
  intros post extra. cbv zeta.
  unfold Decoder.decodeAlphanumeric. cbv zeta. rewrite <- Hsize.
  rewrite <- !app_assoc.
  rewrite (readBits_field pre (Z.of_nat (length data)) bits _ (bs ++ post) extra
             eq_refl ltac:(lia)).
  rewrite bind_Ok. rewrite Z.mod_small by lia. rewrite Nat2Z.id.
  specialize (Hread post extra (length data) [] [] ltac:(lia)). cbv zeta in Hread.
  rewrite <- !app_assoc in Hread. rewrite length_app, numBits_length in Hread.
  fold (alphanumericChars (length data) (Z.of_nat (length data))
          ([], [], streamAt (BitBuffer.buffer (written (pre ++ numBits (Z.of_nat
             (length data)) bits ++ bs ++ post)) ++ extra) (length pre + bits))).
  rewrite Hread. f_equal. f_equal. f_equal. lia.
Qed.

Lemma decodeByte_written pre data bits size :
  Forall codeUnit data -> (1 <= bits <= 31)%nat ->
  Z.of_nat bits = nth size [8; 16; 16] 0 ->
  Z.of_nat (length (UTF8 data)) < 2 ^ Z.of_nat bits ->
  QRByte.write data (BitBuffer.put (written pre) (QRByte.getLength data) bits)
  = written (pre ++ numBits (QRByte.getLength data) bits ++ byteBits (UTF8 data))
  /\ forall post extra,
       let bytes :=
         BitBuffer.buffer
           (written (pre ++ (numBits (QRByte.getLength data) bits
                             ++ byteBits (UTF8 data)) ++ post))
         ++ extra in
       Decoder.decodeByte (streamAt bytes (length pre)) size
       = Ok (UTF8 data, data,
             streamAt bytes (length pre + (bits + length (byteBits (UTF8 data))))).
Proof.
  intros Hd Hbits Hsize Hcount. unfold QRByte.getLength.
  rewrite put_written, QRByte_write_bits.
  split; [rewrite <- app_assoc; reflexivity|].
  intros post extra. cbv zeta.
  unfold Decoder.decodeByte. cbv zeta. rewrite <- Hsize.
  rewrite <- !app_assoc.
  rewrite (readBits_field pre (Z.of_nat (length (UTF8 data))) bits _
             (byteBits (UTF8 data) ++ post) extra eq_refl ltac:(lia)).
  rewrite bind_Ok. rewrite Z.mod_small by lia. rewrite Nat2Z.id.
  pose proof (UTF8_bytes (length data) data (Nat.le_refl _) Hd) as Hbytes.
  pose proof (decodeByte_loop (UTF8 data) Hbytes
                (pre ++ numBits (Z.of_nat (length (UTF8 data))) bits) post extra [] 0%nat)
    as Hloop.
  cbv zeta in Hloop. rewrite <- !app_assoc in Hloop.
  rewrite length_app, numBits_length in Hloop.
  unfold upto. rewrite Hloop, bind_Ok. cbn [app].
  pose proof (UTF8_loop (length data) data (Nat.le_refl _) Hd [] [] _ (Nat.le_refl _))
    as Htext.
  cbn [app length] in Htext. unfold Decoder.bytesToUTF8. rewrite Htext.
  rewrite byteBits_length. f_equal. f_equal. f_equal. lia.
Qed.

(** X17.  A numeric segment.  For a version from 1 to 40 and a string
    of digits whose length fits the count of the version, after any bits
    the encoder writes the count and the digits, and from the bytes of
    the buffer, whatever is written after them, [decodeNumeric] of the
    decoder gives the digits back, as bytes and as text, and leaves the
    stream at the end of what was written. *)
Theorem numeric_segment_round_trip
        (pre post : list bool) (data : list Z) (version : Z) :
  1 <= version <= 40 ->
  Forall (fun c => 48 <= c <= 57) data ->
  QRNumeric.getLength data < 2 ^ nth (sizeOf version) [10; 12; 14] 0 ->
  exists bits b,
    getLengthInBits Numeric version = Ok bits
    /\ QRNumeric.write data
         (BitBuffer.put (fold_left BitBuffer.putBit pre BitBuffer.new)
                        (QRNumeric.getLength data) bits) = Ok b
    /\ let bytes := BitBuffer.getBuffer (fold_left BitBuffer.putBit post b) in
       Decoder.decodeNumeric (streamAt bytes (length pre)) (sizeOf version)
       = Ok (data, data, streamAt bytes (BitBuffer.length b)).
Proof.
  intros Hv Hd Hcount.
  destruct (getLengthInBits_sizeOf Numeric version Hv) as [bits [Hbits [Hr Hsize]]].
  rewrite <- Hsize in Hcount. fold (written pre).
  destruct (decodeNumeric_written pre data bits (sizeOf version) Hd ltac:(lia) Hsize Hcount)
    as [bs [Hw Hread]].
  exists bits. eexists. split; [exact Hbits|]. split; [exact Hw|].
  cbv zeta. rewrite written_app. unfold BitBuffer.getBuffer.
  specialize (Hread post []). cbv zeta in Hread. rewrite app_nil_r in Hread.
  rewrite <- !app_assoc in *. rewrite Hread.
  rewrite written_length, !length_app, numBits_length. reflexivity.
Qed.

Lemma numeric_segment_round_trip_witness :
  exists bits b,
    getLengthInBits Numeric 3 = Ok bits
    /\ QRNumeric.write [48; 49; 50; 51; 52; 53; 54; 55]
         (BitBuffer.put (fold_left BitBuffer.putBit [false; false; false; true]
                                   BitBuffer.new)
                        (QRNumeric.getLength [48; 49; 50; 51; 52; 53; 54; 55]) bits) = Ok b
    /\ let bytes := BitBuffer.getBuffer (fold_left BitBuffer.putBit [false; false] b) in
       Decoder.decodeNumeric (streamAt bytes 4) (sizeOf 3)
       = Ok ([48; 49; 50; 51; 52; 53; 54; 55], [48; 49; 50; 51; 52; 53; 54; 55],
             streamAt bytes (BitBuffer.length b)).
Proof.
  apply (numeric_segment_round_trip [false; false; false; true] [false; false]
           [48; 49; 50; 51; 52; 53; 54; 55] 3).
  - lia.
  - repeat constructor; lia.
  - vm_compute. reflexivity.
Defined.

(** X18.  An alphanumeric segment.  The same for a string of the 45
    characters that [QRAlphanumeric.getCode] accepts: [decodeAlphanumeric]
    gives back what [QRAlphanumeric.write] wrote after the count. *)
Theorem alphanumeric_segment_round_trip
        (pre post : list bool) (data : list Z) (version : Z) :
  1 <= version <= 40 ->
  Forall (fun c => exists k, QRAlphanumeric.getCode c = Ok k) data ->
  QRAlphanumeric.getLength data < 2 ^ nth (sizeOf version) [9; 11; 13] 0 ->
  exists bits b,
    getLengthInBits Alphanumeric version = Ok bits
    /\ QRAlphanumeric.write data
         (BitBuffer.put (fold_left BitBuffer.putBit pre BitBuffer.new)
                        (QRAlphanumeric.getLength data) bits) = Ok b
    /\ let bytes := BitBuffer.getBuffer (fold_left BitBuffer.putBit post b) in
       Decoder.decodeAlphanumeric (streamAt bytes (length pre)) (sizeOf version)
       = Ok (data, data, streamAt bytes (BitBuffer.length b)).
Proof.
  intros Hv Hd Hcount.
  destruct (getLengthInBits_sizeOf Alphanumeric version Hv) as [bits [Hbits [Hr Hsize]]].
  rewrite <- Hsize in Hcount. fold (written pre).
  destruct (decodeAlphanumeric_written pre data bits (sizeOf version) Hd ltac:(lia)
              Hsize Hcount) as [bs [Hw Hread]].
  exists bits. eexists. split; [exact Hbits|]. split; [exact Hw|].
  cbv zeta. rewrite written_app. unfold BitBuffer.getBuffer.
  specialize (Hread post []). cbv zeta in Hread. rewrite app_nil_r in Hread.
  rewrite <- !app_assoc in *. rewrite Hread.
  rewrite written_length, !length_app, numBits_length. reflexivity.
Qed.

Lemma alphanumeric_segment_round_trip_witness :
  exists bits b,
    getLengthInBits Alphanumeric 12 = Ok bits
    /\ QRAlphanumeric.write [72; 69; 76; 76; 79; 32; 49]
         (BitBuffer.put (fold_left BitBuffer.putBit [false; false; true; false]
                                   BitBuffer.new)
                        (QRAlphanumeric.getLength [72; 69; 76; 76; 79; 32; 49]) bits) = Ok b
    /\ let bytes := BitBuffer.getBuffer (fold_left BitBuffer.putBit [] b) in
       Decoder.decodeAlphanumeric (streamAt bytes 4) (sizeOf 12)
       = Ok ([72; 69; 76; 76; 79; 32; 49], [72; 69; 76; 76; 79; 32; 49],
             streamAt bytes (BitBuffer.length b)).
Proof.
  apply (alphanumeric_segment_round_trip [false; false; true; false] []
           [72; 69; 76; 76; 79; 32; 49] 12).
  - lia.
  - repeat constructor; eexists; reflexivity.
  - vm_compute. reflexivity.
Defined.

(** X19.  A byte segment.  For a string of UTF-16 code units whose
    UTF-8 bytes are few enough for the count of the version,
    [decodeByte] reads back the bytes that [QRByte.write] wrote after the
    count, and its text is the string. *)
Theorem byte_segment_round_trip
        (pre post : list bool) (data : list Z) (version : Z) :
  1 <= version <= 40 ->
  Forall (fun c => 0 <= c < 65536) data ->
  QRByte.getLength data < 2 ^ nth (sizeOf version) [8; 16; 16] 0 ->
  exists bits,
    getLengthInBits Byte version = Ok bits
    /\ let b := QRByte.write data
                  (BitBuffer.put (fold_left BitBuffer.putBit pre BitBuffer.new)
                                 (QRByte.getLength data) bits) in
       let bytes := BitBuffer.getBuffer (fold_left BitBuffer.putBit post b) in
       Decoder.decodeByte (streamAt bytes (length pre)) (sizeOf version)
       = Ok (UTF8 data, data, streamAt bytes (BitBuffer.length b)).
Proof.
  intros Hv Hd Hcount.
  destruct (getLengthInBits_sizeOf Byte version Hv) as [bits [Hbits [Hr Hsize]]].
  rewrite <- Hsize in Hcount. fold (written pre).
  destruct (decodeByte_written pre data bits (sizeOf version) Hd ltac:(lia)
              Hsize Hcount) as [Hw Hread].
  exists bits. split; [exact Hbits|]. cbv zeta. rewrite Hw.
  rewrite written_app. unfold BitBuffer.getBuffer.
  specialize (Hread post []). cbv zeta in Hread. rewrite app_nil_r in Hread.
  rewrite <- !app_assoc in *. rewrite Hread.
  rewrite written_length, !length_app, numBits_length. reflexivity.
Qed.

Lemma byte_segment_round_trip_witness :
  exists bits,
    getLengthInBits Byte 30 = Ok bits
    /\ let b := QRByte.write [0x41; 0xe9; 0x20ac; 0xd83d; 0xde00]
                  (BitBuffer.put (fold_left BitBuffer.putBit [false; true; false; false]
                                            BitBuffer.new)
                                 (QRByte.getLength [0x41; 0xe9; 0x20ac; 0xd83d; 0xde00])
                                 bits) in
       let bytes := BitBuffer.getBuffer (fold_left BitBuffer.putBit [true] b) in
       Decoder.decodeByte (streamAt bytes 4) (sizeOf 30)
       = Ok (UTF8 [0x41; 0xe9; 0x20ac; 0xd83d; 0xde00],
             [0x41; 0xe9; 0x20ac; 0xd83d; 0xde00], streamAt bytes (BitBuffer.length b)).
Proof.
  apply (byte_segment_round_trip [false; true; false; false] [true]
           [0x41; 0xe9; 0x20ac; 0xd83d; 0xde00] 30).
  - lia.
  - repeat constructor; lia.
  - vm_compute. reflexivity.
Defined.

Lemma segment_round_trip tbl version d pre :
  1 <= version <= 40 -> readable version d ->
  exists bs,
    prepareStep tbl version (written pre) d = Ok (written (pre ++ bs))
    /\ (4 <= length bs)%nat
    /\ forall post extra res utbl,
         let bytes := BitBuffer.buffer (written (pre ++ bs ++ post)) ++ extra in
         BitStream.readBits (streamAt bytes (length pre)) 4
         = Ok (mode_value (getMode d), streamAt bytes (length pre + 4))
         /\ mode_value (getMode d) <> 0
         /\ Decoder.decodeSegment utbl (mode_value (getMode d)) (sizeOf version) res
              (streamAt bytes (length pre + 4))
            = Ok (decoded res d, streamAt bytes (length pre + length bs)).
Proof.
  intros Hv Hd. destruct d as [mode data]. unfold readable in Hd.
  unfold prepareStep, getLength, write, decoded, segmentBytes, segmentChunk.
  cbn [getMode getData] in *. cbv zeta.
  destruct (getLengthInBits_sizeOf mode version Hv) as [bits [Hbits [Hr Hsize]]].
  rewrite put_written.
  destruct mode; [| | |contradiction]; destruct Hd as [Hdata Hcount];
    rewrite <- Hsize in Hcount; rewrite !bind_Ok, Hbits, bind_Ok.
  - (* numeric *)
    destruct (decodeNumeric_written (pre ++ numBits (mode_value Numeric) 4) data bits
                (sizeOf version) Hdata ltac:(lia) Hsize Hcount) as [bs [Hw Hread]].
    exists (numBits (mode_value Numeric) 4 ++ numBits (QRNumeric.getLength data) bits ++ bs).
    split; [rewrite Hw, <- !app_assoc; reflexivity|].
    split; [rewrite length_app, numBits_length; lia|].
    intros post extra res utbl. rewrite <- !app_assoc.
    split; [|split; [discriminate|]].
    + rewrite (readBits_field pre (mode_value Numeric) 4 4 _ extra eq_refl ltac:(lia)).
      reflexivity.
    + specialize (Hread post extra). cbv zeta in Hread.
      rewrite <- !app_assoc in Hread. rewrite length_app, numBits_length in Hread.
      unfold Decoder.decodeSegment. cbn [mode_value Z.eqb Pos.eqb].
      cbn [mode_value] in Hread.
      rewrite Hread, bind_Ok. rewrite !length_app, !numBits_length.
      f_equal. f_equal. f_equal. lia.
  - (* alphanumeric *)
    destruct (decodeAlphanumeric_written (pre ++ numBits (mode_value Alphanumeric) 4) data
                bits (sizeOf version) Hdata ltac:(lia) Hsize Hcount) as [bs [Hw Hread]].
    exists (numBits (mode_value Alphanumeric) 4
            ++ numBits (QRAlphanumeric.getLength data) bits ++ bs).
    split; [rewrite Hw, <- !app_assoc; reflexivity|].
    split; [rewrite length_app, numBits_length; lia|].
    intros post extra res utbl. rewrite <- !app_assoc.
    split; [|split; [discriminate|]].
    + rewrite (readBits_field pre (mode_value Alphanumeric) 4 4 _ extra eq_refl
                 ltac:(lia)).
      reflexivity.
    + specialize (Hread post extra). cbv zeta in Hread.
      rewrite <- !app_assoc in Hread. rewrite length_app, numBits_length in Hread.
      unfold Decoder.decodeSegment. cbn [mode_value Z.eqb Pos.eqb].
      cbn [mode_value] in Hread.
      rewrite Hread, bind_Ok. rewrite !length_app, !numBits_length.
      f_equal. f_equal. f_equal. lia.
  - (* byte *)
    destruct (decodeByte_written (pre ++ numBits (mode_value Byte) 4) data
                bits (sizeOf version) Hdata ltac:(lia) Hsize Hcount) as [Hw Hread].
    exists (numBits (mode_value Byte) 4
            ++ numBits (QRByte.getLength data) bits ++ byteBits (UTF8 data)).
    split; [rewrite Hw, <- !app_assoc; reflexivity|].
    split; [rewrite length_app, numBits_length; lia|].
    intros post extra res utbl. rewrite <- !app_assoc.
    split; [|split; [discriminate|]].
    + rewrite (readBits_field pre (mode_value Byte) 4 4 _ extra eq_refl ltac:(lia)).
      reflexivity.
    + specialize (Hread post extra). cbv zeta in Hread.
      rewrite <- !app_assoc in Hread. rewrite length_app, numBits_length in Hread.
      unfold Decoder.decodeSegment. cbn [mode_value Z.eqb Pos.eqb].
      cbn [mode_value] in Hread.
      rewrite Hread, bind_Ok. rewrite !length_app, !numBits_length.
      f_equal. f_equal. f_equal. lia.
Qed.

Lemma available_streamAt bytes p :
  BitStream.available (streamAt bytes p) = 8 * Z.of_nat (length bytes) - Z.of_nat p.
Proof.
  unfold BitStream.available, streamAt.
  cbn [BitStream.bytes BitStream.byteOffset BitStream.bitOffset].
  pose proof (Nat.div_mod_eq p 8). lia.
Qed.

(** The segments of [prepareData], read by the loop of [decode$1]. *)
Lemma segments_round_trip tbl version : forall dataList,
  1 <= version <= 40 -> Forall (readable version) dataList ->
  forall pre, exists bs,
    foldM (prepareStep tbl version) dataList (written pre) = Ok (written (pre ++ bs))
    /\ (4 * length dataList <= length bs)%nat
    /\ forall post extra res utbl fuel,
         (length dataList <= fuel)%nat ->
         let bytes := BitBuffer.buffer (written (pre ++ bs ++ post)) ++ extra in
         Decoder.decodeLoop utbl fuel (sizeOf version) res (streamAt bytes (length pre))
         = Decoder.decodeLoop utbl (fuel - length dataList) (sizeOf version)
             (fold_left decoded dataList res)
             (streamAt bytes (length pre + length bs)).
Proof.
  induction dataList as [|d dataList IH]; intros Hv Hall pre.
  - exists []. split; [rewrite app_nil_r; reflexivity|]. split; [simpl; lia|].
    intros post extra res utbl fuel _ bytes. cbn [length fold_left].
    rewrite Nat.sub_0_r, Nat.add_0_r. reflexivity.
  - inversion Hall as [|? ? Hd Hrest]; subst.
    destruct (segment_round_trip tbl version d pre Hv Hd) as [bs1 [Hw1 [Hlen1 Hread1]]].
    destruct (IH Hv Hrest (pre ++ bs1)) as [bs2 [Hw2 [Hlen2 Hread2]]].
    exists (bs1 ++ bs2). split; [|split].
    + cbn [foldM]. rewrite Hw1, bind_Ok, Hw2, <- app_assoc. reflexivity.
    + rewrite length_app. cbn [length]. lia.
    + intros post extra res utbl fuel Hfuel bytes.
      cbn [length] in Hfuel. destruct fuel as [|fuel]; [lia|].
      assert (Hbytes : bytes = BitBuffer.buffer (written (pre ++ bs1 ++ bs2 ++ post))
                               ++ extra)
        by (subst bytes; rewrite <- app_assoc; reflexivity).
      destruct (Hread1 (bs2 ++ post) extra res utbl) as [Hmode [Hnz Hseg]].
      rewrite <- Hbytes in Hmode, Hseg.
      cbn [Decoder.decodeLoop].
      replace (BitStream.available (streamAt bytes (length pre)) >=? 4) with true.
      2:{ symmetry. rewrite available_streamAt. apply Z.geb_le.
          pose proof (written_buffer_length (pre ++ bs1 ++ bs2 ++ post)) as Hb.
          rewrite !length_app in Hb. rewrite Hbytes, length_app. lia. }
      rewrite Hmode.
      destruct (Z.eqb_spec (mode_value (getMode d)) 0); [contradiction|].
      rewrite Hseg.
      specialize (Hread2 post extra (decoded res d) utbl fuel ltac:(lia)).
      cbv zeta in Hread2. rewrite <- !app_assoc in Hread2. rewrite <- Hbytes in Hread2.
      rewrite length_app in Hread2. rewrite Hread2.
      cbn [length fold_left Nat.sub]. rewrite length_app.
      f_equal. f_equal. lia.
Qed.

Lemma numBits_zero len : (len <= 32)%nat -> numBits 0 len = repeat false len.
Proof.
  intros Hlen. apply (nth_ext _ _ false false).
  - rewrite numBits_length, repeat_length. reflexivity.
  - intros i Hi. rewrite numBits_length in Hi.
    rewrite nth_numBits by lia. rewrite Z.testbit_0_l.
    symmetry. apply nth_repeat.
Qed.

(** The end of the data: after the last segment the decoder finds the
    terminator, or fewer than four bits, all zero. *)
Lemma decodeLoop_end utbl size res bits k n fuel :
  (length bits <= 8 * k)%nat ->
  let body := written (bits ++ repeat false (closingZeros (length bits) (Z.of_nat (8 * k)))) in
  aligned body -> (length (BitBuffer.buffer body) + n = k)%nat ->
  Decoder.decodeLoop utbl (S fuel) size res
    (streamAt (BitBuffer.buffer body ++ padBytes n) (length bits))
  = Decoder.Returns res.
Proof.
  intros Hfit body Hal Hk. subst body. unfold aligned in Hal.
  rewrite written_length, length_app, repeat_length in Hal.
  pose proof (Nat.div_mod_eq (length bits) 8) as Hdiv.
  pose proof (Nat.mod_upper_bound (length bits) 8 ltac:(lia)) as Hmod.
  cbn [Decoder.decodeLoop]. rewrite available_streamAt, length_app.
  destruct (Z.leb_spec (Z.of_nat (length bits) + 4) (Z.of_nat (8 * k))) as [Hterm|Hnone].
  - (* the terminator *)
    assert (Hcz : closingZeros (length bits) (Z.of_nat (8 * k))
                  = (4 + (8 - (length bits + 4) mod 8) mod 8)%nat).
    { unfold closingZeros.
      destruct (Z.leb_spec (Z.of_nat (length bits) + 4) (Z.of_nat (8 * k)));
        [reflexivity | lia]. }
    rewrite Hcz in *. set (a := ((8 - (length bits + 4) mod 8) mod 8)%nat) in *.
    replace (8 * Z.of_nat (length (BitBuffer.buffer
                                     (written (bits ++ repeat false (4 + a))))
                           + length (padBytes n))
             - Z.of_nat (length bits) >=? 4) with true
      by (symmetry; apply Z.geb_le; lia).
    change (repeat false (4 + a)) with (numBits 0 4 ++ repeat false a).
    rewrite (readBits_field bits 0 4 4 (repeat false a) (padBytes n) eq_refl ltac:(lia)).
    reflexivity.
  - assert (Hcz : closingZeros (length bits) (Z.of_nat (8 * k))
                  = ((8 - length bits mod 8) mod 8)%nat).
    { unfold closingZeros.
      destruct (Z.leb_spec (Z.of_nat (length bits) + 4) (Z.of_nat (8 * k))); [lia|].
      rewrite Nat.add_0_r. reflexivity. }
    rewrite Hcz in *. set (cz := ((8 - length bits mod 8) mod 8)%nat) in *.
    pose proof (Nat.mod_upper_bound (8 - length bits mod 8) 8 ltac:(lia)) as Hcz8.
    fold cz in Hcz8.
    assert (Hn : n = 0%nat) by lia. subst n. cbn [padBytes length].
    rewrite Nat.add_0_r.
    assert (Hav : 8 * Z.of_nat (length (BitBuffer.buffer
                                          (written (bits ++ repeat false cz))))
                  - Z.of_nat (length bits) = Z.of_nat cz) by lia.
    rewrite Hav.
    destruct (Z.geb_spec (Z.of_nat cz) 4); [lia|].
    destruct (Z.eqb_spec (Z.of_nat cz) 0) as [Hz|Hnz]; [reflexivity|].
    rewrite <- (numBits_zero cz) by lia.
    rewrite <- (app_nil_r (numBits 0 cz)).
    rewrite (readBits_field bits 0 cz (Z.of_nat cz) [] [] eq_refl ltac:(lia)).
    rewrite Z.mod_0_l by (apply Z.pow_nonzero; lia). reflexivity.
Qed.

Lemma fold_decoded : forall dataList res,
  fold_left decoded dataList res
  = Decoder.mkDecodeResult
      (Decoder.text res ++ concat (map getData dataList))
      (Decoder.bytes res ++ concat (map segmentBytes dataList))
      (Decoder.chunks res ++ map segmentChunk dataList).
Proof.
  induction dataList as [|d l IH]; intros res.
  - cbn [fold_left map concat]. rewrite !app_nil_r. destruct res; reflexivity.
  - cbn [fold_left map concat]. rewrite IH. unfold decoded at 1 2 3.
    cbn [Decoder.text Decoder.bytes Decoder.chunks].
    rewrite <- !app_assoc. reflexivity.
Qed.

(** X20.  The data stage of the encoder and the segment decoder.  For
    a version from 1 to 40 and a list of numeric, alphanumeric and byte
    segments (digits; characters that [getCode] accepts; UTF-16 code
    units), each with a length that its count can tell, if the prepared
    bits fit the capacity then the data codewords that [createData] pads
    them to are decoded by [decode$1] to the texts of the segments, their
    bytes and one chunk for each, in order. *)
Theorem decode_reads_back_prepared_data
        (SJIS2UTFTable UTF2SJISTable : Z -> option Z) (version : Z)
        (ecl : ErrorCorrectLevel) (dataList : list QRData) (p : Prepared) :
  1 <= version <= 40 ->
  Forall (readable version) dataList ->
  prepareData SJIS2UTFTable version ecl dataList = Ok p ->
  BitBuffer.getLengthInBits (p_buffer p) <= p_maxDataCount p ->
  exists buffer,
    QRCodeData.padBuffer (p_buffer p) (p_maxDataCount p) = Ok buffer
    /\ Decoder.decode_1 UTF2SJISTable (BitBuffer.getBuffer buffer) version
       = Decoder.Returns
           (Decoder.mkDecodeResult (concat (map getData dataList))
                                   (concat (map segmentBytes dataList))
                                   (map segmentChunk dataList)).
Proof.
  intros Hv Hall Hp Hfit.
  destruct (prepareData_maxDataCount _ _ _ _ _ Hv Hp) as [k Hk].
  destruct (segments_round_trip SJIS2UTFTable version dataList Hv Hall [])
    as [bs [Hw [Hlen Hread]]].
  cbn [app] in Hw.
  assert (Hbuf : p_buffer p = written bs).
  { unfold prepareData in Hp.
    apply bind_Ok_inv in Hp. destruct Hp as [rsBlocks [_ Hp]].
    apply bind_Ok_inv in Hp. destruct Hp as [buffer [Hb Hp]].
    inversion Hp; subst p; clear Hp. cbn [p_buffer].
    change (foldM (prepareStep SJIS2UTFTable version) dataList (written []) = Ok buffer)
      in Hb.
    rewrite Hw in Hb. inversion Hb. reflexivity. }
  rewrite Hbuf, Hk in *.
  unfold BitBuffer.getLengthInBits in Hfit. rewrite written_length in Hfit.
  destruct (padBuffer_written bs k ltac:(lia)) as [n [Hal [Hn Hpad]]].
  eexists. split; [exact Hpad|].
  unfold BitBuffer.getBuffer. cbn [BitBuffer.buffer].
  unfold Decoder.decode_1. cbv zeta. fold (sizeOf version).
  set (body := written (bs ++ repeat false (closingZeros (length bs) (Z.of_nat (8 * k)))))
    in *.
  set (bytes := BitBuffer.buffer body ++ padBytes n).
  change (BitStream.new bytes) with (streamAt bytes (length (@nil bool))).
  specialize (Hread (repeat false (closingZeros (length bs) (Z.of_nat (8 * k))))
                (padBytes n) (Decoder.mkDecodeResult [] [] []) UTF2SJISTable
                (S (2 * length bytes))).
  cbv zeta in Hread. cbn [app] in Hread. fold body in Hread. fold bytes in Hread.
  pose proof (written_buffer_length
                (bs ++ repeat false (closingZeros (length bs) (Z.of_nat (8 * k))))) as Hb.
  fold body in Hb. rewrite length_app in Hb.
  assert (Hbytes : (length (BitBuffer.buffer body) <= length bytes)%nat)
    by (subst bytes; rewrite length_app; lia).
  rewrite Hread by lia.
  replace (S (2 * length bytes) - length dataList)%nat
    with (S (2 * length bytes - length dataList)) by lia.
  cbn [length Nat.add]. subst bytes.
  rewrite (decodeLoop_end UTF2SJISTable (sizeOf version) _ bs k n _ ltac:(lia) Hal Hn).
  rewrite fold_decoded. reflexivity.
Qed.

Lemma decode_reads_back_prepared_data_witness :
  exists p buffer,
    prepareData (fun _ => None) 2 Q
      [QRNumeric [50; 48; 50; 54]; QRAlphanumeric [72; 69; 76; 76; 79];
       QRByte [0x68; 0xe9; 0x20ac]] = Ok p
    /\ QRCodeData.padBuffer (p_buffer p) (p_maxDataCount p) = Ok buffer
    /\ Decoder.decode_1 (fun _ => None) (BitBuffer.getBuffer buffer) 2
       = Decoder.Returns
           (Decoder.mkDecodeResult
              [50; 48; 50; 54; 72; 69; 76; 76; 79; 0x68; 0xe9; 0x20ac]
              [50; 48; 50; 54; 72; 69; 76; 76; 79; 0x68; 0xc3; 0xa9; 0xe2; 0x82; 0xac]
              [Decoder.ChunkNumeric [50; 48; 50; 54];
               Decoder.ChunkAlphanumeric [72; 69; 76; 76; 79];
               Decoder.ChunkByte [0x68; 0xc3; 0xa9; 0xe2; 0x82; 0xac]
                                 [0x68; 0xe9; 0x20ac]]).
Proof.
  eexists. 
  destruct (decode_reads_back_prepared_data (fun _ => None) (fun _ => None) 2 Q
              [QRNumeric [50; 48; 50; 54]; QRAlphanumeric [72; 69; 76; 76; 79];
               QRByte [0x68; 0xe9; 0x20ac]] _
              ltac:(lia)
              ltac:(repeat constructor; try (eexists; reflexivity);
                    unfold digit, codeUnit; try lia; vm_compute; reflexivity)
              ltac:(vm_compute; reflexivity)
              ltac:(vm_compute; discriminate)) as [buffer [Hpad Hdec]].
  exists buffer. split; [reflexivity|]. split; [exact Hpad | exact Hdec].
Defined.

Lemma flat_map_ext_In {A B} (f g : A -> list B) l :
  (forall x, In x l -> f x = g x) -> flat_map f l = flat_map g l.
Proof.
  induction l as [|x l IH]; intros H; [reflexivity|]. cbn [flat_map].
  rewrite (H x (or_introl eq_refl)), IH; [reflexivity|].
  intros y Hy. apply H. right. exact Hy.
Qed.

Lemma flat_map_none {A B} (f : A -> list B) l :
  (forall x, In x l -> f x = []) -> flat_map f l = [].
Proof.
  induction l as [|x l IH]; intros H; [reflexivity|]. cbn [flat_map].
  rewrite (H x (or_introl eq_refl)), IH; [reflexivity|].
  intros y Hy. apply H. right. exact Hy.
Qed.

Lemma flat_map_row : forall m (r : list Z) k,
  flat_map (fun i => if (i <? k + length r)%nat then [nth (i - k) r 0] else [])
           (seq k m)
  = firstn m r.
Proof.
  induction m as [|m IH]; intros r k; [reflexivity|].
  destruct r as [|x r].
  - cbn [firstn]. apply flat_map_none. intros i Hi. apply in_seq in Hi.
    cbn [length]. destruct (Nat.ltb_spec i (k + 0)); [lia | reflexivity].
  - cbn [seq flat_map].
    replace (k <? k + length (x :: r))%nat with true
      by (symmetry; apply Nat.ltb_lt; cbn [length]; lia).
    rewrite Nat.sub_diag. cbn [nth app firstn]. f_equal.
    rewrite <- (IH r (S k)). apply flat_map_ext_In. intros i Hi. apply in_seq in Hi.
    cbn [length]. replace (k + S (length r))%nat with (S k + length r)%nat by lia.
    destruct (Nat.ltb_spec i (S k + length r)); [|reflexivity].
    replace (i - k)%nat with (S (i - S k)) by lia. reflexivity.
Qed.

Lemma flat_map_whole (r : list Z) m :
  (length r <= m)%nat ->
  flat_map (fun i => if (i <? length r)%nat then [getAt r i] else []) (upto m) = r.
Proof.
  intros Hm. unfold upto, getAt.
  transitivity (firstn m r); [|apply firstn_all2; exact Hm].
  rewrite <- (flat_map_row m r 0).
  apply flat_map_ext_In. intros i _. rewrite Nat.sub_0_r. reflexivity.
Qed.

Lemma Permutation_flat_map_app {A B} (h g : A -> list B) l :
  Permutation (flat_map (fun i => h i ++ g i) l) (flat_map h l ++ flat_map g l).
Proof.
  induction l as [|x l IH]; [constructor|]. cbn [flat_map].
  rewrite <- !app_assoc. apply Permutation_app_head.
  rewrite IH. rewrite !app_assoc. apply Permutation_app_tail.
  apply Permutation_app_comm.
Qed.

(** [interleave] stores every value of every row once. *)
Lemma interleave_Permutation rows m :
  Forall (fun row => Z.of_nat (length row) <= m) rows ->
  Permutation (QRCodeData.interleave rows m) (concat rows).
Proof.
  unfold QRCodeData.interleave. induction rows as [|r rows IH]; intros Hall.
  - cbn [flat_map concat]. induction (upto (Z.to_nat m)) as [|x l IHl]; [constructor|].
    exact IHl.
  - inversion Hall as [|? ? Hr Hrest]; subst. cbn [flat_map concat].
    rewrite (Permutation_flat_map_app
               (fun i => if (i <? length r)%nat then [getAt r i] else [])
               (fun i => flat_map (fun row => if (i <? length row)%nat
                                              then [getAt row i] else []) rows)).
    rewrite flat_map_whole by lia. apply Permutation_app_head. apply IH. exact Hrest.
Qed.

Lemma Forall_le_max (rows : list (list Z)) m m' :
  m <= m' -> Forall (fun r => Z.of_nat (length r) <= m) rows ->
  Forall (fun r => Z.of_nat (length r) <= m') rows.
Proof.
  intros Hm H. eapply Forall_impl; [|exact H]. intros r Hr. cbv beta in *. lia.
Qed.

Lemma upto_app a b : upto (a + b) = upto a ++ seq a b.
Proof. unfold upto. rewrite seq_app. reflexivity. Qed.

Lemma map_seq_shift {B} (h : nat -> B) k n :
  map (fun i => h (i + k)%nat) (seq 0 n) = map h (seq k n).
Proof.
  change k with (0 + k)%nat at 2. generalize 0%nat as a.
  induction n as [|n IH]; intros a; [reflexivity|].
  cbn [seq map]. f_equal. exact (IH (S a)).
Qed.

Lemma blockStep_state buffer st blk :
  block_sizes_ok blk = true -> blocks_state buffer st ->
  exists st', QRCodeData.blockStep buffer st blk = Ok st' /\ blocks_state buffer st'
              /\ Z.of_nat (QRCodeData.offset st')
                 = Z.of_nat (QRCodeData.offset st) + RSBlock.dataCount blk
              /\ QRCodeData.maxTotalCount st'
                 = QRCodeData.maxTotalCount st + RSBlock.totalCount blk.
Proof.
  intros Hok Hst.
  destruct (blockStep_correct buffer st blk Hok) as [dc [ec [Hstep [Hdc [Hec _]]]]].
  unfold block_sizes_ok in Hok. rewrite !andb_true_iff in Hok.
  destruct Hok as [[Hd Hlo] Hhi].
  apply Z.leb_le in Hd. apply Z.leb_le in Hlo. apply Z.leb_le in Hhi.
  assert (Hdcv : dc = map (fun i => Z.land 0xff (getAt buffer (i + QRCodeData.offset st)))
                          (upto (Z.to_nat (RSBlock.dataCount blk)))).
  { unfold QRCodeData.blockStep in Hstep.
    destruct (QRCodeData.ecOfBlock _ _) as [ec0|] in Hstep; [|discriminate].
    rewrite bind_Ok in Hstep. inversion Hstep as [[Hd1 He1]].
    apply app_inj_tail in Hd1. destruct Hd1 as [_ Hd1]. symmetry. exact Hd1. }
  eexists. split; [exact Hstep|].
  destruct Hst as [Hcat [Hlen [Hmaxd [Hmaxe [Htot [Hnd Hne]]]]]].
  cbn [QRCodeData.offset QRCodeData.maxTotalCount]. split; [|split; [lia | reflexivity]].
  unfold blocks_state.
  cbn [QRCodeData.offset QRCodeData.dcData QRCodeData.ecData QRCodeData.maxDcCount
       QRCodeData.maxEcCount QRCodeData.maxTotalCount].
  split; [|split; [|split; [|split; [|split; [|split]]]]].
  - rewrite concat_app, Hcat. cbn [concat]. rewrite app_nil_r, upto_app, map_app.
    f_equal. rewrite Hdcv. unfold upto.
    apply (map_seq_shift (fun i => Z.land 255 (getAt buffer i))).
  - rewrite !length_app. cbn [length]. lia.
  - apply Forall_app. split.
    + apply (Forall_le_max _ (QRCodeData.maxDcCount st)); [lia | exact Hmaxd].
    + constructor; [lia | constructor].
  - apply Forall_app. split.
    + apply (Forall_le_max _ (QRCodeData.maxEcCount st)); [lia | exact Hmaxe].
    + constructor; [lia | constructor].
  - rewrite !concat_app, !length_app. cbn [concat]. rewrite !app_nil_r. lia.
  - lia.
  - lia.
Qed.

Lemma encodeBlocks_state buffer : forall blocks st0,
  Forall (fun b => block_sizes_ok b = true) blocks -> blocks_state buffer st0 ->
  exists st,
    foldM (QRCodeData.blockStep buffer) blocks st0 = Ok st
    /\ blocks_state buffer st
    /\ Z.of_nat (QRCodeData.offset st)
       = fold_left (fun acc blk => acc + RSBlock.dataCount blk) blocks
                   (Z.of_nat (QRCodeData.offset st0))
    /\ QRCodeData.maxTotalCount st
       = fold_left (fun acc blk => acc + RSBlock.totalCount blk) blocks
                   (QRCodeData.maxTotalCount st0).
Proof.
  induction blocks as [|blk blocks IH]; intros st0 Hall Hst.
  - exists st0. cbn [foldM fold_left]. auto.
  - inversion Hall as [|? ? Hblk Hrest]; subst.
    destruct (blockStep_state buffer st0 blk Hblk Hst) as [st1 [Hstep [Hst1 [Hoff Htot]]]].
    destruct (IH st1 Hrest Hst1) as [st [Hfold [Hstate [Hoff2 Htot2]]]].
    exists st. cbn [foldM fold_left]. rewrite Hstep, bind_Ok.
    split; [exact Hfold|]. split; [exact Hstate|].
    rewrite Hoff2, Htot2, Hoff, Htot. split; reflexivity.
Qed.

(** X21.  For a version from 1 to 40, any level and any buffer,
    [createBytes] returns as many codewords as the blocks of the version
    have in total, with no zero left from the array it starts with: first
    the data codewords of all blocks, interleaved, then their
    error-correction codewords, interleaved; each codeword of each block
    is there once; and the data blocks, one after the other, are the
    bytes of the buffer in order. *)
Theorem createBytes_keeps_every_codeword
        (version : Z) (ecl : ErrorCorrectLevel) (buffer : BitBuffer.BitBuffer) :
  1 <= version <= 40 ->
  exists rsBlocks st data,
    RSBlock.getRSBlocks version ecl = Ok rsBlocks
    /\ QRCodeData.encodeBlocks (BitBuffer.getBuffer buffer) rsBlocks = Ok st
    /\ QRCodeData.createBytes buffer rsBlocks = Ok data
    /\ Z.of_nat (length data) = totalCodewords rsBlocks
    /\ data = QRCodeData.interleave (QRCodeData.dcData st) (QRCodeData.maxDcCount st)
              ++ QRCodeData.interleave (QRCodeData.ecData st) (QRCodeData.maxEcCount st)
    /\ Permutation (QRCodeData.interleave (QRCodeData.dcData st) (QRCodeData.maxDcCount st))
                   (concat (QRCodeData.dcData st))
    /\ Permutation (QRCodeData.interleave (QRCodeData.ecData st) (QRCodeData.maxEcCount st))
                   (concat (QRCodeData.ecData st))
    /\ concat (QRCodeData.dcData st)
       = map (fun i => Z.land 0xff (getAt (BitBuffer.getBuffer buffer) i))
             (upto (Z.to_nat (dataCodewords rsBlocks))).
Proof.
  intros Hv. destruct (getRSBlocks_ok version ecl Hv) as [blocks [Hb [_ Hsizes]]].
  assert (H0 : blocks_state (BitBuffer.getBuffer buffer) (QRCodeData.mkBlocks 0 0 0 0 [] [])).
  { unfold blocks_state. cbn. repeat split; try constructor; lia. }
  destruct (encodeBlocks_state (BitBuffer.getBuffer buffer) blocks _ Hsizes H0)
    as [st [Hfold [Hstate [Hoff Htot]]]].
  cbn [QRCodeData.offset QRCodeData.maxTotalCount Z.of_nat] in Hoff, Htot.
  destruct Hstate as [Hcat [Hlen [Hmaxd [Hmaxe [Hsum [Hnd Hne]]]]]].
  pose proof (interleave_Permutation _ _ Hmaxd) as Pd.
  pose proof (interleave_Permutation _ _ Hmaxe) as Pe.
  pose proof (Permutation_length Pd) as Ld. pose proof (Permutation_length Pe) as Le.
  exists blocks, st. unfold QRCodeData.createBytes, QRCodeData.encodeBlocks.
  rewrite Hfold, bind_Ok. eexists.
  split; [exact Hb|]. split; [reflexivity|]. split; [reflexivity|].
  replace (Z.to_nat (QRCodeData.maxTotalCount st)
           - length (QRCodeData.interleave (QRCodeData.dcData st) (QRCodeData.maxDcCount st)
                     ++ QRCodeData.interleave (QRCodeData.ecData st)
                                              (QRCodeData.maxEcCount st)))%nat
    with 0%nat by (rewrite length_app; lia).
  cbn [repeat]. rewrite app_nil_r.
  split; [rewrite length_app; unfold totalCodewords; lia|].
  split; [reflexivity|]. split; [exact Pd|]. split; [exact Pe|].
  rewrite Hcat. unfold dataCodewords. rewrite <- Hoff, Nat2Z.id. reflexivity.
Qed.

Lemma createBytes_keeps_every_codeword_witness :
  exists rsBlocks st data,
    RSBlock.getRSBlocks 5 Q = Ok rsBlocks
    /\ QRCodeData.encodeBlocks (BitBuffer.getBuffer (BitBuffer.mkBitBuffer 16 [7; 9]))
                               rsBlocks = Ok st
    /\ QRCodeData.createBytes (BitBuffer.mkBitBuffer 16 [7; 9]) rsBlocks = Ok data
    /\ Z.of_nat (length data) = totalCodewords rsBlocks
    /\ data = QRCodeData.interleave (QRCodeData.dcData st) (QRCodeData.maxDcCount st)
              ++ QRCodeData.interleave (QRCodeData.ecData st) (QRCodeData.maxEcCount st)
    /\ Permutation (QRCodeData.interleave (QRCodeData.dcData st) (QRCodeData.maxDcCount st))
                   (concat (QRCodeData.dcData st))
    /\ Permutation (QRCodeData.interleave (QRCodeData.ecData st) (QRCodeData.maxEcCount st))
                   (concat (QRCodeData.ecData st))
    /\ concat (QRCodeData.dcData st)
       = map (fun i => Z.land 0xff
                         (getAt (BitBuffer.getBuffer (BitBuffer.mkBitBuffer 16 [7; 9])) i))
             (upto (Z.to_nat (dataCodewords rsBlocks))).
Proof.
  apply (createBytes_keeps_every_codeword 5 Q (BitBuffer.mkBitBuffer 16 [7; 9])). lia.
Defined.

Lemma version_table_checked :
  forallb version_table_check (zrange 1 40) = true.
Proof. vm_compute. reflexivity. Qed.

Lemma Forall2_Forall_r {A B} (R R' : A -> B -> Prop) (P : B -> Prop) l xs :
  (forall b x, R b x -> P x -> R' b x) ->
  Forall2 R l xs -> Forall P xs -> Forall2 R' l xs.
Proof.
  intros Himp H. induction H as [|b x l xs Hbx _ IH]; intros HP; [constructor|].
  inversion HP; subst. constructor; [apply Himp; assumption | apply IH; assumption].
Qed.

Lemma Forall2_repeat_l {A B} (R : A -> B -> Prop) a : forall n xs,
  Forall2 R (repeat a n) xs -> Forall (R a) xs /\ length xs = n.
Proof.
  induction n as [|n IH]; intros xs H; inversion H; subst.
  - split; [constructor | reflexivity].
  - match goal with Hr : Forall2 R (repeat a n) _ |- _ => destruct (IH _ Hr) as [HF Hl] end.
    split; [constructor; assumption | cbn [length]; lia].
Qed.

Lemma firstn_snoc (row : list Z) : forall k,
  (k < length row)%nat -> firstn (S k) row = firstn k row ++ [getAt row k].
Proof.
  unfold getAt. induction row as [|x row IH]; intros k Hk; [cbn [length] in Hk; lia|].
  destruct k as [|k]; [reflexivity|].
  cbn [length] in Hk. cbn [firstn nth app]. cbn [firstn] in IH. rewrite (IH k) by lia.
  reflexivity.
Qed.

Lemma dealRound_push {X} (pre : X -> list (option Z)) (g : X -> Z) rest blocks xs :
  Forall2 (fun b x => DataBlocks.codewords b = pre x) blocks xs ->
  exists blocks',
    DataBlocks.dealRound blocks (map g xs ++ rest) = (blocks', rest)
    /\ Forall2 (fun b x => DataBlocks.codewords b = pre x ++ [Some (g x)]) blocks' xs
    /\ map DataBlocks.numDataCodewords blocks' = map DataBlocks.numDataCodewords blocks.
Proof.
  intros H. induction H as [|b x blocks xs Hbx _ IH].
  - exists []. cbn. repeat split; constructor.
  - destruct IH as [blocks' [Hd [HF Hn]]].
    exists (DataBlocks.push b (Some (g x)) :: blocks').
    cbn [map app DataBlocks.dealRound DataBlocks.shift]. rewrite Hd.
    split; [reflexivity|]. split.
    + constructor; [cbn [DataBlocks.push DataBlocks.codewords]; rewrite Hbx; reflexivity
                   | exact HF].
    + cbn [map DataBlocks.push DataBlocks.numDataCodewords]. rewrite Hn. reflexivity.
Qed.

(** One turn over all blocks takes one column of the rows. *)
Lemma dealRound_column {X} (base row : X -> list Z) k rest blocks xs :
  Forall2 (fun b x => DataBlocks.codewords b = map Some (base x ++ firstn k (row x)))
          blocks xs ->
  Forall (fun x => (k < length (row x))%nat) xs ->
  exists blocks',
    DataBlocks.dealRound blocks (map (fun x => getAt (row x) k) xs ++ rest) = (blocks', rest)
    /\ Forall2 (fun b x => DataBlocks.codewords b
                           = map Some (base x ++ firstn (S k) (row x))) blocks' xs
    /\ map DataBlocks.numDataCodewords blocks' = map DataBlocks.numDataCodewords blocks.
Proof.
  intros H Hlen.
  destruct (dealRound_push (fun x => map Some (base x ++ firstn k (row x)))
                           (fun x => getAt (row x) k) rest blocks xs H)
    as [blocks' [Hd [HF Hn]]].
  exists blocks'. split; [exact Hd|]. split; [|exact Hn].
  refine (Forall2_Forall_r _ _ _ _ _ _ HF Hlen).
  intros b x Hb Hk. cbv beta in Hb, Hk. rewrite Hb, (firstn_snoc _ k Hk).
  rewrite app_assoc, (map_app Some (base x ++ firstn k (row x))). reflexivity.
Qed.

Lemma shortRounds {X} (base row : X -> list Z) xs rest : forall k k0 blocks,
  Forall2 (fun b x => DataBlocks.codewords b = map Some (base x ++ firstn k0 (row x)))
          blocks xs ->
  Forall (fun x => (k0 + k <= length (row x))%nat) xs ->
  exists blocks',
    fold_left (fun st _ => DataBlocks.dealRound (fst st) (snd st)) (seq k0 k)
              (blocks,
               flat_map (fun i => map (fun x => getAt (row x) i) xs) (seq k0 k) ++ rest)
    = (blocks', rest)
    /\ Forall2 (fun b x => DataBlocks.codewords b
                           = map Some (base x ++ firstn (k0 + k) (row x))) blocks' xs
    /\ map DataBlocks.numDataCodewords blocks' = map DataBlocks.numDataCodewords blocks.
Proof.
  induction k as [|k IH]; intros k0 blocks H Hlen.
  - exists blocks. cbn [seq flat_map fold_left app]. rewrite Nat.add_0_r. auto.
  - cbn [seq flat_map fold_left fst snd]. rewrite <- app_assoc.
    destruct (dealRound_column base row k0
                (flat_map (fun i => map (fun x => getAt (row x) i) xs) (seq (S k0) k) ++ rest)
                blocks xs H) as [blocks1 [Hd [HF Hn]]].
    { eapply Forall_impl; [|exact Hlen]. intros x Hx. cbv beta in *. lia. }
    rewrite Hd.
    destruct (IH (S k0) blocks1 HF) as [blocks' [Hf [HF' Hn']]].
    { eapply Forall_impl; [|exact Hlen]. intros x Hx. cbv beta in *. lia. }
    exists blocks'. split; [exact Hf|]. split.
    + replace (k0 + S k)%nat with (S k0 + k)%nat by lia. exact HF'.
    + rewrite Hn', Hn. reflexivity.
Qed.

Lemma restRounds {X} (base row : X -> list Z) xs :
  xs <> [] ->
  forall k k0 blocks fuel,
  Forall2 (fun b x => DataBlocks.codewords b = map Some (base x ++ firstn k0 (row x)))
          blocks xs ->
  Forall (fun x => (k0 + k <= length (row x))%nat) xs ->
  (k < fuel)%nat ->
  exists blocks',
    DataBlocks.restLoop fuel blocks
       (flat_map (fun i => map (fun x => getAt (row x) i) xs) (seq k0 k))
    = Ok blocks'
    /\ Forall2 (fun b x => DataBlocks.codewords b
                           = map Some (base x ++ firstn (k0 + k) (row x))) blocks' xs
    /\ map DataBlocks.numDataCodewords blocks' = map DataBlocks.numDataCodewords blocks.
Proof.
  intros Hne. induction k as [|k IH]; intros k0 blocks fuel H Hlen Hfuel.
  - exists blocks. cbn [seq flat_map]. rewrite Nat.add_0_r.
    split; [destruct fuel; reflexivity | auto].
  - destruct fuel as [|fuel]; [lia|]. cbn [seq flat_map].
    set (rest := flat_map (fun i => map (fun x => getAt (row x) i) xs) (seq (S k0) k)).
    destruct (dealRound_column base row k0 rest blocks xs H) as [blocks1 [Hd [HF Hn]]].
    { eapply Forall_impl; [|exact Hlen]. intros x Hx. cbv beta in *. lia. }
    assert (E : forall s, s <> [] ->
                DataBlocks.restLoop (S fuel) blocks s
                = let '(d, c) := DataBlocks.dealRound blocks s in
                  DataBlocks.restLoop fuel d c).
    { intros s Hs. destruct s; [congruence | reflexivity]. }
    rewrite E, Hd.
    2:{ destruct xs; [congruence | discriminate]. }
    destruct (IH (S k0) blocks1 fuel HF) as [blocks' [Hf [HF' Hn']]].
    { eapply Forall_impl; [|exact Hlen]. intros x Hx. cbv beta in *. lia. }
    { lia. }
    exists blocks'. split; [exact Hf|]. split.
    + replace (k0 + S k)%nat with (S k0 + k)%nat by lia. exact HF'.
    + rewrite Hn', Hn. reflexivity.
Qed.

Lemma set_at_middle {A} (p : list A) x l v :
  set_at (p ++ x :: l) (length p) v = p ++ v :: l.
Proof. induction p as [|y p IH]; [reflexivity|]. cbn. rewrite IH. reflexivity. Qed.

Lemma nth_error_middle {A} (p : list A) x l : nth_error (p ++ x :: l) (length p) = Some x.
Proof. induction p as [|y p IH]; [reflexivity|]. exact IH. Qed.

(** The blocks after the first [smallBlockCount] take one codeword each. *)
Lemma largeRounds {X} (pre : X -> list (option Z)) (g : X -> Z) rest bA todo xs :
  Forall2 (fun b x => DataBlocks.codewords b = pre x) todo xs ->
  forall done,
  exists todo',
    foldM (DataBlocks.largeStep (Z.of_nat (length bA)))
          (seq (length done) (length todo))
          (bA ++ done ++ todo, map g xs ++ rest)
    = Ok (bA ++ done ++ todo', rest)
    /\ Forall2 (fun b x => DataBlocks.codewords b = pre x ++ [Some (g x)]) todo' xs
    /\ map DataBlocks.numDataCodewords todo' = map DataBlocks.numDataCodewords todo.
Proof.
  intros H. induction H as [|b x todo xs Hbx _ IH]; intros done.
  - exists []. cbn. repeat split; constructor.
  - cbn [length seq foldM map app].
    unfold DataBlocks.largeStep at 1. cbn [fst snd DataBlocks.shift].
    replace (Z.of_nat (length bA) + Z.of_nat (length done) <? 0) with false
      by (symmetry; apply Z.ltb_ge; lia).
    replace (Z.to_nat (Z.of_nat (length bA) + Z.of_nat (length done)))
      with (length (bA ++ done)) by (rewrite length_app; lia).
    rewrite (app_assoc bA done (b :: todo)).
    rewrite nth_error_middle, set_at_middle, bind_Ok.
    destruct (IH (done ++ [DataBlocks.push b (Some (g x))])) as [todo' [Hf [HF Hn]]].
    rewrite length_app in Hf. cbn [length] in Hf.
    replace (length done + 1)%nat with (S (length done)) in Hf by lia.
    rewrite <- !app_assoc in Hf. cbn [app] in Hf.
    rewrite <- app_assoc. rewrite Hf.
    exists (DataBlocks.push b (Some (g x)) :: todo').
    split; [reflexivity|]. split.
    + constructor; [cbn [DataBlocks.push DataBlocks.codewords]; rewrite Hbx; reflexivity
                   | exact HF].
    + cbn [map DataBlocks.push DataBlocks.numDataCodewords]. rewrite Hn. reflexivity.
Qed.

Lemma column_all (rows : list (list Z)) i :
  Forall (fun row => (i < length row)%nat) rows ->
  flat_map (fun row => if (i <? length row)%nat then [getAt row i] else []) rows
  = map (fun row => getAt row i) rows.
Proof.
  induction 1 as [|row rows Hrow _ IH]; [reflexivity|]. cbn [flat_map map].
  destruct (Nat.ltb_spec i (length row)); [|lia]. rewrite IH. reflexivity.
Qed.

Lemma column_none (rows : list (list Z)) i :
  Forall (fun row => (length row <= i)%nat) rows ->
  flat_map (fun row => if (i <? length row)%nat then [getAt row i] else []) rows = [].
Proof.
  induction 1 as [|row rows Hrow _ IH]; [reflexivity|]. cbn [flat_map].
  destruct (Nat.ltb_spec i (length row)); [lia|]. exact IH.
Qed.

Lemma columns_extend (rows : list (list Z)) n j :
  Forall (fun row => (length row <= n)%nat) rows ->
  flat_map (fun i => flat_map (fun row => if (i <? length row)%nat
                                          then [getAt row i] else []) rows)
           (seq 0 (n + j))
  = flat_map (fun i => flat_map (fun row => if (i <? length row)%nat
                                            then [getAt row i] else []) rows)
             (seq 0 n).
Proof.
  intros H. rewrite seq_app, flat_map_app. cbn [Nat.add].
  rewrite (flat_map_none _ (seq n j)); [apply app_nil_r|].
  intros i Hi. apply in_seq in Hi. apply column_none.
  eapply Forall_impl; [|exact H]. intros row Hr. cbv beta in *. lia.
Qed.

(** The interleaved rows are their columns, one after the other. *)
Lemma interleave_columns (rows : list (list Z)) m n :
  Forall (fun row => Z.of_nat (length row) <= m) rows ->
  Forall (fun row => (length row <= n)%nat) rows ->
  QRCodeData.interleave rows m
  = flat_map (fun i => flat_map (fun row => if (i <? length row)%nat
                                            then [getAt row i] else []) rows)
             (seq 0 n).
Proof.
  intros Hm Hn. unfold QRCodeData.interleave, upto.
  assert (Hm' : Forall (fun row => (length row <= Z.to_nat m)%nat) rows).
  { eapply Forall_impl; [|exact Hm]. intros row Hr. cbv beta in *. lia. }
  destruct (le_ge_dec (Z.to_nat m) n) as [Hle|Hge].
  - replace n with (Z.to_nat m + (n - Z.to_nat m))%nat by lia.
    symmetry. apply columns_extend. exact Hm'.
  - replace (Z.to_nat m) with (n + (Z.to_nat m - n))%nat by lia.
    apply columns_extend. exact Hn.
Qed.

Lemma encoder_stream (xsA xsB : list (list Z * list Z)) s e mD mE :
  Forall (fun x => length (fst x) = s /\ length (snd x) = e) xsA ->
  Forall (fun x => length (fst x) = S s /\ length (snd x) = e) xsB ->
  Forall (fun r => Z.of_nat (length r) <= mD) (map fst (xsA ++ xsB)) ->
  Forall (fun r => Z.of_nat (length r) <= mE) (map snd (xsA ++ xsB)) ->
  QRCodeData.interleave (map fst (xsA ++ xsB)) mD
  ++ QRCodeData.interleave (map snd (xsA ++ xsB)) mE
  = flat_map (fun i => map (fun x => getAt (fst x) i) (xsA ++ xsB)) (seq 0 s)
    ++ map (fun x => getAt (fst x) s) xsB
    ++ flat_map (fun i => map (fun x => getAt (snd x) i) (xsA ++ xsB)) (seq 0 e).
Proof.
  intros HA HB HmD HmE.
  assert (HAB : Forall (fun x => (s <= length (fst x) <= S s)%nat /\ length (snd x) = e)
                       (xsA ++ xsB)).
  { apply Forall_app. split; (eapply Forall_impl; [|eassumption]);
      intros x Hx; cbv beta in *; lia. }
  rewrite (interleave_columns _ mD (S s)), (interleave_columns _ mE e); try assumption.
  2:{ apply Forall_map. eapply Forall_impl; [|exact HAB]. intros x Hx. cbv beta in *. lia. }
  2:{ apply Forall_map. eapply Forall_impl; [|exact HAB]. intros x Hx. cbv beta in *. lia. }
  rewrite seq_S, flat_map_app. cbn [Nat.add flat_map]. rewrite app_nil_r, <- app_assoc.
  f_equal; [|f_equal].
  - apply flat_map_ext_In. intros i Hi. apply in_seq in Hi.
    rewrite column_all, map_map; [reflexivity|].
    apply Forall_map. eapply Forall_impl; [|exact HAB]. intros x Hx. cbv beta in *. lia.
  - rewrite map_app, flat_map_app, column_none, column_all, map_map; [reflexivity| |].
    + apply Forall_map. eapply Forall_impl; [|exact HB]. intros x Hx. cbv beta in *. lia.
    + apply Forall_map. eapply Forall_impl; [|exact HA]. intros x Hx. cbv beta in *. lia.
  - apply flat_map_ext_In. intros i Hi. apply in_seq in Hi.
    rewrite column_all, map_map; [reflexivity|].
    apply Forall_map. eapply Forall_impl; [|exact HAB]. intros x Hx. cbv beta in *. lia.
Qed.

Lemma columns_length {X} (f : nat -> X -> Z) xs :
  xs <> [] -> forall k k0, (k <= length (flat_map (fun i => map (f i) xs) (seq k0 k)))%nat.
Proof.
  intros Hne. induction k as [|k IH]; intros k0; [cbn; lia|].
  cbn [seq flat_map]. rewrite length_app, length_map. specialize (IH (S k0)).
  destruct xs; [congruence|]. cbn [length]. lia.
Qed.

Lemma Forall2_map_eq {A B C} (f : A -> C) (g : B -> C) l xs :
  Forall2 (fun b x => f b = g x) l xs -> map f l = map g xs.
Proof. induction 1 as [|b x l xs E _ IH]; [reflexivity|]. cbn [map]. rewrite E, IH. reflexivity. Qed.

(** The three loops of [getDataBlocks] on the codewords of blocks of
    which the first have [s] and the others [s + 1] data codewords. *)
Lemma deal_all (xsA xsB : list (list Z * list Z)) s e blocks0 :
  Forall (fun x => length (fst x) = s /\ length (snd x) = e) xsA ->
  Forall (fun x => length (fst x) = S s /\ length (snd x) = e) xsB ->
  xsA ++ xsB <> [] ->
  Forall2 (fun b (x : list Z * list Z) => DataBlocks.codewords b = []) blocks0 (xsA ++ xsB) ->
  exists st2 blocks,
    foldM (DataBlocks.largeStep (Z.of_nat (length xsA))) (upto (length xsB))
          (fold_left (fun st _ => DataBlocks.dealRound (fst st) (snd st)) (upto s)
             (blocks0,
              flat_map (fun i => map (fun x => getAt (fst x) i) (xsA ++ xsB)) (seq 0 s)
              ++ map (fun x => getAt (fst x) s) xsB
              ++ flat_map (fun i => map (fun x => getAt (snd x) i) (xsA ++ xsB)) (seq 0 e)))
    = Ok st2
    /\ DataBlocks.restLoop (S (length (snd st2))) (fst st2) (snd st2) = Ok blocks
    /\ Forall2 (fun b x => DataBlocks.codewords b = map Some (fst x ++ snd x))
               blocks (xsA ++ xsB)
    /\ map DataBlocks.numDataCodewords blocks = map DataBlocks.numDataCodewords blocks0.
Proof.
  intros HA HB Hne H0.
  assert (HE : Forall (fun x : list Z * list Z => length (snd x) = e) (xsA ++ xsB)).
  { apply Forall_app. split; (eapply Forall_impl; [|eassumption]);
      intros x Hx; cbv beta in *; lia. }
  set (S3 := flat_map (fun i => map (fun x => getAt (snd x) i) (xsA ++ xsB)) (seq 0 e)).
  destruct (shortRounds (fun _ => []) fst (xsA ++ xsB)
              (map (fun x => getAt (fst x) s) xsB ++ S3) s 0%nat blocks0)
    as [blocks1 [H1 [HF1 Hn1]]].
  { eapply Forall2_impl; [|exact H0]. intros b x Hb. cbv beta in *. rewrite Hb. reflexivity. }
  { apply Forall_app. split; (eapply Forall_impl; [|eassumption]);
      intros x Hx; cbv beta in *; lia. }
  unfold upto. rewrite H1. cbn [Nat.add app] in HF1.
  apply Forall2_app_inv_r in HF1. destruct HF1 as [b1A [b1B [HFA [HFB ->]]]].
  destruct (largeRounds (fun x => map Some (firstn s (fst x)))
                        (fun x => getAt (fst x) s) S3 b1A b1B xsB HFB [])
    as [b2B [H2 [HF2 Hn2]]].
  cbn [length app] in H2.
  rewrite (Forall2_length HFA), (Forall2_length HFB) in H2.
  rewrite H2.
  assert (HF3 : Forall2 (fun b x => DataBlocks.codewords b
                                    = map Some (fst x ++ firstn 0 (snd x)))
                        (b1A ++ b2B) (xsA ++ xsB)).
  { apply Forall2_app.
    - refine (Forall2_Forall_r _ _ _ _ _ _ HFA HA). intros b x Hb [Hs _]. cbv beta in *.
      rewrite Hb, firstn_all2 by lia. cbn [firstn]. rewrite app_nil_r. reflexivity.
    - refine (Forall2_Forall_r _ _ _ _ _ _ HF2 HB). intros b x Hb [Hs _]. cbv beta in *.
      rewrite Hb. cbn [firstn]. rewrite app_nil_r.
      rewrite <- (firstn_all (fst x)) at 3. rewrite Hs, firstn_snoc by lia.
      rewrite map_app. reflexivity. }
  destruct (restRounds fst snd (xsA ++ xsB) Hne e 0%nat (b1A ++ b2B) (S (length S3)) HF3)
    as [blocks [H3 [HF4 Hn3]]].
  { apply Forall_app. split; (eapply Forall_impl; [|eassumption]);
      intros x Hx; cbv beta in *; lia. }
  { assert (Hlen3 : (e <= length S3)%nat)
      by exact (columns_length (fun i x => getAt (snd x) i) (xsA ++ xsB) Hne e 0%nat).
    lia. }
  exists (b1A ++ b2B, S3), blocks. cbn [fst snd].
  split; [reflexivity|]. split; [exact H3|]. split.
  - refine (Forall2_Forall_r _ _ _ _ _ _ HF4 HE).
    intros b x Hb Hx. cbv beta in *. rewrite Hb. cbn [Nat.add].
    rewrite firstn_all2 by lia. reflexivity.
  - rewrite Hn3, !map_app, Hn2, <- map_app, Hn1. reflexivity.
Qed.

Lemma rsBlocks_eqb_eq : forall l l', rsBlocks_eqb l l' = true -> l = l'.
Proof.
  induction l as [|a l IH]; intros [|b l'] H; try discriminate; [reflexivity|].
  cbn [rsBlocks_eqb] in H. apply andb_true_iff in H. destruct H as [Hab Hl].
  unfold rsBlock_eqb in Hab. apply andb_true_iff in Hab. destruct Hab as [Ht Hd].
  apply Z.eqb_eq in Ht. apply Z.eqb_eq in Hd.
  destruct a, b. cbn in Ht, Hd. subst. f_equal. apply IH. exact Hl.
Qed.

Lemma newBlocks_group (dcpb ecpb : Z) : forall n a d t,
  fold_left (fun (st : list DataBlocks.DataBlock * Z) (_ : nat) =>
               (fst st ++ [DataBlocks.mkDataBlock dcpb []], snd st + (dcpb + ecpb)))
            (seq a n) (d, t)
  = (d ++ map (fun blk => DataBlocks.mkDataBlock (RSBlock.dataCount blk) [])
              (repeat (RSBlock.mkRSBlock (dcpb + ecpb) dcpb) n),
     fold_left (fun acc blk => acc + RSBlock.totalCount blk)
               (repeat (RSBlock.mkRSBlock (dcpb + ecpb) dcpb) n) t).
Proof.
  induction n as [|n IH]; intros a d t.
  - cbn. rewrite app_nil_r. reflexivity.
  - cbn [seq fold_left fst snd repeat map]. rewrite IH.
    cbn [RSBlock.dataCount RSBlock.totalCount]. rewrite <- app_assoc. reflexivity.
Qed.

Lemma newBlocks_groups (ecpb : Z) : forall groups d t,
  fold_left (fun st block =>
               fold_left (fun (st : list DataBlocks.DataBlock * Z) (_ : nat) =>
                            (fst st ++ [DataBlocks.mkDataBlock
                                          (Version.dataCodewordsPerBlock block) []],
                             snd st + (Version.dataCodewordsPerBlock block + ecpb)))
                         (upto (Z.to_nat (Version.numBlocks block))) st)
            groups (d, t)
  = (d ++ map (fun blk => DataBlocks.mkDataBlock (RSBlock.dataCount blk) [])
              (flat_map (fun g =>
                           repeat (RSBlock.mkRSBlock (Version.dataCodewordsPerBlock g + ecpb)
                                                     (Version.dataCodewordsPerBlock g))
                                  (Z.to_nat (Version.numBlocks g))) groups),
     fold_left (fun acc blk => acc + RSBlock.totalCount blk)
               (flat_map (fun g =>
                            repeat (RSBlock.mkRSBlock (Version.dataCodewordsPerBlock g + ecpb)
                                                      (Version.dataCodewordsPerBlock g))
                                   (Z.to_nat (Version.numBlocks g))) groups) t).
Proof.
  induction groups as [|g groups IH]; intros d t.
  - cbn. rewrite app_nil_r. reflexivity.
  - cbn [fold_left flat_map]. unfold upto. rewrite newBlocks_group, IH.
    rewrite map_app, fold_left_app, <- app_assoc. reflexivity.
Qed.

Lemma newBlocks_expand ecInfo :
  DataBlocks.newBlocks ecInfo
  = (map (fun blk => DataBlocks.mkDataBlock (RSBlock.dataCount blk) []) (expand ecInfo),
     totalCodewords (expand ecInfo)).
Proof.
  unfold DataBlocks.newBlocks, expand, totalCodewords.
  rewrite (newBlocks_groups (Version.ecCodewordsPerBlock ecInfo)). reflexivity.
Qed.

Lemma map_fst_combine {A B} : forall (l : list A) (l' : list B),
  length l = length l' -> map fst (combine l l') = l.
Proof.
  induction l as [|a l IH]; intros [|b l'] H; try discriminate; [reflexivity|].
  cbn. f_equal. apply IH. cbn in H. lia.
Qed.

Lemma map_snd_combine {A B} : forall (l : list A) (l' : list B),
  length l = length l' -> map snd (combine l l') = l'.
Proof.
  induction l as [|a l IH]; intros [|b l'] H; try discriminate; [reflexivity|].
  cbn. f_equal. apply IH. cbn in H. lia.
Qed.

(** What [createBytes] stores, for a version of the table. *)
Lemma createBytes_stored version ecl buffer :
  1 <= version <= 40 ->
  exists rsBlocks st,
    RSBlock.getRSBlocks version ecl = Ok rsBlocks
    /\ rsBlocks <> []
    /\ QRCodeData.encodeBlocks (BitBuffer.getBuffer buffer) rsBlocks = Ok st
    /\ QRCodeData.createBytes buffer rsBlocks
       = Ok (QRCodeData.interleave (QRCodeData.dcData st) (QRCodeData.maxDcCount st)
             ++ QRCodeData.interleave (QRCodeData.ecData st) (QRCodeData.maxEcCount st))
    /\ Forall (fun dc => Z.of_nat (length dc) <= QRCodeData.maxDcCount st)
              (QRCodeData.dcData st)
    /\ Forall (fun ec => Z.of_nat (length ec) <= QRCodeData.maxEcCount st)
              (QRCodeData.ecData st)
    /\ Z.of_nat (length (QRCodeData.interleave (QRCodeData.dcData st)
                                               (QRCodeData.maxDcCount st)
                         ++ QRCodeData.interleave (QRCodeData.ecData st)
                                                  (QRCodeData.maxEcCount st)))
       = totalCodewords rsBlocks
    /\ length (QRCodeData.dcData st) = length (QRCodeData.ecData st)
    /\ Forall2 codeword_block rsBlocks
               (combine (QRCodeData.dcData st) (QRCodeData.ecData st)).
Proof.
  intros Hv. destruct (getRSBlocks_ok version ecl Hv) as [blocks [Hb [Hne Hsizes]]].
  assert (H0 : blocks_state (BitBuffer.getBuffer buffer) (QRCodeData.mkBlocks 0 0 0 0 [] [])).
  { unfold blocks_state. cbn. repeat split; try constructor; lia. }
  destruct (encodeBlocks_state (BitBuffer.getBuffer buffer) blocks _ Hsizes H0)
    as [st [Hfold [Hstate [_ Htot]]]].
  destruct (encodeBlocks_correct (BitBuffer.getBuffer buffer) blocks
              (QRCodeData.mkBlocks 0 0 0 0 [] []) Hsizes)
    as [st' [dcs [ecs [Hst [Hdc [Hec [Hlen HF]]]]]]].
  rewrite Hfold in Hst. injection Hst as <-.
  cbn [QRCodeData.dcData QRCodeData.ecData app] in Hdc, Hec. subst dcs ecs.
  cbn [QRCodeData.maxTotalCount] in Htot.
  destruct Hstate as [_ [_ [Hmaxd [Hmaxe [Hsum _]]]]].
  pose proof (Permutation_length (interleave_Permutation _ _ Hmaxd)) as Ld.
  pose proof (Permutation_length (interleave_Permutation _ _ Hmaxe)) as Le.
  exists blocks, st. unfold QRCodeData.createBytes, QRCodeData.encodeBlocks.
  rewrite Hfold, bind_Ok.
  replace (Z.to_nat (QRCodeData.maxTotalCount st)
           - length (QRCodeData.interleave (QRCodeData.dcData st) (QRCodeData.maxDcCount st)
                     ++ QRCodeData.interleave (QRCodeData.ecData st)
                                              (QRCodeData.maxEcCount st)))%nat
    with 0%nat by (rewrite length_app; lia).
  cbn [repeat]. rewrite app_nil_r.
  repeat split; try assumption; try reflexivity.
  rewrite length_app. unfold totalCodewords. lia.
Qed.

Lemma empty_blocks (rsBlocks : list RSBlock.RSBlock) : forall (xs : list (list Z * list Z)),
  length rsBlocks = length xs ->
  Forall2 (fun b (_ : list Z * list Z) => DataBlocks.codewords b = [])
          (map (fun blk => DataBlocks.mkDataBlock (RSBlock.dataCount blk) []) rsBlocks) xs.
Proof.
  induction rsBlocks as [|blk l IH]; intros [|x xs] H; try discriminate; [constructor|].
  cbn [map]. constructor; [reflexivity | apply IH; cbn in H; lia].
Qed.

Lemma codeword_block_lengths blk s e (xs : list (list Z * list Z)) :
  RSBlock.dataCount blk = Z.of_nat s -> RSBlock.totalCount blk - RSBlock.dataCount blk = Z.of_nat e ->
  Forall (codeword_block blk) xs ->
  Forall (fun x => length (fst x) = s /\ length (snd x) = e) xs.
Proof.
  intros Hs He H. eapply Forall_impl; [|exact H].
  intros [dc ec] [Hd [Hc _]]. cbn [fst snd]. lia.
Qed.

(** The blocks of an entry of the table are [numBlocks] of one size and
    then, when there is a second group, blocks with one more data
    codeword. *)
Lemma groups_split ecInfo (xs : list (list Z * list Z)) :
  groups_ok (Version.ecBlocks ecInfo) = true ->
  0 <= Version.ecCodewordsPerBlock ecInfo ->
  Forall2 codeword_block (expand ecInfo) xs ->
  exists g0 tail xsA xsB,
    Version.ecBlocks ecInfo = g0 :: tail
    /\ xs = xsA ++ xsB
    /\ 0 <= Version.dataCodewordsPerBlock g0
    /\ Forall (fun x => length (fst x) = Z.to_nat (Version.dataCodewordsPerBlock g0)
                        /\ length (snd x) = Z.to_nat (Version.ecCodewordsPerBlock ecInfo)) xsA
    /\ Forall (fun x => length (fst x) = S (Z.to_nat (Version.dataCodewordsPerBlock g0))
                        /\ length (snd x) = Z.to_nat (Version.ecCodewordsPerBlock ecInfo)) xsB
    /\ match tail with
       | [] => xsB = []
       | g1 :: _ => Version.numBlocks g0 = Z.of_nat (length xsA)
                    /\ Z.to_nat (Version.numBlocks g1) = length xsB
       end.
Proof.
  intros Hg He HF. unfold expand in HF.
  destruct (Version.ecBlocks ecInfo) as [|g0 [|g1 [|g2 tail]]]; cbn [groups_ok] in Hg;
    try discriminate.
  - apply andb_true_iff in Hg. destruct Hg as [Hs Ha]. apply Z.leb_le in Hs, Ha.
    cbn [flat_map] in HF. rewrite app_nil_r in HF.
    apply Forall2_repeat_l in HF. destruct HF as [HA _].
    exists g0, [], xs, []. rewrite app_nil_r.
    repeat split; try assumption; try constructor.
    eapply codeword_block_lengths; [| |exact HA]; cbn; lia.
  - rewrite !andb_true_iff in Hg. destruct Hg as [[[Hs Ha] Hb] H1].
    apply Z.leb_le in Hs, Ha, Hb. apply Z.eqb_eq in H1.
    cbn [flat_map] in HF. rewrite app_nil_r in HF.
    apply Forall2_app_inv_l in HF. destruct HF as [xsA [xsB [HA [HB ->]]]].
    apply Forall2_repeat_l in HA, HB. destruct HA as [HA LA]. destruct HB as [HB LB].
    exists g0, [g1], xsA, xsB.
    split; [reflexivity|]. split; [reflexivity|]. split; [exact Hs|].
    split; [|split; [|split; lia]].
    + eapply codeword_block_lengths; [| |exact HA]; cbn; lia.
    + eapply codeword_block_lengths; [| |exact HB]; cbn; lia.
Qed.

(** X22.  For a version from 1 to 40, any level and any buffer,
    [getDataBlocks], given the codewords of [createBytes] (and whatever
    follows them), the entry of the decoder's table for the version and
    the place of the level, returns the blocks of the encoder in their
    order: each holds the data codewords of a block followed by its
    error-correction codewords, and the number of its data codewords.
    Given fewer codewords it returns null. *)
Theorem getDataBlocks_undoes_createBytes
        (version : Z) (ecl : ErrorCorrectLevel) (buffer : BitBuffer.BitBuffer)
        (extra : list Z) :
  1 <= version <= 40 ->
  exists rsBlocks st data v blocks,
    RSBlock.getRSBlocks version ecl = Ok rsBlocks
    /\ QRCodeData.encodeBlocks (BitBuffer.getBuffer buffer) rsBlocks = Ok st
    /\ QRCodeData.createBytes buffer rsBlocks = Ok data
    /\ nth_error Version.VERSIONS (Z.to_nat (version - 1)) = Some v
    /\ Version.versionNumber v = version
    /\ DataBlocks.getDataBlocks (data ++ extra) v (ecl_index ecl) = Ok (Some blocks)
    /\ map DataBlocks.codewords blocks
       = map (fun dc_ec => map Some (fst dc_ec ++ snd dc_ec))
             (combine (QRCodeData.dcData st) (QRCodeData.ecData st))
    /\ map DataBlocks.numDataCodewords blocks = map RSBlock.dataCount rsBlocks
    /\ (forall fewer, (length fewer < length data)%nat ->
        DataBlocks.getDataBlocks fewer v (ecl_index ecl) = Ok None).
Proof.
  intros Hv.
  destruct (createBytes_stored version ecl buffer Hv)
    as [rsBlocks [st [Hb [Hne [Hst [Hdata [HmD [HmE [Hlen [Hl2 HF]]]]]]]]]].
  pose proof version_table_checked as Hchk. rewrite forallb_forall in Hchk.
  specialize (Hchk version ltac:(apply in_zrange; lia)).
  unfold version_table_check in Hchk.
  destruct (nth_error Version.VERSIONS (Z.to_nat (version - 1))) as [v|] eqn:Ev;
    [|discriminate].
  apply andb_true_iff in Hchk. destruct Hchk as [Hnum Hall]. apply Z.eqb_eq in Hnum.
  rewrite forallb_forall in Hall. specialize (Hall ecl ltac:(destruct ecl; cbn; auto)).
  destruct (nth_error (Version.errorCorrectionLevels v) (Z.to_nat (ecl_index ecl)))
    as [ecInfo|] eqn:Ei; [|discriminate].
  rewrite Hb in Hall. rewrite !andb_true_iff in Hall. destruct Hall as [[Heq Hg] He].
  apply rsBlocks_eqb_eq in Heq. apply Z.leb_le in He.
  assert (Hidx : (ecl_index ecl <? 0) = false) by (destruct ecl; reflexivity).
  set (data := QRCodeData.interleave (QRCodeData.dcData st) (QRCodeData.maxDcCount st)
               ++ QRCodeData.interleave (QRCodeData.ecData st) (QRCodeData.maxEcCount st))
    in *.
  rewrite Heq in HF.
  destruct (groups_split ecInfo _ Hg He HF)
    as [g0 [tail [xsA [xsB [Eg [Exs [Hs [HA [HB Htail]]]]]]]]].
  assert (Hstream :
    data = flat_map (fun i => map (fun x => getAt (fst x) i) (xsA ++ xsB))
                    (seq 0 (Z.to_nat (Version.dataCodewordsPerBlock g0)))
           ++ map (fun x => getAt (fst x) (Z.to_nat (Version.dataCodewordsPerBlock g0))) xsB
           ++ flat_map (fun i => map (fun x => getAt (snd x) i) (xsA ++ xsB))
                       (seq 0 (Z.to_nat (Version.ecCodewordsPerBlock ecInfo)))).
  { unfold data. rewrite <- (encoder_stream xsA xsB _ _ (QRCodeData.maxDcCount st)
                                 (QRCodeData.maxEcCount st) HA HB).
    - rewrite <- Exs, map_fst_combine, map_snd_combine by exact Hl2. reflexivity.
    - rewrite <- Exs, map_fst_combine by exact Hl2. exact HmD.
    - rewrite <- Exs, map_snd_combine by exact Hl2. exact HmE. }
  assert (Hxs : xsA ++ xsB <> []).
  { rewrite <- Exs. intros E. apply (f_equal (@length _)) in E.
    rewrite <- (Forall2_length HF), <- Heq in E. destruct rsBlocks; [congruence|discriminate]. }
  destruct (deal_all xsA xsB _ _
              (map (fun blk => DataBlocks.mkDataBlock (RSBlock.dataCount blk) []) rsBlocks)
              HA HB Hxs)
    as [st2 [blocks [H2 [H3 [HF3 Hn3]]]]].
  { apply empty_blocks. rewrite <- Exs, Heq. exact (Forall2_length HF). }
  rewrite <- Hstream in H2.
  exists rsBlocks, st, data, v, blocks.
  split; [exact Hb|]. split; [exact Hst|]. split; [exact Hdata|].
  split; [reflexivity|]. split; [exact Hnum|].
  split; [|split; [|split]].
  - unfold DataBlocks.getDataBlocks. rewrite Hidx, Ei, newBlocks_expand, <- Heq.
    cbv beta iota zeta.
    replace (Z.of_nat (length (data ++ extra)) <? totalCodewords rsBlocks) with false
      by (symmetry; apply Z.ltb_ge; rewrite length_app; lia).
    replace (DataBlocks.slice0 (data ++ extra) (totalCodewords rsBlocks)) with data.
    2:{ unfold DataBlocks.slice0.
        replace (totalCodewords rsBlocks <? 0) with false by (symmetry; apply Z.ltb_ge; lia).
        rewrite <- Hlen, Nat2Z.id, firstn_app, firstn_all, Nat.sub_diag. cbn [firstn].
        rewrite app_nil_r. reflexivity. }
    rewrite Eg.
    assert (Hmid : forall st1,
      match tail with
      | [] => Ok st1
      | second :: _ =>
          foldM (DataBlocks.largeStep (Version.numBlocks g0))
                (upto (Z.to_nat (Version.numBlocks second))) st1
      end
      = foldM (DataBlocks.largeStep (Z.of_nat (length xsA))) (upto (length xsB)) st1).
    { intros st1. destruct tail as [|g1 tail'].
      - subst xsB. reflexivity.
      - destruct Htail as [-> ->]. reflexivity. }
    rewrite Hmid, H2, bind_Ok, H3, bind_Ok. reflexivity.
  - rewrite Exs. apply Forall2_map_eq. exact HF3.
  - rewrite Hn3, map_map. reflexivity.
  - intros fewer Hfewer.
    unfold DataBlocks.getDataBlocks. rewrite Hidx, Ei, newBlocks_expand, <- Heq.
    cbv beta iota zeta.
    replace (Z.of_nat (length fewer) <? totalCodewords rsBlocks) with true
      by (symmetry; apply Z.ltb_lt; lia).
    reflexivity.
Qed.

Lemma getDataBlocks_undoes_createBytes_witness :
  exists rsBlocks st data v blocks,
    RSBlock.getRSBlocks 5 Q = Ok rsBlocks
    /\ QRCodeData.encodeBlocks (BitBuffer.getBuffer (BitBuffer.mkBitBuffer 16 [7; 9]))
                               rsBlocks = Ok st
    /\ QRCodeData.createBytes (BitBuffer.mkBitBuffer 16 [7; 9]) rsBlocks = Ok data
    /\ nth_error Version.VERSIONS (Z.to_nat (5 - 1)) = Some v
    /\ Version.versionNumber v = 5
    /\ DataBlocks.getDataBlocks (data ++ [1; 2]) v (ecl_index Q) = Ok (Some blocks)
    /\ map DataBlocks.codewords blocks
       = map (fun dc_ec => map Some (fst dc_ec ++ snd dc_ec))
             (combine (QRCodeData.dcData st) (QRCodeData.ecData st))
    /\ map DataBlocks.numDataCodewords blocks = map RSBlock.dataCount rsBlocks
    /\ (forall fewer, (length fewer < length data)%nat ->
        DataBlocks.getDataBlocks fewer v (ecl_index Q) = Ok None).
Proof.
  apply (getDataBlocks_undoes_createBytes 5 Q (BitBuffer.mkBitBuffer 16 [7; 9]) [1; 2]). lia.
Defined.

Lemma version_info_checked : forallb version_info_check (zrange 7 34) = true.
Proof. vm_compute. reflexivity. Qed.

Lemma small_version_checked : forallb small_version_check (zrange 1 6) = true.
Proof. vm_compute. reflexivity. Qed.

Lemma pop_pos p : 1 <= pop p.
Proof. induction p; cbn [pop]; lia. Qed.

Lemma popZ_double n : popZ (Z.of_N (N.double n)) = popZ (Z.of_N n).
Proof. destruct n; reflexivity. Qed.

Lemma land_below k a b :
  0 <= k -> 0 <= a < 2 ^ k -> 0 <= b -> 0 <= Z.land a b < 2 ^ k.
Proof.
  intros Hk Ha Hb.
  assert (Hnn : 0 <= Z.land a b) by (apply Z.land_nonneg; left; lia).
  split; [exact Hnn|].
  destruct (Z.eq_dec (Z.land a b) 0) as [E|Hnz]; [rewrite E; lia|].
  apply Z.log2_lt_pow2; [lia|].
  pose proof (Z.log2_land a b ltac:(lia) Hb) as Hl.
  destruct (Z.eq_dec a 0) as [->|Ha0]; [rewrite Z.land_0_l in Hnz; lia|].
  assert (Z.log2 a < k) by (apply Z.log2_lt_pow2; lia). lia.
Qed.

(** [z & (z - 1)] has one bit less than [z]. *)
Lemma land_pred_pop p : popZ (Z.land (Zpos p) (Zpos p - 1)) = pop p - 1.
Proof.
  induction p as [q IH|q IH|].
  - change (Zpos q~1 - 1) with (Zpos q~0).
    change (Z.land (Zpos q~1) (Zpos q~0)) with (Z.of_N (N.double (Pos.land q q))).
    rewrite popZ_double.
    change (Z.of_N (Pos.land q q)) with (Z.land (Zpos q) (Zpos q)).
    rewrite Z.land_diag. cbn [popZ pop]. lia.
  - destruct (Pos.eq_dec q 1) as [->|Hq]; [reflexivity|].
    assert (E : Zpos q~0 - 1 = Zpos (Pos.pred q)~1).
    { rewrite Pos2Z.inj_xO, Pos2Z.inj_xI, Pos2Z.inj_pred by exact Hq. lia. }
    rewrite E.
    change (Z.land (Zpos q~0) (Zpos (Pos.pred q)~1))
      with (Z.of_N (N.double (Pos.land q (Pos.pred q)))).
    rewrite popZ_double.
    assert (E' : Zpos q - 1 = Zpos (Pos.pred q)) by (rewrite Pos2Z.inj_pred by exact Hq; lia).
    rewrite E' in IH. change (Z.land (Zpos q) (Zpos (Pos.pred q)))
      with (Z.of_N (Pos.land q (Pos.pred q))) in IH.
    rewrite IH. reflexivity.
  - reflexivity.
Qed.

Lemma clearBits_popZ : forall fuel z c,
  0 <= z < 2 ^ 31 -> popZ z <= Z.of_nat fuel ->
  FormatInfo.clearBits fuel z c = c + popZ z.
Proof.
  induction fuel as [|fuel IH]; intros z c Hz Hp.
  - destruct z as [|p|p]; [cbn; lia | | lia].
    pose proof (pop_pos p). cbn [popZ] in Hp. cbn [Z.of_nat] in Hp. lia.
  - cbn [FormatInfo.clearBits]. destruct z as [|p|p]; [cbn; lia | | lia].
    change (Zpos p =? 0) with false. cbv iota.
    rewrite int32_small by lia.
    pose proof (land_pred_pop p) as Hpop.
    pose proof (land_below 31 (Zpos p) (Zpos p - 1) ltac:(lia) Hz ltac:(lia)) as Hb.
    rewrite IH; [rewrite Hpop; cbn [popZ]; lia | exact Hb |].
    rewrite Hpop. cbn [popZ] in Hp. lia.
Qed.

Lemma popbits_zero k : popbits k 0 = 0.
Proof. induction k as [|k IH]; [reflexivity|]. cbn [popbits]. rewrite Z.testbit_0_l, IH. reflexivity. Qed.

Lemma popbits_low : forall k z,
  popbits (S k) z = (if Z.testbit z 0 then 1 else 0) + popbits k (Z.div2 z).
Proof.
  induction k as [|k IH]; intros z.
  - cbn [popbits Z.of_nat]. lia.
  - change (popbits (S (S k)) z)
      with ((if Z.testbit z (Z.of_nat (S k)) then 1 else 0) + popbits (S k) z).
    rewrite IH.
    change (popbits (S k) (Z.div2 z))
      with ((if Z.testbit (Z.div2 z) (Z.of_nat k) then 1 else 0) + popbits k (Z.div2 z)).
    rewrite Z.div2_spec, Z.shiftr_spec by lia.
    replace (Z.of_nat k + 1) with (Z.of_nat (S k)) by lia. lia.
Qed.

Lemma popbits_pop : forall p k, Zpos p < 2 ^ Z.of_nat k -> popbits k (Zpos p) = pop p.
Proof.
  induction p as [q IH|q IH|]; intros k Hk.
  - destruct k as [|k]; [cbn in Hk; lia|].
    rewrite popbits_low. change (Z.testbit (Zpos q~1) 0) with true.
    change (Z.div2 (Zpos q~1)) with (Zpos q). cbn [pop].
    rewrite IH; [reflexivity|].
    rewrite Nat2Z.inj_succ, Z.pow_succ_r in Hk by lia. lia.
  - destruct k as [|k]; [cbn in Hk; lia|].
    rewrite popbits_low. change (Z.testbit (Zpos q~0) 0) with false.
    change (Z.div2 (Zpos q~0)) with (Zpos q). cbn [pop].
    rewrite IH; [reflexivity|].
    rewrite Nat2Z.inj_succ, Z.pow_succ_r in Hk by lia. lia.
  - destruct k as [|k]; [cbn in Hk; lia|].
    rewrite popbits_low. change (Z.testbit 1 0) with true.
    change (Z.div2 1) with 0. rewrite popbits_zero. reflexivity.
Qed.

Lemma popbits_le k z : 0 <= popbits k z <= Z.of_nat k.
Proof.
  induction k as [|k IH]; [cbn; lia|]. cbn [popbits].
  destruct (Z.testbit z (Z.of_nat k)); lia.
Qed.

Lemma lxor_below k x y :
  0 <= k -> 0 <= x < 2 ^ k -> 0 <= y < 2 ^ k -> 0 <= Z.lxor x y < 2 ^ k.
Proof.
  intros Hk Hx Hy.
  assert (Hnn : 0 <= Z.lxor x y) by (apply Z.lxor_nonneg; split; lia).
  split; [exact Hnn|].
  destruct (Z.eq_dec (Z.lxor x y) 0) as [E|Hnz]; [rewrite E; lia|].
  apply Z.log2_lt_pow2; [lia|].
  pose proof (Z.log2_lxor x y ltac:(lia) ltac:(lia)) as Hl.
  assert (Hlx : Z.log2 x < k \/ x = 0).
  { destruct (Z.eq_dec x 0) as [E|]; [right; exact E|]. left. apply Z.log2_lt_pow2; lia. }
  assert (Hly : Z.log2 y < k \/ y = 0).
  { destruct (Z.eq_dec y 0) as [E|]; [right; exact E|]. left. apply Z.log2_lt_pow2; lia. }
  destruct Hlx as [Hlx| ->], Hly as [Hly| ->].
  - lia.
  - rewrite Z.lxor_0_r in *. lia.
  - rewrite Z.lxor_0_l in *. lia.
  - rewrite Z.lxor_0_l in Hnz. lia.
Qed.

(** [numBitsDiffering] on two words of 18 bits counts the bits in which
    they differ. *)
Lemma numBitsDiffering_popbits18 x y :
  0 <= x < 2 ^ 18 -> 0 <= y < 2 ^ 18 ->
  FormatInfo.numBitsDiffering x y = popbits 18 (Z.lxor x y).
Proof.
  intros Hx Hy. unfold FormatInfo.numBitsDiffering.
  pose proof (lxor_below 18 x y ltac:(lia) Hx Hy) as Hb.
  assert (E : popZ (Z.lxor x y) = popbits 18 (Z.lxor x y)).
  { destruct (Z.lxor x y) as [|p|p]; [rewrite popbits_zero; reflexivity | | lia].
    symmetry. apply popbits_pop. change (Z.of_nat 18) with 18. lia. }
  rewrite clearBits_popZ; [lia | lia |].
  rewrite E. pose proof (popbits_le 18 (Z.lxor x y)). lia.
Qed.

Lemma numBitsDiffering_triangle18 x y z :
  0 <= x < 2 ^ 18 -> 0 <= y < 2 ^ 18 -> 0 <= z < 2 ^ 18 ->
  FormatInfo.numBitsDiffering x z
  <= FormatInfo.numBitsDiffering y x + FormatInfo.numBitsDiffering y z.
Proof.
  intros Hx Hy Hz. rewrite !numBitsDiffering_popbits18 by assumption.
  rewrite (popbits_sym 18 y x). apply popbits_triangle.
Qed.

Lemma versionBits_bound (bit : Z -> Z -> bool) (inner : list Z) :
  length inner = 3%nat ->
  forall outer k v, 0 <= v < 2 ^ Z.of_nat k -> (k + 3 * length outer <= 30)%nat ->
  0 <= fold_left (fun bits y =>
                    fold_left (fun bits x => FormatInfo.pushBit (bit x y) bits) inner bits)
                 outer v
    < 2 ^ Z.of_nat (k + 3 * length outer).
Proof.
  intros Hin. induction outer as [|y outer IH]; intros k v Hv Hk.
  - cbn [fold_left length]. rewrite Nat.mul_0_r, Nat.add_0_r. exact Hv.
  - cbn [fold_left length] in *.
    pose proof (pushBit_all_bound (fun x => bit x y) inner k v Hv ltac:(lia)) as H1.
    rewrite Hin in H1.
    replace (k + 3 * S (length outer))%nat with ((k + 3) + 3 * length outer)%nat by lia.
    apply IH; [exact H1 | lia].
Qed.

Lemma topRightVersionBits_bound matrix :
  0 <= VersionInfo.topRightVersionBits matrix < 2 ^ 18.
Proof.
  unfold VersionInfo.topRightVersionBits.
  exact (versionBits_bound (fun x y => FormatInfo.get matrix x y)
           (rev (zrange (FormatInfo.height matrix - 11) 3)) eq_refl
           (rev (zrange 0 6)) 0 0 ltac:(cbn; lia) ltac:(cbn; lia)).
Qed.

Lemma bottomLeftVersionBits_bound matrix :
  0 <= VersionInfo.bottomLeftVersionBits matrix < 2 ^ 18.
Proof.
  unfold VersionInfo.bottomLeftVersionBits.
  exact (versionBits_bound (fun y x => FormatInfo.get matrix x y)
           (rev (zrange (FormatInfo.height matrix - 11) 3)) eq_refl
           (rev (zrange 0 6)) 0 0 ltac:(cbn; lia) ltac:(cbn; lia)).
Qed.

Lemma differing_Some A b :
  VersionInfo.differing A (Some b) = FormatInfo.numBitsDiffering A b.
Proof. reflexivity. Qed.

Lemma sameBits_far A infoBits :
  3 < VersionInfo.differing A infoBits -> VersionInfo.sameBits infoBits A = false.
Proof.
  intros H. destruct infoBits as [b|]; [|reflexivity].
  cbn [VersionInfo.sameBits].
  destruct (Z.eqb_spec b A) as [E|]; [|reflexivity].
  exfalso. subst b. rewrite differing_Some, numBitsDiffering_same in H. lia.
Qed.

(** After an entry within 3 bits, entries further away change nothing. *)
Lemma matchVersion_kept A B t : forall post d,
  d <= 3 ->
  Forall (fun e => 3 < VersionInfo.differing A (Version.infoBits e)
                   /\ 3 < VersionInfo.differing B (Version.infoBits e)) post ->
  VersionInfo.matchVersion post A B (Some d) (Some t) = Some t.
Proof.
  induction post as [|e post IH]; intros d Hd Hfar.
  - cbn [VersionInfo.matchVersion]. destruct (Z.leb_spec d 3); [reflexivity | lia].
  - inversion Hfar as [|? ? [HA HB] Hrest]; subst.
    cbn [VersionInfo.matchVersion].
    rewrite (sameBits_far A _ HA), (sameBits_far B _ HB). cbn [orb]. cbv zeta.
    destruct (Z.ltb_spec (VersionInfo.differing A (Version.infoBits e)) d); [lia|].
    destruct (Z.ltb_spec (VersionInfo.differing B (Version.infoBits e)) d); [lia|].
    apply IH; assumption.
Qed.

Lemma matchVersion_finds A B t post : forall pre best bestVersion,
  VersionInfo.differing A (Version.infoBits t) <= 3 ->
  VersionInfo.differing B (Version.infoBits t) <= 3 ->
  Forall (fun e => 3 < VersionInfo.differing A (Version.infoBits e)
                   /\ 3 < VersionInfo.differing B (Version.infoBits e)) pre ->
  Forall (fun e => 3 < VersionInfo.differing A (Version.infoBits e)
                   /\ 3 < VersionInfo.differing B (Version.infoBits e)) post ->
  (best = None \/ exists d, best = Some d /\ 3 < d) ->
  VersionInfo.matchVersion (pre ++ t :: post) A B best bestVersion = Some t.
Proof.
  induction pre as [|e pre IH]; intros best bestVersion HtA HtB Hpre Hpost Hbest.
  - cbn [app VersionInfo.matchVersion].
    destruct (VersionInfo.sameBits (Version.infoBits t) A
              || VersionInfo.sameBits (Version.infoBits t) B); [reflexivity|].
    cbv zeta.
    assert (Hb1 : (match best with
                   | Some b => VersionInfo.differing A (Version.infoBits t) <? b
                   | None => true
                   end) = true).
    { destruct Hbest as [->|[d [-> Hd]]]; [reflexivity|]. apply Z.ltb_lt. lia. }
    rewrite Hb1.
    destruct (Z.ltb_spec (VersionInfo.differing B (Version.infoBits t))
                         (VersionInfo.differing A (Version.infoBits t)));
      apply matchVersion_kept; assumption.
  - inversion Hpre as [|? ? [HA HB] Hrest]; subst.
    cbn [app VersionInfo.matchVersion].
    rewrite (sameBits_far A _ HA), (sameBits_far B _ HB). cbn [orb]. cbv zeta.
    destruct (match best with
              | Some b => VersionInfo.differing A (Version.infoBits e) <? b
              | None => true
              end).
    + destruct (Z.ltb_spec (VersionInfo.differing B (Version.infoBits e))
                           (VersionInfo.differing A (Version.infoBits e)));
        (apply IH; [assumption | assumption | assumption | assumption |];
         right; eexists; split; [reflexivity | lia]).
    + destruct Hbest as [->|[d [-> Hd]]].
      * apply IH; try assumption. right. eexists. split; [reflexivity|]. exact HB.
      * destruct (Z.ltb_spec (VersionInfo.differing B (Version.infoBits e)) d);
          (apply IH; [assumption | assumption | assumption | assumption |];
           right; eexists; split; [reflexivity | lia]).
Qed.

(** X23.  For a matrix of the height of one of the versions 1 to 6,
    [readVersion] returns the entry of that version.  For a matrix of a
    greater height it returns the entry of the version from 7 to 40 whose
    word, as the encoder's [getBCHVersion] computes it, differs in at most
    3 bits from each of the two words read from the matrix. *)
Theorem readVersion_corrects_three_errors
        (matrix : FormatInfo.BitMatrix) (version : Z) :
  (1 <= version <= 6 /\ (FormatInfo.height matrix - 17) / 4 = version)
  \/ (7 <= version <= 40 /\ 45 <= FormatInfo.height matrix
      /\ exists bits,
           BCH.getBCHVersion version = Ok bits
           /\ FormatInfo.numBitsDiffering (VersionInfo.topRightVersionBits matrix) bits <= 3
           /\ FormatInfo.numBitsDiffering (VersionInfo.bottomLeftVersionBits matrix) bits
              <= 3) ->
  exists v,
    VersionInfo.readVersion matrix = Some v
    /\ nth_error Version.VERSIONS (Z.to_nat (version - 1)) = Some v
    /\ Version.versionNumber v = version.
Proof.
  intros [[Hv Hh]|[Hv [Hh [bits [Hbits [HA HB]]]]]].
  - pose proof small_version_checked as Hchk. rewrite forallb_forall in Hchk.
    specialize (Hchk version ltac:(apply in_zrange; lia)).
    unfold small_version_check in Hchk.
    destruct (nth_error Version.VERSIONS (Z.to_nat (version - 1))) as [v|] eqn:Ev;
      [|discriminate].
    apply Z.eqb_eq in Hchk. exists v.
    unfold VersionInfo.readVersion. cbv zeta. rewrite Hh.
    destruct (Z.leb_spec version 6); [|lia].
    destruct (Z.ltb_spec (version - 1) 0); [lia|]. auto.
  - pose proof version_info_checked as Hchk. rewrite forallb_forall in Hchk.
    specialize (Hchk version ltac:(apply in_zrange; lia)).
    unfold version_info_check in Hchk.
    destruct (nth_error Version.VERSIONS (Z.to_nat (version - 1))) as [v|] eqn:Ev;
      [|discriminate].
    destruct (Version.infoBits v) as [b|] eqn:Eb; [|discriminate].
    rewrite Hbits in Hchk. rewrite !andb_true_iff in Hchk.
    destruct Hchk as [[[[Hbb Hb0] Hb1] Hnum] Hfar].
    apply Z.eqb_eq in Hbb, Hnum. apply Z.leb_le in Hb0. apply Z.ltb_lt in Hb1. subst b.
    pose proof (topRightVersionBits_bound matrix) as HbA.
    pose proof (bottomLeftVersionBits_bound matrix) as HbB.
    exists v. split; [|split; [reflexivity | exact Hnum]].
    unfold VersionInfo.readVersion. cbv zeta.
    destruct (Z.leb_spec ((FormatInfo.height matrix - 17) / 4) 6) as [Hsmall|_].
    { assert (7 <= (FormatInfo.height matrix - 17) / 4)
        by (apply Z.div_le_lower_bound; lia). lia. }
    rewrite <- (firstn_skipn (Z.to_nat (version - 1)) Version.VERSIONS) at 1.
    assert (Hskip : skipn (Z.to_nat (version - 1)) Version.VERSIONS
                    = v :: skipn (S (Z.to_nat (version - 1))) Version.VERSIONS).
    { clear -Ev. revert Ev. generalize (Z.to_nat (version - 1)) as n.
      generalize Version.VERSIONS as l.
      induction l as [|x l IH]; intros [|n] E; try discriminate.
      - injection E as ->. reflexivity.
      - cbn [nth_error] in E. exact (IH n E). }
    rewrite Hskip.
    rewrite forallb_app in Hfar. apply andb_true_iff in Hfar. destruct Hfar as [Hpre Hpost].
    assert (Hconv : forall l,
              forallb (fun e =>
                         let w := match Version.infoBits e with Some w => w | None => 0 end in
                         (0 <=? w) && (w <? 2 ^ 18)
                         && (7 <=? FormatInfo.numBitsDiffering w bits)) l = true ->
              Forall (fun e =>
                        3 < VersionInfo.differing (VersionInfo.topRightVersionBits matrix)
                                                  (Version.infoBits e)
                        /\ 3 < VersionInfo.differing
                                 (VersionInfo.bottomLeftVersionBits matrix)
                                 (Version.infoBits e)) l).
    { intros l Hl. rewrite forallb_forall in Hl. apply Forall_forall. intros e He.
      specialize (Hl e He). cbv zeta in Hl. rewrite !andb_true_iff in Hl.
      destruct Hl as [[Hw0 Hw1] Hw7].
      apply Z.leb_le in Hw0, Hw7. apply Z.ltb_lt in Hw1.
      unfold VersionInfo.differing.
      set (w := match Version.infoBits e with Some w => w | None => 0 end) in *.
      pose proof (numBitsDiffering_triangle18 w (VersionInfo.topRightVersionBits matrix)
                    bits ltac:(lia) HbA ltac:(lia)).
      pose proof (numBitsDiffering_triangle18 w (VersionInfo.bottomLeftVersionBits matrix)
                    bits ltac:(lia) HbB ltac:(lia)).
      lia. }
    apply matchVersion_finds.
    + rewrite Eb, differing_Some. exact HA.
    + rewrite Eb, differing_Some. exact HB.
    + apply Hconv. exact Hpre.
    + apply Hconv. exact Hpost.
    + left. reflexivity.
Qed.

Lemma readVersion_corrects_three_errors_witness :
  match Matrix.makeImpl 7 45 Q false (repeat 0 196) 5 with
  | Ok modules =>
      let matrix :=
        FormatInfo.new
          (concat (map (map (fun c : Matrix.cell =>
                               match c with Some true => 1 | _ => 0 end)) modules)) 45 in
      exists v,
        VersionInfo.readVersion matrix = Some v
        /\ nth_error Version.VERSIONS (Z.to_nat (7 - 1)) = Some v
        /\ Version.versionNumber v = 7
  | Throw _ => False
  end.
Proof.
  vm_compute Matrix.makeImpl. cbv zeta.
  apply (readVersion_corrects_three_errors _ 7). right.
  split; [lia|]. split; [vm_compute; discriminate|].
  exists 0x07c94.
  split; [vm_compute; reflexivity|]. split; vm_compute; discriminate.
Defined.

Lemma zs_eqb_eq : forall l l', zs_eqb l l' = true -> l = l'.
Proof.
  induction l as [|a l IH]; intros [|b l'] H; try discriminate; [reflexivity|].
  cbn [zs_eqb] in H. destruct (Z.eqb_spec a b) as [->|]; [|discriminate].
  f_equal. apply IH. exact H.
Qed.

Lemma alignment_checked : forallb alignment_check (zrange 1 40) = true.
Proof. vm_compute. reflexivity. Qed.

(** X24.  For every version from 1 to 40 but 23, the centres of the
    alignment patterns that the decoder's [VERSIONS] entry lists are those
    that the encoder's [getAlignmentPattern] returns.  For version 23 they
    differ: the encoder has 6, 30, 54, 78, 102 and the decoder 6, 30, 54,
    74, 102. *)
Theorem alignment_centres_agree_but_for_23 (version : Z) :
  1 <= version <= 40 ->
  exists v pos,
    nth_error Version.VERSIONS (Z.to_nat (version - 1)) = Some v
    /\ Version.versionNumber v = version
    /\ getAlignmentPattern version = Some pos
    /\ (version <> 23 -> Version.alignmentPatternCenters v = pos)
    /\ (version = 23 ->
        pos = [6; 30; 54; 78; 102]
        /\ Version.alignmentPatternCenters v = [6; 30; 54; 74; 102]).
Proof.
  intros Hv. pose proof alignment_checked as H. rewrite forallb_forall in H.
  specialize (H version ltac:(apply in_zrange; lia)). unfold alignment_check in H.
  destruct (nth_error Version.VERSIONS (Z.to_nat (version - 1))) as [v|]; [|discriminate].
  destruct (getAlignmentPattern version) as [pos|]; [|discriminate].
  apply andb_true_iff in H. destruct H as [Hn H]. apply Z.eqb_eq in Hn.
  exists v, pos. split; [reflexivity|]. split; [exact Hn|]. split; [reflexivity|].
  destruct (Z.eqb_spec version 23) as [E|NE].
  - apply andb_true_iff in H. destruct H as [H1 H2].
    apply zs_eqb_eq in H1, H2. split; [intros C; contradiction | intros _; auto].
  - apply zs_eqb_eq in H. split; [intros _; symmetry; exact H | intros C; contradiction].
Qed.

Lemma alignment_centres_agree_but_for_23_witness :
  exists v pos,
    nth_error Version.VERSIONS (Z.to_nat (23 - 1)) = Some v
    /\ Version.versionNumber v = 23
    /\ getAlignmentPattern 23 = Some pos
    /\ (23 <> 23 -> Version.alignmentPatternCenters v = pos)
    /\ (23 = 23 ->
        pos = [6; 30; 54; 78; 102]
        /\ Version.alignmentPatternCenters v = [6; 30; 54; 74; 102]).
Proof. apply (alignment_centres_agree_but_for_23 23). lia. Defined.

(** C6.  The format-information table has 32 entries.  For every
    entry and every matrix whose two copies of the format word each
    differ from the entry's 15 bits in at most 3 bits,
    [readFormatInformation] returns the level and the mask of that entry;
    and any two entries of the table with different words differ in at
    least 7 of their 15 bits. *)
Theorem format_entry_survives_three_errors
        (matrix : FormatInfo.BitMatrix) (e : Z * FormatInfo.FormatInfo) :
  In e FormatInfo.FORMAT_INFO_TABLE ->
  popbits 15 (Z.lxor (FormatInfo.topLeftFormatInfoBits matrix) (fst e)) <= 3 ->
  popbits 15 (Z.lxor (FormatInfo.topRightBottomRightFormatInfoBits matrix) (fst e)) <= 3 ->
  length FormatInfo.FORMAT_INFO_TABLE = 32%nat
  /\ FormatInfo.readFormatInformation matrix = Some (snd e)
  /\ forall e', In e' FormatInfo.FORMAT_INFO_TABLE -> fst e' <> fst e ->
       7 <= popbits 15 (Z.lxor (fst e) (fst e')).
Proof.
  intros Hin HA HB.
  pose proof (topLeftFormatInfoBits_bound matrix) as HbA.
  pose proof (topRightBottomRightFormatInfoBits_bound matrix) as HbB.
  destruct (format_table_facts e e Hin Hin) as [Hbe _].
  rewrite <- numBitsDiffering_popbits in HA, HB by assumption.
  split; [reflexivity|]. split.
  - unfold FormatInfo.readFormatInformation.
    apply matchFormat_finds.
    + intros e0 He0 [Hn|Hn].
      * exact (format_near_unique _ e0 e HbA He0 Hin Hn HA).
      * exact (format_near_unique _ e0 e HbB He0 Hin Hn HB).
    + exists e. split; [exact Hin | split; [reflexivity | exact HA]].
    + left. reflexivity.
  - intros e' He' Hne.
    destruct (format_table_facts e e' Hin He') as [_ [E|Hfar]]; [congruence|].
    destruct (format_table_facts e' e He' Hin) as [Hbe' _].
    rewrite numBitsDiffering_popbits in Hfar by assumption. exact Hfar.
Qed.

Lemma format_entry_survives_three_errors_witness :
  match Matrix.makeImpl 2 25 H false (repeat 0 44) 3 with
  | Ok modules =>
      let matrix :=
        FormatInfo.new
          (concat (map (map (fun c : Matrix.cell =>
                               match c with Some true => 1 | _ => 0 end)) modules)) 25 in
      FormatInfo.readFormatInformation matrix = Some (FormatInfo.mkFormatInfo 3 3)
  | Throw _ => False
  end.
Proof.
  vm_compute Matrix.makeImpl. cbv zeta.
  refine (proj1 (proj2 (format_entry_survives_three_errors
                          _ (0x19d0, FormatInfo.mkFormatInfo 3 3) _ _ _))).
  - unfold FormatInfo.FORMAT_INFO_TABLE. cbn [In].
    repeat (first [left; reflexivity | right]).
  - vm_compute. discriminate.
  - vm_compute. discriminate.
Defined.

(** C8.  When half the sum of the two rounded distances plus 7 is 3
    modulo 4, [computeDimension] returns that number as it is, so the
    dimension it returns is 3 modulo 4 and not 1: its switch on
    [dimension % 4] has a case for 0 and a case for 2 only. *)
Theorem computeDimension_keeps_3_mod_4 (topDimension sideDimension : Z) :
  0 <= topDimension -> 0 <= sideDimension ->
  ((topDimension + sideDimension) / 2 + 7) mod 4 = 3 ->
  Locator.computeDimension topDimension sideDimension
  = (topDimension + sideDimension) / 2 + 7
  /\ Locator.computeDimension topDimension sideDimension mod 4 = 3.
Proof.
  intros Ht Hs Hm. unfold Locator.computeDimension. cbv zeta.
  assert (Hr : Z.rem ((topDimension + sideDimension) / 2 + 7) 4 = 3).
  { rewrite Z.rem_mod_nonneg; [exact Hm| |lia].
    assert (0 <= (topDimension + sideDimension) / 2) by (apply Z.div_pos; lia). lia. }
  rewrite Hr. split; [reflexivity | exact Hm].
Qed.

Lemma computeDimension_keeps_3_mod_4_witness :
  Locator.computeDimension 20 20 = (20 + 20) / 2 + 7
  /\ Locator.computeDimension 20 20 mod 4 = 3.
Proof. apply (computeDimension_keeps_3_mod_4 20 20); [lia | lia | reflexivity]. Defined.

(** C9.  For the two bytes of a Shift-JIS code in [0x8140, 0x9FFC] or
    [0xE040, 0xEBBF], whose second byte is 0x40 or more as in every
    two-byte Shift-JIS code, the writer's 13-bit value is mapped back by
    the decoder to exactly these two bytes. *)
Theorem kanji_decode_inverts_encode (b0 b1 : Z) :
  byte b0 -> byte b1 -> 0x40 <= b1 ->
  0x8140 <= b0 * 256 + b1 <= 0x9ffc \/ 0xe040 <= b0 * 256 + b1 <= 0xebbf ->
  exists k,
    kanjiValue b0 b1 = Ok k
    /\ 0 <= k < 2 ^ 13
    /\ Decoder.kanjiBytes k = (b0, b1).
Proof.
  intros H0 H1 Hlo Hr.
  assert (H : kanji_check b0 b1 = true).
  { apply (all_bytes2_spec kanji_check); [vm_compute; reflexivity | exact H0 | exact H1]. }
  unfold kanji_check in H.
  destruct (kanjiValue b0 b1) as [k|e].
  - rewrite !andb_true_iff in H. destruct H as [[[_ Hk0] Hk1] Hb].
    exists k. split; [reflexivity|]. split; [lia|].
    apply orb_true_iff in Hb. destruct Hb as [Hb|Hb]; [lia|].
    apply andb_true_iff in Hb. destruct Hb as [E0 E1].
    apply Z.eqb_eq in E0, E1. destruct (Decoder.kanjiBytes k). simpl in *. congruence.
  - apply negb_true_iff in H. lia.
Qed.

Lemma kanji_decode_inverts_encode_witness :
  exists k,
    kanjiValue 0x93 0xfa = Ok k
    /\ 0 <= k < 2 ^ 13
    /\ Decoder.kanjiBytes k = (0x93, 0xfa).
Proof.
  apply (kanji_decode_inverts_encode 0x93 0xfa);
    [unfold byte; lia | unfold byte; lia | lia | left; lia].
Defined.

(** C10, as amended.  [setVersion] never fails; the version it stores
    is the argument taken modulo 2^32 and cut at 40, so it lies between 0
    and 40, it is 40 when the argument modulo 2^32 is 40 or more, and it is
    the argument modulo 2^32 otherwise; the automatic flag is set exactly
    when 0 is stored. *)
Theorem setVersion_stores_residue_cut_at_40 (this : QRCode.QRCode) (v : Z) :
  let q := QRCode.setVersion this v in
  0 <= QRCode.version q <= 40
  /\ QRCode.autoVersion q = (QRCode.version q =? 0)
  /\ (40 <= v mod 2 ^ 32 /\ QRCode.version q = 40
      \/ v mod 2 ^ 32 < 40 /\ QRCode.version q = v mod 2 ^ 32).
Proof.
  cbv zeta. unfold QRCode.setVersion. cbn [QRCode.version QRCode.autoVersion].
  unfold BitBuffer.ushr. change (0 mod 32) with 0. rewrite !Z.shiftr_0_r.
  pose proof (Z.mod_pos_bound v (2 ^ 32) ltac:(lia)) as Hb.
  split; [lia|]. split; [reflexivity|]. lia.
Qed.

(** The argument -2^32 is negative and stores 0, not 40, and turns the
    automatic version on. *)
Lemma setVersion_negative_stores_0 :
  -4294967296 < 0
  /\ QRCode.version (QRCode.setVersion QRCode.new (-4294967296)) = 0
  /\ QRCode.version (QRCode.setVersion QRCode.new (-4294967296)) <> 40
  /\ QRCode.autoVersion (QRCode.setVersion QRCode.new (-4294967296)) = true.
Proof. repeat split; try reflexivity; try lia. vm_compute. discriminate. Qed.

(** C4.  When the version is chosen and the prepared bits fit it,
    [make] scores each of the eight masks on the matrix that [makeImpl]
    builds for it with the test flag: for every array of codewords
    [getBestMaskPattern] returns a mask from 0 to 7 whose score is the
    least of the eight, the lowest such mask when several have that
    score, and [makeImpl] builds the matrix of that mask without the test
    flag; [make] returns that matrix for the codewords of [createData]. *)
Theorem make_emits_least_penalty_mask
        (SJIS2UTFTable : Z -> option Z) (this : QRCode.QRCode)
        (v : Z) (p : Prepared) :
  QRCode.chooseVersion SJIS2UTFTable this = Ok (v, p) ->
  BitBuffer.getLengthInBits (p_buffer p) <= p_maxDataCount p ->
  let n := v * 4 + 17 in
  let ecl := QRCode.errorCorrectLevel this in
  let chosen :=
    QRCode.mkQRCode v n (QRCode.dataList this) (QRCode.modules this)
                    (QRCode.autoVersion this) ecl in
  let score data i :=
    modules <- Matrix.makeImpl v n ecl true data i ;;
    Penalty.getPenaltyScore n modules in
  (forall data, exists pattern minimum modules,
     QRCode.getBestMaskPattern chosen data = Ok pattern
     /\ 0 <= pattern < 8
     /\ score data pattern = Ok minimum
     /\ (forall i, 0 <= i < 8 ->
           exists s, score data i = Ok s /\ minimum <= s
                     /\ (s = minimum -> pattern <= i))
     /\ Matrix.makeImpl v n ecl false data pattern = Ok modules)
  /\ exists data pattern modules,
       QRCodeData.createData (p_buffer p) (p_rsBlocks p) (p_maxDataCount p) = Ok data
       /\ QRCode.getBestMaskPattern chosen data = Ok pattern
       /\ Matrix.makeImpl v n ecl false data pattern = Ok modules
       /\ QRCode.make SJIS2UTFTable this
          = Ok (QRCode.mkQRCode v n (QRCode.dataList this) modules
                                (QRCode.autoVersion this) ecl).
Proof.
  intros Hc Hfit.
  destruct (chooseVersion_prepared SJIS2UTFTable this v p Hc)
    as [[Hv Hp]|[_ [_ Hover]]]; [|lia].
  cbv zeta.
  assert (Hbest : forall data, exists pattern minimum modules,
     QRCode.getBestMaskPattern
       (QRCode.mkQRCode v (v * 4 + 17) (QRCode.dataList this) (QRCode.modules this)
                        (QRCode.autoVersion this) (QRCode.errorCorrectLevel this)) data
     = Ok pattern
     /\ 0 <= pattern < 8
     /\ maskScore v (v * 4 + 17) (QRCode.errorCorrectLevel this) data pattern = Ok minimum
     /\ (forall i, 0 <= i < 8 ->
           exists s, maskScore v (v * 4 + 17) (QRCode.errorCorrectLevel this) data i = Ok s
                     /\ minimum <= s /\ (s = minimum -> pattern <= i))
     /\ Matrix.makeImpl v (v * 4 + 17) (QRCode.errorCorrectLevel this) false data pattern
        = Ok modules).
  { intros data. unfold QRCode.getBestMaskPattern.
    cbn [QRCode.version QRCode.moduleCount QRCode.errorCorrectLevel QRCode.modules].
    destruct (getBestMaskPattern_best v (QRCode.errorCorrectLevel this) data
                (QRCode.modules this) Hv) as [[[pattern sp] m] [-> [Hpat [Hsp Hall]]]].
    rewrite bind_Ok. cbn [fst].
    destruct (makeImpl_square_full v (QRCode.errorCorrectLevel this) false data pattern
                Hv Hpat) as [modules [E _]].
    exists pattern, sp, modules. auto. }
  split; [exact Hbest|].
  destruct (createData_fits _ _ _ _ _ Hp Hfit) as [data Hdata].
  destruct (Hbest data) as [pattern [minimum [modules [Hg [_ [_ [_ Hm]]]]]]].
  exists data, pattern, modules.
  split; [exact Hdata|]. split; [exact Hg|]. split; [exact Hm|].
  unfold QRCode.make. rewrite Hc, bind_Ok. cbv zeta.
  cbn [QRCode.version QRCode.moduleCount QRCode.errorCorrectLevel QRCode.modules
       QRCode.dataList QRCode.autoVersion].
  rewrite Hdata, bind_Ok, Hg, bind_Ok, Hm, bind_Ok. reflexivity.
Qed.

Lemma make_emits_least_penalty_mask_witness :
  match QRCode.chooseVersion (fun _ => None)
          (QRCode.write QRCode.new (QRByte (repeat 65 20))) with
  | Ok (v, p) =>
      v = 2
      /\ exists data pattern modules,
           QRCodeData.createData (p_buffer p) (p_rsBlocks p) (p_maxDataCount p) = Ok data
           /\ QRCode.getBestMaskPattern
                (QRCode.mkQRCode v (v * 4 + 17) [QRByte (repeat 65 20)] [] true L) data
              = Ok pattern
           /\ Matrix.makeImpl v (v * 4 + 17) L false data pattern = Ok modules
           /\ QRCode.make (fun _ => None) (QRCode.write QRCode.new (QRByte (repeat 65 20)))
              = Ok (QRCode.mkQRCode v (v * 4 + 17) [QRByte (repeat 65 20)] modules true L)
  | Throw _ => False
  end.
Proof.
  destruct (QRCode.chooseVersion (fun _ => None)
              (QRCode.write QRCode.new (QRByte (repeat 65 20)))) as [[v p]|e] eqn:E.
  - split; [vm_compute in E; injection E as Hv _; symmetry; exact Hv|].
    refine (proj2 (make_emits_least_penalty_mask (fun _ => None)
                     (QRCode.write QRCode.new (QRByte (repeat 65 20))) v p E _)).
    vm_compute in E. injection E as _ Hp. subst p. vm_compute. discriminate.
  - vm_compute in E. discriminate E.
Defined.


Section ExplicitVersion.

Variable SJIS2UTFTable : Z -> option Z.





End ExplicitVersion.














Lemma foldM_sum {X : Type} (f : Z -> X -> result Z) (g : X -> Z) (P : X -> Prop) l :
  Forall P l -> (forall s x, P x -> f s x = Ok (s + g x)) ->
  forall s, foldM f l s = Ok (s + zsum (map g l)).
Proof.
  intros Hl Hf. induction Hl as [|x l Hx Hl IH]; intros s.
  - cbn [foldM map zsum fold_right]. f_equal. lia.
  - cbn [foldM map zsum fold_right]. rewrite (Hf s x Hx), bind_Ok, IH.
    f_equal. unfold zsum. lia.
Qed.

Lemma inside_spec n x : inside n x = true <-> 0 <= x < n.
Proof. unfold inside. rewrite andb_true_iff, Z.leb_le, Z.ltb_lt. tauto. Qed.

Lemma outside_inside n x : (x <? 0) || (n <=? x) = negb (inside n x).
Proof.
  unfold inside. destruct (Z.ltb_spec x 0), (Z.leb_spec n x), (Z.leb_spec 0 x),
    (Z.ltb_spec x n); cbn; try reflexivity; lia.
Qed.

Lemma isDark_dark n modules row col :
  square n modules -> 0 <= row < Z.of_nat n -> 0 <= col < Z.of_nat n ->
  Matrix.isDark modules row col = Ok (dark modules row col).
Proof.
  intros [Hlen Hrows] Hr Hc. unfold Matrix.isDark, Matrix.readCell, dark.
  destruct (Z.ltb_spec row 0); [lia|].
  destruct (nth_error modules (Z.to_nat row)) as [r|] eqn:Er.
  2:{ apply nth_error_None in Er. lia. }
  rewrite (nth_error_nth modules (Z.to_nat row) [] Er).
  rewrite Forall_forall in Hrows. specialize (Hrows r (nth_error_In _ _ Er)).
  destruct (Z.ltb_spec col 0); [lia|].
  destruct (nth_error r (Z.to_nat col)) as [c|] eqn:Ec.
  2:{ apply nth_error_None in Ec. lia. }
  rewrite (nth_error_nth r (Z.to_nat col) None Ec). rewrite bind_Ok. reflexivity.
Qed.

Lemma length_filter_sum {A} (p : A -> bool) l :
  Z.of_nat (length (filter p l)) = zsum (map (fun x => Penalty.b2z (p x)) l).
Proof.
  induction l as [|x l IH]; [reflexivity|].
  cbn [filter map zsum fold_right]. fold (zsum (map (fun x => Penalty.b2z (p x)) l)).
  rewrite <- IH. destruct (p x); cbn [length Penalty.b2z]; lia.
Qed.

Lemma filter_filter {A} (p q : A -> bool) l :
  filter p (filter q l) = filter (fun x => q x && p x) l.
Proof.
  induction l as [|x l IH]; [reflexivity|].
  cbn [filter]. destruct (q x); cbn [filter andb]; rewrite IH; reflexivity.
Qed.

Lemma sameCount_sameColour n modules row col :
  square n modules -> 0 <= row < Z.of_nat n -> 0 <= col < Z.of_nat n ->
  Penalty.sameCount (Z.of_nat n) modules row col
  = Ok (sameColour (Z.of_nat n) modules row col).
Proof.
  intros Hsq Hr Hc. unfold Penalty.sameCount.
  rewrite (isDark_dark n modules row col Hsq Hr Hc), bind_Ok.
  set (N := Z.of_nat n) in *. set (dk := dark modules row col).
  set (g := fun r c : Z =>
              Penalty.b2z (inside N (row + r) && inside N (col + c)
                           && negb ((r =? 0) && (c =? 0))
                           && Bool.eqb dk (dark modules (row + r) (col + c)))).
  rewrite (foldM_sum _ (fun r => zsum (map (g r) (zrange (-1) 3))) (fun _ => True)).
  - f_equal. unfold sameColour, neighbours. fold N. fold dk.
    rewrite filter_filter, length_filter_sum.
    change (zrange (-1) 3) with [-1; 0; 1]. subst g.
    cbn [map zsum fold_right fst snd Z.eqb negb andb].
    rewrite ?andb_true_r, ?andb_false_r. cbn [andb Penalty.b2z]. lia.
  - apply Forall_forall. intros; exact I.
  - intros s r _. rewrite outside_inside.
    destruct (inside N (row + r)) eqn:Er; cbn [negb].
    + apply inside_spec in Er.
      apply (foldM_sum _ (g r) (fun _ => True)).
      * apply Forall_forall. intros; exact I.
      * intros s' c _. subst g. cbv beta. rewrite outside_inside.
        rewrite (proj2 (inside_spec N (row + r)) Er).
        destruct (inside N (col + c)) eqn:Ec; cbn [negb andb Penalty.b2z].
        -- destruct ((r =? 0) && (c =? 0)); cbn [negb andb Penalty.b2z].
           ++ f_equal. lia.
           ++ apply inside_spec in Ec.
              rewrite (isDark_dark n modules (row + r) (col + c) Hsq Er Ec), bind_Ok.
              destruct (Bool.eqb dk (dark modules (row + r) (col + c)));
                cbn [Penalty.b2z]; f_equal; lia.
        -- f_equal. lia.
    + f_equal. change (zrange (-1) 3) with [-1; 0; 1]. subst g.
      cbn [map zsum fold_right]. rewrite Er. cbn [andb Penalty.b2z]. lia.
Qed.

Lemma sameColour_bound n modules row col : 0 <= sameColour n modules row col <= 8.
Proof.
  unfold sameColour. split; [lia|].
  match goal with
  | |- Z.of_nat (length (filter ?p ?l)) <= 8 =>
      pose proof (filter_length_le p l) as H1
  end.
  unfold neighbours in *.
  match type of H1 with
  | (_ <= length (filter ?q ?l))%nat => pose proof (filter_length_le q l) as H2
  end.
  rewrite length_map in H2. cbn [length] in H2. lia.
Qed.

(** C5, as amended.  For a matrix of [n] rows of [n] modules, rule 1
    of [getPenaltyScore] adds to the score, for every module, 3 + k - 5
    when the number k of the modules around it in its 3 x 3 window (at
    most eight, those inside the matrix) that have its colour is more
    than 5, and nothing otherwise; so a module adds at most 6.  Runs of
    modules along a row or a column are not looked at. *)
Theorem rule1_counts_window_neighbours (n : nat) (modules : Matrix.Modules) (score : Z) :
  square n modules ->
  Penalty.rule1 (Z.of_nat n) modules score
  = Ok (score
        + zsum (map (fun row =>
                       zsum (map (fun col =>
                                    windowPenalty
                                      (sameColour (Z.of_nat n) modules row col))
                                 (zrange 0 n)))
                    (zrange 0 n)))
  /\ forall row col,
       0 <= sameColour (Z.of_nat n) modules row col <= 8
       /\ 0 <= windowPenalty (sameColour (Z.of_nat n) modules row col) <= 6.
Proof.
  intros Hsq. split.
  - unfold Penalty.rule1. rewrite Nat2Z.id.
    apply (foldM_sum _ _ _ _ (zrange_Forall 0 n)).
    intros s row Hrow. cbv beta in Hrow.
    apply (foldM_sum _ _ _ _ (zrange_Forall 0 n)).
    intros s' col Hcol. cbv beta in Hcol.
    rewrite (sameCount_sameColour n modules row col Hsq ltac:(lia) ltac:(lia)), bind_Ok.
    unfold windowPenalty.
    destruct (sameColour (Z.of_nat n) modules row col >? 5); f_equal; lia.
  - intros row col. pose proof (sameColour_bound (Z.of_nat n) modules row col) as Hb.
    split; [exact Hb|]. unfold windowPenalty.
    destruct (Z.gtb_spec (sameColour (Z.of_nat n) modules row col) 5); lia.
Qed.

Lemma rule1_counts_window_neighbours_witness :
  Penalty.rule1 5 stripes_5 0 = Ok 0.
Proof.
  pose proof (rule1_counts_window_neighbours 5 stripes_5 0) as H.
  destruct H as [H _].
  - split; [reflexivity|]. repeat constructor.
  - exact H.
Defined.

(** In a matrix of six rows of six dark modules every row and every
    column is one run of six, for which the rule of the runs gives
    12 * 4 = 48, while rule 1 of [getPenaltyScore] gives 96.  In a matrix
    of five rows of five modules, dark and light rows in turn, every row
    is a run of five, for which the rule of the runs gives 15, while
    rule 1 of [getPenaltyScore] gives 0. *)
Lemma rule1_is_not_the_rule_of_runs :
  Penalty.rule1 6 all_dark_6 0 = Ok 96
  /\ rule1_runs 6 all_dark_6 = 48
  /\ Penalty.rule1 5 stripes_5 0 = Ok 0
  /\ rule1_runs 5 stripes_5 = 15.
Proof. repeat split; vm_compute; reflexivity. Qed.
